(** * ScribeAI: session ingestion, finalization and the client recorder machine

    A shallow embedding of
    - [src/unnamed/part_004]  (types/session.ts: the shared client types),
    - [src/unnamed/part_001]  (hooks/useRecorderMachine.ts: the XState recorder),
    - [src/lib/gemini.ts]     (the transcription and summarization gateways),
    - [src/server/index.ts]   (the Socket.io session server),
    - [src/unnamed/part_000]  (the migration: tables, unique indexes, foreign keys),
    - [src/unnamed/part_003]  (the routes GET and DELETE /api/sessions/[id]),
    - [src/app/sessions/page.tsx] (the controls of the sessions page),
    together with the properties the specification states about them and
    further properties of the code. *)

From Stdlib Require Import ZArith QArith Ascii String.
From stdpp Require Import gmap strings list sorting.

Set Warnings "-register-all".
Local Open Scope Z_scope.

(** ** JavaScript built-ins used by the sources *)

Module Js.

Section Arrays.
Context {A : Type}.

(** [Array.prototype.findIndex]: the first index whose element satisfies
    the predicate, [-1] when there is none. *)
Fixpoint findIndex (p : A -> bool) (l : list A) : Z :=
  match l with
  | [] => -1
  | x :: l' =>
      if p x then 0
      else let i := findIndex p l' in if decide (0 <= i) then i + 1 else -1
  end.

(** One pass of a stable insertion: [x] stood before every element of
    [l], so it stays in front of the elements it ties with. *)
Fixpoint insert_by (cmp : A -> A -> Z) (x : A) (l : list A) : list A :=
  match l with
  | [] => [x]
  | y :: l' => if decide (cmp x y <= 0) then x :: l else y :: insert_by cmp x l'
  end.

(** [Array.prototype.sort] with a comparator. The language requires the
    sort to be stable; for a consistent comparator every stable sort
    returns this list. *)
Definition sort (cmp : A -> A -> Z) (l : list A) : list A :=
  foldr (insert_by cmp) [] l.
End Arrays.

(** A string is held as the UTF-8 encoding of its text, as the literals
    of this file are: a character of the Basic Latin block is one
    element, every other character a sequence of two to four elements.
    [nl] is the line feed and [dq] the double quote. *)
Definition nl : string := String "010"%char EmptyString.
Definition dq : string := String "034"%char EmptyString.

(** U+00A0, U+2028 and U+FEFF, as they are encoded. *)
Definition no_break_space : string :=
  String "194"%char (String "160"%char EmptyString).
Definition line_separator : string :=
  String "226"%char (String "128"%char (String "168"%char EmptyString)).
Definition byte_order_mark : string :=
  String "239"%char (String "187"%char (String "191"%char EmptyString)).

(** Truthiness of a string: every string but the empty one. *)
Definition truthy_string (s : string) : bool :=
  match s with EmptyString => false | _ => true end.

(** [Array.prototype.join]: [undefined] and [null] elements print as the
    empty string. *)
Fixpoint join (sep : string) (l : list (option string)) : string :=
  match l with
  | [] => EmptyString
  | [x] => default EmptyString x
  | x :: l' => default EmptyString x +:+ sep +:+ join sep l'
  end.

(** [String.prototype.indexOf] and [lastIndexOf] for a needle of one
    Basic Latin character: [-1] when the character does not occur.
    Positions count elements here and code units in the language; the
    sources use them for nothing but to cut the text at them with
    [slice], which comes to the same text in either counting. *)
Fixpoint indexOf (c : ascii) (s : string) : Z :=
  match s with
  | EmptyString => -1
  | String a s' =>
      if Ascii.eqb a c then 0
      else let i := indexOf c s' in if decide (0 <= i) then i + 1 else -1
  end.

Fixpoint lastIndexOf (c : ascii) (s : string) : Z :=
  match s with
  | EmptyString => -1
  | String a s' =>
      let i := lastIndexOf c s' in
      if decide (0 <= i) then i + 1
      else if Ascii.eqb a c then 0 else -1
  end.

(** [String.prototype.slice]: negative positions count from the end,
    positions are clamped to the string, an empty range gives the empty
    string. *)
Definition slice (s : string) (start finish : Z) : string :=
  let len := Z.of_nat (String.length s) in
  let clamp i := if decide (i < 0) then Z.max (len + i) 0 else Z.min i len in
  let from := clamp start in
  let to := clamp finish in
  String.substring (Z.to_nat from) (Z.to_nat (Z.max (to - from) 0)) s.

(** The code of an element. *)
Definition code (a : ascii) : N := N_of_ascii a.

(** The rest of a string after one line terminator at its front: U+000A,
    U+000D, U+2028 and U+2029. *)
Definition line_terminator_prefix (s : string) : option string :=
  match s with
  | String a s1 =>
      let x := code a in
      if ((x =? 10) || (x =? 13))%N then Some s1
      else
        match s1 with
        | String b (String c s3) =>
            let y := code b in
            let z := code c in
            if ((x =? 226) && (y =? 128) && ((z =? 168) || (z =? 169)))%N
            then Some s3 else None
        | _ => None
        end
  | EmptyString => None
  end.

(** The rest of a string after one character at its front that is white
    space or a line terminator, which is what [trim] removes and what
    [\s] matches: U+0009 to U+000D, U+0020, U+00A0, U+1680, U+2000 to
    U+200A, U+2028, U+2029, U+202F, U+205F, U+3000 and U+FEFF. *)
Definition space_prefix (s : string) : option string :=
  match s with
  | String a s1 =>
      let x := code a in
      if ((9 <=? x) && (x <=? 13) || (x =? 32))%N then Some s1
      else
        match s1 with
        | String b s2 =>
            let y := code b in
            if ((x =? 194) && (y =? 160))%N then Some s2
            else
              match s2 with
              | String c s3 =>
                  let z := code c in
                  if ((x =? 225) && (y =? 154) && (z =? 128)
                      || (x =? 226) && (y =? 128)
                         && ((128 <=? z) && (z <=? 138)
                             || (z =? 168) || (z =? 169) || (z =? 175))
                      || (x =? 226) && (y =? 129) && (z =? 159)
                      || (x =? 227) && (y =? 128) && (z =? 128)
                      || (x =? 239) && (y =? 187) && (z =? 191))%N
                  then Some s3 else None
              | EmptyString => None
              end
        | EmptyString => None
        end
  | EmptyString => None
  end.

(** [String.prototype.trimStart]: the characters [space_prefix] finds are
    taken off the front one by one; the string has no more of them than
    it has elements. *)
Fixpoint trimStart_upto (n : nat) (s : string) : string :=
  match n with
  | O => s
  | S n' =>
      match space_prefix s with
      | Some rest => trimStart_upto n' rest
      | None => s
      end
  end.

Definition trimStart (s : string) : string := trimStart_upto (String.length s) s.

(** [String.prototype.trimEnd]: the end of the string is trimmed first;
    when what is then left from an element on is one white space
    character, that goes too. *)
Fixpoint trimEnd (s : string) : string :=
  match s with
  | EmptyString => EmptyString
  | String a s' =>
      match space_prefix (String a (trimEnd s')) with
      | Some EmptyString => EmptyString
      | _ => String a (trimEnd s')
      end
  end.

(** [String.prototype.trim]. *)
Definition trim (s : string) : string := trimEnd (trimStart s).

End Js.

(** ** Client types ([src/unnamed/part_004]) *)

Inductive RecordingSource := MIC | TAB.

Record TranscriptUpdate := mkTranscriptUpdate {
  tu_sessionId : string;
  tu_sequence : Z;
  tu_text : string;
  tu_speakerTag : string;
  tu_confidence : option Q
}.

Record SessionSummary := mkSessionSummary {
  keyPoints : string;
  actionItems : string;
  decisions : string
}.

(** ** The client recorder machine ([src/unnamed/part_001]) *)

Module Recorder.

Record RecorderContext := mkContext {
  sessionId : option string;
  source : RecordingSource;
  transcript : list TranscriptUpdate;
  summary : option SessionSummary;
  error : option string
}.

Inductive RecorderEvent :=
| START (sessionId : string) (source : RecordingSource)
| PAUSE
| RESUME
| STOP
| RESET
| TRANSCRIPT (update : TranscriptUpdate)
| SUMMARY (summary : SessionSummary)
| ERROR (error : string)
| SET_SOURCE (source : RecordingSource).

Inductive RecorderState :=
| idle | recording | paused | processing | completed | failed.

Definition defaultContext : RecorderContext :=
  {| sessionId := None; source := MIC; transcript := [];
     summary := None; error := None |}.

(** The [assign] of the TRANSCRIPT transition of state [recording]. *)
Definition transcript_action (context : RecorderContext)
    (update : TranscriptUpdate) : list TranscriptUpdate :=
  let existingIndex :=
    Js.findIndex (fun chunk => bool_decide (tu_sequence chunk = tu_sequence update))
                 (transcript context) in
  if decide (0 <= existingIndex) then
    <[Z.to_nat existingIndex := update]> (transcript context)
  else
    Js.sort (fun a b => tu_sequence a - tu_sequence b)
            (transcript context ++ [update]).

Definition set_error (context : RecorderContext) (e : string) : RecorderContext :=
  {| sessionId := sessionId context; source := source context;
     transcript := transcript context; summary := summary context;
     error := Some e |}.

(** [assign(() => defaultContext)]: [assign] merges what its function
    returns into the context. [defaultContext] has the keys [source] and
    [transcript] and no other, so these two are set and the session id,
    the summary and the error stay as they are. *)
Definition assign_defaultContext (context : RecorderContext) : RecorderContext :=
  {| sessionId := sessionId context; source := source defaultContext;
     transcript := transcript defaultContext; summary := summary context;
     error := error context |}.

(** The machine's transition function. An event a state does not list in
    its [on] table is dropped: state and context stay as they are. *)
Definition transition (s : RecorderState * RecorderContext) (ev : RecorderEvent)
    : RecorderState * RecorderContext :=
  let '(state, context) := s in
  match state, ev with
  | idle, SET_SOURCE src =>
      (idle, {| sessionId := sessionId context; source := src;
                transcript := transcript context; summary := summary context;
                error := error context |})
  | idle, START sid src =>
      (recording, {| sessionId := Some sid; source := src; transcript := [];
                     summary := None; error := None |})
  | recording, TRANSCRIPT update =>
      (recording, {| sessionId := sessionId context; source := source context;
                     transcript := transcript_action context update;
                     summary := summary context; error := error context |})
  | recording, PAUSE => (paused, context)
  | recording, STOP => (processing, context)
  | recording, ERROR e => (failed, set_error context e)
  | paused, RESUME => (recording, context)
  | paused, STOP => (processing, context)
  | paused, ERROR e => (failed, set_error context e)
  | processing, SUMMARY sm =>
      (completed, {| sessionId := sessionId context; source := source context;
                     transcript := transcript context; summary := Some sm;
                     error := error context |})
  | processing, ERROR e => (failed, set_error context e)
  | completed, RESET => (idle, assign_defaultContext context)
  | failed, RESET => (idle, assign_defaultContext context)
  | _, _ => (state, context)
  end.

Definition initial : RecorderState * RecorderContext := (idle, defaultContext).

(** The machine after a whole list of events, oldest first. *)
Definition run (evs : list RecorderEvent) : RecorderState * RecorderContext :=
  foldl transition initial evs.

(** Ascending order without repeats, on the sequence numbers. *)
Definition seq_lt (a b : TranscriptUpdate) : Prop := tu_sequence a < tu_sequence b.
Definition seq_le (a b : TranscriptUpdate) : Prop := tu_sequence a <= tu_sequence b.

End Recorder.

(** ** How an awaited call ends *)

Module Promise.

(** What a rejected promise carries. *)
Inductive Exn :=
| RecordNotFound          (* update of a row that does not exist *)
| UniqueViolation         (* a unique index refused the write *)
| ForeignKeyViolation     (* a foreign key refused the write *)
| ValidationFailure       (* the client refused the arguments of a call *)
| DatabaseFault           (* the database failed a statement or the commit *)
| GeminiNotConfigured     (* no API key: the model objects are undefined *)
| GeminiCallFailed.       (* generateContent rejected or gave no text *)

Inductive Completion (A : Type) :=
| Returned (a : A)
| Thrown (e : Exn).
Arguments Returned {A} a.
Arguments Thrown {A} e.

End Promise.

(** ** Values decoded from JSON *)

Module Json.

Inductive JsValue :=
| JNull
| JBool (b : bool)
| JNumber (q : Q)
| JString (s : string)
| JArray (items : list JsValue)
| JObject (fields : list (string * JsValue)).

(** Truthiness, as [if (v)] tests it. *)
Definition truthy (v : JsValue) : bool :=
  match v with
  | JNull => false
  | JBool b => b
  | JNumber q => negb (Qeq_bool q 0)
  | JString s => Js.truthy_string s
  | JArray _ | JObject _ => true
  end.

(** Property read on an object; a parsed object has no repeated key. *)
Fixpoint get (k : string) (fields : list (string * JsValue)) : option JsValue :=
  match fields with
  | [] => None
  | (k', v) :: rest => if String.eqb k k' then Some v else get k rest
  end.

End Json.

(** ** The database behind the Prisma client ([src/unnamed/part_000]) *)

Module Prisma.
Import Promise.

Inductive SessionStatus :=
| PENDING | RECORDING | PAUSED | PROCESSING | COMPLETED | FAILED.

Record Session := mkSession {
  s_userId : string;
  s_status : SessionStatus;
  s_source : RecordingSource;
  s_endedAt : option Z
}.

Record TranscriptChunk := mkTranscriptChunk {
  c_sessionId : string;
  c_sequence : Z;
  c_speakerTag : string;
  c_text : string;
  c_startedAt : Z;
  c_endedAt : Z;
  c_confidence : option Q
}.

Record Summary := mkSummary {
  sm_sessionId : string;
  sm_keyPoints : string;
  sm_actionItems : string;
  sm_decisions : string
}.

(** Users and sessions are keyed by their primary key. The two tables the
    finalization writes are kept as row lists, so that a duplicate row is
    something the model can express. *)
Record Db := mkDb {
  users : gmap string string;
  sessions : gmap string Session;
  transcriptChunks : list TranscriptChunk;
  summaries : list Summary
}.

Definition empty : Db :=
  {| users := ∅; sessions := ∅; transcriptChunks := []; summaries := [] |}.

Definition with_users (d : Db) (u : gmap string string) : Db :=
  {| users := u; sessions := sessions d;
     transcriptChunks := transcriptChunks d; summaries := summaries d |}.
Definition with_sessions (d : Db) (m : gmap string Session) : Db :=
  {| users := users d; sessions := m;
     transcriptChunks := transcriptChunks d; summaries := summaries d |}.
Definition with_transcriptChunks (d : Db) (l : list TranscriptChunk) : Db :=
  {| users := users d; sessions := sessions d;
     transcriptChunks := l; summaries := summaries d |}.
Definition with_summaries (d : Db) (l : list Summary) : Db :=
  {| users := users d; sessions := sessions d;
     transcriptChunks := transcriptChunks d; summaries := l |}.

Definition set_status (st : SessionStatus) (s : Session) : Session :=
  {| s_userId := s_userId s; s_status := st; s_source := s_source s;
     s_endedAt := s_endedAt s |}.

Definition set_status_ended (st : SessionStatus) (now : Z) (s : Session) : Session :=
  {| s_userId := s_userId s; s_status := st; s_source := s_source s;
     s_endedAt := Some now |}.

(** [user.upsert] by id; [User.email] carries a unique index. *)
Definition user_upsert (id email : string) (d : Db) : Completion Db :=
  if bool_decide (map_Forall (fun id' email' => id' = id \/ email' <> email) (users d))
  then Returned (with_users d (<[id := email]> (users d)))
  else Thrown UniqueViolation.

(** [session.upsert] as [session:start] calls it: the update branch only
    sets the status. *)
Definition session_upsert (id userId : string) (st : SessionStatus)
    (src : RecordingSource) (d : Db) : Completion Db :=
  match sessions d !! id with
  | Some s => Returned (with_sessions d (<[id := set_status st s]> (sessions d)))
  | None =>
      Returned (with_sessions d
        (<[id := {| s_userId := userId; s_status := st; s_source := src;
                    s_endedAt := None |}]> (sessions d)))
  end.

(** [session.update]: rejects when no row has the id. *)
Definition session_update (id : string) (f : Session -> Session) (d : Db)
    : Completion Db :=
  match sessions d !! id with
  | Some s => Returned (with_sessions d (<[id := f s]> (sessions d)))
  | None => Thrown RecordNotFound
  end.

Definition chunk_key (sid : string) (seq : Z) (r : TranscriptChunk) : bool :=
  String.eqb (c_sessionId r) sid && Z.eqb (c_sequence r) seq.

(** [transcriptChunk.upsert] on the unique pair (sessionId, sequence). The
    update branch writes text, speaker tag and confidence only; an
    [undefined] confidence leaves the stored one as it is. *)
Fixpoint chunk_upsert_rows (create : TranscriptChunk)
    (rows : list TranscriptChunk) : list TranscriptChunk :=
  match rows with
  | [] => [create]
  | r :: rows' =>
      if chunk_key (c_sessionId create) (c_sequence create) r then
        {| c_sessionId := c_sessionId r; c_sequence := c_sequence r;
           c_speakerTag := c_speakerTag create; c_text := c_text create;
           c_startedAt := c_startedAt r; c_endedAt := c_endedAt r;
           c_confidence := match c_confidence create with
                           | Some q => Some q
                           | None => c_confidence r
                           end |} :: rows'
      else r :: chunk_upsert_rows create rows'
  end.

Definition transcriptChunk_upsert (create : TranscriptChunk) (d : Db) : Db :=
  with_transcriptChunks d (chunk_upsert_rows create (transcriptChunks d)).

(** [summary.upsert] on the unique sessionId, for data that keep the
    session id of the [where]: the row found takes the columns of
    [create]; when there is none, [create] is inserted. *)
Fixpoint summary_upsert_rows (create : Summary) (rows : list Summary)
    : list Summary :=
  match rows with
  | [] => [create]
  | r :: rows' =>
      if String.eqb (sm_sessionId r) (sm_sessionId create) then create :: rows'
      else r :: summary_upsert_rows create rows'
  end.

(** The same for data that may name another session: the row found under
    [sessionId] takes the columns of [create], its session id among
    them. *)
Fixpoint summary_rows_at (sessionId : string) (create : Summary)
    (rows : list Summary) : list Summary :=
  match rows with
  | [] => [create]
  | r :: rows' =>
      if String.eqb (sm_sessionId r) sessionId then create :: rows'
      else r :: summary_rows_at sessionId create rows'
  end.

Definition summary_under (sessionId : string) (rows : list Summary) : bool :=
  existsb (fun r => String.eqb (sm_sessionId r) sessionId) rows.

(** [summary.upsert({ where: { sessionId }, update, create })], with
    [create] the columns of the data. A row that keeps its session id is
    updated as it is. A row that is inserted, or gets another session
    id, needs the session of that id, by the foreign key, and no other
    row under it, by the unique index. *)
Definition summary_upsert_at (sessionId : string) (create : Summary) (d : Db)
    : Completion Db :=
  let written := with_summaries d (summary_rows_at sessionId create (summaries d)) in
  if summary_under sessionId (summaries d)
     && String.eqb (sm_sessionId create) sessionId
  then Returned written
  else if bool_decide (sessions d !! sm_sessionId create = None)
  then Thrown ForeignKeyViolation
  else if negb (String.eqb (sm_sessionId create) sessionId)
          && summary_under (sm_sessionId create) (summaries d)
  then Thrown UniqueViolation
  else Returned written.

(** The fields the data of [summary.upsert] may carry beside the three
    texts: the other columns of the table, each as a string. *)
Definition summary_optional (name : string) : bool :=
  String.eqb name "id" || String.eqb name "sessionId"
  || String.eqb name "createdAt".

Definition summary_text (name : string) : bool :=
  String.eqb name "keyPoints" || String.eqb name "actionItems"
  || String.eqb name "decisions".

Definition is_string (v : Json.JsValue) : bool :=
  match v with Json.JString _ => true | _ => false end.

(** The columns of the value spread into [create: { sessionId, ...summary }]
    and passed as [update], when the client accepts it: the three texts
    are there, as strings, and every other field is a column of the
    table with a string for its value. A [sessionId] of the value comes
    after the handler's in the spread and takes its place. The columns
    [id] and [createdAt] are not kept in the rows here: an [id] that
    another row has and a [createdAt] that is no date make the statement
    fail, which is one of the failures of the database a stop is run
    with ([fault] in [Server], [fails] in [Live]). *)
Definition summary_columns (sid : string) (v : Json.JsValue) : option Summary :=
  match v with
  | Json.JObject fields =>
      match Json.get "keyPoints" fields, Json.get "actionItems" fields,
            Json.get "decisions" fields with
      | Some (Json.JString k), Some (Json.JString a), Some (Json.JString dc) =>
          if forallb (fun field =>
                        summary_text field.1
                        || summary_optional field.1 && is_string field.2) fields
          then Some {| sm_sessionId :=
                         match Json.get "sessionId" fields with
                         | Some (Json.JString other) => other
                         | _ => sid
                         end;
                       sm_keyPoints := k;
                       sm_actionItems := a; sm_decisions := dc |}
          else None
      | _, _, _ => None
      end
  | _ => None
  end.

End Prisma.

(** ** The gateways to the generative model ([src/lib/gemini.ts]) *)

Module Gemini.
Import Promise Json Prisma.

(** What one [generateContent] call comes to: the promise rejects (or
    reading the text throws), the response is there without a text, or the
    text is returned. *)
Inductive GenerateResult :=
| GenRejects
| GenNoResponse
| GenText (text : string).

(** A model object, seen through one call: the request it is given decides
    the result. [None] stands for the [undefined] model of a process
    started without an API key. *)
Definition SummaryModel := option (string -> GenerateResult).
Definition TranscriptModel := option (string -> string -> GenerateResult).

Definition summary_prompt (transcript : string) : string :=
  "Please analyze the following meeting transcript and provide a structured summary with the following sections:" +:+ Js.nl +:+
  "  - Key points discussed" +:+ Js.nl +:+
  "  - Action items with owners (if any)" +:+ Js.nl +:+
  "  - Decisions made" +:+ Js.nl +:+ Js.nl +:+
  "Format the response as a JSON object with these exact keys:" +:+ Js.nl +:+
  "{" +:+ Js.nl +:+
  "  " +:+ Js.dq +:+ "keyPoints" +:+ Js.dq +:+ ": " +:+ Js.dq +:+ "..." +:+ Js.dq +:+ "," +:+ Js.nl +:+
  "  " +:+ Js.dq +:+ "actionItems" +:+ Js.dq +:+ ": " +:+ Js.dq +:+ "..." +:+ Js.dq +:+ "," +:+ Js.nl +:+
  "  " +:+ Js.dq +:+ "decisions" +:+ Js.dq +:+ ": " +:+ Js.dq +:+ "..." +:+ Js.dq +:+ Js.nl +:+
  "}" +:+ Js.nl +:+ Js.nl +:+
  "Transcript:" +:+ Js.nl +:+ transcript.

(** The object of the [catch] branch of [summarizeTranscript]. *)
Definition fallback_summary (text : string) : JsValue :=
  JObject [("keyPoints", JString text);
           ("actionItems", JString "Could not extract action items");
           ("decisions", JString "Could not extract decisions")].

Section Summarize.
(** [JSON.parse], with [None] for a thrown [SyntaxError]. *)
Variable JSON_parse : string -> option JsValue.

(** The [try] block: cut the text from its first opening brace to its
    last closing brace and parse that. *)
Definition parse_summary (text : string) : JsValue :=
  let startIdx := Js.indexOf "{"%char text in
  let endIdx := Js.lastIndexOf "}"%char text + 1 in
  let jsonStr := Js.slice text startIdx endIdx in
  match JSON_parse jsonStr with
  | Some v => v                       (* cast to GeminiSummary, unchecked *)
  | None => fallback_summary text
  end.

Definition summarizeTranscript (summaryModel : SummaryModel)
    (transcript : string) : Completion JsValue :=
  match summaryModel with
  | None => Thrown GeminiNotConfigured
  | Some generateContent =>
      match generateContent (summary_prompt transcript) with
      | GenText text => Returned (parse_summary text)
      | GenRejects | GenNoResponse => Thrown GeminiCallFailed
      end
  end.
End Summarize.

Record Transcription := mkTranscription {
  t_text : string;
  t_speakerTag : string;
  t_confidence : option Q
}.

(** The text before the first occurrence of [c], and the text after it. *)
Fixpoint split_at (c : ascii) (s : string) : option (string * string) :=
  match s with
  | EmptyString => None
  | String a s' =>
      if Ascii.eqb a c then Some (EmptyString, s')
      else match split_at c s' with
           | Some (pre, post) => Some (String a pre, post)
           | None => None
           end
  end.

(** A line terminator somewhere in the string: what [.] does not match. *)
Fixpoint has_line_terminator (s : string) : bool :=
  match s with
  | EmptyString => false
  | String a s' =>
      match Js.line_terminator_prefix s with
      | Some _ => true
      | None => has_line_terminator s'
      end
  end.

(** The last character of a string of white space. *)
Fixpoint last_space_upto (n : nat) (s : string) : option string :=
  match n with
  | O => None
  | S n' =>
      match Js.space_prefix s with
      | Some EmptyString => Some s
      | Some rest => last_space_upto n' rest
      | None => None
      end
  end.

Definition last_space (s : string) : option string :=
  last_space_upto (String.length s) s.

(** The match of [/^\[([^\]]+)\]:\s*(.+)$/]: the two groups, when the text
    has the shape. The white space after the colon is taken greedily and
    given back one character when nothing else is left for the second
    group; the second group holds no line terminator. *)
Definition speakerMatch (text : string) : option (string * string) :=
  match text with
  | String "["%char rest =>
      match split_at "]"%char rest with
      | Some (String a g1, String ":"%char after) =>
          match Js.trimStart after with
          | EmptyString =>
              match last_space after with
              | Some g2 => if has_line_terminator g2 then None
                           else Some (String a g1, g2)
              | None => None
              end
          | g2 => if has_line_terminator g2 then None else Some (String a g1, g2)
          end
      | _ => None
      end
  | _ => None
  end.

(** The empty transcription of the [catch] branch. *)
Definition empty_transcription : Transcription :=
  {| t_text := EmptyString; t_speakerTag := "speaker"; t_confidence := Some 0%Q |}.

Definition transcribeAudio (transcriptModel : TranscriptModel)
    (audioBase64 mimeType : string) : Completion Transcription :=
  match transcriptModel with
  | None => Thrown GeminiNotConfigured
  | Some generateContent =>
      let mime := if Js.truthy_string mimeType then mimeType else "audio/webm" in
      match generateContent audioBase64 mime with
      | GenRejects => Returned empty_transcription
      | (GenNoResponse | GenText _) as r =>
          let text := match r with GenText t => t | _ => EmptyString end in
          match speakerMatch text with
          | Some (g1, g2) =>
              Returned {| t_text := Js.trim g2; t_speakerTag := Js.trim g1;
                          t_confidence := Some (85 # 100)%Q |}
          | None =>
              Returned {| t_text := Js.trim text; t_speakerTag := "speaker";
                          t_confidence := Some (8 # 10)%Q |}
          end
      end
  end.

End Gemini.

(** ** The session server ([src/server/index.ts])

    The handlers are taken one event at a time: a handler runs from its
    event to its end before the next event is looked at. The one wait that
    is kept as a step of its own is the chunk handler's wait for
    [transcribeAudio], during which other events are handled; the waits
    of the stop handler are taken one by one in [Live] below. Outside the
    finalization transaction the database is taken to answer; an update
    of a missing row is the one failure it has there. *)

Module Server.
Import Promise Json Prisma.

(** The result of [schema.safeParse]. *)
Inductive SafeParse (A : Type) :=
| Failure
| Success (data : A).
Arguments Failure {A}.
Arguments Success {A} data.

(** Data [startSchema] accepts. *)
Record StartPayload := mkStartPayload {
  start_sessionId : string;
  userId : string;
  userEmail : string;
  source : RecordingSource
}.

(** Data [chunkSchema] accepts; [speakerTag] has its default filled in. *)
Record ChunkPayload := mkChunkPayload {
  sessionId : string;
  sequence : Z;
  startedAt : Z;
  endedAt : Z;
  speakerTag : string;
  audio : string;
  text : option string;
  confidence : option Q
}.

(** What [chunkSchema] checks beyond the field types. *)
Definition chunkSchema_range (p : ChunkPayload) : Prop :=
  0 <= sequence p /\ (10 <= String.length (audio p))%nat.

Inductive Target :=
| ToSocket (socket : nat)        (* socket.emit *)
| ToRoom (room : string).        (* io.to(room).emit *)

Inductive ErrorText :=
| ZodIssues                      (* parsed.error.message *)
| Text (message : string).

Inductive Message :=
| session_error (message : ErrorText) (error : option Exn)
| session_ack (sessionId : string) (status : SessionStatus)
| transcription_update (sessionId : string) (sequence : Z) (text : string)
    (speakerTag : string) (confidence : option Q)
| session_status (status : SessionStatus) (summary : option JsValue).

(** Calls into the gateways, as the handlers make them. *)
Inductive GatewayCall :=
| CallTranscribe (audioBase64 mimeType : string)
| CallSummarize (transcript : string).

(** The process: the payload objects ([heap], an object is its index), the
    module-level [buffer] whose arrays hold references to them, the chunk
    handlers waiting for their transcription, the database, the socket
    rooms, and what was sent and called so far, oldest first. *)
Record World := mkWorld {
  heap : list ChunkPayload;
  buffer : gmap string (list nat);
  inflight : list nat;
  db : Db;
  rooms : list (nat * string);
  sent : list (Target * Message);
  calls : list GatewayCall
}.

Definition initial : World :=
  {| heap := []; buffer := ∅; inflight := []; db := Prisma.empty;
     rooms := []; sent := []; calls := [] |}.

Definition with_heap (w : World) (h : list ChunkPayload) : World :=
  {| heap := h; buffer := buffer w; inflight := inflight w; db := db w;
     rooms := rooms w; sent := sent w; calls := calls w |}.
Definition with_buffer (w : World) (b : gmap string (list nat)) : World :=
  {| heap := heap w; buffer := b; inflight := inflight w; db := db w;
     rooms := rooms w; sent := sent w; calls := calls w |}.
Definition with_inflight (w : World) (l : list nat) : World :=
  {| heap := heap w; buffer := buffer w; inflight := l; db := db w;
     rooms := rooms w; sent := sent w; calls := calls w |}.
Definition with_db (w : World) (d : Db) : World :=
  {| heap := heap w; buffer := buffer w; inflight := inflight w; db := d;
     rooms := rooms w; sent := sent w; calls := calls w |}.
Definition with_rooms (w : World) (r : list (nat * string)) : World :=
  {| heap := heap w; buffer := buffer w; inflight := inflight w; db := db w;
     rooms := r; sent := sent w; calls := calls w |}.
Definition with_sent (w : World) (l : list (Target * Message)) : World :=
  {| heap := heap w; buffer := buffer w; inflight := inflight w; db := db w;
     rooms := rooms w; sent := l; calls := calls w |}.
Definition with_calls (w : World) (l : list GatewayCall) : World :=
  {| heap := heap w; buffer := buffer w; inflight := inflight w; db := db w;
     rooms := rooms w; sent := sent w; calls := l |}.

(** *** Handler code: state passing with exceptions

    A handler step either returns or throws; what it did to the process
    before throwing stays done. *)
Definition M (A : Type) : Type := World -> Completion A * World.

Definition ret {A} (a : A) : M A := fun w => (Returned a, w).
Definition throw {A} (e : Exn) : M A := fun w => (Thrown e, w).
Definition bind {A B} (m : M A) (k : A -> M B) : M B :=
  fun w => match m w with
           | (Returned a, w') => k a w'
           | (Thrown e, w') => (Thrown e, w')
           end.

#[export] Instance M_ret : MRet M := @ret.
#[export] Instance M_bind : MBind M := fun A B k m => bind m k.

Definition gets {A} (f : World -> A) : M A := fun w => (Returned (f w), w).
Definition modify (f : World -> World) : M unit := fun w => (Returned tt, f w).

(** [try { body } catch (error) { handler error }]. *)
Definition try_catch {A} (body : M A) (handler : Exn -> M A) : M A :=
  fun w => match body w with
           | (Returned a, w') => (Returned a, w')
           | (Thrown e, w') => handler e w'
           end.

(** [... finally { final }], for a block that cannot throw. *)
Definition finally {A} (body : M A) (final : World -> World) : M A :=
  fun w => let '(r, w') := body w in (r, final w').

(** An awaited database call outside a transaction. *)
Definition prisma (op : Db -> Completion Db) : M unit :=
  fun w => match op (db w) with
           | Returned d => (Returned tt, with_db w d)
           | Thrown e => (Thrown e, w)
           end.

Definition emit (to : Target) (msg : Message) : M unit :=
  modify (fun w => with_sent w (sent w ++ [(to, msg)])).

Definition call (c : GatewayCall) : M unit :=
  modify (fun w => with_calls w (calls w ++ [c])).

(** Statements of a transaction body, numbered from [i]; the database
    fails the statement numbered [fault], when there is one. *)
Fixpoint statements (fault : option nat) (i : nat) (stmts : list (M unit)) : M unit :=
  match stmts with
  | [] => ret tt
  | stmt :: rest =>
      (if bool_decide (fault = Some i) then throw DatabaseFault else stmt) ;;
      statements fault (S i) rest
  end.

(** [prisma.$transaction(async (tx) => { stmts })]. Every statement goes
    through [tx]; when one throws, or the commit fails (a [fault] past the
    last statement), the database is back to what it was and the
    exception reaches the caller. *)
Definition transaction (fault : option nat) (stmts : list (M unit)) : M unit :=
  fun w =>
    match (statements fault 0 stmts ;;
           if bool_decide (fault = None) then ret tt else throw DatabaseFault) w with
    | (Returned tt, w') => (Returned tt, w')
    | (Thrown e, w') => (Thrown e, with_db w' (db w))
    end.

(** [if (!sessionId)]: an absent or empty id. *)
Definition falsy_id (sessionId : option string) : bool :=
  match sessionId with
  | None => true
  | Some s => negb (Js.truthy_string s)
  end.

(** *** session:start *)
Definition session_start (socket : nat) (parsed : SafeParse StartPayload)
    : M unit :=
  match parsed with
  | Failure => emit (ToSocket socket) (session_error ZodIssues None)
  | Success data =>
      let sessionId := start_sessionId data in
      modify (fun w => with_buffer w (<[sessionId := []]> (buffer w))) ;;
      prisma (user_upsert (userId data) (userEmail data)) ;;
      prisma (session_upsert sessionId (userId data) RECORDING (source data)) ;;
      modify (fun w => with_rooms w (rooms w ++ [(socket, sessionId)])) ;;
      emit (ToSocket socket) (session_ack sessionId RECORDING)
  end.

(** *** session:chunk *)

(** Truthiness of an optional string: [undefined] is falsy. *)
Definition option_truthy (s : option string) : bool :=
  match s with Some t => Js.truthy_string t | None => false end.

(** The handler up to its [await]: the payload object is made and pushed
    on the session's array, or on a new array when the session has none.
    It returns the object when the handler is left waiting for
    [transcribeAudio]. *)
Definition chunk_received (socket : nat) (parsed : SafeParse ChunkPayload)
    : M (option nat) :=
  match parsed with
  | Failure =>
      emit (ToSocket socket) (session_error ZodIssues None) ;; ret None
  | Success data =>
      payload ← gets (fun w => length (heap w));
      modify (fun w => with_heap w (heap w ++ [data])) ;;
      store ← gets (fun w => buffer w !! sessionId data);
      modify (fun w =>
        with_buffer w
          (match store with
           | None => <[sessionId data := [payload]]> (buffer w)
           | Some refs => <[sessionId data := refs ++ [payload]]> (buffer w)
           end)) ;;
      if negb (option_truthy (text data)) && Js.truthy_string (audio data) then
        call (CallTranscribe (audio data) "audio/webm") ;;
        modify (fun w => with_inflight w (inflight w ++ [payload])) ;;
        ret (Some payload)
      else
        emit (ToRoom (sessionId data))
          (transcription_update (sessionId data) (sequence data)
             (default EmptyString (text data)) (speakerTag data)
             (confidence data)) ;;
        ret None
  end.

(** The rest of the handler, once [transcribeAudio] has settled for the
    payload object [payload]: the object is updated where it lies, and the
    update goes out to the room. *)
Definition chunk_transcribed (payload : nat)
    (transcriptModel : Gemini.TranscriptModel) : M unit :=
  waiting ← gets (fun w => bool_decide (payload ∈ inflight w));
  obj ← gets (fun w => heap w !! payload);
  match waiting, obj with
  | true, Some p =>
      modify (fun w =>
        with_inflight w (filter (fun r => r <> payload) (inflight w))) ;;
      match Gemini.transcribeAudio transcriptModel (audio p) "audio/webm" with
      | Returned transcription =>
          let p' :=
            {| sessionId := sessionId p; sequence := sequence p;
               startedAt := startedAt p; endedAt := endedAt p;
               speakerTag := Gemini.t_speakerTag transcription;
               audio := audio p;
               text := Some (Gemini.t_text transcription);
               confidence := Gemini.t_confidence transcription |} in
          modify (fun w => with_heap w (<[payload := p']> (heap w))) ;;
          emit (ToRoom (sessionId p))
            (transcription_update (sessionId p) (sequence p)
               (Gemini.t_text transcription) (Gemini.t_speakerTag transcription)
               (Gemini.t_confidence transcription))
      | Thrown _ =>
          emit (ToRoom (sessionId p))
            (transcription_update (sessionId p) (sequence p) EmptyString
               (speakerTag p) (confidence p))
      end
  | _, _ => ret tt
  end.

(** The whole handler, for a chunk whose transcription settles before
    anything else happens. *)
Definition session_chunk (socket : nat) (parsed : SafeParse ChunkPayload)
    (transcriptModel : Gemini.TranscriptModel) : M unit :=
  waiting ← chunk_received socket parsed;
  match waiting with
  | Some payload => chunk_transcribed payload transcriptModel
  | None => ret tt
  end.

(** *** session:pause and session:resume *)
Definition session_pause (sessionId : option string) : M unit :=
  if falsy_id sessionId then ret tt
  else
    let sessionId := default EmptyString sessionId in
    prisma (session_update sessionId (set_status PAUSED)) ;;
    emit (ToRoom sessionId) (session_status PAUSED None).

Definition session_resume (sessionId : option string) : M unit :=
  if falsy_id sessionId then ret tt
  else
    let sessionId := default EmptyString sessionId in
    prisma (session_update sessionId (set_status RECORDING)) ;;
    emit (ToRoom sessionId) (session_status RECORDING None).

(** *** session:stop *)

(** The chunk objects of a session's array, in array order; no array
    stands for the empty one. *)
Definition buffered (w : World) (sessionId : string) : list ChunkPayload :=
  omap (fun r => heap w !! r) (default [] (buffer w !! sessionId)).

(** [chunks.map((chunk) => chunk.text).join("\n")]. *)
Definition build_transcript (chunks : list ChunkPayload) : string :=
  Js.join Js.nl (map text chunks).

(** The [create] data of a chunk upsert; the [update] data is its text,
    speaker tag and confidence. *)
Definition chunk_row (chunk : ChunkPayload) : TranscriptChunk :=
  {| c_sessionId := sessionId chunk; c_sequence := sequence chunk;
     c_speakerTag := speakerTag chunk;
     c_text := default EmptyString (text chunk);
     c_startedAt := startedAt chunk; c_endedAt := endedAt chunk;
     c_confidence := confidence chunk |}.

Definition tx_write (f : Db -> Db) : M unit :=
  modify (fun w => with_db w (f (db w))).

(** The statements of the transaction callback: one upsert per buffered
    chunk, then the summary upsert when there is a summary. *)
Definition tx_statements (sessionId : string) (chunks : list ChunkPayload)
    (summary : option JsValue) : list (M unit) :=
  map (fun chunk => tx_write (transcriptChunk_upsert (chunk_row chunk))) chunks
  ++ match summary with
     | Some v =>
         if truthy v then
           [match summary_columns sessionId v with
            | Some row => prisma (summary_upsert_at sessionId row)
            | None => throw ValidationFailure
            end]
         else []
     | None => []
     end.

Section Stop.
Variable JSON_parse : string -> option JsValue.

(** [now] is the clock read for [endedAt]; [summaryModel] and [fault]
    say how the model and the database answer during this run. *)
(** [transcript ? await summarizeTranscript(transcript) : null]. *)
Definition summary_of (summaryModel : Gemini.SummaryModel)
    (transcript : string) : M (option JsValue) :=
  if Js.truthy_string transcript then
    call (CallSummarize transcript) ;;
    match Gemini.summarizeTranscript JSON_parse summaryModel transcript with
    | Returned v => ret (Some v)
    | Thrown e => throw e
    end
  else ret None.

(** The [try]/[catch]/[finally] of the stop handler. *)
Definition finalize (sessionId : string) (chunks : list ChunkPayload)
    (transcript : string) (summaryModel : Gemini.SummaryModel)
    (fault : option nat) : M unit :=
  finally
    (try_catch
       (summary ← summary_of summaryModel transcript;
        transaction fault (tx_statements sessionId chunks summary) ;;
        prisma (session_update sessionId (set_status COMPLETED)) ;;
        emit (ToRoom sessionId) (session_status COMPLETED summary))
       (fun error =>
          prisma (session_update sessionId (set_status FAILED)) ;;
          emit (ToRoom sessionId)
            (session_error (Text "Failed to process summary") (Some error))))
    (fun w => with_buffer w (delete sessionId (buffer w))).

(** [now] is the clock read for [endedAt]; [summaryModel] and [fault]
    say how the model and the database answer during this run. *)
Definition session_stop (sessionId : option string) (now : Z)
    (summaryModel : Gemini.SummaryModel) (fault : option nat) : M unit :=
  if falsy_id sessionId then ret tt
  else
    let sessionId := default EmptyString sessionId in
    emit (ToRoom sessionId) (session_status PROCESSING None) ;;
    chunks ← gets (fun w => buffered w sessionId);
    let transcript := build_transcript chunks in
    prisma (session_update sessionId (set_status_ended PROCESSING now)) ;;
    finalize sessionId chunks transcript summaryModel fault.

(** *** The events the process handles, one at a time *)
Inductive Event :=
| EvStart (socket : nat) (parsed : SafeParse StartPayload)
| EvChunk (socket : nat) (parsed : SafeParse ChunkPayload)
| EvTranscribed (payload : nat) (transcriptModel : Gemini.TranscriptModel)
| EvPause (sessionId : option string)
| EvResume (sessionId : option string)
| EvStop (sessionId : option string) (now : Z)
    (summaryModel : Gemini.SummaryModel) (fault : option nat).

Definition handle (ev : Event) : M unit :=
  match ev with
  | EvStart socket parsed => session_start socket parsed
  | EvChunk socket parsed => chunk_received socket parsed ;; ret tt
  | EvTranscribed payload model => chunk_transcribed payload model
  | EvPause sessionId => session_pause sessionId
  | EvResume sessionId => session_resume sessionId
  | EvStop sessionId now model fault => session_stop sessionId now model fault
  end.

(** A handler that throws ends as an unhandled rejection: the process
    goes on from where the handler left it. *)
Definition step (w : World) (ev : Event) : World := (handle ev w).2.

Definition run (w : World) (evs : list Event) : World := foldl step w evs.
End Stop.

(** The status the database holds for a session. *)
Definition status_of (w : World) (sessionId : string) : option SessionStatus :=
  s_status <$> sessions (db w) !! sessionId.

End Server.

(** ** The stop handler, from one [await] to the next

    The handlers of [Server] run each in one piece. The stop handler
    awaits the database and the summarizer many times over, and what
    arrives while it waits is handled before it goes on: a chunk is
    pushed on the array the stop holds, a transcription rewrites a
    payload object in it, a start puts a new array in the buffer. Here
    the stop is run from one [await] to the next, between the other
    handlers, which run in one piece as before. A call the stop awaits
    is taken to reach the database when the stop goes on after it, and
    the statements of its transaction to reach the tables together, at
    the commit. *)

Module Live.
Import Promise Json Prisma Server.

(** The array [chunks] of a running stop: the one [buffer] holds for the
    session, on which the chunk handler pushes; or an array [buffer]
    holds no more, since a start replaced it or a [finally] deleted the
    entry (the [[]] of [?? []] is one from the beginning). Nothing
    pushes on an array that is out of the buffer; its payload objects
    stay in the heap. *)
Inductive Chunks :=
| InBuffer
| OutOfBuffer (refs : list nat).

(** What a stop waits for. *)
Inductive Awaiting :=
| UpdateProcessing (now : Z)      (* prisma.session.update, PROCESSING *)
| Summarize                       (* summarizeTranscript(transcript) *)
| ChunkUpsert                     (* the callback's start, or a chunk upsert *)
| SummaryUpsert (create : Summary)    (* tx.summary.upsert *)
| Commit (create : option Summary)    (* the callback returned *)
| UpdateCompleted                 (* prisma.session.update, COMPLETED *)
| UpdateFailed (error : Exn)      (* prisma.session.update, FAILED *)
| Over.                           (* the handler returned or rejected *)

(** The constants of a stop handler that has not returned, and with
    [met] the chunks its loop has met so far, each as it was when its
    upsert was called. Until the commit the upserts of [met] are in the
    open transaction only. *)
Record Stop := mkStop {
  sessionId : string;
  chunks : Chunks;
  transcript : string;
  summary : option JsValue;
  met : list ChunkPayload;
  awaits : Awaiting
}.

Definition awaiting (stop : Stop) (a : Awaiting) : Stop :=
  {| sessionId := sessionId stop; chunks := chunks stop;
     transcript := transcript stop; summary := summary stop;
     met := met stop; awaits := a |}.
Definition with_chunks (stop : Stop) (c : Chunks) : Stop :=
  {| sessionId := sessionId stop; chunks := c;
     transcript := transcript stop; summary := summary stop;
     met := met stop; awaits := awaits stop |}.
Definition with_summary (stop : Stop) (v : option JsValue) : Stop :=
  {| sessionId := sessionId stop; chunks := chunks stop;
     transcript := transcript stop; summary := v;
     met := met stop; awaits := awaits stop |}.
Definition with_met (stop : Stop) (l : list ChunkPayload) : Stop :=
  {| sessionId := sessionId stop; chunks := chunks stop;
     transcript := transcript stop; summary := summary stop;
     met := l; awaits := awaits stop |}.

(** The references the array of a stop holds now. *)
Definition array (w : World) (stop : Stop) : list nat :=
  match chunks stop with
  | InBuffer => default [] (buffer w !! sessionId stop)
  | OutOfBuffer refs => refs
  end.

(** Its chunk objects, as they are now. *)
Definition elements (w : World) (stop : Stop) : list ChunkPayload :=
  omap (fun r => heap w !! r) (array w stop).

(** The handler up to its first [await]: the PROCESSING message, the
    array, the transcript of the array as it is. *)
Definition arrive (sessionId : string) (now : Z) (w : World) : Stop * World :=
  ({| sessionId := sessionId;
      chunks := match buffer w !! sessionId with
                | Some _ => InBuffer
                | None => OutOfBuffer []
                end;
      transcript := build_transcript (buffered w sessionId);
      summary := None; met := []; awaits := UpdateProcessing now |},
   with_sent w (sent w ++ [(ToRoom sessionId, session_status PROCESSING None)])).

(** An exception in the [try] block: the [catch] branch calls the
    update to FAILED. An open transaction is rolled back. *)
Definition caught (stop : Stop) (error : Exn) : Stop :=
  awaiting stop (UpdateFailed error).

(** The head of [for (const chunk of chunks)], entered with as many
    elements visited as chunks were met: the next element of the array,
    when it has one now, goes into an upsert with the text it has now;
    otherwise the loop is left for the summary upsert, when there is a
    summary, and for the end of the callback. *)
Definition next_statement (stop : Stop) (w : World) : Stop :=
  match elements w stop !! length (met stop) with
  | Some chunk => with_met stop (met stop ++ [chunk])
  | None =>
      match summary stop with
      | Some v =>
          if truthy v then
            match summary_columns (sessionId stop) v with
            | Some create => awaiting stop (SummaryUpsert create)
            | None => caught stop ValidationFailure
            end
          else awaiting stop (Commit None)
      | None => awaiting stop (Commit None)
      end
  end.

(** What the commit of the transaction does to the database: the
    upserts of the chunks met, in the order met, then the summary
    upsert. Other handlers see none of it before. *)
Definition commit (stop : Stop) (create : option Summary) (d : Db)
    : Completion Db :=
  let d1 := foldl (fun d chunk => transcriptChunk_upsert (chunk_row chunk) d)
              d (met stop) in
  match create with
  | Some row => summary_upsert_at (sessionId stop) row d1
  | None => Returned d1
  end.

(** [finally { buffer.delete(sessionId) }]. *)
Definition finally (stop : Stop) (w : World) : World :=
  with_buffer w (delete (sessionId stop) (buffer w)).

Section Continue.
Variable JSON_parse : string -> option JsValue.

(** The handler from the [await] it waits at to the next one.
    [summaryModel] is the model's answer when the summarizer was
    awaited; [fails] says that the database failed the awaited
    statement of the transaction, or its commit. *)
Definition continue (stop : Stop) (summaryModel : Gemini.SummaryModel)
    (fails : bool) (w : World) : Stop * World :=
  match awaits stop with
  | UpdateProcessing now =>
      match session_update (sessionId stop) (set_status_ended PROCESSING now) (db w) with
      | Returned d =>
          if Js.truthy_string (transcript stop) then
            (awaiting stop Summarize,
             with_calls (with_db w d) (calls w ++ [CallSummarize (transcript stop)]))
          else (awaiting stop ChunkUpsert, with_db w d)
      | Thrown _ => (awaiting stop Over, w)
      end
  | Summarize =>
      match Gemini.summarizeTranscript JSON_parse summaryModel (transcript stop) with
      | Returned v => (awaiting (with_summary stop (Some v)) ChunkUpsert, w)
      | Thrown e => (caught stop e, w)
      end
  | ChunkUpsert =>
      if fails then (caught stop DatabaseFault, w)
      else (next_statement stop w, w)
  | SummaryUpsert create =>
      if fails then (caught stop DatabaseFault, w)
      else match summary_upsert_at (sessionId stop) create (db w) with
           | Returned _ => (awaiting stop (Commit (Some create)), w)
           | Thrown e => (caught stop e, w)
           end
  | Commit create =>
      if fails then (caught stop DatabaseFault, w)
      else match commit stop create (db w) with
           | Returned d => (awaiting stop UpdateCompleted, with_db w d)
           | Thrown e => (caught stop e, w)
           end
  | UpdateCompleted =>
      match session_update (sessionId stop) (set_status COMPLETED) (db w) with
      | Returned d =>
          (awaiting stop Over,
           finally stop
             (with_sent (with_db w d)
                (sent w ++ [(ToRoom (sessionId stop),
                             session_status COMPLETED (summary stop))])))
      | Thrown e => (caught stop e, w)
      end
  | UpdateFailed error =>
      match session_update (sessionId stop) (set_status FAILED) (db w) with
      | Returned d =>
          (awaiting stop Over,
           finally stop
             (with_sent (with_db w d)
                (sent w ++ [(ToRoom (sessionId stop),
                             session_error (Text "Failed to process summary")
                               (Some error))])))
      | Thrown _ => (awaiting stop Over, finally stop w)
      end
  | Over => (stop, w)
  end.

(** The process with its running stops, in the order they arrived. *)
Record State := mkState {
  world : World;
  stops : list Stop
}.

Definition initial : State := {| world := Server.initial; stops := [] |}.

(** The entry of [sessionId] leaves the buffer: the stops that hold its
    array keep it as it is at that moment. *)
Definition out_of_buffer (sessionId' : string) (w : World) (stop : Stop) : Stop :=
  match chunks stop with
  | InBuffer =>
      if String.eqb (sessionId stop) sessionId'
      then with_chunks stop (OutOfBuffer (array w stop))
      else stop
  | OutOfBuffer _ => stop
  end.

(** The step of [continue] went through the [finally]. *)
Definition left_try (stop next : Stop) : bool :=
  match awaits stop, awaits next with
  | UpdateCompleted, Over | UpdateFailed _, Over => true
  | _, _ => false
  end.

(** What happens next in the process: an event arrives and its handler
    runs, to its end or, for a stop, to its first [await]; a chunk
    handler goes on after its transcription; the stop numbered [k] goes
    on after what it awaited. *)
Inductive Event :=
| SessionStart (socket : nat) (parsed : SafeParse StartPayload)
| SessionChunk (socket : nat) (parsed : SafeParse ChunkPayload)
| Transcribed (payload : nat) (transcriptModel : Gemini.TranscriptModel)
| SessionPause (sessionId : option string)
| SessionResume (sessionId : option string)
| SessionStop (sessionId : option string) (now : Z)
| Continue (k : nat) (summaryModel : Gemini.SummaryModel) (fails : bool).

Definition step (st : State) (ev : Event) : State :=
  let w := world st in
  match ev with
  | SessionStart socket parsed =>
      {| world := (session_start socket parsed w).2;
         stops := match parsed with
                  | Success data =>
                      out_of_buffer (start_sessionId data) w <$> stops st
                  | Failure => stops st
                  end |}
  | SessionChunk socket parsed =>
      {| world := (chunk_received socket parsed w).2; stops := stops st |}
  | Transcribed payload transcriptModel =>
      {| world := (chunk_transcribed payload transcriptModel w).2;
         stops := stops st |}
  | SessionPause sessionId =>
      {| world := (session_pause sessionId w).2; stops := stops st |}
  | SessionResume sessionId =>
      {| world := (session_resume sessionId w).2; stops := stops st |}
  | SessionStop sessionId now =>
      if falsy_id sessionId then st
      else
        let '(stop, w') := arrive (default EmptyString sessionId) now w in
        {| world := w'; stops := stops st ++ [stop] |}
  | Continue k summaryModel fails =>
      match stops st !! k with
      | Some stop =>
          let '(next, w') := continue stop summaryModel fails w in
          {| world := w';
             stops := if left_try stop next
                      then out_of_buffer (sessionId stop) w
                             <$> <[k := next]> (stops st)
                      else <[k := next]> (stops st) |}
      | None => st
      end
  end.

Definition run (st : State) (evs : list Event) : State := foldl step st evs.
End Continue.

End Live.

(** ** Notions the properties are stated with *)

(** A transcript list in strictly ascending order of sequence number. *)
Definition ascending (t : list TranscriptUpdate) : Prop :=
  StronglySorted Z.lt (tu_sequence <$> t).

(** The arrows of the recorder machine's [on] tables. *)
Definition recorder_edge (from to : Recorder.RecorderState) : bool :=
  match from, to with
  | Recorder.idle, Recorder.recording
  | Recorder.recording, Recorder.paused
  | Recorder.paused, Recorder.recording
  | Recorder.recording, Recorder.processing
  | Recorder.paused, Recorder.processing
  | Recorder.processing, Recorder.completed
  | Recorder.recording, Recorder.failed
  | Recorder.paused, Recorder.failed
  | Recorder.processing, Recorder.failed
  | Recorder.completed, Recorder.idle
  | Recorder.failed, Recorder.idle => true
  | _, _ => false
  end.

Module Spec.
Import Promise Json Prisma Server.


Definition terminal (st : SessionStatus) : bool :=
  match st with COMPLETED | FAILED => true | _ => false end.

(** The transcript as the specification words it: the texts of the
    buffered chunks, ordered by ascending sequence number, joined by
    newlines. *)
Definition transcript_by_sequence (chunks : list ChunkPayload) : string :=
  Js.join Js.nl
    (map text (Js.sort (fun a b => sequence a - sequence b) chunks)).

(** The chunk rows after the upserts of a committed finalization. *)
Definition upsert_all (chunks : list ChunkPayload) (rows : list TranscriptChunk)
    : list TranscriptChunk :=
  foldl (fun rows chunk => chunk_upsert_rows (chunk_row chunk) rows) rows chunks.

(** The rows stored under one (sessionId, sequence) pair. *)
Definition rows_at (sessionId : string) (sequence : Z)
    (rows : list TranscriptChunk) : list TranscriptChunk :=
  List.filter (chunk_key sessionId sequence) rows.

(** At most one row under every pair: what the unique index keeps. *)
Definition unique_keys (rows : list TranscriptChunk) : Prop :=
  forall sessionId sequence, (length (rows_at sessionId sequence rows) <= 1)%nat.

(** The summary the transaction writes: none for [null] or a falsy value. *)
Definition summary_written (summary : option JsValue) : option JsValue :=
  match summary with
  | Some v => if truthy v then Some v else None
  | None => None
  end.

(** The database a finalization commits, or what its summary upsert
    throws. *)
Definition committed (sessionId : string) (chunks : list ChunkPayload)
    (summary : option JsValue) (d : Db) : Completion Db :=
  let d1 := with_transcriptChunks d (upsert_all chunks (transcriptChunks d)) in
  match summary_written summary with
  | None => Returned d1
  | Some v =>
      match summary_columns sessionId v with
      | Some row => summary_upsert_at sessionId row d1
      | None => Thrown ValidationFailure
      end
  end.

(** The summary rows a committed finalization leaves. *)
Definition summaries_after (sessionId : string) (summary : option JsValue)
    (rows : list Summary) : list Summary :=
  match summary_written summary with
  | Some v =>
      match summary_columns sessionId v with
      | Some row => summary_rows_at sessionId row rows
      | None => rows
      end
  | None => rows
  end.

(** The value of [summary] in a stop, or what the summarization threw. *)
Definition summary_value (JSON_parse : string -> option JsValue)
    (summaryModel : Gemini.SummaryModel) (transcript : string)
    : Completion (option JsValue) :=
  if Js.truthy_string transcript then
    match Gemini.summarizeTranscript JSON_parse summaryModel transcript with
    | Returned v => Returned (Some v)
    | Thrown e => Thrown e
    end
  else Returned None.

(** The gateway call a stop makes for a transcript. *)
Definition asked (transcript : string) : list GatewayCall :=
  if Js.truthy_string transcript then [CallSummarize transcript] else [].

(** A statement that touches nothing but the database. *)
Definition db_only (m : M unit) : Prop :=
  forall w, exists r d, m w = (r, with_db w d).

(** The references of a session's array all point into the heap. *)
Definition refs_valid (w : World) (sessionId : string) : Prop :=
  Forall (fun r => (r < length (heap w))%nat) (default [] (buffer w !! sessionId)).

(** What every state the process reaches satisfies: the arrays refer to
    payload objects that exist, and no two chunk rows share a pair. *)
Definition well_formed (w : World) : Prop :=
  (forall sessionId, refs_valid w sessionId)
  /\ unique_keys (transcriptChunks (db w)).

(** No [session:error] among messages. *)
Definition is_error (m : Target * Message) : bool :=
  match m.2 with session_error _ _ => true | _ => false end.

End Spec.

(** ** Runs used as examples *)

Module Scenario.
Import Promise Json Prisma Server.

(** A [JSON.parse] that accepts nothing. The runs below hand the parser
    the empty string at most, which [JSON.parse] rejects. *)
Definition no_json : string -> option JsValue := fun _ => None.

Definition S : string := "123e4567-e89b-42d3-a456-426614174000".

Definition start_S : SafeParse StartPayload :=
  Success {| start_sessionId := S; userId := "user-1";
             userEmail := "user@example.org"; source := MIC |}.

(** A chunk of session [S] that brings its text along. *)
Definition chunk (n : Z) (t : string) : ChunkPayload :=
  {| sessionId := S; sequence := n; startedAt := 5000 * (n - 1);
     endedAt := 5000 * n; speakerTag := "speaker";
     audio := "GkXfo59ChoEBQveBAULygQ"; text := Some t; confidence := None |}.

(** A chunk of session [S] that is to be transcribed. *)
Definition audio_chunk (n : Z) : ChunkPayload :=
  {| sessionId := S; sequence := n; startedAt := 5000 * (n - 1);
     endedAt := 5000 * n; speakerTag := "speaker";
     audio := "GkXfo59ChoEBQveBAULygQ"; text := None; confidence := None |}.

(** A model that answers with a sentence that is no JSON. *)
Definition prose_model : Gemini.SummaryModel :=
  Some (fun _ => Gemini.GenText "The team met and talked").

Definition failing_model : Gemini.SummaryModel :=
  Some (fun _ => Gemini.GenRejects).

Definition failing_transcriber : Gemini.TranscriptModel :=
  Some (fun _ _ => Gemini.GenRejects).

(** Session [S] started. *)
Definition started : World := run no_json initial [EvStart 7 start_S].

(** Chunks 3, 1, 2 delivered in this order. *)
Definition out_of_order : World :=
  run no_json started
    [EvChunk 7 (Success (chunk 3 "gamma")); EvChunk 7 (Success (chunk 1 "alpha"));
     EvChunk 7 (Success (chunk 2 "beta"))].

(** Chunks 1, 2 delivered in order. *)
Definition in_order : World :=
  run no_json started
    [EvChunk 7 (Success (chunk 1 "hello")); EvChunk 7 (Success (chunk 2 "world"))].


(** A chunk delivered for [S] before anything was started. *)
Definition untracked_chunk : World :=
  run no_json initial [EvChunk 7 (Success (chunk 1 "hello"))].

(** Session [S] started and stopped with nothing delivered. *)
Definition finished : World :=
  run no_json started [EvStop (Some S) 1000 prose_model None].

(** Chunks 1, 2 delivered in order, then a stop during which the model
    rejects the summary request. *)
Definition summary_rejected : World :=
  run no_json in_order [EvStop (Some S) 1000 failing_model None].


(** A chunk delivered for [S] after it was finished, and a second stop. *)
Definition late_chunk : World :=
  run no_json finished [EvChunk 7 (Success (chunk 1 "late"))].

Definition stopped_again : World :=
  run no_json late_chunk [EvStop (Some S) 2000 prose_model None].

(** Session [S] with one chunk waiting for its transcription. *)
Definition waiting : World :=
  run no_json started [EvChunk 7 (Success (audio_chunk 1))].

(** The out-of-order session, stopped. *)
Definition out_of_order_stopped : World :=
  run no_json out_of_order [EvStop (Some S) 1000 prose_model None].


(** The row of [S] once finished. *)
Definition row_finished : Session :=
  {| s_userId := "user-1"; s_status := COMPLETED; s_source := MIC;
     s_endedAt := Some 1000 |}.

(** The row of [S] once started. *)
Definition row_S : Session :=
  {| s_userId := "user-1"; s_status := RECORDING; s_source := MIC;
     s_endedAt := None |}.

(** Chunk 1 delivered and a stop of [S] under way. Chunk 2 is delivered
    while the stop waits for the summary of the first. The stop then has
    its summary, the callback of its transaction starts, the loop meets
    chunk 1, meets chunk 2, is left for the summary upsert, and the
    callback returns: the stop is at its commit. *)
Definition at_commit : Live.State :=
  Live.run no_json {| Live.world := started; Live.stops := [] |}
    [Live.SessionChunk 7 (Success (chunk 1 "hello"));
     Live.SessionStop (Some S) 1000;
     Live.Continue 0 prose_model false;
     Live.SessionChunk 7 (Success (chunk 2 "during"));
     Live.Continue 0 prose_model false;
     Live.Continue 0 prose_model false;
     Live.Continue 0 prose_model false;
     Live.Continue 0 prose_model false;
     Live.Continue 0 prose_model false].

(** The stop of that run at its commit. *)
Definition stop_at_commit : Live.Stop :=
  {| Live.sessionId := S; Live.chunks := Live.InBuffer;
     Live.transcript := "hello";
     Live.summary := Some (Gemini.fallback_summary "The team met and talked");
     Live.met := [chunk 1 "hello"; chunk 2 "during"];
     Live.awaits :=
       Live.Commit
         (Some {| sm_sessionId := S; sm_keyPoints := "The team met and talked";
                  sm_actionItems := "Could not extract action items";
                  sm_decisions := "Could not extract decisions" |}) |}.

(** The run to its end, the database doing what it is asked. *)
Definition committed_run : Live.State :=
  Live.run no_json at_commit
    [Live.Continue 0 prose_model false; Live.Continue 0 prose_model false].

(** The run to its end, the database failing the commit. *)
Definition failed_run : Live.State :=
  Live.run no_json at_commit
    [Live.Continue 0 prose_model true; Live.Continue 0 prose_model false].

End Scenario.

(** ** The session routes ([src/unnamed/part_003]) *)

Module Api.
Import Promise Json Prisma.

(** A session as [findUnique] returns it with the [include] of the route:
    the summary row, the chunk rows and the user's id and email (the
    user's name, which no code here writes, is left out). *)
Record SessionDetail := mkSessionDetail {
  d_session : Session;
  d_summary : option Summary;
  d_transcript : list TranscriptChunk;
  d_user : option (string * string)
}.

Inductive Body :=
| session_body (session : SessionDetail)     (* { session } *)
| error_body (error : string)                (* { error } *)
| success_body.                              (* { success: true } *)

Record Response := mkResponse {
  status : Z;
  body : Body
}.

(** [session.findUnique({ where: { id }, include })]. The chunk rows come
    by ascending sequence; no two rows of a session share a sequence, so
    the order is the same whatever way the database sorts. *)
Definition session_findUnique (id : string) (d : Db) : option SessionDetail :=
  match sessions d !! id with
  | None => None
  | Some s =>
      Some {| d_session := s;
              d_summary :=
                head (List.filter (fun r => String.eqb (sm_sessionId r) id)
                                  (summaries d));
              d_transcript :=
                Js.sort (fun a b => c_sequence a - c_sequence b)
                  (List.filter (fun r => String.eqb (c_sessionId r) id)
                               (transcriptChunks d));
              d_user := pair (s_userId s) <$> users d !! s_userId s |}
  end.

(** [session.delete({ where: { id } })]: rejects when no row has the id;
    the chunk rows and the summary row of the session go with its row, as
    their foreign keys are declared ON DELETE CASCADE. *)
Definition session_delete (id : string) (d : Db) : Completion Db :=
  match sessions d !! id with
  | None => Thrown RecordNotFound
  | Some _ =>
      Returned
        {| users := users d;
           sessions := delete id (sessions d);
           transcriptChunks :=
             List.filter (fun r => negb (String.eqb (c_sessionId r) id))
                         (transcriptChunks d);
           summaries :=
             List.filter (fun r => negb (String.eqb (sm_sessionId r) id))
                         (summaries d) |}
  end.

(** GET /api/sessions/[id]. [reachable] says whether the database answers
    the query. *)
Definition GET (reachable : bool) (id : string) (d : Db) : Response :=
  if reachable then
    match session_findUnique id d with
    | None => {| status := 404; body := error_body "Session not found" |}
    | Some session => {| status := 200; body := session_body session |}
    end
  else {| status := 500; body := error_body "Failed to fetch session" |}.

(** DELETE /api/sessions/[id]: the response, and the database after it. *)
Definition DELETE (reachable : bool) (id : string) (d : Db) : Response * Db :=
  match (if reachable then session_delete id d else Thrown DatabaseFault) with
  | Returned d' => ({| status := 200; body := success_body |}, d')
  | Thrown _ =>
      ({| status := 500; body := error_body "Failed to delete session" |}, d)
  end.

End Api.

(** ** The recorder hook ([src/unnamed/part_001], [useRecorderMachine]) *)

Module Hook.
Import Recorder.

(** The status the hook derives from the machine's state. *)
Inductive SessionStatus :=
| IDLE | RECORDING | PAUSED | PROCESSING | COMPLETED | FAILED.

(** The [state] of a [MediaRecorder]. *)
Inductive MediaRecorderState := Inactive | Recording | Paused.

(** The [user] option of the hook. *)
Record User := mkUser {
  id : string;
  email : string
}.

(** What the hook emits on its socket. *)
Inductive Emitted :=
| EmitStart (sessionId userId userEmail : string) (source : RecordingSource)
| EmitChunk (sessionId : string) (sequence startedAt endedAt : Z)
    (speakerTag : string) (audio : option string)
| EmitPause (sessionId : option string)
| EmitResume (sessionId : option string)
| EmitStop (sessionId : string).

(** The machine and the refs of one mounted hook. A recorder is known by
    its state, the stream by its presence, the socket by its [connected]
    flag, a blob by its size; [emitted] lists what was emitted so far,
    oldest first. A function of the hook runs to its end in one step;
    what the browser answers on its way is an argument of the function. *)
Record Hook := mkHook {
  state : RecorderState * RecorderContext;
  recorderRef : option MediaRecorderState;
  streamRef : bool;
  socketRef : option bool;
  sequenceRef : Z;
  chunksRef : list Z;
  currentSessionIdRef : option string;
  emitted : list Emitted
}.

Definition initial : Hook :=
  {| state := Recorder.initial; recorderRef := None; streamRef := false;
     socketRef := None; sequenceRef := 0; chunksRef := [];
     currentSessionIdRef := None; emitted := [] |}.

Definition with_state (h : Hook) (s : RecorderState * RecorderContext) : Hook :=
  {| state := s; recorderRef := recorderRef h; streamRef := streamRef h;
     socketRef := socketRef h; sequenceRef := sequenceRef h;
     chunksRef := chunksRef h; currentSessionIdRef := currentSessionIdRef h;
     emitted := emitted h |}.
Definition with_recorderRef (h : Hook) (r : option MediaRecorderState) : Hook :=
  {| state := state h; recorderRef := r; streamRef := streamRef h;
     socketRef := socketRef h; sequenceRef := sequenceRef h;
     chunksRef := chunksRef h; currentSessionIdRef := currentSessionIdRef h;
     emitted := emitted h |}.
Definition with_streamRef (h : Hook) (s : bool) : Hook :=
  {| state := state h; recorderRef := recorderRef h; streamRef := s;
     socketRef := socketRef h; sequenceRef := sequenceRef h;
     chunksRef := chunksRef h; currentSessionIdRef := currentSessionIdRef h;
     emitted := emitted h |}.
Definition with_socketRef (h : Hook) (s : option bool) : Hook :=
  {| state := state h; recorderRef := recorderRef h; streamRef := streamRef h;
     socketRef := s; sequenceRef := sequenceRef h;
     chunksRef := chunksRef h; currentSessionIdRef := currentSessionIdRef h;
     emitted := emitted h |}.
Definition with_sequenceRef (h : Hook) (n : Z) : Hook :=
  {| state := state h; recorderRef := recorderRef h; streamRef := streamRef h;
     socketRef := socketRef h; sequenceRef := n;
     chunksRef := chunksRef h; currentSessionIdRef := currentSessionIdRef h;
     emitted := emitted h |}.
Definition with_chunksRef (h : Hook) (l : list Z) : Hook :=
  {| state := state h; recorderRef := recorderRef h; streamRef := streamRef h;
     socketRef := socketRef h; sequenceRef := sequenceRef h;
     chunksRef := l; currentSessionIdRef := currentSessionIdRef h;
     emitted := emitted h |}.
Definition with_currentSessionIdRef (h : Hook) (s : option string) : Hook :=
  {| state := state h; recorderRef := recorderRef h; streamRef := streamRef h;
     socketRef := socketRef h; sequenceRef := sequenceRef h;
     chunksRef := chunksRef h; currentSessionIdRef := s;
     emitted := emitted h |}.
Definition with_emitted (h : Hook) (l : list Emitted) : Hook :=
  {| state := state h; recorderRef := recorderRef h; streamRef := streamRef h;
     socketRef := socketRef h; sequenceRef := sequenceRef h;
     chunksRef := chunksRef h; currentSessionIdRef := currentSessionIdRef h;
     emitted := l |}.

(** [send(event)]. *)
Definition send (ev : RecorderEvent) (h : Hook) : Hook :=
  with_state h (transition (state h) ev).

(** [socket.emit(...)]. *)
Definition emit (m : Emitted) (h : Hook) : Hook :=
  with_emitted h (emitted h ++ [m]).

(** The [status] memo. *)
Definition status (h : Hook) : SessionStatus :=
  match (state h).1 with
  | recording => RECORDING
  | paused => PAUSED
  | processing => PROCESSING
  | completed => COMPLETED
  | failed => FAILED
  | idle => IDLE
  end.

Definition CHUNK_DURATION_MS : Z := 5000.

(** [if (!sessionId)], [|| 'Unknown error']: an absent or empty string. *)
Definition falsy (s : option string) : bool :=
  match s with
  | None => true
  | Some t => negb (Js.truthy_string t)
  end.

(** *** The effect that opens the socket, and its cleanup *)
Definition mount (h : Hook) : Hook := with_socketRef h (Some false).

Definition unmount (h : Hook) : Hook := with_socketRef h None.

(** The socket connects or disconnects. *)
Definition connection (connected : bool) (h : Hook) : Hook :=
  match socketRef h with
  | Some _ => with_socketRef h (Some connected)
  | None => h
  end.

(** *** The listeners of the socket *)
Definition on_transcription_update (payload : TranscriptUpdate) (h : Hook) : Hook :=
  send (TRANSCRIPT payload) h.

(** The status of the payload is the text the server sent. *)
Definition on_session_status (payload_status : string)
    (payload_summary : option SessionSummary) (h : Hook) : Hook :=
  let h1 := if String.eqb payload_status "PROCESSING" then send STOP h else h in
  if String.eqb payload_status "COMPLETED" then
    match payload_summary with
    | Some summary => send (SUMMARY summary) h1
    | None => h1
    end
  else h1.

Definition on_session_error (message : string) (h : Hook) : Hook :=
  send (ERROR message) h.

(** *** stopTracks *)
Definition stopTracks (h : Hook) : Hook := with_streamRef h false.

(** *** emitChunk

    [encoded] is what [blobToBase64] comes to: [None] when the reader
    fails, otherwise the text after the comma of the data URL, which is
    [undefined] when there is none. [now] is the clock read. *)
Definition emitChunk (now : Z) (encoded : option (option string)) (h : Hook) : Hook :=
  let sessionId := currentSessionIdRef h in
  if falsy sessionId then h
  else
    match socketRef h with
    | Some true =>
        let h1 := with_sequenceRef h (sequenceRef h + 1) in
        let endedAt := now in
        let startedAt := endedAt - CHUNK_DURATION_MS in
        match encoded with
        | Some audioBase64 =>
            emit (EmitChunk (default EmptyString sessionId) (sequenceRef h1)
                    startedAt endedAt "speaker" audioBase64) h1
        | None => h1
        end
    | _ => h
    end.

(** *** The handlers createRecorder installs *)

(** [recorder.ondataavailable], for a blob of [size] bytes. *)
Definition ondataavailable (size : Z) (now : Z) (encoded : option (option string))
    (h : Hook) : Hook :=
  if decide (0 < size) then
    emitChunk now encoded (with_chunksRef h (chunksRef h ++ [size]))
  else h.

(** [recorder.onerror]; [message] is [errorEvent.error?.message]. *)
Definition onerror (message : option string) (h : Hook) : Hook :=
  send (ERROR ("Recording error: " +:+
               (if falsy message then "Unknown error"
                else default EmptyString message))) h.

(** [track.onended], for a track of a recorder in state [recorder]. *)
Definition onended (recorder : MediaRecorderState) (h : Hook) : Hook :=
  match recorder with
  | Recording =>
      send (ERROR "Recording stopped: Audio input was disconnected") h
  | _ => h
  end.

(** The browser ends the recorder the hook holds. *)
Definition recorder_ended (h : Hook) : Hook :=
  match recorderRef h with
  | Some _ => with_recorderRef h (Some Inactive)
  | None => h
  end.

(** *** startRecording *)

(** How [createRecorder] and the [recorder.start] after it end: a throw
    before the stream is stored (no support, no permission, no device), a
    throw of the [MediaRecorder] constructor, or a recorder, whose
    [start] may throw. *)
Inductive CreateRecorder :=
| NoStream (message : string)
| NoRecorder (message : string)
| Created (start : option string).

(** What one call of [startRecording] meets: the compatibility check, the
    connection of a socket it has to create ([None] when it connects),
    the random identifier, and the recorder. *)
Record StartEnv := mkStartEnv {
  compatibilityError : option string;
  connect : option string;
  randomUUID : string;
  createRecorder : CreateRecorder
}.

Definition startRecording (user : User) (source : RecordingSource)
    (env : StartEnv) (h : Hook) : Hook :=
  match compatibilityError env with
  | Some e => send (ERROR e) h
  | None =>
      let connected := match socketRef h with Some true => true | _ => false end in
      let h1 := if connected then h else with_socketRef h (Some false) in
      match (if connected then None else connect env) with
      | Some message => send (ERROR message) h1
      | None =>
          let h2 := if connected then h1 else with_socketRef h1 (Some true) in
          let sessionId := randomUUID env in
          let h3 := with_sequenceRef h2 0 in
          let h4 := send (START sessionId source) h3 in
          let h5 := emit (EmitStart sessionId (id user) (email user) source) h4 in
          match createRecorder env with
          | NoStream message => send (ERROR message) h5
          | NoRecorder message => send (ERROR message) (with_streamRef h5 true)
          | Created start =>
              let h6 :=
                with_recorderRef
                  (with_chunksRef (with_streamRef h5 true) []) (Some Inactive) in
              match start with
              | Some message => send (ERROR message) h6
              | None => with_recorderRef h6 (Some Recording)
              end
          end
      end
  end.

(** *** pauseRecording and resumeRecording *)
Definition pauseRecording (h : Hook) : Hook :=
  match recorderRef h with
  | Some Recording =>
      let h1 := with_recorderRef h (Some Paused) in
      let h2 := match socketRef h1 with
                | Some _ => emit (EmitPause (sessionId (state h1).2)) h1
                | None => h1
                end in
      send PAUSE h2
  | _ => h
  end.

Definition resumeRecording (h : Hook) : Hook :=
  match recorderRef h with
  | Some Paused =>
      let h1 := with_recorderRef h (Some Recording) in
      let h2 := match socketRef h1 with
                | Some _ => emit (EmitResume (sessionId (state h1).2)) h1
                | None => h1
                end in
      send RESUME h2
  | _ => h
  end.

(** *** stopRecording

    [stopError] is the message of what [recorder.stop()] throws, if it
    throws. *)
Definition stopRecording (stopError : option string) (h : Hook) : Hook :=
  match recorderRef h with
  | None => send STOP h
  | Some Inactive => send STOP (stopTracks h)
  | Some _ =>
      match stopError with
      | Some message =>
          send (ERROR ("Failed to stop recording: " +:+ message)) (stopTracks h)
      | None =>
          let h1 := stopTracks (with_recorderRef h (Some Inactive)) in
          let h2 :=
            match socketRef h1 with
            | Some true =>
                if falsy (sessionId (state h1).2) then h1
                else emit (EmitStop (default EmptyString (sessionId (state h1).2))) h1
            | _ => h1
            end in
          send STOP h2
      end
  end.

(** *** reset and setSource *)
Definition reset (h : Hook) : Hook :=
  let h0 := match recorderRef h with
            | Some (Recording | Paused) => with_recorderRef h (Some Inactive)
            | _ => h
            end in
  let h1 := stopTracks h0 in
  let h2 := with_recorderRef h1 None in
  let h3 := with_sequenceRef h2 0 in
  let h4 := with_chunksRef h3 [] in
  let h5 := with_currentSessionIdRef h4 None in
  send RESET h5.

Definition setSource (source : RecordingSource) (h : Hook) : Hook :=
  match (state h).1 with
  | idle => send (SET_SOURCE source) h
  | _ => h
  end.

(** *** What happens to a mounted hook, one thing at a time *)

(** What the hook listens to: its effect and cleanup, the socket, the
    recorder and its tracks. *)
Inductive Signal :=
| Mount
| Unmount
| Connection (connected : bool)
| TranscriptionUpdate (payload : TranscriptUpdate)
| SessionStatusMessage (status : string) (summary : option SessionSummary)
| SessionError (message : string)
| DataAvailable (size now : Z) (encoded : option (option string))
| RecorderError (message : option string)
| TrackEnded (recorder : MediaRecorderState)
| RecorderEnded.

(** The functions the hook returns. *)
Inductive Call :=
| StartRecording (source : RecordingSource) (env : StartEnv)
| PauseRecording
| ResumeRecording
| StopRecording (stopError : option string)
| Reset
| SetSource (source : RecordingSource).

Inductive Event :=
| Heard (s : Signal)
| Called (c : Call).

Definition hear (h : Hook) (s : Signal) : Hook :=
  match s with
  | Mount => mount h
  | Unmount => unmount h
  | Connection connected => connection connected h
  | TranscriptionUpdate payload => on_transcription_update payload h
  | SessionStatusMessage st summary => on_session_status st summary h
  | SessionError message => on_session_error message h
  | DataAvailable size now encoded => ondataavailable size now encoded h
  | RecorderError message => onerror message h
  | TrackEnded recorder => onended recorder h
  | RecorderEnded => recorder_ended h
  end.

Definition call (user : User) (h : Hook) (c : Call) : Hook :=
  match c with
  | StartRecording source env => startRecording user source env h
  | PauseRecording => pauseRecording h
  | ResumeRecording => resumeRecording h
  | StopRecording stopError => stopRecording stopError h
  | Reset => reset h
  | SetSource source => setSource source h
  end.

Definition handle (user : User) (h : Hook) (ev : Event) : Hook :=
  match ev with
  | Heard s => hear h s
  | Called c => call user h c
  end.

Definition run (user : User) (h : Hook) (evs : list Event) : Hook :=
  foldl (handle user) h evs.

(** A [session:chunk] among emitted messages. *)
Definition is_chunk (m : Emitted) : bool :=
  match m with EmitChunk _ _ _ _ _ _ => true | _ => false end.

Definition is_start (m : Emitted) : bool :=
  match m with EmitStart _ _ _ _ => true | _ => false end.

(** The session a message names, for the messages that control one. *)
Definition controlled (m : Emitted) : option (option string) :=
  match m with
  | EmitPause sessionId | EmitResume sessionId => Some sessionId
  | EmitStop sessionId => Some (Some sessionId)
  | _ => None
  end.

(** A [session:start] for [sessionId] among emitted messages. *)
Definition opened (sessionId : string) (l : list Emitted) : Prop :=
  exists userId userEmail source, EmitStart sessionId userId userEmail source ∈ l.

(** Every message that controls a session names one that a message
    before it has opened. *)
Definition controls_follow_start (l : list Emitted) : Prop :=
  forall n m named,
    l !! n = Some m -> controlled m = Some named ->
    exists sessionId, named = Some sessionId /\ opened sessionId (take n l).

(** What the machine, the recorder ref and the emitted messages of a hook
    have to do with each other. *)
Definition coherent (h : Hook) : Prop :=
  (recorderRef h <> None -> (state h).1 <> idle)
  /\ ((state h).1 <> idle ->
      exists sid, Recorder.sessionId (state h).2 = Some sid /\ opened sid (emitted h))
  /\ controls_follow_start (emitted h).

End Hook.

(** ** The controls of the sessions page ([src/app/sessions/page.tsx]) *)

Module Page.

Inductive Click :=
| ClickStart (env : Hook.StartEnv)
| ClickPause
| ClickResume
| ClickStop (stopError : option string)
| ClickSource (source : RecordingSource).

(** The buttons the page shows, and enables, in each status. *)
Definition offered (status : Hook.SessionStatus) (c : Click) : bool :=
  match status, c with
  | Hook.RECORDING, (ClickPause | ClickStop _) => true
  | Hook.PAUSED, (ClickResume | ClickStop _) => true
  | (Hook.COMPLETED | Hook.FAILED | Hook.IDLE), ClickStart _ => true
  | Hook.IDLE, ClickSource _ => true
  | _, _ => false
  end.

(** The hook function a button calls; [handleStart] passes the source
    the hook reports. *)
Definition onClick (c : Click) (h : Hook.Hook) : Hook.Call :=
  match c with
  | ClickStart env => Hook.StartRecording (Recorder.source (Hook.state h).2) env
  | ClickPause => Hook.PauseRecording
  | ClickResume => Hook.ResumeRecording
  | ClickStop stopError => Hook.StopRecording stopError
  | ClickSource source => Hook.SetSource source
  end.

(** What the mounted page meets: a click on one of its buttons, or
    something the hook listens to. A button the page does not show, or
    shows disabled, cannot be clicked. *)
Inductive Event :=
| User (c : Click)
| Environment (s : Hook.Signal).

Definition handle (user : Hook.User) (h : Hook.Hook) (ev : Event) : Hook.Hook :=
  match ev with
  | User c =>
      if offered (Hook.status h) c then Hook.call user h (onClick c h) else h
  | Environment s => Hook.hear h s
  end.

Definition run (user : Hook.User) (h : Hook.Hook) (evs : list Event) : Hook.Hook :=
  foldl (handle user) h evs.

End Page.

(** ** A page and the server it talks to *)

Module System.
Import Promise Json Prisma.

Record State := mkState {
  client : Hook.Hook;
  server : Server.World
}.

Definition initial : State :=
  {| client := Hook.initial; server := Server.initial |}.

(** The name of a status, as it travels. *)
Definition status_name (st : SessionStatus) : string :=
  match st with
  | PENDING => "PENDING"
  | RECORDING => "RECORDING"
  | PAUSED => "PAUSED"
  | PROCESSING => "PROCESSING"
  | COMPLETED => "COMPLETED"
  | FAILED => "FAILED"
  end.

(** A text of a summary; one that is missing reads as empty. *)
Definition field (k : string) (v : JsValue) : string :=
  match v with
  | JObject fields =>
      match get k fields with
      | Some (JString s) => s
      | _ => EmptyString
      end
  | _ => EmptyString
  end.

(** [payload.summary] as the listener tests and forwards it: there when
    truthy. A summary the server sends has passed the summary upsert, so
    it has its three texts. *)
Definition payload_summary (summary : option JsValue) : option SessionSummary :=
  match summary with
  | Some v =>
      if truthy v then
        Some {| keyPoints := field "keyPoints" v;
                actionItems := field "actionItems" v;
                decisions := field "decisions" v |}
      else None
  | None => None
  end.

(** What a message of the server is to the listeners of the hook;
    [issues] is the text of zod's issues. Nothing listens to
    [session:ack]. *)
Definition listened (issues : string) (m : Server.Message) : option Hook.Signal :=
  match m with
  | Server.transcription_update sid seq text tag conf =>
      Some (Hook.TranscriptionUpdate
              {| tu_sessionId := sid; tu_sequence := seq; tu_text := text;
                 tu_speakerTag := tag; tu_confidence := conf |})
  | Server.session_status st summary =>
      Some (Hook.SessionStatusMessage (status_name st) (payload_summary summary))
  | Server.session_error (Server.Text message) _ => Some (Hook.SessionError message)
  | Server.session_error Server.ZodIssues _ => Some (Hook.SessionError issues)
  | Server.session_ack _ _ => None
  end.

(** What a message of the hook is to the handlers of the server, on the
    connection [socket]; [valid] says whether the payload passes its
    schema, [now], [model] and [fault] are what a stop meets. *)
Definition arrives (socket : nat) (valid : bool) (now : Z)
    (model : Gemini.SummaryModel) (fault : option nat) (m : Hook.Emitted)
    : Server.Event :=
  match m with
  | Hook.EmitStart sid uid mail src =>
      Server.EvStart socket
        (if valid then
           Server.Success {| Server.start_sessionId := sid; Server.userId := uid;
                             Server.userEmail := mail; Server.source := src |}
         else Server.Failure)
  | Hook.EmitChunk sid seq started ended tag audio =>
      Server.EvChunk socket
        match audio with
        | Some a =>
            if valid then
              Server.Success
                {| Server.sessionId := sid; Server.sequence := seq;
                   Server.startedAt := started; Server.endedAt := ended;
                   Server.speakerTag := tag; Server.audio := a;
                   Server.text := None; Server.confidence := None |}
            else Server.Failure
        | None => Server.Failure
        end
  | Hook.EmitPause sid => Server.EvPause sid
  | Hook.EmitResume sid => Server.EvResume sid
  | Hook.EmitStop sid => Server.EvStop (Some sid) now model fault
  end.

(** A signal that is a message of the server. *)
Definition is_message (ev : Hook.Event) : bool :=
  match ev with
  | Hook.Heard (Hook.TranscriptionUpdate _ | Hook.SessionStatusMessage _ _
               | Hook.SessionError _) => true
  | _ => false
  end.

(** What happens in the system: something at the client that is no
    message of the server; the server handles a message the hook has
    emitted; a transcription settles; the hook hears a message the server
    has sent. Messages may arrive late, twice and in any order. *)
Inductive Event :=
| AtClient (ev : Hook.Event)
| Delivered (n : nat) (socket : nat) (valid : bool) (now : Z)
    (model : Gemini.SummaryModel) (fault : option nat)
| Transcribed (payload : nat) (model : Gemini.TranscriptModel)
| Received (n : nat) (issues : string).

Section Run.
Variable JSON_parse : string -> option JsValue.
Variable user : Hook.User.

Definition step (s : State) (ev : Event) : State :=
  match ev with
  | AtClient ev =>
      if is_message ev then s
      else {| client := Hook.handle user (client s) ev; server := server s |}
  | Delivered n socket valid now model fault =>
      match Hook.emitted (client s) !! n with
      | Some m =>
          {| client := client s;
             server := Server.step JSON_parse (server s)
                         (arrives socket valid now model fault m) |}
      | None => s
      end
  | Transcribed payload model =>
      {| client := client s;
         server := Server.step JSON_parse (server s)
                     (Server.EvTranscribed payload model) |}
  | Received n issues =>
      match Server.sent (server s) !! n with
      | Some (_, m) =>
          match listened issues m with
          | Some signal =>
              {| client := Hook.hear (client s) signal; server := server s |}
          | None => s
          end
      | None => s
      end
  end.

Definition run (evs : list Event) : State := foldl step initial evs.
End Run.

End System.

(** ** More notions the properties are stated with *)

Module RecorderNotions.
Import Recorder.

(** The states a recording is in once it was stopped or has failed. *)
Definition stopped (state : RecorderState) : bool :=
  match state with processing | completed | failed => true | _ => false end.

Definition finished (state : RecorderState) : bool :=
  match state with completed | failed => true | _ => false end.

Definition is_reset (ev : RecorderEvent) : bool :=
  match ev with RESET => true | _ => false end.

(** What the context holds in each state of the machine. RESET leaves
    the session id, the summary and the error of the recording that
    ended, so the idle machine can hold them: a summary or an error
    tells that the machine is, or was before it was reset, in
    [completed] or in [failed]. *)
Definition consistent (s : RecorderState * RecorderContext) : Prop :=
  (s.1 = idle -> transcript s.2 = [])
  /\ (s.1 <> idle -> is_Some (sessionId s.2))
  /\ (s.1 = completed -> is_Some (summary s.2))
  /\ (s.1 = failed -> is_Some (error s.2))
  /\ (is_Some (summary s.2) ->
      (s.1 = completed \/ s.1 = idle) /\ error s.2 = None
      /\ is_Some (sessionId s.2))
  /\ (is_Some (error s.2) ->
      (s.1 = failed \/ s.1 = idle) /\ summary s.2 = None
      /\ is_Some (sessionId s.2)).

(** The context with another transcript list. *)
Definition with_transcript (context : RecorderContext)
    (t : list TranscriptUpdate) : RecorderContext :=
  {| sessionId := sessionId context; source := source context;
     transcript := t; summary := summary context; error := error context |}.

End RecorderNotions.

Module Store.
Import Promise Json Prisma Server.

(** The summary rows stored for one session. *)
Definition summaries_at (sessionId : string) (rows : list Summary) : list Summary :=
  List.filter (fun r => String.eqb (sm_sessionId r) sessionId) rows.

(** At most one summary row for every session: what the unique index on
    [Summary.sessionId] keeps. *)
Definition summaries_unique (rows : list Summary) : Prop :=
  forall sessionId, (length (summaries_at sessionId rows) <= 1)%nat.

(** Every chunk buffered under a session id carries that id. *)
Definition buffer_owned (w : World) : Prop :=
  forall sid r p,
    r ∈ default [] (buffer w !! sid) -> heap w !! r = Some p -> sessionId p = sid.

(** The ids of the sessions that [session:start] events of a run name. *)
Definition started_ids (evs : list Event) : list string :=
  omap (fun ev => match ev with
                  | EvStart _ (Success data) => Some (start_sessionId data)
                  | _ => None
                  end) evs.

(** The session row a [session:start] leaves: an existing row with its
    status set, or a new row. *)
Definition started_row (data : StartPayload) (d : Db) : Session :=
  match sessions d !! start_sessionId data with
  | Some s => set_status RECORDING s
  | None => {| s_userId := userId data; s_status := RECORDING;
               s_source := source data; s_endedAt := None |}
  end.

(** Every chunk row and every summary row belongs to a session that has
    its row: what the foreign keys of the two tables ask for. *)
Definition references_hold (d : Db) : Prop :=
  Forall (fun row => is_Some (sessions d !! c_sessionId row)) (transcriptChunks d)
  /\ Forall (fun row => is_Some (sessions d !! sm_sessionId row)) (summaries d).

(** What the states the process reaches satisfy beyond [Spec.well_formed]. *)
Definition sound (w : World) : Prop :=
  buffer_owned w
  /\ summaries_unique (summaries (db w))
  /\ references_hold (db w).

End Store.

Module Quiet.
Import Promise Json Prisma Server.

(** A [session:chunk] event. *)
Definition is_chunk (ev : Event) : bool :=
  match ev with EvChunk _ _ => true | _ => false end.

(** A message that carries a summary. *)
Definition has_summary (m : Target * Message) : bool :=
  match m.2 with session_status _ (Some _) => true | _ => false end.

(** A process that has seen no chunk and asked no model. *)
Definition silent (w : World) : Prop :=
  heap w = [] /\ calls w = []
  /\ transcriptChunks (db w) = [] /\ summaries (db w) = []
  /\ Forall (fun m => has_summary m = false) (sent w).

End Quiet.

Module Running.
Import Promise Json Prisma Server.

(** The pair a chunk is stored under. *)
Definition pair (chunk : ChunkPayload) : string * Z :=
  (sessionId chunk, sequence chunk).

(** The loop of a stop is where its array says: the chunks met are the
    first elements of the array, in its order. An element may have got
    another text since it was met; it has the pair it had. *)
Definition in_step (w : World) (stop : Live.Stop) : Prop :=
  pair <$> Live.met stop
  = take (length (Live.met stop)) (pair <$> Live.elements w stop).

(** The array of a stop refers to payload objects that exist. *)
Definition refs_valid (w : World) (stop : Live.Stop) : Prop :=
  Forall (fun r => (r < length (heap w))%nat) (Live.array w stop).

(** What every state of the process with its running stops satisfies. *)
Definition well_formed (st : Live.State) : Prop :=
  Spec.well_formed (Live.world st)
  /\ Forall (fun stop => refs_valid (Live.world st) stop
                         /\ in_step (Live.world st) stop) (Live.stops st).

(** The chunks of a stop are chunks of its session, in its array and
    among those it has met. *)
Definition owned (w : World) (stop : Live.Stop) : Prop :=
  Forall (fun chunk => sessionId chunk = Live.sessionId stop) (Live.elements w stop)
  /\ Forall (fun chunk => sessionId chunk = Live.sessionId stop) (Live.met stop).

(** Past its first update and before its end, a stop has found the row
    of its session. *)
Definition rooted (w : World) (stop : Live.Stop) : Prop :=
  match Live.awaits stop with
  | Live.UpdateProcessing _ | Live.Over => True
  | _ => is_Some (sessions (db w) !! Live.sessionId stop)
  end.

(** What every state of the process with its running stops satisfies
    beyond [well_formed]. *)
Definition sound (st : Live.State) : Prop :=
  Store.sound (Live.world st)
  /\ Forall (fun stop => owned (Live.world st) stop /\ rooted (Live.world st) stop)
       (Live.stops st).

(** A stop that found no array in the buffer: it holds the empty array of
    [?? []], has the empty transcript and comes to no summary. *)
Definition without_array (sid : string) (stop : Live.Stop) : Prop :=
  Live.sessionId stop = sid
  /\ Live.chunks stop = Live.OutOfBuffer []
  /\ Live.transcript stop = EmptyString
  /\ Live.summary stop = None
  /\ Live.met stop = []
  /\ match Live.awaits stop with
     | Live.Summarize | Live.SummaryUpsert _ | Live.Commit (Some _) => False
     | _ => True
     end.

(** The stop numbered [k] goes on [n] times with nothing in between, the
    database doing what it is asked. *)
Definition alone (k : nat) (summaryModel : Gemini.SummaryModel) (n : nat)
    : list Live.Event :=
  replicate n (Live.Continue k summaryModel false).

(** The same seen from the stop: [n] steps of it, one after the other. *)
Fixpoint continued (JSON_parse : string -> option JsValue)
    (summaryModel : Gemini.SummaryModel) (n : nat) (stop : Live.Stop)
    (w : World) : Live.Stop * World :=
  match n with
  | O => (stop, w)
  | S n' =>
      let '(next, w') := Live.continue JSON_parse stop summaryModel false w in
      continued JSON_parse summaryModel n' next w'
  end.

(** The end of a stop in the database and towards the room: the status
    is set, the room is told, the buffer entry is deleted. *)
Definition closed (sid : string) (st : SessionStatus) (msg : Message)
    (w : World) : World :=
  match session_update sid (set_status st) (db w) with
  | Returned d =>
      with_buffer (with_sent (with_db w d) (sent w ++ [(ToRoom sid, msg)]))
        (delete sid (buffer w))
  | Thrown _ => with_buffer w (delete sid (buffer w))
  end.

(** What a stop comes to when nothing is handled while it waits and the
    database does what it is asked, from the update to PROCESSING on. *)
Definition outcome (JSON_parse : string -> option JsValue)
    (summaryModel : Gemini.SummaryModel) (sid : string)
    (chunks : list ChunkPayload) (transcript : string) (w : World) : World :=
  let w1 := with_calls w (calls w ++ Spec.asked transcript) in
  let failed error :=
    closed sid FAILED
      (session_error (Text "Failed to process summary") (Some error)) w1 in
  match Spec.summary_value JSON_parse summaryModel transcript with
  | Returned summary =>
      match Spec.committed sid chunks summary (db w1) with
      | Returned d =>
          closed sid COMPLETED (session_status COMPLETED summary) (with_db w1 d)
      | Thrown error => failed error
      end
  | Thrown error => failed error
  end.

End Running.

(** ** More runs used as examples *)

Module Examples.
Import Promise Json Prisma Server.

(** The update the server sends for a chunk of session [S]. *)
Definition update (n : Z) (t : string) : TranscriptUpdate :=
  {| tu_sessionId := Scenario.S; tu_sequence := n; tu_text := t;
     tu_speakerTag := "speaker"; tu_confidence := None |}.

Definition summary : SessionSummary :=
  {| keyPoints := "The team met and talked";
     actionItems := "Could not extract action items";
     decisions := "Could not extract decisions" |}.

(** A recorder machine that was stopped after one update. *)
Definition stopped_machine : Recorder.RecorderState * Recorder.RecorderContext :=
  Recorder.run
    [Recorder.START Scenario.S MIC; Recorder.TRANSCRIPT (update 1 "hello");
     Recorder.STOP].

(** The same machine, completed. *)
Definition completed_machine : Recorder.RecorderState * Recorder.RecorderContext :=
  Recorder.run
    [Recorder.START Scenario.S MIC; Recorder.TRANSCRIPT (update 1 "hello");
     Recorder.STOP; Recorder.SUMMARY summary].

(** The payload of [start_S], and the same session asked for by a second
    user with the first one's email. *)
Definition start_data : StartPayload :=
  {| start_sessionId := Scenario.S; userId := "user-1";
     userEmail := "user@example.org"; source := MIC |}.

Definition start_same_email : StartPayload :=
  {| start_sessionId := Scenario.S; userId := "user-2";
     userEmail := "user@example.org"; source := TAB |}.

(** The database with the user of [start_data] and nothing else. *)
Definition one_user : Db :=
  with_users Prisma.empty (<["user-1" := "user@example.org"]> ∅).

(** A summary model that answers with an object and prose around it. *)
Definition chatty_model : string -> Gemini.GenerateResult :=
  fun _ => Gemini.GenText "Here it is: {x} I hope it helps".

Definition prose : string -> Gemini.GenerateResult :=
  fun _ => Gemini.GenText "The team met and talked".

(** A transcription model that labels the speaker. *)
Definition labelling_model : string -> string -> Gemini.GenerateResult :=
  fun _ _ => Gemini.GenText "[Speaker 1]: hello there".

(** The page's user, a browser in which everything works, and one that
    refuses the microphone. *)
Definition demo_user : Hook.User :=
  {| Hook.id := "demo-user"; Hook.email := "demo@scribe.ai" |}.

Definition working : Hook.StartEnv :=
  {| Hook.compatibilityError := None; Hook.connect := None;
     Hook.randomUUID := Scenario.S; Hook.createRecorder := Hook.Created None |}.

(** A page that recorded one session to its end. *)
Definition recorded : list Page.Event :=
  [Page.Environment Hook.Mount; Page.Environment (Hook.Connection true);
   Page.User (Page.ClickStart working); Page.User (Page.ClickStop None);
   Page.Environment (Hook.SessionStatusMessage "COMPLETED" (Some summary))].

(** A hook with its socket connected, and the calls of a session that is
    paused. *)
Definition connected : Hook.Hook :=
  Hook.run demo_user Hook.initial
    [Hook.Heard Hook.Mount; Hook.Heard (Hook.Connection true)].

Definition paused_session : list Hook.Event :=
  [Hook.Heard Hook.Mount; Hook.Heard (Hook.Connection true);
   Hook.Called (Hook.StartRecording MIC working);
   Hook.Called Hook.PauseRecording].

(** The run of [Scenario.at_commit] from the start of the process: chunk
    2 is delivered while the stop waits for its summary. *)
Definition delivery_during_stop : list Live.Event :=
  [Live.SessionStart 7 Scenario.start_S;
   Live.SessionChunk 7 (Success (Scenario.chunk 1 "hello"));
   Live.SessionStop (Some Scenario.S) 1000;
   Live.Continue 0 Scenario.prose_model false;
   Live.SessionChunk 7 (Success (Scenario.chunk 2 "during"));
   Live.Continue 0 Scenario.prose_model false;
   Live.Continue 0 Scenario.prose_model false;
   Live.Continue 0 Scenario.prose_model false;
   Live.Continue 0 Scenario.prose_model false;
   Live.Continue 0 Scenario.prose_model false].

(** Chunk 1 is delivered with its audio alone, and its transcription
    settles while the stop waits for the update that sets PROCESSING. *)
Definition transcription_during_stop : list Live.Event :=
  [Live.SessionStart 7 Scenario.start_S;
   Live.SessionChunk 7 (Success (Scenario.audio_chunk 1));
   Live.SessionStop (Some Scenario.S) 1000;
   Live.Transcribed 0 (Some labelling_model);
   Live.Continue 0 Scenario.prose_model false;
   Live.Continue 0 Scenario.prose_model false;
   Live.Continue 0 Scenario.prose_model false;
   Live.Continue 0 Scenario.prose_model false;
   Live.Continue 0 Scenario.prose_model false].

(** Two stops of one session, the second sent before the first has got
    anywhere; the first runs to its end, then the second. *)
Definition two_stops : list Live.Event :=
  [Live.SessionStart 7 Scenario.start_S;
   Live.SessionChunk 7 (Success (Scenario.chunk 1 "hello"));
   Live.SessionStop (Some Scenario.S) 1000;
   Live.SessionStop (Some Scenario.S) 2000]
  ++ Running.alone 0 Scenario.prose_model 7
  ++ Running.alone 1 Scenario.prose_model 7.

(** A second session, and a summary that names it: the model answers
    with an object that has a [sessionId] beside the three texts. *)
Definition T : string := "223e4567-e89b-42d3-a456-426614174111".

Definition start_T : SafeParse StartPayload :=
  Success {| start_sessionId := T; userId := "user-2";
             userEmail := "other@example.org"; source := MIC |}.

Definition naming_summary : JsValue :=
  JObject [("sessionId", JString T); ("keyPoints", JString "points");
           ("actionItems", JString "items"); ("decisions", JString "none")].

(** The text of that object, the parser that reads it, and a model that
    answers with it. *)
Definition naming_text : string :=
  "{" +:+ Js.dq +:+ "sessionId" +:+ Js.dq +:+ ":" +:+ Js.dq +:+ T +:+ Js.dq +:+ ","
  +:+ Js.dq +:+ "keyPoints" +:+ Js.dq +:+ ":" +:+ Js.dq +:+ "points" +:+ Js.dq +:+ ","
  +:+ Js.dq +:+ "actionItems" +:+ Js.dq +:+ ":" +:+ Js.dq +:+ "items" +:+ Js.dq +:+ ","
  +:+ Js.dq +:+ "decisions" +:+ Js.dq +:+ ":" +:+ Js.dq +:+ "none" +:+ Js.dq +:+ "}".

Definition naming_json : string -> option JsValue :=
  fun s => if String.eqb s naming_text then Some naming_summary else None.

Definition object_model : Gemini.SummaryModel :=
  Some (fun _ => Gemini.GenText naming_text).

(** Session [S] with a chunk, stopped with that answer: when [T] was
    started too, and when it was not. *)
Definition named_other : World :=
  run naming_json initial
    [EvStart 7 Scenario.start_S; EvStart 8 start_T;
     EvChunk 7 (Success (Scenario.chunk 1 "hello"));
     EvStop (Some Scenario.S) 1000 object_model None].

Definition named_missing : World :=
  run naming_json initial
    [EvStart 7 Scenario.start_S;
     EvChunk 7 (Success (Scenario.chunk 1 "hello"));
     EvStop (Some Scenario.S) 1000 object_model None].

End Examples.


(** * Properties *)

(** ** Array built-ins *)

Section ArrayFacts.
Context {A : Type}.
Implicit Types (p : A -> bool) (l : list A) (cmp : A -> A -> Z).

Lemma findIndex_lower p l : -1 <= Js.findIndex p l.
Proof.
  induction l as [|x l IH]; simpl; [lia|].
  destruct (p x); [lia|]. case_decide; lia.
Qed.

Lemma findIndex_none p l :
  Js.findIndex p l < 0 -> Forall (fun x => p x = false) l.
Proof.
  induction l as [|x l IH]; simpl; intros H; [constructor|].
  destruct (p x) eqn:Hp; [lia|].
  case_decide; [lia|]. constructor; [done|]. apply IH. lia.
Qed.

Lemma findIndex_found p l :
  0 <= Js.findIndex p l ->
  exists x, l !! Z.to_nat (Js.findIndex p l) = Some x /\ p x = true.
Proof.
  induction l as [|x l IH]; simpl; [lia|].
  destruct (p x) eqn:Hp; [intros _; by exists x|].
  case_decide as Hi; [|lia]. intros _.
  destruct (IH Hi) as (y & Hy & Hpy). exists y. split; [|done].
  replace (Z.to_nat (Js.findIndex p l + 1)) with (S (Z.to_nat (Js.findIndex p l))) by lia.
  done.
Qed.

Lemma insert_by_perm cmp x l : Js.insert_by cmp x l ≡ₚ x :: l.
Proof.
  induction l as [|y l IH]; simpl; [done|].
  case_decide; [done|]. rewrite IH. apply Permutation_swap.
Qed.

Lemma sort_perm cmp l : Js.sort cmp l ≡ₚ l.
Proof.
  induction l as [|x l IH]; simpl; [done|].
  by rewrite insert_by_perm, IH.
Qed.
End ArrayFacts.

(** Sorting numbers by their difference. *)
Lemma insert_by_sorted (x : Z) (l : list Z) :
  StronglySorted Z.le l -> StronglySorted Z.le (Js.insert_by Z.sub x l).
Proof.
  induction l as [|y l IH]; simpl; intros Hl.
  - repeat constructor.
  - apply StronglySorted_inv in Hl as [Hl Hy]. case_decide as Hxy.
    + constructor; [by constructor|].
      constructor; [lia|]. eapply Forall_impl; [exact Hy|]. simpl. intros; lia.
    + constructor; [by apply IH|].
      rewrite insert_by_perm. constructor; [lia|done].
Qed.

Lemma sort_sorted (l : list Z) : StronglySorted Z.le (Js.sort Z.sub l).
Proof.
  induction l as [|x l IH]; simpl; [constructor|]. by apply insert_by_sorted.
Qed.

(** A sorted list is left as it is. *)
Lemma sort_of_sorted {A} (key : A -> Z) (l : list A) :
  StronglySorted Z.le (key <$> l) ->
  Js.sort (fun a b => key a - key b) l = l.
Proof.
  induction l as [|x l IH]; simpl; intros Hl; [done|].
  apply StronglySorted_inv in Hl as [Hl Hx]. rewrite IH by done.
  destruct l as [|y l]; simpl; [done|].
  apply Forall_inv in Hx. case_decide; [done|lia].
Qed.

Lemma insert_by_fmap {A} (key : A -> Z) (x : A) (l : list A) :
  key <$> Js.insert_by (fun a b => key a - key b) x l
  = Js.insert_by Z.sub (key x) (key <$> l).
Proof.
  induction l as [|y l IH]; simpl; [done|].
  case_decide; simpl; [done|]. f_equal. apply IH.
Qed.

Lemma sort_fmap {A} (key : A -> Z) (l : list A) :
  key <$> Js.sort (fun a b => key a - key b) l = Js.sort Z.sub (key <$> l).
Proof.
  unfold Js.sort. induction l as [|x l IH]; [done|].
  rewrite fmap_cons. cbn [foldr]. by rewrite insert_by_fmap, IH.
Qed.

Lemma sorted_le_NoDup_lt (l : list Z) :
  StronglySorted Z.le l -> NoDup l -> StronglySorted Z.lt l.
Proof.
  induction 1 as [|x l Hl IH Hx]; intros Hnd; [constructor|].
  apply NoDup_cons in Hnd as [Hx' Hnd]. constructor; [by apply IH|].
  apply Forall_forall. intros y Hy.
  rewrite Forall_forall in Hx. specialize (Hx y Hy).
  assert (x <> y) by (intros ->; done). lia.
Qed.

Lemma sorted_lt_NoDup (l : list Z) : StronglySorted Z.lt l -> NoDup l.
Proof.
  induction 1 as [|x l Hl IH Hx]; constructor; [|done].
  intros Hin. rewrite Forall_forall in Hx. specialize (Hx x Hin). lia.
Qed.

(** ** String built-ins on examples *)

Example slice_braces :
  Js.slice "ab{c}d" (Js.indexOf "{"%char "ab{c}d") (Js.lastIndexOf "}"%char "ab{c}d" + 1)
  = "{c}".
Proof. reflexivity. Qed.

Example slice_no_braces :
  Js.slice "abcd" (Js.indexOf "{"%char "abcd") (Js.lastIndexOf "}"%char "abcd" + 1)
  = EmptyString.
Proof. reflexivity. Qed.

Example slice_closing_brace_only :
  Js.slice "abc}" (Js.indexOf "{"%char "abc}") (Js.lastIndexOf "}"%char "abc}" + 1)
  = "}".
Proof. reflexivity. Qed.

Example trim_both_ends : Js.trim "  a b  " = "a b".
Proof. reflexivity. Qed.

Example join_undefined :
  Js.join Js.nl [Some "a"; None; Some "b"] = "a" +:+ Js.nl +:+ Js.nl +:+ "b".
Proof. reflexivity. Qed.

Example sort_is_stable :
  Js.sort (fun a b => a.1 - b.1) [(3, "x"); (1, "first"); (2, "y"); (1, "second")]
  = [(1, "first"); (1, "second"); (2, "y"); (3, "x")].
Proof. reflexivity. Qed.

Example speaker_label :
  Gemini.speakerMatch "[Speaker 1]: hello there " = Some ("Speaker 1", "hello there ")
  /\ Gemini.speakerMatch "[A]: " = Some ("A", " ")
  /\ Gemini.speakerMatch "[]: x" = None
  /\ Gemini.speakerMatch "[A] x" = None
  /\ Gemini.speakerMatch "hello" = None.
Proof. repeat split; reflexivity. Qed.

Example trim_beyond_basic_latin :
  Js.trim (Js.no_break_space +:+ " a b" +:+ Js.byte_order_mark +:+ Js.nl) = "a b"
  /\ Js.trim (Js.line_separator +:+ Js.no_break_space) = EmptyString.
Proof. split; reflexivity. Qed.

Example speaker_label_beyond_basic_latin :
  Gemini.speakerMatch ("[A]:" +:+ Js.no_break_space +:+ "x") = Some ("A", "x")
  /\ Gemini.speakerMatch ("[A]: " +:+ Js.no_break_space) = Some ("A", Js.no_break_space)
  /\ Gemini.speakerMatch ("[A]: x" +:+ Js.line_separator +:+ "y") = None
  /\ Gemini.speakerMatch ("[A]: " +:+ Js.line_separator) = None.
Proof. repeat split; reflexivity. Qed.

(** ** The recorder machine *)

(** The machine stays where it is or follows an arrow of its tables. *)
Lemma recorder_follows_edges s ev :
  (Recorder.transition s ev).1 = s.1
  \/ recorder_edge s.1 (Recorder.transition s ev).1 = true.
Proof. destruct s as [[] context], ev; simpl; auto. Qed.

(** An event a state has no entry for changes nothing. *)
Lemma recorder_drops_unlisted s ev :
  (Recorder.transition s ev).1 = s.1 ->
  (Recorder.transition s ev) = s
  \/ (exists src, ev = Recorder.SET_SOURCE src)
  \/ (exists update, ev = Recorder.TRANSCRIPT update).
Proof. destruct s as [[] context], ev; simpl; intros H; eauto; discriminate. Qed.

(** ** The recorder's transcript list *)

Lemma transcript_action_ascending context update :
  ascending (Recorder.transcript context) ->
  ascending (Recorder.transcript_action context update).
Proof.
  unfold ascending, Recorder.transcript_action. intros Hs.
  set (p := fun chunk => bool_decide (tu_sequence chunk = tu_sequence update)).
  case_decide as Hi.
  - destruct (findIndex_found p _ Hi) as (old & Hold & Hp).
    apply bool_decide_eq_true in Hp.
    rewrite list_fmap_insert, list_insert_id; [done|].
    by rewrite list_lookup_fmap, Hold, <- Hp.
  - rewrite (sort_fmap tu_sequence). apply sorted_le_NoDup_lt; [apply sort_sorted|].
    rewrite sort_perm, fmap_app. simpl.
    apply NoDup_app. split; [by apply sorted_lt_NoDup|]. split; [|apply NoDup_singleton].
    intros z Hz ->%list_elem_of_singleton.
    apply list_elem_of_fmap in Hz as (old & Heq & Hin).
    assert (Hnone : Js.findIndex p (Recorder.transcript context) < 0) by lia.
    apply findIndex_none in Hnone. rewrite Forall_forall in Hnone.
    specialize (Hnone old Hin). apply bool_decide_eq_false in Hnone. congruence.
Qed.

Lemma transition_ascending s ev :
  ascending (Recorder.transcript s.2) ->
  ascending (Recorder.transcript (Recorder.transition s ev).2).
Proof.
  destruct s as [state context]. simpl. intros Hs.
  destruct state, ev; simpl; try done; try constructor.
  by apply transcript_action_ascending.
Qed.

Lemma run_ascending evs : ascending (Recorder.transcript (Recorder.run evs).2).
Proof.
  unfold Recorder.run.
  induction evs as [|ev evs IH] using rev_ind; simpl; [constructor|].
  rewrite foldl_app. simpl. by apply transition_ascending.
Qed.

(** C10. In every context the recorder machine can reach, the transcript
    list is in strictly ascending order of sequence number, hence holds at
    most one entry per sequence number; a TRANSCRIPT update whose sequence
    number stands at some position replaces the entry at that position, an
    update with a new sequence number is appended and the list sorted
    again; and the list this leaves is ascending without repeats again. *)
Theorem recorder_transcript_invariant (evs : list Recorder.RecorderEvent)
    (update : TranscriptUpdate) :
  let context := (Recorder.run evs).2 in
  let next := Recorder.transcript_action context update in
  StronglySorted Z.lt (tu_sequence <$> Recorder.transcript context)
  /\ NoDup (tu_sequence <$> Recorder.transcript context)
  /\ (forall i old, Recorder.transcript context !! i = Some old ->
         tu_sequence old = tu_sequence update ->
         next = <[i := update]> (Recorder.transcript context))
  /\ (Forall (fun old => tu_sequence old <> tu_sequence update)
             (Recorder.transcript context) ->
       next = Js.sort (fun a b => tu_sequence a - tu_sequence b)
                      (Recorder.transcript context ++ [update]))
  /\ (Recorder.transition (Recorder.recording, context) (Recorder.TRANSCRIPT update)).2
       = {| Recorder.sessionId := Recorder.sessionId context;
            Recorder.source := Recorder.source context;
            Recorder.transcript := next;
            Recorder.summary := Recorder.summary context;
            Recorder.error := Recorder.error context |}
  /\ StronglySorted Z.lt (tu_sequence <$> next)
  /\ NoDup (tu_sequence <$> next).
Proof.
  intros context next.
  pose proof (run_ascending evs) as Hs. fold context in Hs.
  pose proof (transcript_action_ascending context update Hs) as Hn. fold next in Hn.
  split; [exact Hs|]. split; [by apply sorted_lt_NoDup|].
  split; [|split; [|split; [done|split; [exact Hn|by apply sorted_lt_NoDup]]]].
  - intros i old Hi Heq. subst next. unfold Recorder.transcript_action.
    set (p := fun chunk => bool_decide (tu_sequence chunk = tu_sequence update)).
    assert (Hp : p old = true) by (by apply bool_decide_eq_true).
    destruct (decide (0 <= Js.findIndex p (Recorder.transcript context))) as [Hj|Hj].
    + destruct (findIndex_found p _ Hj) as (old' & Hold' & Hp').
      apply bool_decide_eq_true in Hp'. f_equal.
      apply sorted_lt_NoDup in Hs.
      eapply (NoDup_lookup _ _ _ (tu_sequence update) Hs).
      * by rewrite list_lookup_fmap, Hold', <- Hp'.
      * by rewrite list_lookup_fmap, Hi, <- Heq.
    + assert (Hnone : Js.findIndex p (Recorder.transcript context) < 0) by lia.
      apply findIndex_none in Hnone. rewrite Forall_forall in Hnone.
      rewrite Hnone in Hp; [done|]. by eapply list_elem_of_lookup_2.
  - intros Hall. subst next. unfold Recorder.transcript_action.
    set (p := fun chunk => bool_decide (tu_sequence chunk = tu_sequence update)).
    case_decide as Hj; [|done].
    destruct (findIndex_found p _ Hj) as (old' & Hold' & Hp').
    apply bool_decide_eq_true in Hp'.
    rewrite Forall_forall in Hall. destruct (Hall old'); [|done].
    by eapply list_elem_of_lookup_2.
Qed.

(** ** Handlers of the server *)

Import Promise Json Prisma Server.

Ltac unfold_m :=
  unfold mbind, mret, M_bind, M_ret, bind, ret, throw, gets, modify, emit,
    call, prisma, try_catch, finally in *.

Lemma with_db_same w : with_db w (db w) = w.
Proof. by destruct w. Qed.

(** What [chunk_received] does with a payload the schema accepts. *)
Lemma chunk_received_world socket data w :
  let payload := length (heap w) in
  let w' := (chunk_received socket (Success data) w).2 in
  heap w' = heap w ++ [data]
  /\ buffer w' = <[sessionId data :=
                    default [] (buffer w !! sessionId data) ++ [payload]]> (buffer w)
  /\ db w' = db w /\ rooms w' = rooms w
  /\ ((chunk_received socket (Success data) w).1 = Returned (Some payload)
       /\ sent w' = sent w /\ inflight w' = inflight w ++ [payload]
       /\ calls w' = calls w ++ [CallTranscribe (audio data) "audio/webm"]
      \/ (chunk_received socket (Success data) w).1 = Returned None
       /\ sent w' = sent w ++
            [(ToRoom (sessionId data),
              transcription_update (sessionId data) (sequence data)
                (default EmptyString (text data)) (speakerTag data)
                (confidence data))]
       /\ inflight w' = inflight w /\ calls w' = calls w).
Proof.
  unfold chunk_received. unfold_m. simpl.
  destruct (negb (option_truthy (text data)) && Js.truthy_string (audio data));
    simpl; (split; [done|]); (split; [by destruct (buffer w !! sessionId data)|]);
    (split; [done|]); (split; [done|]); [left|right]; done.
Qed.

(** C5, as the code has it. Acceptance of a chunk has no precondition on
    the session: for every state of the process and every payload the
    schema accepts, the handler does not throw, the payload object is put
    at the end of the array of its session id, a new one-element array is
    made when the buffer has none for that id (a session the server is not
    tracking), the database is not consulted or changed, and no
    session:error is sent. *)
Theorem chunk_accepted_in_every_state (socket : nat) (data : ChunkPayload)
    (w : World) :
  let result := chunk_received socket (Success data) w in
  (exists waiting, result.1 = Returned waiting)
  /\ heap result.2 !! length (heap w) = Some data
  /\ buffer result.2 !! sessionId data
       = Some (default [] (buffer w !! sessionId data) ++ [length (heap w)])
  /\ (buffer w !! sessionId data = None ->
       buffer result.2 !! sessionId data = Some [length (heap w)])
  /\ db result.2 = db w
  /\ List.filter Spec.is_error (sent result.2) = List.filter Spec.is_error (sent w).
Proof.
  intros result. subst result.
  destruct (chunk_received_world socket data w)
    as (Hheap & Hbuf & Hdb & _ & Hcases).
  split; [destruct Hcases as [(-> & _)|(-> & _)]; eauto|].
  split; [rewrite Hheap; by apply list_lookup_middle|].
  split; [by rewrite Hbuf, lookup_insert_eq|].
  split; [intros Hnone; by rewrite Hbuf, lookup_insert_eq, Hnone|].
  split; [done|].
  destruct Hcases as [(_ & -> & _)|(_ & -> & _)]; [done|].
  rewrite List.filter_app. simpl. by rewrite app_nil_r.
Qed.

(** C5, counterexample. Nothing was started: the server tracks no session
    and its buffer is empty. A chunk for session [S] is accepted all the
    same: it is in a new buffer entry for [S], its update was sent to the
    room, and no error went out. *)
Lemma untracked_session_chunk_buffered :
  sessions (db initial) !! Scenario.S = None
  /\ buffer initial !! Scenario.S = None
  /\ buffer Scenario.untracked_chunk !! Scenario.S = Some [0%nat]
  /\ buffered Scenario.untracked_chunk Scenario.S = [Scenario.chunk 1 "hello"]
  /\ sent Scenario.untracked_chunk
     = [(ToRoom Scenario.S,
         transcription_update Scenario.S 1 "hello" "speaker" None)].
Proof. repeat split; vm_compute; reflexivity. Qed.

(** ** Transactions *)

Lemma tx_write_db_only f : Spec.db_only (tx_write f).
Proof. intros w. by exists (Returned tt), (f (db w)). Qed.

Lemma prisma_db_only op : Spec.db_only (prisma op).
Proof.
  intros w. unfold prisma. destruct (op (db w)) as [d|e].
  - by exists (Returned tt), d.
  - exists (Thrown e), (db w). by rewrite with_db_same.
Qed.

Lemma throw_db_only e : Spec.db_only (throw e).
Proof. intros w. exists (Thrown e), (db w). unfold throw. by rewrite with_db_same. Qed.

Lemma tx_statements_db_only sessionId chunks summary :
  Forall Spec.db_only (tx_statements sessionId chunks summary).
Proof.
  unfold tx_statements. apply Forall_app. split.
  - apply Forall_forall. intros m (chunk & -> & _)%list_elem_of_fmap.
    apply tx_write_db_only.
  - destruct summary as [v|]; [|constructor].
    destruct (truthy v); [|constructor].
    constructor; [|constructor].
    destruct (summary_columns sessionId v);
      [apply prisma_db_only|apply throw_db_only].
Qed.

Lemma statements_db_only fault i stmts :
  Forall Spec.db_only stmts -> Spec.db_only (statements fault i stmts).
Proof.
  intros Hall. revert i.
  induction Hall as [|stmt stmts Hstmt _ IH]; intros i w; simpl.
  - exists (Returned tt), (db w). unfold_m. by rewrite with_db_same.
  - unfold_m. case_bool_decide.
    + exists (Thrown DatabaseFault), (db w). by rewrite with_db_same.
    + destruct (Hstmt w) as (r & d & ->). destruct r as [[]|e].
      * destruct (IH (Datatypes.S i) (with_db w d)) as (r' & d' & ->).
        by exists r', d'.
      * by exists (Thrown e), d.
Qed.

(** A transaction the database fails leaves the process as it was. *)
Lemma transaction_fault k stmts w :
  Forall Spec.db_only stmts ->
  exists e, transaction (Some k) stmts w = (Thrown e, w).
Proof.
  intros Hall. unfold transaction. unfold_m.
  destruct (statements_db_only (Some k) 0 stmts Hall w) as (r & d & ->).
  destruct r as [[]|e]; simpl.
  - exists DatabaseFault. f_equal. by destruct w.
  - exists e. f_equal. by destruct w.
Qed.

Lemma statements_chunks i chunks rest w :
  statements None i
    (map (fun chunk => tx_write (transcriptChunk_upsert (chunk_row chunk))) chunks
     ++ rest) w
  = statements None (i + length chunks) rest
      (with_db w (with_transcriptChunks (db w)
                    (Spec.upsert_all chunks (transcriptChunks (db w))))).
Proof.
  revert i w. induction chunks as [|chunk chunks IH]; intros i w; simpl.
  - rewrite Nat.add_0_r. f_equal. destruct w as [? ? ? [] ? ? ?]. done.
  - unfold_m. simpl. rewrite IH. simpl. f_equal. lia.
Qed.

(** A transaction the database does not fail commits every upsert, unless
    the summary upsert throws. *)
Lemma transaction_commit sessionId chunks summary w :
  transaction None (tx_statements sessionId chunks summary) w
  = match Spec.committed sessionId chunks summary (db w) with
    | Returned d => (Returned tt, with_db w d)
    | Thrown e => (Thrown e, w)
    end.
Proof.
  unfold transaction, tx_statements, Spec.committed, Spec.summary_written.
  unfold mbind, M_bind, bind at 1. rewrite statements_chunks.
  destruct summary as [v|]; [destruct (truthy v)|]; simpl; unfold_m; simpl; try done.
  destruct (summary_columns sessionId v) as [row|]; simpl.
  - unfold prisma. simpl.
    destruct (summary_upsert_at sessionId row _) as [d|e]; simpl; [done|].
    f_equal. destruct w as [? ? ? [] ? ? ?]. done.
  - f_equal. destruct w as [? ? ? [] ? ? ?]. done.
Qed.

(** ** The stop handler, case by case *)

Section StopFacts.
Variable JSON_parse : string -> option JsValue.

Lemma summary_of_value model transcript w :
  exists w1,
    summary_of JSON_parse model transcript w
    = (Spec.summary_value JSON_parse model transcript, w1)
    /\ heap w1 = heap w /\ buffer w1 = buffer w /\ inflight w1 = inflight w
    /\ db w1 = db w /\ rooms w1 = rooms w /\ sent w1 = sent w
    /\ calls w1 = calls w ++ Spec.asked transcript.
Proof.
  unfold summary_of, Spec.summary_value, Spec.asked.
  destruct (Js.truthy_string transcript); unfold_m; simpl.
  - destruct (Gemini.summarizeTranscript JSON_parse model transcript);
      eexists; (split; [reflexivity|]); simpl; done.
  - exists w. by rewrite app_nil_r.
Qed.

Lemma summary_upsert_at_written sid create d d' :
  summary_upsert_at sid create d = Returned d' ->
  d' = with_summaries d (summary_rows_at sid create (summaries d)).
Proof.
  unfold summary_upsert_at. intros H.
  repeat (case_match; try done); by injection H as <-.
Qed.

Lemma summary_rows_at_own create rows :
  summary_rows_at (sm_sessionId create) create rows
  = summary_upsert_rows create rows.
Proof. induction rows as [|r rows IH]; simpl; [done|]. by rewrite IH. Qed.

(** An upsert that keeps the session id of its [where] goes through when
    the session is there. *)
Lemma summary_upsert_at_own sid create d :
  sm_sessionId create = sid ->
  is_Some (sessions d !! sid) ->
  summary_upsert_at sid create d
  = Returned (with_summaries d (summary_upsert_rows create (summaries d))).
Proof.
  intros <- [s Hs]. unfold summary_upsert_at.
  rewrite String.eqb_refl, andb_true_r, summary_rows_at_own. simpl.
  destruct (summary_under _ _); [done|].
  rewrite bool_decide_eq_false_2; [done|]. by rewrite Hs.
Qed.

Lemma summary_columns_fallback sid text :
  summary_columns sid (Gemini.fallback_summary text)
  = Some {| sm_sessionId := sid; sm_keyPoints := text;
            sm_actionItems := "Could not extract action items";
            sm_decisions := "Could not extract decisions" |}.
Proof. reflexivity. Qed.

Lemma committed_tables sid chunks summary d d' :
  Spec.committed sid chunks summary d = Returned d' ->
  users d' = users d /\ sessions d' = sessions d.
Proof.
  unfold Spec.committed. destruct (Spec.summary_written summary) as [v|].
  - destruct (summary_columns sid v); [|done].
    by intros ->%summary_upsert_at_written.
  - by intros [= <-].
Qed.

(** The [try]/[catch]/[finally] block, for a session that has its row. *)
Lemma finalize_outcome sid chunks transcript model fault w p :
  sessions (db w) !! sid = Some p ->
  exists w',
    finalize JSON_parse sid chunks transcript model fault w = (Returned tt, w')
    /\ heap w' = heap w /\ inflight w' = inflight w /\ rooms w' = rooms w
    /\ buffer w' = delete sid (buffer w)
    /\ calls w' = calls w ++ Spec.asked transcript
    /\ users (db w') = users (db w)
    /\ ((exists summary d,
           Spec.summary_value JSON_parse model transcript = Returned summary
           /\ fault = None
           /\ Spec.committed sid chunks summary (db w) = Returned d
           /\ sessions (db w') = <[sid := set_status COMPLETED p]> (sessions (db w))
           /\ transcriptChunks (db w') = transcriptChunks d
           /\ summaries (db w') = summaries d
           /\ sent w' = sent w ++ [(ToRoom sid, session_status COMPLETED summary)])
        \/ (exists e,
             (Spec.summary_value JSON_parse model transcript = Thrown e
              \/ exists summary,
                   Spec.summary_value JSON_parse model transcript = Returned summary
                   /\ (fault <> None
                       \/ Spec.committed sid chunks summary (db w) = Thrown e))
             /\ sessions (db w') = <[sid := set_status FAILED p]> (sessions (db w))
             /\ transcriptChunks (db w') = transcriptChunks (db w)
             /\ summaries (db w') = summaries (db w)
             /\ sent w' = sent w ++
                  [(ToRoom sid,
                    session_error (Text "Failed to process summary") (Some e))])).
Proof.
  intros Hp.
  destruct (summary_of_value model transcript w)
    as (w3 & Hsum & Hh & Hb & Hi & Hd & Hr & Hse & Hc).
  unfold finalize, finally, try_catch.
  unfold mbind, M_bind, bind at 1. rewrite Hsum.
  destruct (Spec.summary_value JSON_parse model transcript) as [summary|e] eqn:Hval.
  - destruct fault as [k|].
    + destruct (transaction_fault k (tx_statements sid chunks summary) w3)
        as (e & Htx); [apply tx_statements_db_only|].
      unfold bind at 1. rewrite Htx.
      unfold_m. unfold session_update. rewrite Hd, Hp. simpl.
      eexists. split; [reflexivity|]. simpl.
      rewrite ?Hh, ?Hi, ?Hr, ?Hb, ?Hc, ?Hd, ?Hse. repeat (split; [done|]).
      right. exists e. split; [right; exists summary; split; [done|by left]|done].
    + unfold bind at 1. rewrite transaction_commit. rewrite Hd.
      destruct (Spec.committed sid chunks summary (db w)) as [d|e] eqn:Hcom.
      * destruct (committed_tables _ _ _ _ _ Hcom) as [Hu Hss].
        unfold_m. unfold session_update. simpl. rewrite Hss, Hp. simpl.
        eexists. split; [reflexivity|]. simpl.
        rewrite ?Hh, ?Hi, ?Hr, ?Hb, ?Hc, ?Hd, ?Hse. repeat (split; [done|]).
        left. by exists summary, d.
      * unfold_m. unfold session_update. rewrite Hd, Hp. simpl.
        eexists. split; [reflexivity|]. simpl.
        rewrite ?Hh, ?Hi, ?Hr, ?Hb, ?Hc, ?Hd, ?Hse. repeat (split; [done|]).
        right. exists e.
        split; [right; exists summary; split; [done|by right]|done].
  - unfold_m. unfold session_update. rewrite Hd, Hp. simpl.
    eexists. split; [reflexivity|]. simpl.
    rewrite ?Hh, ?Hi, ?Hr, ?Hb, ?Hc, ?Hd, ?Hse. repeat (split; [done|]).
    right. exists e. split; [by left|done].
Qed.

(** The stop handler, for a session that has its row. *)
Lemma session_stop_outcome sid now model fault w s :
  Js.truthy_string sid = true ->
  sessions (db w) !! sid = Some s ->
  let chunks := buffered w sid in
  let transcript := build_transcript chunks in
  let processing := set_status_ended PROCESSING now s in
  let d1 := with_sessions (db w) (<[sid := processing]> (sessions (db w))) in
  let announced := (ToRoom sid, session_status PROCESSING None) in
  exists w',
    session_stop JSON_parse (Some sid) now model fault w = (Returned tt, w')
    /\ heap w' = heap w /\ inflight w' = inflight w /\ rooms w' = rooms w
    /\ buffer w' = delete sid (buffer w)
    /\ calls w' = calls w ++ Spec.asked transcript
    /\ users (db w') = users (db w)
    /\ ((exists summary d,
           Spec.summary_value JSON_parse model transcript = Returned summary
           /\ fault = None
           /\ Spec.committed sid chunks summary d1 = Returned d
           /\ sessions (db w') = <[sid := set_status COMPLETED processing]> (sessions (db w))
           /\ transcriptChunks (db w') = transcriptChunks d
           /\ summaries (db w') = summaries d
           /\ sent w' = sent w ++ [announced; (ToRoom sid, session_status COMPLETED summary)])
        \/ (exists e,
             (Spec.summary_value JSON_parse model transcript = Thrown e
              \/ exists summary,
                   Spec.summary_value JSON_parse model transcript = Returned summary
                   /\ (fault <> None \/ Spec.committed sid chunks summary d1 = Thrown e))
             /\ sessions (db w') = <[sid := set_status FAILED processing]> (sessions (db w))
             /\ transcriptChunks (db w') = transcriptChunks (db w)
             /\ summaries (db w') = summaries (db w)
             /\ sent w' = sent w ++
                  [announced;
                   (ToRoom sid,
                    session_error (Text "Failed to process summary") (Some e))])).
Proof.
  intros Hsid Hs chunks transcript processing d1 announced.
  set (w2 := with_db (with_sent w (sent w ++ [announced])) d1).
  assert (Hres : session_stop JSON_parse (Some sid) now model fault w
                 = finalize JSON_parse sid chunks transcript model fault w2).
  { unfold session_stop, falsy_id. rewrite Hsid. simpl.
    unfold_m. unfold session_update. simpl. by rewrite Hs. }
  rewrite Hres. clear Hres.
  destruct (finalize_outcome sid chunks transcript model fault w2 processing)
    as (w' & -> & Hh & Hi & Hr & Hb & Hc & Hu & Hcases).
  { subst w2 d1. simpl. apply lookup_insert_eq. }
  exists w'. split; [done|]. subst w2. simpl in *.
  repeat (split; [done|]).
  destruct Hcases as [(summary & d & Hv & Hf & Hcom & Hss & Ht & Hsm & Hsent)
                     |(e & Hwhy & Hss & Ht & Hsm & Hsent)].
  - left. exists summary, d. rewrite Hss, Hsent, insert_insert_eq, <- app_assoc. done.
  - right. exists e. rewrite Hss, Hsent, insert_insert_eq, <- app_assoc. done.
Qed.

Lemma committed_written sid chunks summary d d' :
  Spec.committed sid chunks summary d = Returned d' ->
  transcriptChunks d' = Spec.upsert_all chunks (transcriptChunks d)
  /\ summaries d' = Spec.summaries_after sid summary (summaries d).
Proof.
  unfold Spec.committed, Spec.summaries_after.
  destruct (Spec.summary_written summary) as [v|].
  - destruct (summary_columns sid v); [|done].
    by intros ->%summary_upsert_at_written.
  - by intros [= <-].
Qed.

Lemma status_of_insert w sid row (m : gmap string Session) :
  sessions (db w) = <[sid := row]> m -> status_of w sid = Some (s_status row).
Proof. unfold status_of. intros ->. by rewrite lookup_insert_eq. Qed.

(** C6. A stop whose assembled transcript is empty, as it is when no
    chunk was delivered, skips the summarization: the gateway is not
    called and the summary table stays as it is, whatever the database
    does; and when the database does not fail the transaction, no
    session:error is sent and the session goes through PROCESSING to
    COMPLETED, the completion message carrying no summary. This is for a
    session that has its row. *)
Theorem empty_transcript_completes_without_summary (sid : string) (now : Z)
    (model : Gemini.SummaryModel) (fault : option nat) (w : World)
    (s : Session) :
  Js.truthy_string sid = true ->
  sessions (db w) !! sid = Some s ->
  build_transcript (buffered w sid) = EmptyString ->
  let w' := step JSON_parse w (EvStop (Some sid) now model fault) in
  build_transcript [] = EmptyString
  /\ calls w' = calls w
  /\ summaries (db w') = summaries (db w)
  /\ (fault = None ->
      sent w' = sent w ++ [(ToRoom sid, session_status PROCESSING None);
                           (ToRoom sid, session_status COMPLETED None)]
      /\ status_of w' sid = Some COMPLETED).
Proof.
  intros Hsid Hs Hempty w'. subst w'. unfold step, handle.
  destruct (session_stop_outcome sid now model fault w s Hsid Hs)
    as (w' & -> & _ & _ & _ & _ & Hc & _ & Hcases). simpl.
  rewrite Hempty in Hc, Hcases. unfold Spec.summary_value, Spec.asked in *.
  simpl in Hc, Hcases. rewrite app_nil_r in Hc.
  split; [done|]. split; [done|].
  destruct Hcases as [(summary & d & [= <-] & _ & Hcom & Hss & _ & Hsm & Hsent)
                     |(e & Hwhy & _ & _ & Hsm & _)].
  - apply committed_written in Hcom as [_ Hsums].
    split; [by rewrite Hsm, Hsums|]. intros _.
    split; [done|]. by rewrite (status_of_insert _ _ _ _ Hss).
  - split; [done|]. intros ->.
    destruct Hwhy as [Hthrown|(summary & [= <-] & [Hfault|Hcom])]; done.
Qed.

(** C8, as the code has it. At a stop over a non-empty transcript, for a
    session that has its row and a database that does not fail the
    transaction: when the model answers with a text whose cut from the
    first opening to the last closing brace is no JSON, the gateway
    returns the degraded summary (the raw text as key points, the two
    fixed sentences for action items and decisions), its row is
    upserted and the session is COMPLETED; when the gateway throws, as
    it does when the model call fails or no model is configured, the
    summary table is left alone, the session is FAILED and the room is
    sent the session:error. *)
Theorem summary_degrades_or_fails (sid : string) (now : Z)
    (model : Gemini.SummaryModel) (w : World) (s : Session) :
  Js.truthy_string sid = true ->
  sessions (db w) !! sid = Some s ->
  let transcript := build_transcript (buffered w sid) in
  Js.truthy_string transcript = true ->
  let w' := step JSON_parse w (EvStop (Some sid) now model None) in
  (forall generateContent text,
      model = Some generateContent ->
      generateContent (Gemini.summary_prompt transcript) = Gemini.GenText text ->
      JSON_parse (Js.slice text (Js.indexOf "{"%char text)
                           (Js.lastIndexOf "}"%char text + 1)) = None ->
      Gemini.summarizeTranscript JSON_parse model transcript
        = Returned (Gemini.fallback_summary text)
      /\ status_of w' sid = Some COMPLETED
      /\ summaries (db w')
         = summary_upsert_rows
             {| sm_sessionId := sid; sm_keyPoints := text;
                sm_actionItems := "Could not extract action items";
                sm_decisions := "Could not extract decisions" |}
             (summaries (db w))
      /\ last (sent w')
         = Some (ToRoom sid,
                 session_status COMPLETED (Some (Gemini.fallback_summary text))))
  /\ (forall e,
        Gemini.summarizeTranscript JSON_parse model transcript = Thrown e ->
        status_of w' sid = Some FAILED
        /\ summaries (db w') = summaries (db w)
        /\ last (sent w')
           = Some (ToRoom sid,
                   session_error (Text "Failed to process summary") (Some e)))
  /\ (model = None ->
      Gemini.summarizeTranscript JSON_parse model transcript
        = Thrown GeminiNotConfigured)
  /\ (forall generateContent,
        model = Some generateContent ->
        generateContent (Gemini.summary_prompt transcript) <> Gemini.GenRejects ->
        generateContent (Gemini.summary_prompt transcript) <> Gemini.GenNoResponse ->
        exists v, Gemini.summarizeTranscript JSON_parse model transcript = Returned v)
  /\ (forall generateContent,
        model = Some generateContent ->
        generateContent (Gemini.summary_prompt transcript) = Gemini.GenRejects ->
        Gemini.summarizeTranscript JSON_parse model transcript
          = Thrown GeminiCallFailed).
Proof.
  intros Hsid Hs transcript Htruthy w'. subst w'. unfold step, handle.
  destruct (session_stop_outcome sid now model None w s Hsid Hs)
    as (w' & -> & _ & _ & _ & _ & _ & _ & Hcases). simpl.
  fold transcript in Hcases. unfold Spec.summary_value in Hcases.
  rewrite Htruthy in Hcases.
  split; [|split; [|split; [|split]]].
  - intros generateContent text -> Hgen Hparse.
    assert (Hgw : Gemini.summarizeTranscript JSON_parse (Some generateContent) transcript
                  = Returned (Gemini.fallback_summary text)).
    { unfold Gemini.summarizeTranscript, Gemini.parse_summary. by rewrite Hgen, Hparse. }
    split; [done|]. rewrite Hgw in Hcases.
    assert (Hup : forall d,
              Spec.committed sid (buffered w sid)
                (Some (Gemini.fallback_summary text))
                (with_sessions (db w) (<[sid := set_status_ended PROCESSING now s]>
                                         (sessions (db w)))) = d ->
              exists d', d = Returned d'
                /\ summaries d'
                   = summary_upsert_rows
                       {| sm_sessionId := sid; sm_keyPoints := text;
                          sm_actionItems := "Could not extract action items";
                          sm_decisions := "Could not extract decisions" |}
                       (summaries (db w))).
    { intros d <-. unfold Spec.committed.
      change (Spec.summary_written (Some (Gemini.fallback_summary text)))
        with (Some (Gemini.fallback_summary text)).
      cbv beta iota. rewrite summary_columns_fallback.
      rewrite summary_upsert_at_own; [by eexists|done|].
      simpl. rewrite lookup_insert_eq. by eexists. }
    destruct Hcases as [(summary & d & [= <-] & _ & Hcom & Hss & _ & Hsm & Hsent)
                       |(e & [Hthrown|(summary & [= <-] & [Hfault|Hcom])] & _)];
      try done.
    + destruct (Hup _ Hcom) as (d' & [= <-] & Hsums).
      split; [by rewrite (status_of_insert _ _ _ _ Hss)|].
      split; [by rewrite Hsm, Hsums|].
      rewrite Hsent. by rewrite (last_app_cons _ _ _), last_cons.
    + by destruct (Hup _ Hcom) as (d' & [=] & _).
  - intros e He. rewrite He in Hcases.
    destruct Hcases as [(summary & d & Hv & _)
                       |(e' & [[= <-]|(summary & Hv & _)] & Hss & _ & Hsm & Hsent)];
      try done.
    split; [by rewrite (status_of_insert _ _ _ _ Hss)|]. split; [done|].
    rewrite Hsent. by rewrite (last_app_cons _ _ _), last_cons.
  - by intros ->.
  - intros generateContent -> Hr Hn. unfold Gemini.summarizeTranscript.
    destruct (generateContent (Gemini.summary_prompt transcript)); [done|done|eauto].
  - intros generateContent -> Hr. unfold Gemini.summarizeTranscript. by rewrite Hr.
Qed.

(** The match at the heart of C3 and C4: what a stop does to a session
    that has its row, whatever the status in that row. *)
Lemma stop_reruns sid now model fault w s :
  Js.truthy_string sid = true ->
  sessions (db w) !! sid = Some s ->
  let w' := step JSON_parse w (EvStop (Some sid) now model fault) in
  exists final closing,
    (final = COMPLETED \/ final = FAILED)
    /\ status_of w' sid = Some final
    /\ sent w' = sent w ++ [(ToRoom sid, session_status PROCESSING None); closing]
    /\ calls w' = calls w ++ Spec.asked (build_transcript (buffered w sid))
    /\ s_endedAt <$> sessions (db w') !! sid = Some (Some now).
Proof.
  intros Hsid Hs w'. subst w'. unfold step, handle.
  destruct (session_stop_outcome sid now model fault w s Hsid Hs)
    as (w' & -> & _ & _ & _ & _ & Hc & _ & Hcases). simpl.
  destruct Hcases as [(summary & d & _ & _ & _ & Hss & _ & _ & Hsent)
                     |(e & _ & Hss & _ & _ & Hsent)].
  - exists COMPLETED, (ToRoom sid, session_status COMPLETED summary).
    split; [by left|]. split; [by rewrite (status_of_insert _ _ _ _ Hss)|].
    split; [done|]. split; [done|]. by rewrite Hss, lookup_insert_eq.
  - exists FAILED, (ToRoom sid, session_error (Text "Failed to process summary") (Some e)).
    split; [by right|]. split; [by rewrite (status_of_insert _ _ _ _ Hss)|].
    split; [done|]. split; [done|]. by rewrite Hss, lookup_insert_eq.
Qed.





(** C4, as the code has it. COMPLETED and FAILED close nothing on the
    server. For a session whose row is COMPLETED or FAILED, a chunk is
    taken like any other: the handler does not throw, the payload goes
    on the array of the session (a new one after a finalization), no
    session:error is sent and the status stays; and a stop runs the
    finalization once more: PROCESSING is announced, the summarizer is
    asked when what is buffered has text, and the session ends in
    COMPLETED or FAILED again. *)
Theorem terminal_sessions_take_events (sid : string) (socket : nat)
    (data : ChunkPayload) (now : Z) (model : Gemini.SummaryModel)
    (fault : option nat) (w : World) (s : Session) :
  Js.truthy_string sid = true ->
  sessions (db w) !! sid = Some s ->
  Spec.terminal (s_status s) = true ->
  sessionId data = sid ->
  let late := chunk_received socket (Success data) w in
  let again := step JSON_parse w (EvStop (Some sid) now model fault) in
  (exists waiting, late.1 = Returned waiting)
  /\ buffer late.2 !! sid
     = Some (default [] (buffer w !! sid) ++ [length (heap w)])
  /\ heap late.2 !! length (heap w) = Some data
  /\ List.filter Spec.is_error (sent late.2) = List.filter Spec.is_error (sent w)
  /\ status_of late.2 sid = Some (s_status s)
  /\ exists final closing,
       (final = COMPLETED \/ final = FAILED)
       /\ status_of again sid = Some final
       /\ sent again
          = sent w ++ [(ToRoom sid, session_status PROCESSING None); closing]
       /\ calls again
          = calls w ++ Spec.asked (build_transcript (buffered w sid)).
Proof.
  intros Hsid Hs _ <- late again. subst late again.
  destruct (chunk_received_world socket data w)
    as (Hheap & Hbuf & Hdb & _ & Hcases).
  split; [destruct Hcases as [(-> & _)|(-> & _)]; eauto|].
  split; [by rewrite Hbuf, lookup_insert_eq|].
  split; [rewrite Hheap; by apply list_lookup_middle|].
  split.
  { destruct Hcases as [(_ & -> & _)|(_ & -> & _)]; [done|].
    rewrite List.filter_app. simpl. by rewrite app_nil_r. }
  split; [unfold status_of; by rewrite Hdb, Hs|].
  destruct (stop_reruns (sessionId data) now model fault w s Hsid Hs)
    as (final & closing & Hf & Hst & Hsent & Hcalls & _).
  by exists final, closing.
Qed.
End StopFacts.

(** ** Transcription failures *)

(** C7. When the model call behind a chunk's transcription fails, the
    gateway returns the empty transcription (empty text, speaker tag
    speaker, confidence zero) instead of throwing; the waiting chunk
    handler writes it into the buffered payload object and sends the
    update to the room with the empty text; the database, hence the status
    of every session, and the buffer are as before; and the next chunk,
    whichever it is, is accepted and put on its session's array. *)
Theorem transcription_failure_absorbed (payload : nat) (p : ChunkPayload)
    (generateContent : string -> string -> Gemini.GenerateResult) (w : World) :
  payload ∈ inflight w ->
  heap w !! payload = Some p ->
  generateContent (audio p) "audio/webm" = Gemini.GenRejects ->
  let settled := chunk_transcribed payload (Some generateContent) w in
  let w' := settled.2 in
  Gemini.transcribeAudio (Some generateContent) (audio p) "audio/webm"
    = Returned {| Gemini.t_text := EmptyString; Gemini.t_speakerTag := "speaker";
                  Gemini.t_confidence := Some 0%Q |}
  /\ settled.1 = Returned tt
  /\ heap w' !! payload
     = Some {| sessionId := sessionId p; sequence := sequence p;
               startedAt := startedAt p; endedAt := endedAt p;
               speakerTag := "speaker"; audio := audio p;
               text := Some EmptyString; confidence := Some 0%Q |}
  /\ sent w' = sent w ++
       [(ToRoom (sessionId p),
         transcription_update (sessionId p) (sequence p) EmptyString "speaker"
           (Some 0%Q))]
  /\ db w' = db w
  /\ buffer w' = buffer w
  /\ forall socket data,
       let next := chunk_received socket (Success data) w' in
       (exists waiting, next.1 = Returned waiting)
       /\ buffer next.2 !! sessionId data
          = Some (default [] (buffer w !! sessionId data) ++ [length (heap w)])
       /\ heap next.2 !! length (heap w) = Some data.
Proof.
  intros Hin Hp Hgen settled w'. subst w' settled.
  assert (Hgw : Gemini.transcribeAudio (Some generateContent) (audio p) "audio/webm"
                = Returned Gemini.empty_transcription).
  { unfold Gemini.transcribeAudio. simpl. by rewrite Hgen. }
  split; [exact Hgw|].
  destruct (chunk_transcribed payload (Some generateContent) w) as [r w1] eqn:Heq.
  unfold chunk_transcribed in Heq. unfold_m. cbn beta iota in Heq.
  rewrite (bool_decide_eq_true_2 _ Hin), Hp, Hgw in Heq. simpl in Heq.
  injection Heq as <- <-.
  split; [reflexivity|].
  split; [apply list_lookup_insert_eq; by eapply lookup_lt_Some|].
  split; [reflexivity|]. split; [reflexivity|]. split; [reflexivity|].
  intros socket data. cbv zeta.
  match goal with |- context [chunk_received _ _ ?x] => set (w1 := x) end.
  destruct (chunk_received_world socket data w1)
    as (Hheap & Hbuf & _ & _ & Hcases).
  assert (Hlen : length (heap w1) = length (heap w)) by (simpl; apply length_insert).
  rewrite Hlen in Hbuf, Hcases.
  split; [destruct Hcases as [(-> & _)|(-> & _)]; eauto|].
  split; [by rewrite Hbuf, lookup_insert_eq|].
  rewrite Hheap, <- Hlen. by apply list_lookup_middle.
Qed.

(** Without an API key the gateway throws; the chunk handler catches that,
    leaves the payload object alone and sends the empty text all the same. *)
Lemma transcription_unconfigured payload p w :
  payload ∈ inflight w ->
  heap w !! payload = Some p ->
  let settled := chunk_transcribed payload None w in
  settled.1 = Returned tt
  /\ heap settled.2 = heap w
  /\ db settled.2 = db w
  /\ sent settled.2 = sent w ++
       [(ToRoom (sessionId p),
         transcription_update (sessionId p) (sequence p) EmptyString
           (speakerTag p) (confidence p))].
Proof.
  intros Hin Hp. unfold chunk_transcribed. unfold_m. simpl.
  by rewrite (bool_decide_eq_true_2 _ Hin), Hp.
Qed.

(** ** Chunk rows under upserts *)

Lemma chunk_key_true sid seq row :
  chunk_key sid seq row = true <-> c_sessionId row = sid /\ c_sequence row = seq.
Proof.
  unfold chunk_key. rewrite andb_true_iff, String.eqb_eq, Z.eqb_eq. done.
Qed.

Lemma chunk_key_false sid seq row :
  chunk_key sid seq row = false <-> (c_sessionId row, c_sequence row) <> (sid, seq).
Proof.
  rewrite <- not_true_iff_false, chunk_key_true. split.
  - intros Hne [= ? ?]. by apply Hne.
  - intros Hne [<- <-]. by apply Hne.
Qed.

Lemma rows_at_upsert_same create rows :
  Spec.rows_at (c_sessionId create) (c_sequence create)
    (chunk_upsert_rows create rows)
  = match Spec.rows_at (c_sessionId create) (c_sequence create) rows with
    | [] => [create]
    | r :: rest =>
        {| c_sessionId := c_sessionId r; c_sequence := c_sequence r;
           c_speakerTag := c_speakerTag create; c_text := c_text create;
           c_startedAt := c_startedAt r; c_endedAt := c_endedAt r;
           c_confidence := match c_confidence create with
                           | Some q => Some q
                           | None => c_confidence r
                           end |} :: rest
    end.
Proof.
  unfold Spec.rows_at.
  assert (Hself : chunk_key (c_sessionId create) (c_sequence create) create = true)
    by (by apply chunk_key_true).
  induction rows as [|r rows IH]; simpl.
  - by rewrite Hself.
  - destruct (chunk_key (c_sessionId create) (c_sequence create) r) eqn:Hr; simpl.
    + apply chunk_key_true in Hr as [Hr1 Hr2].
      assert (Hupd : chunk_key (c_sessionId create) (c_sequence create)
                {| c_sessionId := c_sessionId r; c_sequence := c_sequence r;
                   c_speakerTag := c_speakerTag create; c_text := c_text create;
                   c_startedAt := c_startedAt r; c_endedAt := c_endedAt r;
                   c_confidence := match c_confidence create with
                                   | Some q => Some q
                                   | None => c_confidence r
                                   end |} = true) by (by apply chunk_key_true).
      by rewrite Hupd.
    + by rewrite Hr, IH.
Qed.

Lemma rows_at_upsert_other sid seq create rows :
  chunk_key sid seq create = false ->
  Spec.rows_at sid seq (chunk_upsert_rows create rows) = Spec.rows_at sid seq rows.
Proof.
  intros Hother. unfold Spec.rows_at.
  induction rows as [|r rows IH]; simpl.
  - by rewrite Hother.
  - destruct (chunk_key (c_sessionId create) (c_sequence create) r) eqn:Hr; simpl.
    + apply chunk_key_true in Hr as [Hr1 Hr2].
      assert (Hr : chunk_key sid seq r = false).
      { apply chunk_key_false. rewrite Hr1, Hr2. by apply chunk_key_false. }
      rewrite Hr. unfold chunk_key in *. simpl. by rewrite Hr.
    + by rewrite IH.
Qed.

Lemma upsert_unique create rows :
  Spec.unique_keys rows -> Spec.unique_keys (chunk_upsert_rows create rows).
Proof.
  intros Hu sid seq.
  destruct (chunk_key sid seq create) eqn:Hk.
  - apply chunk_key_true in Hk as [<- <-]. rewrite rows_at_upsert_same.
    specialize (Hu (c_sessionId create) (c_sequence create)).
    destruct (Spec.rows_at _ _ rows); simpl in *; lia.
  - rewrite rows_at_upsert_other by done. apply Hu.
Qed.

Lemma upsert_all_unique chunks rows :
  Spec.unique_keys rows -> Spec.unique_keys (Spec.upsert_all chunks rows).
Proof.
  unfold Spec.upsert_all. revert rows.
  induction chunks as [|chunk chunks IH]; intros rows Hu; simpl; [done|].
  by apply IH, upsert_unique.
Qed.



(** ** Deliveries and the buffer *)

Lemma handle_chunk_world JSON_parse socket data w :
  step JSON_parse w (EvChunk socket (Success data))
  = (chunk_received socket (Success data) w).2.
Proof.
  unfold step, handle. unfold mbind, M_bind, bind at 1.
  by destruct (chunk_received socket (Success data) w) as [[?|?] ?].
Qed.

Lemma omap_heap_app (h : list ChunkPayload) data refs :
  Forall (fun r => (r < length h)%nat) refs ->
  omap (fun r => (h ++ [data]) !! r) refs = omap (fun r => h !! r) refs.
Proof.
  induction 1 as [|r refs Hr _ IH]; simpl; [done|].
  rewrite lookup_app_l by done.
  destruct (h !! r); [f_equal|]; apply IH.
Qed.

Lemma chunk_received_buffered socket data w :
  Spec.refs_valid w (sessionId data) ->
  let w' := (chunk_received socket (Success data) w).2 in
  buffered w' (sessionId data) = buffered w (sessionId data) ++ [data]
  /\ Spec.refs_valid w' (sessionId data)
  /\ db w' = db w.
Proof.
  intros Hvalid w'. subst w'.
  destruct (chunk_received_world socket data w) as (Hheap & Hbuf & Hdb & _).
  unfold buffered, Spec.refs_valid in *. rewrite Hheap, Hbuf, lookup_insert_eq. simpl.
  split; [|split; [|done]].
  - rewrite omap_app, omap_heap_app by done. simpl.
    by rewrite list_lookup_middle.
  - rewrite length_app. simpl. apply Forall_app. split.
    + eapply Forall_impl; [exact Hvalid|]. simpl. intros; lia.
    + constructor; [lia|constructor].
Qed.

Lemma run_chunks_buffered JSON_parse socket sid ps w :
  Forall (fun p => sessionId p = sid) ps ->
  Spec.refs_valid w sid ->
  let w' := run JSON_parse w ((fun p => EvChunk socket (Success p)) <$> ps) in
  buffered w' sid = buffered w sid ++ ps /\ db w' = db w.
Proof.
  intros Hall. revert w.
  induction Hall as [|p ps Hp _ IH]; intros w Hvalid.
  - simpl. by rewrite app_nil_r.
  - subst sid. unfold run in *. rewrite fmap_cons. cbn [foldl].
    rewrite handle_chunk_world.
    destruct (chunk_received_buffered socket p w Hvalid) as (Hb & Hv & Hd).
    destruct (IH _ Hv) as [IH1 IH2].
    rewrite IH1, IH2, Hb, Hd, <- app_assoc. done.
Qed.

(** ** What every reachable state satisfies *)

Section Reachable.
Variable JSON_parse : string -> option JsValue.

Lemma session_start_frame socket parsed w :
  let w' := (session_start socket parsed w).2 in
  heap w' = heap w
  /\ transcriptChunks (db w') = transcriptChunks (db w)
  /\ (buffer w' = buffer w \/ exists sid, buffer w' = <[sid := []]> (buffer w)).
Proof.
  destruct parsed as [|data]; [by repeat split; try left|].
  unfold session_start. unfold_m. simpl.
  unfold user_upsert. case_bool_decide; simpl; [|repeat split; eauto].
  unfold session_upsert. simpl.
  destruct (sessions (db w) !! start_sessionId data); simpl; repeat split; eauto.
Qed.

Lemma chunk_transcribed_frame payload model w :
  let w' := (chunk_transcribed payload model w).2 in
  length (heap w') = length (heap w) /\ buffer w' = buffer w /\ db w' = db w.
Proof.
  unfold chunk_transcribed. unfold_m. cbn beta iota.
  destruct (bool_decide (payload ∈ inflight w)); [|done].
  destruct (heap w !! payload) as [p|]; [|done].
  destruct (Gemini.transcribeAudio model (audio p) "audio/webm"); simpl; [|done].
  by rewrite length_insert.
Qed.

Lemma session_pause_frame sessionId w :
  let w' := (session_pause sessionId w).2 in
  heap w' = heap w /\ buffer w' = buffer w
  /\ transcriptChunks (db w') = transcriptChunks (db w).
Proof.
  unfold session_pause. destruct (falsy_id sessionId); [done|].
  unfold_m. unfold session_update.
  by destruct (sessions (db w) !! default EmptyString sessionId).
Qed.

Lemma session_resume_frame sessionId w :
  let w' := (session_resume sessionId w).2 in
  heap w' = heap w /\ buffer w' = buffer w
  /\ transcriptChunks (db w') = transcriptChunks (db w).
Proof.
  unfold session_resume. destruct (falsy_id sessionId); [done|].
  unfold_m. unfold session_update.
  by destruct (sessions (db w) !! default EmptyString sessionId).
Qed.

Lemma session_stop_frame sessionId now model fault w :
  let w' := (session_stop JSON_parse sessionId now model fault w).2 in
  heap w' = heap w
  /\ (buffer w' = buffer w \/ exists sid, buffer w' = delete sid (buffer w))
  /\ (transcriptChunks (db w') = transcriptChunks (db w)
      \/ exists chunks,
           transcriptChunks (db w') = Spec.upsert_all chunks (transcriptChunks (db w))).
Proof.
  destruct (falsy_id sessionId) eqn:Hfalsy.
  { unfold session_stop. rewrite Hfalsy. simpl. repeat split; by left. }
  destruct sessionId as [sid|]; [|done]. simpl in Hfalsy.
  apply negb_false_iff in Hfalsy.
  destruct (sessions (db w) !! sid) as [s|] eqn:Hs.
  - destruct (session_stop_outcome JSON_parse sid now model fault w s Hfalsy Hs)
      as (w' & -> & Hh & _ & _ & Hb & _ & _ & Hcases). simpl.
    split; [done|]. split; [right; by exists sid|].
    destruct Hcases as [(summary & d & _ & _ & Hcom & _ & Ht & _)|(e & _ & _ & Ht & _)].
    + right. exists (buffered w sid).
      apply committed_written in Hcom as [Hc _]. by rewrite Ht, Hc.
    + by left.
  - unfold session_stop, falsy_id. rewrite Hfalsy. simpl.
    unfold_m. unfold session_update. simpl. rewrite Hs. simpl.
    repeat split; by left.
Qed.

Lemma refs_valid_kept w w' :
  (length (heap w) <= length (heap w'))%nat ->
  (forall sid, default [] (buffer w' !! sid) = default [] (buffer w !! sid)
               \/ default [] (buffer w' !! sid) = []) ->
  (forall sid, Spec.refs_valid w sid) ->
  forall sid, Spec.refs_valid w' sid.
Proof.
  intros Hlen Hbuf Hvalid sid. unfold Spec.refs_valid in *.
  destruct (Hbuf sid) as [-> | ->]; [|constructor].
  eapply Forall_impl; [apply Hvalid|]. simpl. intros; lia.
Qed.

Lemma step_well_formed w ev :
  Spec.well_formed w -> Spec.well_formed (step JSON_parse w ev).
Proof.
  intros [Hvalid Hunique]. unfold step, handle.
  destruct ev as [socket parsed|socket parsed|payload model|sid|sid|sid now model fault].
  - destruct (session_start_frame socket parsed w) as (Hh & Ht & Hb).
    split; [|by rewrite Ht].
    apply (refs_valid_kept w); [by rewrite Hh| |done].
    intros sid. destruct Hb as [-> | (sid' & ->)]; [by left|].
    destruct (decide (sid' = sid)) as [->|Hne].
    + right. by rewrite lookup_insert_eq.
    + left. by rewrite lookup_insert_ne.
  - destruct parsed as [|data].
    + split; [|done]. simpl. intros sid. apply Hvalid.
    + pose proof (handle_chunk_world JSON_parse socket data w) as Hw.
      unfold step, handle in Hw. rewrite Hw. clear Hw.
      destruct (chunk_received_world socket data w) as (Hheap & Hbuf & Hdb & _).
      split; [|by rewrite Hdb].
      intros sid. unfold Spec.refs_valid. rewrite Hheap, Hbuf, length_app. simpl.
      destruct (decide (sessionId data = sid)) as [<-|Hne].
      * rewrite lookup_insert_eq. simpl. apply Forall_app. split.
        -- eapply Forall_impl; [apply (Hvalid (sessionId data))|]. simpl. intros; lia.
        -- constructor; [lia|constructor].
      * rewrite lookup_insert_ne by done.
        eapply Forall_impl; [apply (Hvalid sid)|]. simpl. intros; lia.
  - destruct (chunk_transcribed_frame payload model w) as (Hh & Hb & Hd).
    split; [|by rewrite Hd].
    apply (refs_valid_kept w); [by rewrite Hh| |done].
    intros sid. left. by rewrite Hb.
  - destruct (session_pause_frame sid w) as (Hh & Hb & Ht).
    split; [|by rewrite Ht].
    apply (refs_valid_kept w); [by rewrite Hh| |done].
    intros sid'. left. by rewrite Hb.
  - destruct (session_resume_frame sid w) as (Hh & Hb & Ht).
    split; [|by rewrite Ht].
    apply (refs_valid_kept w); [by rewrite Hh| |done].
    intros sid'. left. by rewrite Hb.
  - destruct (session_stop_frame sid now model fault w) as (Hh & Hb & Ht).
    split.
    + apply (refs_valid_kept w); [by rewrite Hh| |done].
      intros sid'. destruct Hb as [-> | (sid'' & ->)]; [by left|].
      destruct (decide (sid'' = sid')) as [->|Hne].
      * right. by rewrite lookup_delete_eq.
      * left. by rewrite lookup_delete_ne.
    + destruct Ht as [-> | (chunks & ->)]; [done|by apply upsert_all_unique].
Qed.

(** From the start of the process on, whatever events come: every array
    of the buffer refers to payload objects of the heap, and the chunk
    table has at most one row under every (sessionId, sequence) pair. *)
Lemma run_well_formed evs : Spec.well_formed (run JSON_parse initial evs).
Proof.
  unfold run. induction evs as [|ev evs IH] using rev_ind.
  - split; [|intros sid seq; simpl; lia].
    intros sid. unfold Spec.refs_valid. simpl. rewrite lookup_empty. constructor.
  - rewrite foldl_app. simpl. by apply step_well_formed.
Qed.
End Reachable.

(** ** The order of the transcript *)

(** C1, as the code has it. The transcript a stop builds is the
    newline-joined texts of the session's chunks in the order they were
    delivered: when chunks [ps] arrive for a session, the buffer holds
    them after what it held, in this order; the stop builds the join of
    the texts in this order and hands it, when not empty, to the
    summarizer. It is the concatenation by ascending sequence number when
    the chunks arrived in ascending order of sequence number. The state is
    any the process can be in ([run_well_formed]). *)
Theorem transcript_follows_arrival_order
    (JSON_parse : string -> option JsValue) (socket : nat) (sid : string)
    (ps : list ChunkPayload) (now : Z) (model : Gemini.SummaryModel)
    (fault : option nat) (w0 : World) (s : Session) :
  Js.truthy_string sid = true ->
  sessions (db w0) !! sid = Some s ->
  Spec.well_formed w0 ->
  Forall (fun p => sessionId p = sid) ps ->
  let w := run JSON_parse w0 ((fun p => EvChunk socket (Success p)) <$> ps) in
  let w' := step JSON_parse w (EvStop (Some sid) now model fault) in
  let arrived := buffered w0 sid ++ ps in
  buffered w sid = arrived
  /\ build_transcript (buffered w sid) = Js.join Js.nl (map text arrived)
  /\ calls w' = calls w ++ Spec.asked (Js.join Js.nl (map text arrived))
  /\ (StronglySorted Z.le (sequence <$> arrived) ->
      build_transcript (buffered w sid) = Spec.transcript_by_sequence arrived).
Proof.
  intros Hsid Hs [Hvalid _] Hall w w' arrived.
  destruct (run_chunks_buffered JSON_parse socket sid ps w0 Hall (Hvalid sid))
    as [Hb Hd].
  fold w in Hb, Hd. fold arrived in Hb.
  split; [done|]. split; [by rewrite Hb|]. split.
  - assert (Hs' : sessions (db w) !! sid = Some s) by (by rewrite Hd).
    destruct (stop_reruns JSON_parse sid now model fault w s Hsid Hs')
      as (final & closing & _ & _ & _ & Hcalls & _).
    fold w' in Hcalls. by rewrite Hcalls, Hb.
  - intros Hsorted. rewrite Hb. unfold Spec.transcript_by_sequence, build_transcript.
    by rewrite (sort_of_sorted sequence).
Qed.

(** ** Re-delivery *)


(** ** The stop handler between its awaits *)

Lemma with_transcriptChunks_same d : with_transcriptChunks d (transcriptChunks d) = d.
Proof. by destruct d. Qed.

Lemma upserts_of_met chunks d :
  foldl (fun d chunk => transcriptChunk_upsert (chunk_row chunk) d) d chunks
  = with_transcriptChunks d (Spec.upsert_all chunks (transcriptChunks d)).
Proof.
  unfold Spec.upsert_all. revert d.
  induction chunks as [|chunk chunks IH]; intros d; simpl.
  - by rewrite with_transcriptChunks_same.
  - by rewrite IH.
Qed.

(** What a commit that goes through leaves in the database. *)
Lemma commit_written stop create d d' :
  Live.commit stop create d = Returned d' ->
  users d' = users d /\ sessions d' = sessions d
  /\ transcriptChunks d'
     = Spec.upsert_all (Live.met stop) (transcriptChunks d)
  /\ summaries d'
     = match create with
       | Some row => summary_rows_at (Live.sessionId stop) row (summaries d)
       | None => summaries d
       end.
Proof.
  unfold Live.commit. rewrite upserts_of_met. destruct create as [row|].
  - by intros ->%summary_upsert_at_written.
  - by intros [= <-].
Qed.


(** The handlers that run in one piece leave the two tables alone. *)
Lemma session_start_tables socket parsed w :
  let w' := (session_start socket parsed w).2 in
  transcriptChunks (db w') = transcriptChunks (db w)
  /\ summaries (db w') = summaries (db w).
Proof.
  destruct parsed as [|data]; [done|].
  unfold session_start. unfold_m. simpl. unfold user_upsert.
  case_bool_decide; simpl; [|done]. unfold session_upsert. simpl.
  by destruct (sessions (db w) !! start_sessionId data).
Qed.

Lemma chunk_received_tables socket parsed w :
  db (chunk_received socket parsed w).2 = db w.
Proof.
  destruct parsed as [|data]; [done|].
  by destruct (chunk_received_world socket data w) as (_ & _ & -> & _).
Qed.

Lemma session_update_tables sid f d d' :
  session_update sid f d = Returned d' ->
  transcriptChunks d' = transcriptChunks d /\ summaries d' = summaries d
  /\ users d' = users d
  /\ exists s, sessions d !! sid = Some s
               /\ sessions d' = <[sid := f s]> (sessions d).
Proof.
  unfold session_update. destruct (sessions d !! sid) as [s|]; [|done].
  intros [= <-]. simpl. repeat (split; [done|]). by exists s.
Qed.

Lemma session_pause_tables sid w :
  let w' := (session_pause sid w).2 in
  transcriptChunks (db w') = transcriptChunks (db w)
  /\ summaries (db w') = summaries (db w).
Proof.
  unfold session_pause. destruct (falsy_id sid); [done|].
  unfold_m. unfold session_update.
  by destruct (sessions (db w) !! default EmptyString sid).
Qed.

Lemma session_resume_tables sid w :
  let w' := (session_resume sid w).2 in
  transcriptChunks (db w') = transcriptChunks (db w)
  /\ summaries (db w') = summaries (db w).
Proof.
  unfold session_resume. destruct (falsy_id sid); [done|].
  unfold_m. unfold session_update.
  by destruct (sessions (db w) !! default EmptyString sid).
Qed.

Section LiveFacts.
Variable JSON_parse : string -> option JsValue.

(** A stop writes to the two tables at its commit only. *)
Lemma continue_unwritten stop model fails w :
  (forall create, Live.awaits stop = Live.Commit create -> fails = true) ->
  let w' := (Live.continue JSON_parse stop model fails w).2 in
  transcriptChunks (db w') = transcriptChunks (db w)
  /\ summaries (db w') = summaries (db w).
Proof.
  intros Hcommit. unfold Live.continue.
  destruct (Live.awaits stop) as [now| | |create|create| |e|] eqn:Ha; simpl.
  - destruct (session_update _ _ _) as [d|] eqn:Hd; [|done].
    apply session_update_tables in Hd as (? & ? & _).
    by destruct (Js.truthy_string _).
  - by destruct (Gemini.summarizeTranscript _ _ _).
  - by destruct fails.
  - destruct fails; [done|]. by destruct (summary_upsert_at _ _ _).
  - by rewrite (Hcommit create eq_refl).
  - destruct (session_update _ _ _) as [d|] eqn:Hd; [|done].
    by apply session_update_tables in Hd as (? & ? & _).
  - destruct (session_update _ _ _) as [d|] eqn:Hd; [|done].
    by apply session_update_tables in Hd as (? & ? & _).
  - done.
Qed.

End LiveFacts.




(** * Further properties *)

Set Warnings "-clear-no-such-hyp".

(** ** More on the recorder machine *)

Lemma transition_consistent s ev :
  RecorderNotions.consistent s ->
  RecorderNotions.consistent (Recorder.transition s ev).
Proof.
  destruct s as [state [sid src t sm err]]. unfold RecorderNotions.consistent. simpl.
  intros (Hidle & Hsid & Hdone & Hfail & Hsum & Herr).
  destruct state, ev; simpl;
    repeat split; intros; simplify_eq; eauto;
    try (by apply Hsid); try (by apply Hsum); try (by apply Herr);
    try (by apply Hdone); try (by apply Hfail);
    try (match goal with H : is_Some None |- _ => by destruct H end);
    try (by destruct sm as [?|];
           [destruct (Hsum ltac:(eauto)) as ([?|?] & ? & ?)|]);
    try (by destruct err as [?|];
           [destruct (Herr ltac:(eauto)) as ([?|?] & ? & ?)|]);
    try (by destruct (Hsum ltac:(eauto)) as ([?|?] & ? & ?));
    try (by destruct (Herr ltac:(eauto)) as ([?|?] & ? & ?)).
Qed.

(** X1. After any list of events the context of the recorder machine fits its
    state: in idle the transcript is empty; in every other state the context
    holds a session id; in completed it holds a summary and in failed an
    error. A summary is held in completed and, after a RESET, in idle only,
    and with it no error; an error is held in failed and, after a RESET, in
    idle only, and with it no summary; and where one of the two is held, a
    session id is held. RESET merges the default context, which has a source
    and a transcript and nothing else: the idle machine keeps the session
    id, the summary and the error of the recording before. *)
Theorem recorder_context_matches_state (evs : list Recorder.RecorderEvent) :
  let s := Recorder.run evs in
  (s.1 = Recorder.idle -> Recorder.transcript s.2 = [])
  /\ (s.1 <> Recorder.idle -> is_Some (Recorder.sessionId s.2))
  /\ (s.1 = Recorder.completed -> is_Some (Recorder.summary s.2))
  /\ (s.1 = Recorder.failed -> is_Some (Recorder.error s.2))
  /\ (is_Some (Recorder.summary s.2) ->
      (s.1 = Recorder.completed \/ s.1 = Recorder.idle)
      /\ Recorder.error s.2 = None /\ is_Some (Recorder.sessionId s.2))
  /\ (is_Some (Recorder.error s.2) ->
      (s.1 = Recorder.failed \/ s.1 = Recorder.idle)
      /\ Recorder.summary s.2 = None /\ is_Some (Recorder.sessionId s.2)).
Proof.
  change (RecorderNotions.consistent (Recorder.run evs)).
  unfold Recorder.run. induction evs as [|ev evs IH] using rev_ind.
  - unfold RecorderNotions.consistent. simpl.
    repeat split; intros; try done; try (by destruct H as [? ?]).
  - rewrite foldl_app. simpl. by apply transition_consistent.
Qed.

(** The idle machine after a completed recording: RESET has emptied the
    transcript and left the rest. *)
Example reset_keeps_session_and_summary sid src sm :
  Recorder.run [Recorder.START sid src; Recorder.STOP; Recorder.SUMMARY sm;
                Recorder.RESET]
  = (Recorder.idle,
     {| Recorder.sessionId := Some sid; Recorder.source := MIC;
        Recorder.transcript := []; Recorder.summary := Some sm;
        Recorder.error := None |}).
Proof. reflexivity. Qed.

Lemma transition_stopped s ev :
  RecorderNotions.stopped s.1 = true ->
  RecorderNotions.is_reset ev = false ->
  RecorderNotions.stopped (Recorder.transition s ev).1 = true
  /\ Recorder.transcript (Recorder.transition s ev).2 = Recorder.transcript s.2
  /\ Recorder.sessionId (Recorder.transition s ev).2 = Recorder.sessionId s.2.
Proof. destruct s as [[] context], ev; simpl; done. Qed.

(** X2. Once the recorder machine is in processing, completed or failed, no
    event but RESET changes its transcript or its session id, and it stays
    in one of these states: TRANSCRIPT updates that arrive after the stop
    are dropped. *)
Theorem transcript_frozen_once_stopped (s : Recorder.RecorderState * Recorder.RecorderContext)
    (evs : list Recorder.RecorderEvent) :
  RecorderNotions.stopped s.1 = true ->
  Forall (fun ev => RecorderNotions.is_reset ev = false) evs ->
  let s' := foldl Recorder.transition s evs in
  RecorderNotions.stopped s'.1 = true
  /\ Recorder.transcript s'.2 = Recorder.transcript s.2
  /\ Recorder.sessionId s'.2 = Recorder.sessionId s.2.
Proof.
  intros Hs Hall. revert s Hs.
  induction Hall as [|ev evs Hev _ IH]; intros s Hs; simpl; [done|].
  destruct (transition_stopped s ev Hs Hev) as (H1 & H2 & H3).
  destruct (IH _ H1) as (IH1 & IH2 & IH3).
  by rewrite IH2, IH3.
Qed.

Lemma transition_finished s ev :
  RecorderNotions.finished s.1 = true ->
  RecorderNotions.is_reset ev = false ->
  Recorder.transition s ev = s.
Proof. destruct s as [[] context], ev; simpl; done. Qed.

(** X3. A recorder machine in completed or failed drops every event but RESET, a
    new START included: state and context stay as they are. *)
Theorem finished_machine_ignores_all_but_reset
    (s : Recorder.RecorderState * Recorder.RecorderContext)
    (evs : list Recorder.RecorderEvent) :
  RecorderNotions.finished s.1 = true ->
  Forall (fun ev => RecorderNotions.is_reset ev = false) evs ->
  foldl Recorder.transition s evs = s.
Proof.
  intros Hs Hall. induction Hall as [|ev evs Hev _ IH]; simpl; [done|].
  by rewrite transition_finished.
Qed.

(** *** The TRANSCRIPT action as an update of a keyed list *)

Lemma filter_all {A} (P : A -> Prop) `{forall x, Decision (P x)} (l : list A) :
  Forall P l -> filter P l = l.
Proof.
  induction 1 as [|x l Hx _ IH]; [done|].
  by rewrite filter_cons_True, IH.
Qed.

Lemma filter_other_sequence (t1 t2 : list TranscriptUpdate) old z :
  NoDup (tu_sequence <$> (t1 ++ old :: t2)) ->
  tu_sequence old = z ->
  filter (fun c => tu_sequence c <> z) (t1 ++ old :: t2) = t1 ++ t2.
Proof.
  intros Hnd Hz. rewrite fmap_app, fmap_cons in Hnd.
  apply NoDup_app in Hnd as (Hnd1 & Hdisj & Hnd2).
  apply NoDup_cons in Hnd2 as [Hold Hnd2].
  rewrite filter_app, filter_cons_False by (intros Hne; by apply Hne).
  f_equal; apply filter_all, Forall_forall; intros c Hc Heq.
  - apply (Hdisj (tu_sequence c)); [by apply list_elem_of_fmap_2|].
    rewrite Heq, <- Hz. left.
  - apply Hold. rewrite Hz, <- Heq. by apply list_elem_of_fmap_2.
Qed.

Lemma transcript_action_perm context update :
  ascending (Recorder.transcript context) ->
  Recorder.transcript_action context update
  ≡ₚ update :: filter (fun c => tu_sequence c <> tu_sequence update)
                      (Recorder.transcript context).
Proof.
  intros Hs. apply sorted_lt_NoDup in Hs.
  unfold Recorder.transcript_action.
  set (p := fun chunk => bool_decide (tu_sequence chunk = tu_sequence update)).
  case_decide as Hi.
  - destruct (findIndex_found p _ Hi) as (old & Hold & Hp).
    apply bool_decide_eq_true in Hp.
    set (i := Z.to_nat (Js.findIndex p (Recorder.transcript context))) in *.
    pose proof (take_drop_middle _ _ _ Hold) as Hsplit.
    rewrite <- Hsplit in Hs |- * at 2.
    rewrite (filter_other_sequence _ _ old) by done.
    rewrite <- Hsplit at 1.
    rewrite insert_app_r_alt by (rewrite length_take; lia).
    replace (i - length (take i (Recorder.transcript context)))%nat with 0%nat.
    2:{ rewrite length_take. apply lookup_lt_Some in Hold. lia. }
    simpl. by rewrite Permutation_middle.
  - rewrite sort_perm, filter_all.
    + by rewrite Permutation_app_comm.
    + assert (Hnone : Js.findIndex p (Recorder.transcript context) < 0) by lia.
      apply findIndex_none in Hnone. eapply Forall_impl; [exact Hnone|].
      simpl. intros c Hc. by apply bool_decide_eq_false in Hc.
Qed.

(** X4. In every context the machine reaches, the TRANSCRIPT action loses and
    invents nothing: the new list holds the update and, of the old entries,
    exactly those with another sequence number. *)
Theorem transcript_action_keeps_others (evs : list Recorder.RecorderEvent)
    (update : TranscriptUpdate) :
  let context := (Recorder.run evs).2 in
  Recorder.transcript_action context update
  ≡ₚ update :: filter (fun c => tu_sequence c <> tu_sequence update)
                      (Recorder.transcript context).
Proof. intros context. apply transcript_action_perm, run_ascending. Qed.

Lemma ascending_elements (t : list TranscriptUpdate) :
  ascending t -> StronglySorted (fun a b => tu_sequence a < tu_sequence b) t.
Proof.
  unfold ascending. induction t as [|a t IH]; intros Hs; [constructor|].
  rewrite fmap_cons in Hs. apply StronglySorted_inv in Hs as [Hs Ha].
  constructor; [by apply IH|]. rewrite Forall_fmap in Ha. exact Ha.
Qed.

(** Two ascending lists with the same entries are the same list. *)
Lemma ascending_perm_eq (t1 t2 : list TranscriptUpdate) :
  ascending t1 -> ascending t2 -> t1 ≡ₚ t2 -> t1 = t2.
Proof.
  intros H1 H2 Hp.
  apply (StronglySorted_unique_strong
           (fun a b => tu_sequence a < tu_sequence b));
    [|by apply ascending_elements|by apply ascending_elements|done].
  intros x1 x2 _ _ Hlt Hgt. lia.
Qed.

Lemma filter_filter_same {A} (P : A -> Prop) `{forall x, Decision (P x)} (l : list A) :
  filter P (filter P l) = filter P l.
Proof. apply filter_all, Forall_forall. by intros x [? _]%list_elem_of_filter. Qed.

Lemma transcript_action_after context u v :
  ascending (Recorder.transcript context) ->
  Recorder.transcript_action
    (RecorderNotions.with_transcript context (Recorder.transcript_action context u)) v
  ≡ₚ v :: filter (fun c => tu_sequence c <> tu_sequence v)
            (u :: filter (fun c => tu_sequence c <> tu_sequence u)
                    (Recorder.transcript context)).
Proof.
  intros Hs.
  etrans; [apply transcript_action_perm; simpl; by apply transcript_action_ascending|].
  simpl. constructor. by rewrite (transcript_action_perm context u Hs).
Qed.

Lemma transcript_action_twice context u :
  ascending (Recorder.transcript context) ->
  Recorder.transcript_action
    (RecorderNotions.with_transcript context (Recorder.transcript_action context u)) u
  = Recorder.transcript_action context u.
Proof.
  intros Hs.
  apply ascending_perm_eq;
    [apply transcript_action_ascending; simpl; by apply transcript_action_ascending
    |by apply transcript_action_ascending|].
  etrans; [by apply transcript_action_after|].
  rewrite filter_cons_False by (intros Hne; by apply Hne).
  rewrite filter_filter_same. symmetry. by apply transcript_action_perm.
Qed.

Lemma transcript_action_swap context u1 u2 :
  ascending (Recorder.transcript context) ->
  tu_sequence u1 <> tu_sequence u2 ->
  Recorder.transcript_action
    (RecorderNotions.with_transcript context (Recorder.transcript_action context u1)) u2
  = Recorder.transcript_action
      (RecorderNotions.with_transcript context (Recorder.transcript_action context u2)) u1.
Proof.
  intros Hs Hne.
  apply ascending_perm_eq;
    [apply transcript_action_ascending; simpl; by apply transcript_action_ascending
    |apply transcript_action_ascending; simpl; by apply transcript_action_ascending|].
  etrans; [by apply transcript_action_after|].
  etrans; [|symmetry; by apply transcript_action_after].
  rewrite !filter_cons_True by (intros Heq; apply Hne; congruence).
  rewrite Permutation_swap. do 2 constructor.
  rewrite !list_filter_filter.
  erewrite list_filter_iff; [reflexivity|]. intros c. simpl. tauto.
Qed.

(** X5. Delivering the same TRANSCRIPT update twice in a row leaves the machine
    as delivering it once does. *)
Theorem transcript_update_idempotent (evs : list Recorder.RecorderEvent)
    (update : TranscriptUpdate) :
  Recorder.run (evs ++ [Recorder.TRANSCRIPT update; Recorder.TRANSCRIPT update])
  = Recorder.run (evs ++ [Recorder.TRANSCRIPT update]).
Proof.
  unfold Recorder.run. rewrite !foldl_app.
  pose proof (run_ascending evs) as Hs. unfold Recorder.run in Hs.
  destruct (foldl Recorder.transition Recorder.initial evs) as [state context].
  destruct state; simpl; try done.
  f_equal. pose proof (transcript_action_twice context update Hs) as Heq.
  unfold RecorderNotions.with_transcript in Heq.
  unfold Recorder.transcript_action in *. simpl in *. by rewrite Heq.
Qed.

(** X6. Two TRANSCRIPT updates with different sequence numbers leave the machine
    in the same state and context in either order: the transcript does not
    depend on the order in which the chunks' updates arrive. *)
Theorem transcript_updates_commute (evs : list Recorder.RecorderEvent)
    (u1 u2 : TranscriptUpdate) :
  tu_sequence u1 <> tu_sequence u2 ->
  Recorder.run (evs ++ [Recorder.TRANSCRIPT u1; Recorder.TRANSCRIPT u2])
  = Recorder.run (evs ++ [Recorder.TRANSCRIPT u2; Recorder.TRANSCRIPT u1]).
Proof.
  intros Hne. unfold Recorder.run. rewrite !foldl_app.
  pose proof (run_ascending evs) as Hs. unfold Recorder.run in Hs.
  destruct (foldl Recorder.transition Recorder.initial evs) as [state context].
  destruct state; simpl; try done.
  f_equal. pose proof (transcript_action_swap context u1 u2 Hs Hne) as Heq.
  unfold RecorderNotions.with_transcript in Heq.
  unfold Recorder.transcript_action in *. simpl in *. by rewrite Heq.
Qed.

(** ** More on the handlers of the server *)

Section ServerMore.
Variable JSON_parse : string -> option JsValue.

(** X7. A session:start whose email belongs to another user fails in the user
    upsert on the unique email index, after the handler has reset the
    session's buffer entry: the handler throws, the database, the rooms and
    the messages sent are as before, no acknowledgement and no error is
    sent, and the chunks buffered for the session are gone. *)
Theorem start_with_taken_email_resets_buffer (socket : nat) (data : StartPayload)
    (other : string) (w : World) :
  users (db w) !! other = Some (userEmail data) ->
  other <> userId data ->
  let r := session_start socket (Success data) w in
  r.1 = Thrown UniqueViolation
  /\ buffer r.2 = <[start_sessionId data := []]> (buffer w)
  /\ buffered r.2 (start_sessionId data) = []
  /\ db r.2 = db w /\ rooms r.2 = rooms w /\ sent r.2 = sent w.
Proof.
  intros Hother Hne. unfold session_start. unfold_m. simpl.
  unfold user_upsert. rewrite bool_decide_eq_false_2.
  - simpl. repeat split; try done. unfold buffered. simpl.
    by rewrite lookup_insert_eq.
  - intros Hall. destruct (Hall other _ Hother) as [?|?]; done.
Qed.

Lemma user_upsert_again id email d d' :
  user_upsert id email d = Returned d' ->
  user_upsert id email d' = Returned d'.
Proof.
  unfold user_upsert. case_bool_decide as Hall; [|done]. intros [= <-]. simpl.
  rewrite bool_decide_eq_true_2.
  - by rewrite insert_insert_eq.
  - intros id' email' Hl. destruct (decide (id' = id)) as [->|Hne]; [by left|].
    rewrite lookup_insert_ne in Hl by done. by apply (Hall id' email').
Qed.

Lemma session_start_success socket data d w :
  user_upsert (userId data) (userEmail data) (db w) = Returned d ->
  exists w',
    session_start socket (Success data) w = (Returned tt, w')
    /\ heap w' = heap w /\ inflight w' = inflight w /\ calls w' = calls w
    /\ buffer w' = <[start_sessionId data := []]> (buffer w)
    /\ db w' = with_sessions d (<[start_sessionId data := Store.started_row data d]> (sessions d))
    /\ rooms w' = rooms w ++ [(socket, start_sessionId data)]
    /\ sent w' = sent w ++ [(ToSocket socket, session_ack (start_sessionId data) RECORDING)].
Proof.
  intros Hu. unfold session_start. unfold_m. simpl. rewrite Hu. simpl.
  unfold session_upsert, Store.started_row.
  destruct (sessions d !! start_sessionId data); simpl; eexists; split; done.
Qed.

Lemma user_upsert_users id email d d' :
  user_upsert id email d = Returned d' ->
  d' = with_users d (<[id := email]> (users d))
  /\ map_Forall (fun id' email' => id' = id \/ email' <> email) (users d).
Proof.
  unfold user_upsert. case_bool_decide; [|done]. by intros [= <-].
Qed.

(** X8. A session:start that succeeds, sent again with the same payload, changes
    neither the database nor the buffer: the session is RECORDING with an
    empty buffer entry after the first, and the second only sends its
    acknowledgement again. *)
Theorem start_twice_is_start_once (socket : nat) (data : StartPayload)
    (d : Db) (w : World) :
  user_upsert (userId data) (userEmail data) (db w) = Returned d ->
  let once := (session_start socket (Success data) w).2 in
  let twice := (session_start socket (Success data) once).2 in
  db twice = db once
  /\ buffer twice = buffer once
  /\ status_of once (start_sessionId data) = Some RECORDING
  /\ sent twice = sent once ++ [(ToSocket socket, session_ack (start_sessionId data) RECORDING)].
Proof.
  intros Hu once twice. subst twice once.
  destruct (session_start_success socket data d w Hu)
    as (w1 & -> & _ & _ & _ & Hb1 & Hd1 & _ & _). cbn [snd].
  destruct (user_upsert_users _ _ _ _ Hu) as [Hd Hall].
  assert (Hu1 : user_upsert (userId data) (userEmail data) (db w1) = Returned (db w1)).
  { unfold user_upsert. rewrite Hd1. simpl. rewrite Hd. simpl.
    rewrite bool_decide_eq_true_2.
    - by rewrite insert_insert_eq.
    - intros id' email' Hl. destruct (decide (id' = userId data)) as [->|Hne]; [by left|].
      rewrite lookup_insert_ne in Hl by done. by apply (Hall id' email'). }
  destruct (session_start_success socket data (db w1) w1 Hu1)
    as (w2 & -> & _ & _ & _ & Hb2 & Hd2 & _ & Hs2). cbn [snd].
  assert (Hrow : sessions (db w1) !! start_sessionId data = Some (Store.started_row data d)).
  { rewrite Hd1. simpl. apply lookup_insert_eq. }
  split.
  { rewrite Hd2. unfold Store.started_row at 1. rewrite Hrow.
    rewrite Hd1. simpl. rewrite insert_insert_eq. do 2 f_equal.
    unfold Store.started_row. by destruct (sessions d !! start_sessionId data). }
  split; [by rewrite Hb2, Hb1, insert_insert_eq|].
  split; [|done].
  unfold status_of. rewrite Hrow. unfold Store.started_row.
  by destruct (sessions d !! start_sessionId data).
Qed.

(** X9. A session:start for a session that has its row restarts it: the status
    becomes RECORDING while the row keeps its user, its source and the
    endedAt of an earlier stop, whatever the payload says; the chunks
    buffered for the session are dropped, the stored chunk rows and
    summaries stay. *)
Theorem restart_keeps_row_and_drops_buffer (socket : nat) (data : StartPayload)
    (d : Db) (w : World) (s : Session) :
  sessions (db w) !! start_sessionId data = Some s ->
  user_upsert (userId data) (userEmail data) (db w) = Returned d ->
  let w' := (session_start socket (Success data) w).2 in
  sessions (db w') !! start_sessionId data
    = Some {| s_userId := s_userId s; s_status := RECORDING;
              s_source := s_source s; s_endedAt := s_endedAt s |}
  /\ buffered w' (start_sessionId data) = []
  /\ transcriptChunks (db w') = transcriptChunks (db w)
  /\ summaries (db w') = summaries (db w).
Proof.
  intros Hs Hu w'. subst w'.
  destruct (session_start_success socket data d w Hu)
    as (w1 & -> & _ & _ & _ & Hb1 & Hd1 & _ & _). simpl.
  destruct (user_upsert_users _ _ _ _ Hu) as [Hd _].
  rewrite Hd1. simpl. rewrite lookup_insert_eq.
  unfold Store.started_row. rewrite Hd. simpl. rewrite Hs.
  split; [done|]. split; [|done].
  unfold buffered. by rewrite Hb1, lookup_insert_eq.
Qed.

Lemma stop_without_row sid now model fault w :
  Js.truthy_string sid = true ->
  sessions (db w) !! sid = None ->
  session_stop JSON_parse (Some sid) now model fault w
  = (Thrown RecordNotFound,
     with_sent w (sent w ++ [(ToRoom sid, session_status PROCESSING None)])).
Proof.
  intros Hsid Hs. unfold session_stop, falsy_id. rewrite Hsid. simpl.
  unfold_m. unfold session_update. simpl. by rewrite Hs.
Qed.

(** X10. A pause, resume or stop for a session that has no row throws on the
    update of the missing row: pause and resume change nothing and send
    nothing; stop has already announced PROCESSING to the room, and as it
    fails before its try block it sends nothing more and leaves the buffer
    as it is. *)
Theorem control_events_without_row (sid : string) (now : Z)
    (model : Gemini.SummaryModel) (fault : option nat) (w : World) :
  Js.truthy_string sid = true ->
  sessions (db w) !! sid = None ->
  session_pause (Some sid) w = (Thrown RecordNotFound, w)
  /\ session_resume (Some sid) w = (Thrown RecordNotFound, w)
  /\ session_stop JSON_parse (Some sid) now model fault w
     = (Thrown RecordNotFound,
        with_sent w (sent w ++ [(ToRoom sid, session_status PROCESSING None)])).
Proof.
  intros Hsid Hs.
  unfold session_pause, session_resume, session_stop, falsy_id. rewrite Hsid. simpl.
  unfold_m. unfold session_update. simpl. by rewrite Hs.
Qed.

End ServerMore.

(** ** Summary rows under upserts *)

Lemma summaries_at_upsert_same create rows :
  Store.summaries_at (sm_sessionId create) (summary_upsert_rows create rows)
  = match Store.summaries_at (sm_sessionId create) rows with
    | [] => [create]
    | _ :: rest => create :: rest
    end.
Proof.
  unfold Store.summaries_at. induction rows as [|r rows IH]; simpl.
  - by rewrite String.eqb_refl.
  - destruct (String.eqb (sm_sessionId r) (sm_sessionId create)) eqn:Hr; simpl.
    + by rewrite String.eqb_refl.
    + by rewrite Hr, IH.
Qed.

Lemma summaries_at_upsert_other sid create rows :
  sm_sessionId create <> sid ->
  Store.summaries_at sid (summary_upsert_rows create rows)
  = Store.summaries_at sid rows.
Proof.
  intros Hne. unfold Store.summaries_at.
  assert (Hc : String.eqb (sm_sessionId create) sid = false) by (by apply String.eqb_neq).
  induction rows as [|r rows IH]; simpl.
  - by rewrite Hc.
  - destruct (String.eqb (sm_sessionId r) (sm_sessionId create)) eqn:Hr; simpl.
    + apply String.eqb_eq in Hr. rewrite Hc. rewrite Hr. by rewrite Hc.
    + by rewrite IH.
Qed.

Lemma summary_upsert_unique create rows :
  Store.summaries_unique rows ->
  Store.summaries_unique (summary_upsert_rows create rows).
Proof.
  intros Hu sid. destruct (decide (sm_sessionId create = sid)) as [<-|Hne].
  - rewrite summaries_at_upsert_same. specialize (Hu (sm_sessionId create)).
    destruct (Store.summaries_at _ rows); simpl in *; lia.
  - rewrite summaries_at_upsert_other by done. apply Hu.
Qed.

(** The upsert of a row that goes to another session than its [where]. *)
Lemma summaries_at_rows_at_other x sid create rows :
  sm_sessionId create <> x ->
  (length (Store.summaries_at x (summary_rows_at sid create rows))
   <= length (Store.summaries_at x rows))%nat.
Proof.
  intros Hne. unfold Store.summaries_at.
  assert (Hc : String.eqb (sm_sessionId create) x = false) by (by apply String.eqb_neq).
  induction rows as [|r rows IH]; simpl.
  - by rewrite Hc.
  - destruct (String.eqb (sm_sessionId r) sid) eqn:Hr; simpl.
    + rewrite Hc. destruct (String.eqb (sm_sessionId r) x); simpl; lia.
    + destruct (String.eqb (sm_sessionId r) x); simpl; lia.
Qed.

Lemma summaries_at_none x rows :
  summary_under x rows = false -> Store.summaries_at x rows = [].
Proof.
  unfold summary_under, Store.summaries_at.
  induction rows as [|r rows IH]; simpl; [done|].
  destruct (String.eqb (sm_sessionId r) x); simpl; [done|exact IH].
Qed.

Lemma summaries_at_rows_at_new sid create rows :
  summary_under (sm_sessionId create) rows = false ->
  Store.summaries_at (sm_sessionId create) (summary_rows_at sid create rows)
  = [create].
Proof.
  unfold summary_under, Store.summaries_at.
  induction rows as [|r rows IH]; simpl.
  - by rewrite String.eqb_refl.
  - destruct (String.eqb (sm_sessionId r) (sm_sessionId create)) eqn:Hr; simpl; [done|].
    intros Hrest. destruct (String.eqb (sm_sessionId r) sid); simpl.
    + rewrite String.eqb_refl. f_equal.
      by apply (summaries_at_none (sm_sessionId create) rows).
    + rewrite Hr. by apply IH.
Qed.

Lemma summary_under_elem x rows :
  summary_under x rows = true -> exists r, r ∈ rows /\ sm_sessionId r = x.
Proof.
  unfold summary_under. intros (r & Hr & Heq)%existsb_exists.
  exists r. split; [by apply list_elem_of_In|by apply String.eqb_eq].
Qed.

Lemma summary_rows_at_sessions (P : string -> Prop) sid create rows :
  Forall (fun row => P (sm_sessionId row)) rows ->
  P (sm_sessionId create) ->
  Forall (fun row => P (sm_sessionId row)) (summary_rows_at sid create rows).
Proof.
  intros Hrows Hc. induction Hrows as [|r rows Hr Hrest IH]; simpl.
  - by constructor.
  - destruct (String.eqb _ _); constructor; done.
Qed.

(** A summary upsert the database accepts keeps the table to one row for
    a session, and its rows with sessions that are there. *)
Lemma summary_upsert_at_sound (P : string -> Prop) sid create d d' :
  summary_upsert_at sid create d = Returned d' ->
  (forall x, is_Some (sessions d !! x) -> P x) ->
  Store.summaries_unique (summaries d) ->
  Forall (fun row => P (sm_sessionId row)) (summaries d) ->
  Store.summaries_unique (summaries d')
  /\ Forall (fun row => P (sm_sessionId row)) (summaries d').
Proof.
  intros Hup HP Hu Hall.
  pose proof (summary_upsert_at_written _ _ _ _ Hup) as ->. simpl.
  unfold summary_upsert_at in Hup.
  destruct (String.eqb (sm_sessionId create) sid) eqn:Hsame.
  - apply String.eqb_eq in Hsame as <-. rewrite summary_rows_at_own.
    split; [by apply summary_upsert_unique|].
    rewrite <- summary_rows_at_own. apply summary_rows_at_sessions; [done|].
    destruct (summary_under (sm_sessionId create) (summaries d)) eqn:Hunder.
    + apply summary_under_elem in Hunder as (r & Hr & <-).
      by eapply Forall_forall in Hall.
    + simpl in Hup. case_bool_decide as Hfk; [done|].
      apply HP. by destruct (sessions d !! sm_sessionId create); [eexists|].
  - rewrite andb_false_r in Hup. case_bool_decide as Hfk; [done|].
    simpl in Hup.
    destruct (summary_under (sm_sessionId create) (summaries d)) eqn:Hunder; [done|].
    apply String.eqb_neq in Hsame. split.
    + intros x. destruct (decide (sm_sessionId create = x)) as [<-|Hne].
      * by rewrite summaries_at_rows_at_new.
      * etrans; [by apply summaries_at_rows_at_other|apply Hu].
    + apply summary_rows_at_sessions; [done|].
      apply HP. by destruct (sessions d !! sm_sessionId create); [eexists|].
Qed.

(** ** What each handler does to the tables *)

Section Frames.
Variable JSON_parse : string -> option JsValue.

Lemma step_tables w ev :
  let w' := step JSON_parse w ev in
  (sessions (db w') = sessions (db w)
   \/ (exists sid s s', sessions (db w) !! sid = Some s
                        /\ sessions (db w') = <[sid := s']> (sessions (db w)))
   \/ (exists socket data row,
         ev = EvStart socket (Success data)
         /\ sessions (db w') = <[start_sessionId data := row]> (sessions (db w))))
  /\ ((transcriptChunks (db w') = transcriptChunks (db w)
       /\ summaries (db w') = summaries (db w))
      \/ (exists sid now model fault s,
            ev = EvStop (Some sid) now model fault
            /\ sessions (db w) !! sid = Some s
            /\ transcriptChunks (db w')
               = Spec.upsert_all (buffered w sid) (transcriptChunks (db w))
            /\ (summaries (db w') = summaries (db w)
                \/ exists row d d',
                     summary_upsert_at sid row d = Returned d'
                     /\ sessions d
                        = <[sid := set_status_ended PROCESSING now s]> (sessions (db w))
                     /\ summaries d = summaries (db w)
                     /\ summaries (db w') = summaries d'))).
Proof.
  unfold step, handle.
  destruct ev as [socket parsed|socket parsed|payload model|sid|sid|sid now model fault].
  - destruct parsed as [|data]; [split; left; done|].
    destruct (user_upsert (userId data) (userEmail data) (db w)) as [d|e] eqn:Hu.
    + destruct (session_start_success socket data d w Hu)
        as (w1 & -> & _ & _ & _ & _ & Hd1 & _). cbn [snd].
      destruct (user_upsert_users _ _ _ _ Hu) as [Hd _].
      rewrite Hd1, Hd. simpl. split; [|by left].
      right; right. by eexists socket, data, _.
    + unfold session_start. unfold_m. simpl. rewrite Hu. simpl. split; by left.
  - destruct parsed as [|data]; [split; left; done|].
    specialize (handle_chunk_world JSON_parse socket data w) as Hw'.
    unfold step, handle in Hw'. rewrite Hw'.
    destruct (chunk_received_world socket data w) as (_ & _ & -> & _).
    split; by left.
  - destruct (chunk_transcribed_frame payload model w) as (_ & _ & ->).
    split; by left.
  - unfold session_pause. destruct (falsy_id sid); [split; by left|].
    unfold_m. unfold session_update.
    destruct (sessions (db w) !! default EmptyString sid) as [s|] eqn:Hs; simpl.
    + split; [right; left; by eexists _, s, _|by left].
    + split; by left.
  - unfold session_resume. destruct (falsy_id sid); [split; by left|].
    unfold_m. unfold session_update.
    destruct (sessions (db w) !! default EmptyString sid) as [s|] eqn:Hs; simpl.
    + split; [right; left; by eexists _, s, _|by left].
    + split; by left.
  - destruct (falsy_id sid) eqn:Hfalsy.
    { unfold session_stop. rewrite Hfalsy. simpl. split; by left. }
    destruct sid as [sid|]; [|done]. simpl in Hfalsy.
    apply negb_false_iff in Hfalsy.
    destruct (sessions (db w) !! sid) as [s|] eqn:Hs.
    + destruct (session_stop_outcome JSON_parse sid now model fault w s Hfalsy Hs)
        as (w' & -> & _ & _ & _ & _ & _ & _ & Hcases). cbn [snd].
      destruct Hcases as [(summary & d & _ & _ & Hcom & Hss & Ht & Hsm & _)
                         |(e & _ & Hss & Ht & Hsm & _)].
      * split; [right; left; by eexists sid, s, _|].
        right. exists sid, now, model, fault, s. split; [done|]. split; [done|].
        pose proof Hcom as Hwritten.
        apply committed_written in Hwritten as [Hc _]. simpl in Hc.
        split; [by rewrite Ht, Hc|]. rewrite Hsm.
        unfold Spec.committed in Hcom.
        destruct (Spec.summary_written summary) as [v|];
          [|left; by injection Hcom as <-].
        destruct (summary_columns sid v) as [row|] eqn:Hrow; [|done].
        right. by eexists row, _, d.
      * split; [right; left; by eexists sid, s, _|]. left. by rewrite Ht, Hsm.
    + rewrite (stop_without_row JSON_parse sid now model fault w Hfalsy Hs).
      simpl. split; by left.
Qed.
End Frames.

Lemma upsert_rows_sessions (P : string -> Prop) create rows :
  Forall (fun row => P (c_sessionId row)) rows ->
  P (c_sessionId create) ->
  Forall (fun row => P (c_sessionId row)) (chunk_upsert_rows create rows).
Proof.
  intros Hrows Hc. induction Hrows as [|r rows Hr Hrest IH]; simpl.
  - by constructor.
  - destruct (chunk_key _ _ r); constructor; done.
Qed.

Lemma upsert_all_sessions (P : string -> Prop) chunks rows :
  Forall (fun row => P (c_sessionId row)) rows ->
  Forall (fun chunk => P (sessionId chunk)) chunks ->
  Forall (fun row => P (c_sessionId row)) (Spec.upsert_all chunks rows).
Proof.
  unfold Spec.upsert_all. intros Hrows Hchunks. revert rows Hrows.
  induction Hchunks as [|chunk chunks Hc _ IH]; intros rows Hrows; simpl; [done|].
  apply IH. by apply upsert_rows_sessions.
Qed.

Lemma chunk_transcribed_heap payload model w r q :
  heap (chunk_transcribed payload model w).2 !! r = Some q ->
  exists p, heap w !! r = Some p
            /\ sessionId p = sessionId q /\ sequence p = sequence q.
Proof.
  unfold chunk_transcribed. unfold_m. cbn beta iota.
  destruct (bool_decide (payload ∈ inflight w)); [|by eauto].
  destruct (heap w !! payload) as [p|] eqn:Hp; [|by eauto].
  destruct (Gemini.transcribeAudio model (audio p) "audio/webm"); simpl; [|by eauto].
  destruct (decide (r = payload)) as [->|Hne].
  - rewrite list_lookup_insert_eq by (by eapply lookup_lt_Some).
    intros [= <-]. by exists p.
  - rewrite list_lookup_insert_ne by done. eauto.
Qed.

Lemma buffered_owned w sid :
  Store.buffer_owned w -> Forall (fun chunk => sessionId chunk = sid) (buffered w sid).
Proof.
  intros Hown. unfold buffered. apply Forall_forall. intros p Hp.
  apply list_elem_of_omap in Hp as (r & Hr & Hl). by eapply Hown.
Qed.

Section Invariants.
Variable JSON_parse : string -> option JsValue.

Lemma step_buffer_owned w ev :
  Spec.well_formed w -> Store.buffer_owned w ->
  Store.buffer_owned (step JSON_parse w ev).
Proof.
  intros [Hvalid _] Hown. unfold step, handle.
  destruct ev as [socket parsed|socket parsed|payload model|sid|sid|sid now model fault].
  - destruct (session_start_frame socket parsed w) as (Hh & _ & Hb).
    intros sid r p. rewrite Hh.
    destruct Hb as [-> | (sid' & ->)]; [apply Hown|].
    destruct (decide (sid' = sid)) as [->|Hne].
    + rewrite lookup_insert_eq. simpl. by intros ?%elem_of_nil.
    + rewrite lookup_insert_ne by done. apply Hown.
  - destruct parsed as [|data]; [exact Hown|].
    specialize (handle_chunk_world JSON_parse socket data w) as Hw'.
    unfold step, handle in Hw'. rewrite Hw'.
    destruct (chunk_received_world socket data w) as (Hheap & Hbuf & _).
    intros sid r p. rewrite Hheap, Hbuf.
    destruct (decide (sessionId data = sid)) as [<-|Hne].
    + rewrite lookup_insert_eq. simpl. intros [Hr| ->%list_elem_of_singleton]%elem_of_app.
      * specialize (Hvalid (sessionId data)). unfold Spec.refs_valid in Hvalid.
        rewrite Forall_forall in Hvalid. specialize (Hvalid r Hr).
        rewrite lookup_app_l by done. by apply Hown.
      * rewrite list_lookup_middle by done. by intros [= <-].
    + rewrite lookup_insert_ne by done. intros Hr.
      specialize (Hvalid sid). unfold Spec.refs_valid in Hvalid.
      rewrite Forall_forall in Hvalid. specialize (Hvalid r Hr).
      rewrite lookup_app_l by done. by apply Hown.
  - destruct (chunk_transcribed_frame payload model w) as (_ & Hb & _).
    intros sid r q. rewrite Hb. intros Hr Hq.
    destruct (chunk_transcribed_heap payload model w r q Hq) as (p & Hp & <- & _).
    by eapply Hown.
  - destruct (session_pause_frame sid w) as (Hh & Hb & _).
    intros sid' r p. rewrite Hh, Hb. apply Hown.
  - destruct (session_resume_frame sid w) as (Hh & Hb & _).
    intros sid' r p. rewrite Hh, Hb. apply Hown.
  - destruct (session_stop_frame JSON_parse sid now model fault w) as (Hh & Hb & _).
    intros sid' r p. rewrite Hh.
    destruct Hb as [-> | (sid'' & ->)]; [apply Hown|].
    destruct (decide (sid'' = sid')) as [->|Hne].
    + rewrite lookup_delete_eq. simpl. by intros ?%elem_of_nil.
    + rewrite lookup_delete_ne by done. apply Hown.
Qed.

Lemma step_sessions_kept w ev x :
  is_Some (sessions (db w) !! x) ->
  is_Some (sessions (db (step JSON_parse w ev)) !! x).
Proof.
  intros Hx. destruct (step_tables JSON_parse w ev) as [Hs _].
  destruct Hs as [-> | [(sid & s & s' & Hsid & ->) | (socket & data & row & _ & ->)]];
    [done| |].
  - destruct (decide (sid = x)) as [->|Hne];
      [rewrite lookup_insert_eq; by eexists|by rewrite lookup_insert_ne].
  - destruct (decide (start_sessionId data = x)) as [->|Hne];
      [rewrite lookup_insert_eq; by eexists|by rewrite lookup_insert_ne].
Qed.

Lemma step_sound w ev :
  Spec.well_formed w -> Store.sound w -> Store.sound (step JSON_parse w ev).
Proof.
  intros Hwf (Hown & Huniq & Hchunks & Hsums).
  split; [by apply step_buffer_owned|]. unfold Store.references_hold.
  destruct (step_tables JSON_parse w ev) as [_ Ht].
  destruct Ht as [[Hc Hs] | (sid & now & model & fault & s & -> & Hrow & Hc & Hs)].
  - rewrite Hc, Hs. split; [done|]. split.
    + eapply Forall_impl; [exact Hchunks|]. intros row. apply step_sessions_kept.
    + eapply Forall_impl; [exact Hsums|]. intros row. apply step_sessions_kept.
  - pose proof (step_sessions_kept w (EvStop (Some sid) now model fault)) as Hkept.
    set (w' := step JSON_parse w (EvStop (Some sid) now model fault)) in *.
    set (P := fun x => is_Some (sessions (db w') !! x)).
    assert (Hnew : Store.summaries_unique (summaries (db w'))
                   /\ Forall (fun row => P (sm_sessionId row)) (summaries (db w'))).
    { destruct Hs as [-> | (row & d & d' & Hup & Hd & Hds & ->)].
      - split; [done|]. eapply Forall_impl; [exact Hsums|]. intros r. apply Hkept.
      - apply (summary_upsert_at_sound P sid row d d' Hup).
        + intros x. rewrite Hd. intros Hx. apply Hkept.
          destruct (decide (sid = x)) as [<-|Hne]; [by eexists|].
          by rewrite lookup_insert_ne in Hx.
        + by rewrite Hds.
        + rewrite Hds. eapply Forall_impl; [exact Hsums|]. intros r. apply Hkept. }
    destruct Hnew as [Hu' Hs'].
    split; [done|]. split; [|done].
    rewrite Hc. apply (upsert_all_sessions P).
    + eapply Forall_impl; [exact Hchunks|]. intros row. apply Hkept.
    + eapply Forall_impl; [by apply buffered_owned|].
      intros chunk ->. apply Hkept. by eexists.
Qed.

Lemma run_sound evs :
  Spec.well_formed (run JSON_parse initial evs)
  /\ Store.sound (run JSON_parse initial evs).
Proof.
  unfold run. induction evs as [|ev evs [IHw IHs]] using rev_ind.
  - split; [exact (run_well_formed JSON_parse [])|].
    split; [|split; [|split; constructor]].
    + intros sid r p. simpl. rewrite lookup_empty. simpl. by intros ?%elem_of_nil.
    + intros sid. simpl. lia.
  - rewrite foldl_app. simpl. split; [by apply step_well_formed|by apply step_sound].
Qed.

(** The same for the process with its running stops. *)
Lemma live_step_summaries st ev :
  Store.summaries_unique (summaries (db (Live.world st))) ->
  Store.summaries_unique (summaries (db (Live.world (Live.step JSON_parse st ev)))).
Proof.
  intros Hu.
  destruct ev as [socket parsed|socket parsed|payload model|sid|sid|sid now
                 |k model fails]; unfold Live.step; cbn [Live.world].
  - by destruct (session_start_tables socket parsed (Live.world st)) as [_ ->].
  - by rewrite chunk_received_tables.
  - by destruct (chunk_transcribed_frame payload model (Live.world st)) as (_ & _ & ->).
  - by destruct (session_pause_tables sid (Live.world st)) as [_ ->].
  - by destruct (session_resume_tables sid (Live.world st)) as [_ ->].
  - destruct (falsy_id sid); [done|]. by cbn.
  - destruct (Live.stops st !! k) as [stop|] eqn:Hk; [|done].
    destruct (Live.continue JSON_parse stop model fails (Live.world st))
      as [next w'] eqn:Hc. cbn [Live.world].
    assert (Hw' : w' = (Live.continue JSON_parse stop model fails (Live.world st)).2)
      by (by rewrite Hc).
    destruct (Live.awaits stop) as [now| | |create0|create| |e|] eqn:Ha;
      try (rewrite Hw';
           destruct (continue_unwritten JSON_parse stop model fails (Live.world st))
             as [_ ->]; [by rewrite Ha|done]).
    destruct fails;
      [rewrite Hw';
       destruct (continue_unwritten JSON_parse stop model true (Live.world st))
         as [_ ->]; [by rewrite Ha|done]|].
    unfold Live.continue in Hc. rewrite Ha in Hc.
    destruct (Live.commit stop create (db (Live.world st))) as [d|e] eqn:Hcom;
      injection Hc as <- <-; [|done].
    simpl. unfold Live.commit in Hcom. rewrite upserts_of_met in Hcom.
    destruct create as [row|]; [|by injection Hcom as <-].
    destruct (summary_upsert_at_sound (fun _ => True) _ _ _ _ Hcom) as [Hnew _];
      [done|done|by apply Forall_true|done].
Qed.

(** X12. From the start of the process on, whatever events it handles, at most
    one summary row is stored for every session, with the handlers run in
    one piece and with the stops run between the other handlers. The summary
    upsert finds its row by the session id of the stop; an answer of the
    model that names another session is written under that one, and the
    unique index refuses it when that session has a summary already. *)
Theorem one_summary_per_session (evs : list Event) (live : list Live.Event) :
  Store.summaries_unique (summaries (db (run JSON_parse initial evs)))
  /\ Store.summaries_unique
       (summaries (db (Live.world (Live.run JSON_parse Live.initial live)))).
Proof.
  split; [by destruct (run_sound evs) as (_ & _ & ? & _)|].
  unfold Live.run. induction live as [|ev live IH] using rev_ind.
  - intros sid. simpl. lia.
  - rewrite foldl_app. simpl. by apply live_step_summaries.
Qed.

(** X14. Session rows come from session:start alone, and stay: after any run
    every session that had a row still has one, and every session with a row
    had one before or was named by a session:start of the run with a valid
    payload. *)
Theorem sessions_come_from_start_and_stay (w : World) (evs : list Event) :
  dom (sessions (db w)) ⊆ dom (sessions (db (run JSON_parse w evs)))
  /\ dom (sessions (db (run JSON_parse w evs)))
     ⊆ dom (sessions (db w)) ∪ list_to_set (Store.started_ids evs).
Proof.
  unfold run. revert w. induction evs as [|ev evs IH]; intros w.
  - simpl. split; set_solver.
  - cbn [foldl]. destruct (IH (step JSON_parse w ev)) as [IH1 IH2].
    assert (Hstep : dom (sessions (db w)) ⊆ dom (sessions (db (step JSON_parse w ev)))
              /\ dom (sessions (db (step JSON_parse w ev)))
                 ⊆ dom (sessions (db w)) ∪ list_to_set (Store.started_ids [ev])).
    { destruct (step_tables JSON_parse w ev) as [Hs _].
      destruct Hs as [-> | [(sid & s & s' & Hsid & ->) | (socket & data & row & -> & ->)]].
      - split; set_solver.
      - rewrite dom_insert_L. apply elem_of_dom_2 in Hsid. split; set_solver.
      - rewrite dom_insert_L. simpl. split; set_solver. }
    destruct Hstep as [H1 H2]. split; [set_solver|].
    assert (Hcons : list_to_set (Store.started_ids (ev :: evs))
                    =@{gset string} list_to_set (Store.started_ids [ev])
                      ∪ list_to_set (Store.started_ids evs)).
    { unfold Store.started_ids. simpl.
      destruct ev as [? [|?]| | | | |]; simpl; set_solver. }
    rewrite Hcons. set_solver.
Qed.
End Invariants.

(** ** Stops that run between other handlers *)

Section Running.
Variable JSON_parse : string -> option JsValue.

(** What a step leaves of a running stop: the session, the transcript,
    and the chunks met, to which its own loop alone adds. *)
Lemma continue_met stop model fails w :
  let next := (Live.continue JSON_parse stop model fails w).1 in
  Live.sessionId next = Live.sessionId stop
  /\ Live.chunks next = Live.chunks stop
  /\ Live.transcript next = Live.transcript stop
  /\ exists more, Live.met next = Live.met stop ++ more.
Proof.
  unfold Live.continue.
  destruct (Live.awaits stop) as [now| | |create|create| |e|]; simpl.
  - destruct (session_update _ _ _); [destruct (Js.truthy_string _)|];
      simpl; repeat split; exists []; by rewrite app_nil_r.
  - destruct (Gemini.summarizeTranscript _ _ _);
      simpl; repeat split; exists []; by rewrite app_nil_r.
  - destruct fails; simpl; [repeat split; exists []; by rewrite app_nil_r|].
    unfold Live.next_statement.
    destruct (Live.elements w stop !! length (Live.met stop)) as [chunk|];
      [simpl; repeat split; by exists [chunk]|].
    destruct (Live.summary stop) as [v|];
      [destruct (truthy v);
       [destruct (summary_columns (Live.sessionId stop) v)|]|];
      simpl; repeat split; exists []; by rewrite app_nil_r.
  - destruct fails; [|destruct (summary_upsert_at _ _ _)];
      simpl; repeat split; exists []; by rewrite app_nil_r.
  - destruct fails; [|destruct (Live.commit _ _ _)];
      simpl; repeat split; exists []; by rewrite app_nil_r.
  - destruct (session_update _ _ _);
      simpl; repeat split; exists []; by rewrite app_nil_r.
  - destruct (session_update _ _ _);
      simpl; repeat split; exists []; by rewrite app_nil_r.
  - repeat split; exists []; by rewrite app_nil_r.
Qed.

Lemma out_of_buffer_met sid w stop :
  let stop' := Live.out_of_buffer sid w stop in
  Live.sessionId stop' = Live.sessionId stop
  /\ Live.transcript stop' = Live.transcript stop
  /\ Live.summary stop' = Live.summary stop
  /\ Live.met stop' = Live.met stop
  /\ Live.awaits stop' = Live.awaits stop
  /\ Live.array w stop' = Live.array w stop.
Proof.
  unfold Live.out_of_buffer, Live.array.
  destruct (Live.chunks stop) eqn:Hc; [|by rewrite Hc].
  destruct (String.eqb _ _); simpl; [done|by rewrite Hc].
Qed.


(** A running stop keeps its place in the list, its session and its
    transcript, and what it has met. *)
Lemma step_stop st ev k stop :
  Live.stops st !! k = Some stop ->
  exists stop',
    Live.stops (Live.step JSON_parse st ev) !! k = Some stop'
    /\ Live.sessionId stop' = Live.sessionId stop
    /\ Live.transcript stop' = Live.transcript stop
    /\ exists more, Live.met stop' = Live.met stop ++ more.
Proof.
  intros Hk.
  assert (Hsame : exists stop',
            Some stop = Some stop'
            /\ Live.sessionId stop' = Live.sessionId stop
            /\ Live.transcript stop' = Live.transcript stop
            /\ exists more, Live.met stop' = Live.met stop ++ more).
  { exists stop. repeat split. exists []. by rewrite app_nil_r. }
  assert (Hout : forall sid w, exists stop',
            Some (Live.out_of_buffer sid w stop) = Some stop'
            /\ Live.sessionId stop' = Live.sessionId stop
            /\ Live.transcript stop' = Live.transcript stop
            /\ exists more, Live.met stop' = Live.met stop ++ more).
  { intros sid w. eexists. split; [done|].
    destruct (out_of_buffer_met sid w stop) as (-> & -> & _ & -> & _).
    repeat split. exists []. by rewrite app_nil_r. }
  destruct ev as [socket parsed|socket parsed|payload model|sid|sid|sid now
                 |k' model fails]; unfold Live.step; cbn [Live.stops].
  - destruct parsed as [|data]; [by rewrite Hk|].
    rewrite list_lookup_fmap, Hk. apply Hout.
  - by rewrite Hk.
  - by rewrite Hk.
  - by rewrite Hk.
  - by rewrite Hk.
  - destruct (falsy_id sid); [by rewrite Hk|]. cbn.
    rewrite lookup_app_l by (by eapply lookup_lt_Some). by rewrite Hk.
  - destruct (Live.stops st !! k') as [stop0|] eqn:Hk'; [|by rewrite Hk].
    destruct (Live.continue JSON_parse stop0 model fails (Live.world st))
      as [next w'] eqn:Hc. cbn [Live.stops].
    assert (Hnext : next = (Live.continue JSON_parse stop0 model fails (Live.world st)).1)
      by (by rewrite Hc).
    assert (Hlook : exists stop1,
              <[k' := next]> (Live.stops st) !! k = Some stop1
              /\ Live.sessionId stop1 = Live.sessionId stop
              /\ Live.transcript stop1 = Live.transcript stop
              /\ exists more, Live.met stop1 = Live.met stop ++ more).
    { destruct (decide (k' = k)) as [->|Hne].
      - rewrite list_lookup_insert_eq by (by eapply lookup_lt_Some).
        exists next. split; [done|]. rewrite Hk in Hk'. injection Hk' as <-.
        destruct (continue_met stop model fails (Live.world st)) as (? & _ & ? & ?).
        by rewrite Hnext.
      - rewrite list_lookup_insert_ne by done. by rewrite Hk. }
    destruct Hlook as (stop1 & Hl & H1 & H2 & more & H3).
    destruct (Live.left_try stop0 next); [|by exists stop1; eauto].
    rewrite list_lookup_fmap, Hl. eexists. split; [done|].
    destruct (out_of_buffer_met (Live.sessionId stop0) (Live.world st) stop1)
      as (-> & -> & _ & -> & _).
    split; [done|]. split; [done|]. by exists more.
Qed.

Lemma run_stop st evs k stop :
  Live.stops st !! k = Some stop ->
  exists stop',
    Live.stops (Live.run JSON_parse st evs) !! k = Some stop'
    /\ Live.sessionId stop' = Live.sessionId stop
    /\ Live.transcript stop' = Live.transcript stop
    /\ exists more, Live.met stop' = Live.met stop ++ more.
Proof.
  unfold Live.run. revert st stop.
  induction evs as [|ev evs IH]; intros st stop Hk; simpl.
  - exists stop. repeat split; [done|]. exists []. by rewrite app_nil_r.
  - destruct (step_stop st ev k stop Hk) as (stop1 & Hk1 & <- & <- & more1 & Hm1).
    destruct (IH _ _ Hk1) as (stop2 & Hk2 & <- & <- & more2 & Hm2).
    exists stop2. repeat split; [done|]. exists (more1 ++ more2).
    by rewrite Hm2, Hm1, app_assoc.
Qed.

(** *** A stop that found no array *)

Lemma continue_without_array sid stop model fails w :
  Running.without_array sid stop ->
  let next := (Live.continue JSON_parse stop model fails w).1 in
  let w' := (Live.continue JSON_parse stop model fails w).2 in
  Running.without_array sid next
  /\ transcriptChunks (db w') = transcriptChunks (db w)
  /\ summaries (db w') = summaries (db w)
  /\ calls w' = calls w
  /\ (Live.awaits stop = Live.UpdateCompleted ->
      is_Some (sessions (db w) !! sid) ->
      status_of w' sid = Some COMPLETED
      /\ sent w' = sent w ++ [(ToRoom sid, session_status COMPLETED None)]).
Proof.
  intros (Hsid & Hch & Htr & Hsum & Hmet & Haw).
  unfold Live.continue, Running.without_array.
  destruct (Live.awaits stop) as [now| | |create|[create|]| |e|] eqn:Ha;
    try done; simpl.
  - rewrite Htr. simpl.
    destruct (session_update _ _ _) as [d|] eqn:Hd; simpl; [|done].
    by apply session_update_tables in Hd as (? & ? & _).
  - destruct fails; simpl; [done|].
    unfold Live.next_statement, Live.elements, Live.array.
    rewrite Hch, Hsum, Hmet. simpl. by rewrite Hsum.
  - destruct fails; simpl; [done|].
    unfold Live.commit. rewrite Hmet. simpl. done.
  - rewrite Hsid, Hsum.
    destruct (session_update _ _ _) as [d|] eqn:Hd; simpl.
    + pose proof Hd as (? & ? & _ & s & Hs & Hss)%session_update_tables.
      repeat (split; [done|]). intros _ _.
      unfold status_of. simpl. by rewrite Hss, lookup_insert_eq.
    + repeat (split; [done|]). intros _ [s Hs].
      unfold session_update in Hd. by rewrite Hs in Hd.
  - destruct (session_update _ _ _) as [d|] eqn:Hd; simpl; [|done].
    by apply session_update_tables in Hd as (? & ? & _).
  - by rewrite Ha.
Qed.

Lemma step_without_array sid st ev k stop :
  Live.stops st !! k = Some stop ->
  Running.without_array sid stop ->
  exists stop',
    Live.stops (Live.step JSON_parse st ev) !! k = Some stop'
    /\ Running.without_array sid stop'.
Proof.
  intros Hk Hwo.
  assert (Hout : forall sid' w,
            Live.out_of_buffer sid' w stop = stop).
  { intros sid' w. unfold Live.out_of_buffer.
    destruct Hwo as (_ & -> & _). done. }
  destruct ev as [socket parsed|socket parsed|payload model|sid0|sid0|sid0 now
                 |k' model fails]; unfold Live.step; cbn [Live.stops].
  - destruct parsed as [|data]; [by eauto|].
    rewrite list_lookup_fmap, Hk. simpl. rewrite Hout. by eauto.
  - by eauto.
  - by eauto.
  - by eauto.
  - by eauto.
  - destruct (falsy_id sid0); [by eauto|]. cbn.
    rewrite lookup_app_l by (by eapply lookup_lt_Some). by eauto.
  - destruct (Live.stops st !! k') as [stop0|] eqn:Hk'; [|by eauto].
    destruct (Live.continue JSON_parse stop0 model fails (Live.world st))
      as [next w'] eqn:Hc. cbn [Live.stops].
    assert (Hnext : next = (Live.continue JSON_parse stop0 model fails (Live.world st)).1)
      by (by rewrite Hc).
    assert (Hlook : exists stop1,
              <[k' := next]> (Live.stops st) !! k = Some stop1
              /\ Running.without_array sid stop1).
    { destruct (decide (k' = k)) as [->|Hne].
      - rewrite list_lookup_insert_eq by (by eapply lookup_lt_Some).
        exists next. split; [done|]. rewrite Hk in Hk'. injection Hk' as <-.
        rewrite Hnext. by apply continue_without_array.
      - rewrite list_lookup_insert_ne by done. by eauto. }
    destruct Hlook as (stop1 & Hl & H1).
    destruct (Live.left_try stop0 next); [|by eauto].
    rewrite list_lookup_fmap, Hl. simpl. eexists. split; [done|].
    pose proof H1 as (_ & Hch & _). unfold Live.out_of_buffer. by rewrite Hch.
Qed.

(** X11. A stop that arrives when the buffer has no array for its session, as it
    is once an earlier stop of the session has ended, holds an empty array
    of its own that nothing is pushed on. Whatever is handled while it waits
    (chunks delivered, transcriptions, starts, other stops), it meets no
    chunk, has the empty transcript and comes to no summary: none of its
    steps calls the summarizer or writes to the chunk table or the summary
    table, and after its commit it sets the session to COMPLETED and
    announces that without a summary, when the session has its row. *)
Theorem stop_without_array_writes_nothing (st : Live.State) (sid : string)
    (now : Z) (evs : list Live.Event) :
  Js.truthy_string sid = true ->
  buffer (Live.world st) !! sid = None ->
  let k := length (Live.stops st) in
  let st' := Live.run JSON_parse
               (Live.step JSON_parse st (Live.SessionStop (Some sid) now)) evs in
  exists stop,
    Live.stops st' !! k = Some stop
    /\ Running.without_array sid stop
    /\ forall model fails,
         let w' := Live.world (Live.step JSON_parse st' (Live.Continue k model fails)) in
         transcriptChunks (db w') = transcriptChunks (db (Live.world st'))
         /\ summaries (db w') = summaries (db (Live.world st'))
         /\ calls w' = calls (Live.world st')
         /\ (Live.awaits stop = Live.UpdateCompleted ->
             is_Some (sessions (db (Live.world st')) !! sid) ->
             status_of w' sid = Some COMPLETED
             /\ sent w' = sent (Live.world st')
                          ++ [(ToRoom sid, session_status COMPLETED None)]).
Proof.
  intros Hsid Hnone k st'.
  assert (Hrun : exists stop, Live.stops st' !! k = Some stop
                              /\ Running.without_array sid stop).
  { subst st'. unfold Live.run.
    set (st1 := Live.step JSON_parse st (Live.SessionStop (Some sid) now)).
    assert (H1 : exists stop, Live.stops st1 !! k = Some stop
                              /\ Running.without_array sid stop).
    { subst st1. unfold Live.step, falsy_id. rewrite Hsid. simpl.
      eexists. split; [by apply list_lookup_middle|].
      unfold Running.without_array, buffered. simpl. by rewrite Hnone. }
    clearbody st1. revert st1 H1.
    induction evs as [|ev evs IH]; intros st1 (stop & Hk & Hwo); simpl; [by eauto|].
    apply IH. by eapply step_without_array. }
  destruct Hrun as (stop & Hk & Hwo). exists stop. split; [done|]. split; [done|].
  intros model fails. unfold Live.step. rewrite Hk.
  destruct (continue_without_array sid stop model fails (Live.world st') Hwo)
    as (_ & Hrest).
  destruct (Live.continue JSON_parse stop model fails (Live.world st')) as [next w1].
  exact Hrest.
Qed.


(** *** The loop and the array *)

Lemma in_step_length w stop :
  Running.in_step w stop ->
  (length (Live.met stop) <= length (Live.elements w stop))%nat.
Proof.
  unfold Running.in_step. intros H.
  apply (f_equal length) in H. rewrite length_fmap, length_take, length_fmap in H. lia.
Qed.

(** The array got longer, at most, and its elements kept their pairs. *)
Lemma in_step_kept w w' stop stop' extra :
  Running.pair <$> Live.elements w' stop'
  = (Running.pair <$> Live.elements w stop) ++ extra ->
  Live.met stop' = Live.met stop ->
  Running.in_step w stop -> Running.in_step w' stop'.
Proof.
  intros He Hm Hin. pose proof (in_step_length _ _ Hin) as Hlen.
  unfold Running.in_step in *. rewrite Hm, He, take_app_le; [done|].
  by rewrite length_fmap.
Qed.

Lemma well_kept w w' stop stop' :
  heap w' = heap w ->
  Live.array w' stop' = Live.array w stop ->
  Live.met stop' = Live.met stop ->
  Running.refs_valid w stop /\ Running.in_step w stop ->
  Running.refs_valid w' stop' /\ Running.in_step w' stop'.
Proof.
  intros Hh Ha Hm [Hv Hin]. split.
  - unfold Running.refs_valid. by rewrite Ha, Hh.
  - apply (in_step_kept w w' stop stop' []); [|done|done].
    unfold Live.elements. by rewrite Ha, Hh, app_nil_r.
Qed.

Lemma array_out_of_buffer w w' sid stop :
  (forall x, x <> sid -> buffer w' !! x = buffer w !! x) ->
  Live.array w' (Live.out_of_buffer sid w stop) = Live.array w stop.
Proof.
  intros Hother. unfold Live.out_of_buffer.
  destruct (Live.chunks stop) as [|refs] eqn:Hc.
  - destruct (String.eqb (Live.sessionId stop) sid) eqn:Hs.
    + done.
    + apply String.eqb_neq in Hs. unfold Live.array. rewrite Hc.
      by rewrite Hother.
  - unfold Live.array. by rewrite Hc.
Qed.

Lemma session_start_buffer socket data w :
  let w' := (session_start socket (Success data) w).2 in
  heap w' = heap w /\ buffer w' = <[start_sessionId data := []]> (buffer w).
Proof.
  unfold session_start. unfold_m. simpl.
  unfold user_upsert. case_bool_decide; simpl; [|done].
  unfold session_upsert. simpl.
  by destruct (sessions (db w) !! start_sessionId data).
Qed.

Lemma chunk_received_failure socket w :
  let w' := (chunk_received socket Failure w).2 in
  heap w' = heap w /\ buffer w' = buffer w /\ db w' = db w.
Proof. done. Qed.

Lemma well_chunk_received socket data w stop :
  Spec.well_formed w ->
  Running.refs_valid w stop /\ Running.in_step w stop ->
  let w' := (chunk_received socket (Success data) w).2 in
  Running.refs_valid w' stop /\ Running.in_step w' stop.
Proof.
  intros [Hvalid _] [Hv Hin] w'. subst w'.
  destruct (chunk_received_world socket data w) as (Hheap & Hbuf & _).
  assert (Harr : exists new,
            Live.array (chunk_received socket (Success data) w).2 stop
            = Live.array w stop ++ new
            /\ Forall (fun r => r = length (heap w)) new).
  { unfold Live.array. destruct (Live.chunks stop) as [|refs] eqn:Hc.
    - rewrite Hbuf.
      destruct (decide (sessionId data = Live.sessionId stop)) as [<-|Hne].
      + rewrite lookup_insert_eq. simpl. eexists. split; [done|].
        by constructor.
      + rewrite lookup_insert_ne by done. exists []. by rewrite app_nil_r.
    - exists []. by rewrite app_nil_r. }
  destruct Harr as (new & Harr & Hnew). split.
  - unfold Running.refs_valid. rewrite Harr, Hheap, length_app. simpl.
    apply Forall_app. split.
    + eapply Forall_impl; [exact Hv|]. simpl. intros; lia.
    + eapply Forall_impl; [exact Hnew|]. simpl. intros; lia.
  - apply (in_step_kept w _ stop stop
             (Running.pair <$> omap (fun r => (heap w ++ [data]) !! r) new));
      [|done|done].
    unfold Live.elements. rewrite Harr, Hheap, omap_app, fmap_app.
    by rewrite (omap_heap_app (heap w) data (Live.array w stop)).
Qed.

Lemma chunk_transcribed_pairs payload model w r :
  Running.pair <$> heap (chunk_transcribed payload model w).2 !! r
  = Running.pair <$> heap w !! r.
Proof.
  unfold chunk_transcribed. unfold_m. cbn beta iota.
  destruct (bool_decide (payload ∈ inflight w)); [|done].
  destruct (heap w !! payload) as [p|] eqn:Hp; [|done].
  destruct (Gemini.transcribeAudio model (audio p) "audio/webm"); simpl; [|done].
  destruct (decide (r = payload)) as [->|Hne].
  - rewrite list_lookup_insert_eq by (by eapply lookup_lt_Some). by rewrite Hp.
  - by rewrite list_lookup_insert_ne.
Qed.

Lemma omap_pairs (h h' : list ChunkPayload) (refs : list nat) :
  (forall r, Running.pair <$> h' !! r = Running.pair <$> h !! r) ->
  Running.pair <$> omap (fun r => h' !! r) refs
  = Running.pair <$> omap (fun r => h !! r) refs.
Proof.
  intros Hp. induction refs as [|r refs IH]; [done|]. simpl.
  specialize (Hp r). destruct (h' !! r) as [a|], (h !! r) as [b|]; simpl in *;
    try done.
  assert (Hab : Running.pair a = Running.pair b) by congruence.
  change (Running.pair a :: (Running.pair <$> omap (fun r => h' !! r) refs)
          = Running.pair b :: (Running.pair <$> omap (fun r => h !! r) refs)).
  by rewrite Hab, IH.
Qed.

Lemma well_chunk_transcribed payload model w stop :
  Running.refs_valid w stop /\ Running.in_step w stop ->
  let w' := (chunk_transcribed payload model w).2 in
  Running.refs_valid w' stop /\ Running.in_step w' stop.
Proof.
  intros [Hv Hin] w'. subst w'.
  destruct (chunk_transcribed_frame payload model w) as (Hlen & Hbuf & _).
  assert (Harr : Live.array (chunk_transcribed payload model w).2 stop
                 = Live.array w stop).
  { unfold Live.array. by rewrite Hbuf. }
  split.
  - unfold Running.refs_valid. by rewrite Harr, Hlen.
  - apply (in_step_kept w _ stop stop []); [|done|done].
    unfold Live.elements. rewrite Harr, app_nil_r.
    apply omap_pairs. apply chunk_transcribed_pairs.
Qed.

(** What a step of a stop does to the process beside the database. *)
Lemma continue_frame stop model fails w :
  let next := (Live.continue JSON_parse stop model fails w).1 in
  let w' := (Live.continue JSON_parse stop model fails w).2 in
  heap w' = heap w
  /\ (if Live.left_try stop next
      then buffer w' = delete (Live.sessionId stop) (buffer w)
      else buffer w' = buffer w)
  /\ (transcriptChunks (db w') = transcriptChunks (db w)
      \/ transcriptChunks (db w')
         = Spec.upsert_all (Live.met stop) (transcriptChunks (db w))).
Proof.
  unfold Live.continue, Live.left_try.
  destruct (Live.awaits stop) as [now| | |create|create| |e|] eqn:Ha; simpl.
  - destruct (session_update _ _ _) as [d|] eqn:Hd; simpl; [|by eauto].
    apply session_update_tables in Hd as (? & _).
    destruct (Js.truthy_string _); simpl; by eauto.
  - destruct (Gemini.summarizeTranscript _ _ _); simpl; by eauto.
  - destruct fails; simpl; [by eauto|].
    split; [done|]. split; [|by left].
    unfold Live.next_statement.
    destruct (Live.elements w stop !! length (Live.met stop)); simpl; [done|].
    destruct (Live.summary stop) as [v|];
      [destruct (truthy v);
       [destruct (summary_columns (Live.sessionId stop) v)|]|]; done.
  - destruct fails; [|destruct (summary_upsert_at _ _ _)]; simpl; by eauto.
  - destruct fails; simpl; [by eauto|].
    destruct (Live.commit stop create (db w)) as [d|] eqn:Hd; simpl; [|by eauto].
    apply commit_written in Hd as (_ & _ & ? & _). by eauto.
  - destruct (session_update _ _ _) as [d|] eqn:Hd; simpl; [|by eauto].
    apply session_update_tables in Hd as (? & _). by eauto.
  - destruct (session_update _ _ _) as [d|] eqn:Hd; simpl; [|by eauto].
    apply session_update_tables in Hd as (? & _). by eauto.
  - by eauto.
Qed.

Lemma continue_in_step stop model fails w :
  Running.in_step w stop ->
  let next := (Live.continue JSON_parse stop model fails w).1 in
  Live.array w next = Live.array w stop /\ Running.in_step w next.
Proof.
  intros Hin next.
  destruct (continue_met stop model fails w) as (Hsid & Hch & _).
  fold next in Hsid, Hch.
  assert (Harr : Live.array w next = Live.array w stop).
  { unfold Live.array. by rewrite Hsid, Hch. }
  split; [done|].
  assert (Hel : Live.elements w next = Live.elements w stop).
  { unfold Live.elements. by rewrite Harr. }
  assert (Hcases : Live.met next = Live.met stop
                   \/ exists chunk,
                        Live.elements w stop !! length (Live.met stop) = Some chunk
                        /\ Live.met next = Live.met stop ++ [chunk]).
  { subst next. unfold Live.continue.
    destruct (Live.awaits stop) as [now| | |create|create| |e|]; simpl.
    - destruct (session_update _ _ _); [destruct (Js.truthy_string _)|]; by left.
    - destruct (Gemini.summarizeTranscript _ _ _); by left.
    - destruct fails; [by left|]. unfold Live.next_statement.
      destruct (Live.elements w stop !! length (Live.met stop)) as [chunk|];
        [right; by exists chunk|].
      destruct (Live.summary stop) as [v|];
        [destruct (truthy v);
         [destruct (summary_columns (Live.sessionId stop) v)|]|]; by left.
    - destruct fails; [|destruct (summary_upsert_at _ _ _)]; by left.
    - destruct fails; [|destruct (Live.commit _ _ _)]; by left.
    - destruct (session_update _ _ _); by left.
    - destruct (session_update _ _ _); by left.
    - by left. }
  unfold Running.in_step in *. rewrite Hel.
  destruct Hcases as [-> | (chunk & Hchunk & ->)]; [done|].
  rewrite fmap_app, length_app. simpl.
  rewrite Nat.add_1_r.
  erewrite take_S_r; [by rewrite <- Hin|].
  by rewrite list_lookup_fmap, Hchunk.
Qed.

Lemma step_running st ev :
  Running.well_formed st -> Running.well_formed (Live.step JSON_parse st ev).
Proof.
  intros [Hwf Hstops]. unfold Running.well_formed.
  destruct ev as [socket parsed|socket parsed|payload model|sid|sid|sid now
                 |k model fails]; unfold Live.step; cbn [Live.world Live.stops].
  - split; [exact (step_well_formed JSON_parse _ (EvStart socket parsed) Hwf)|].
    destruct parsed as [|data]; [done|].
    destruct (session_start_buffer socket data (Live.world st)) as [Hh Hb].
    apply Forall_fmap. eapply Forall_impl; [exact Hstops|].
    intros stop Hstop. simpl.
    apply (well_kept (Live.world st)
             (session_start socket (Success data) (Live.world st)).2 stop);
      [done| |apply out_of_buffer_met|done].
    apply array_out_of_buffer. intros x Hx. by rewrite Hb, lookup_insert_ne.
  - destruct parsed as [|data]; [done|].
    split.
    + rewrite <- (handle_chunk_world JSON_parse).
      by apply step_well_formed.
    + eapply Forall_impl; [exact Hstops|]. intros stop Hstop.
      by apply well_chunk_received.
  - split; [exact (step_well_formed JSON_parse _ (EvTranscribed payload model) Hwf)|].
    eapply Forall_impl; [exact Hstops|]. intros stop Hstop.
    by apply well_chunk_transcribed.
  - split; [exact (step_well_formed JSON_parse _ (EvPause sid) Hwf)|].
    destruct (session_pause_frame sid (Live.world st)) as (Hh & Hb & _).
    eapply Forall_impl; [exact Hstops|]. intros stop Hstop.
    apply (well_kept (Live.world st) (session_pause sid (Live.world st)).2 stop);
      [done| |done|done].
    unfold Live.array. by rewrite Hb.
  - split; [exact (step_well_formed JSON_parse _ (EvResume sid) Hwf)|].
    destruct (session_resume_frame sid (Live.world st)) as (Hh & Hb & _).
    eapply Forall_impl; [exact Hstops|]. intros stop Hstop.
    apply (well_kept (Live.world st) (session_resume sid (Live.world st)).2 stop);
      [done| |done|done].
    unfold Live.array. by rewrite Hb.
  - destruct (falsy_id sid); [done|]. cbn.
    split; [exact Hwf|]. apply Forall_app. split.
    + eapply Forall_impl; [exact Hstops|]. intros stop Hstop.
      by apply (well_kept (Live.world st) _ stop).
    + constructor; [|done]. split.
      * unfold Running.refs_valid, Live.array. simpl.
        destruct Hwf as [Hvalid _]. specialize (Hvalid (default EmptyString sid)).
        unfold Spec.refs_valid in Hvalid.
        destruct (buffer (Live.world st) !! default EmptyString sid); [done|constructor].
      * done.
  - destruct (Live.stops st !! k) as [stop|] eqn:Hk; [|done].
    destruct (continue_frame stop model fails (Live.world st)) as (Hh & Hb & Ht).
    assert (Hstop : Running.refs_valid (Live.world st) stop
                    /\ Running.in_step (Live.world st) stop).
    { eapply Forall_forall in Hstops; [exact Hstops|]. by eapply list_elem_of_lookup_2. }
    destruct (continue_in_step stop model fails (Live.world st) (proj2 Hstop))
      as [Harr Hin].
    destruct (Live.continue JSON_parse stop model fails (Live.world st))
      as [next w'] eqn:Hc. cbn [fst snd Live.world Live.stops] in *.
    assert (Hall : Forall (fun stop => Running.refs_valid (Live.world st) stop
                                       /\ Running.in_step (Live.world st) stop)
                     (<[k := next]> (Live.stops st))).
    { apply Forall_insert; [done|]. split; [|done].
      unfold Running.refs_valid. rewrite Harr. apply Hstop. }
    split.
    + destruct Hwf as [Hvalid Hu]. split.
      * intros x. specialize (Hvalid x). unfold Spec.refs_valid in *. rewrite Hh.
        destruct (Live.left_try stop next); rewrite Hb; [|done].
        destruct (decide (Live.sessionId stop = x)) as [<-|Hne].
        -- rewrite lookup_delete_eq. constructor.
        -- by rewrite lookup_delete_ne.
      * destruct Ht as [-> | ->]; [done|by apply upsert_all_unique].
    + destruct (Live.left_try stop next).
      * apply Forall_fmap. eapply Forall_impl; [exact Hall|].
        intros stop1 Hstop1. simpl.
        apply (well_kept (Live.world st) w' stop1);
          [done| |apply out_of_buffer_met|done].
        apply array_out_of_buffer. intros x Hx. by rewrite Hb, lookup_delete_ne.
      * eapply Forall_impl; [exact Hall|]. intros stop1 Hstop1.
        apply (well_kept (Live.world st) w' stop1); [done| |done|done].
        unfold Live.array. by rewrite Hb.
Qed.

Lemma run_running evs :
  Running.well_formed (Live.run JSON_parse Live.initial evs).
Proof.
  unfold Live.run. induction evs as [|ev evs IH] using rev_ind.
  - split; [exact (run_well_formed JSON_parse [])|constructor].
  - rewrite foldl_app. simpl. by apply step_running.
Qed.

(** X15. From the start of the process on, the loop of a stop meets the array the
    stop holds, element by element: the chunks met are the first elements of
    the array, pair for pair, whatever was delivered, transcribed, started
    or stopped in between. When the array has no element past the chunks
    met, as it is when the loop is left, every chunk of the array was met,
    those delivered during the stop with the others; the commit then upserts
    a row for each. The array is that of the buffer as long as the stop
    holds it. What a stop has met stays as it was met when the chunk gets
    another text later: further events add chunks to it at most. *)
Theorem every_chunk_of_the_array_is_met (evs : list Live.Event) (k : nat)
    (stop : Live.Stop) :
  let st := Live.run JSON_parse Live.initial evs in
  Live.stops st !! k = Some stop ->
  Running.in_step (Live.world st) stop
  /\ (Live.elements (Live.world st) stop !! length (Live.met stop) = None ->
      Running.pair <$> Live.met stop
      = Running.pair <$> Live.elements (Live.world st) stop)
  /\ (Live.chunks stop = Live.InBuffer ->
      Live.elements (Live.world st) stop
      = buffered (Live.world st) (Live.sessionId stop))
  /\ forall evs',
       exists stop' more,
         Live.stops (Live.run JSON_parse st evs') !! k = Some stop'
         /\ Live.met stop' = Live.met stop ++ more.
Proof.
  intros st Hk. destruct (run_running evs) as [_ Hstops]. fold st in Hstops.
  assert (Hin : Running.in_step (Live.world st) stop).
  { eapply Forall_forall in Hstops; [apply Hstops|]. by eapply list_elem_of_lookup_2. }
  split; [done|]. split; [|split].
  - intros Hnone. apply lookup_ge_None in Hnone.
    unfold Running.in_step in Hin. rewrite Hin.
    apply take_ge. by rewrite length_fmap.
  - intros Hc. unfold Live.elements, Live.array, buffered. by rewrite Hc.
  - intros evs'. destruct (run_stop st evs' k stop Hk) as (stop' & ? & _ & _ & more & ?).
    by exists stop', more.
Qed.

End Running.

(** ** A stop during which nothing else is handled *)

Lemma with_calls_same w : with_calls w (calls w) = w.
Proof. by destruct w. Qed.

Section Alone.
Variable JSON_parse : string -> option JsValue.
Variable model : Gemini.SummaryModel.

(** The stop handler of [Server], seen as the world it leaves. *)
Lemma finalize_world sid chunks transcript w s :
  sessions (db w) !! sid = Some s ->
  (finalize JSON_parse sid chunks transcript model None w).2
  = Running.outcome JSON_parse model sid chunks transcript w.
Proof.
  intros Hs. unfold finalize, Running.outcome, Spec.summary_value, Spec.asked,
    summary_of, Running.closed.
  unfold finally, try_catch. unfold mbind, M_bind, bind at 1.
  destruct (Js.truthy_string transcript).
  - unfold call, modify, bind at 1.
    destruct (Gemini.summarizeTranscript JSON_parse model transcript) as [v|e].
    + unfold ret, bind at 1. rewrite transaction_commit.
      cbn [db with_calls].
      destruct (Spec.committed sid chunks (Some v) (db w)) as [d|e] eqn:Hcom.
      * destruct (committed_tables _ _ _ _ _ Hcom) as [_ Hss].
        unfold_m. unfold session_update. simpl. rewrite Hss, Hs. done.
      * unfold_m. unfold session_update. simpl. rewrite Hs. done.
    + unfold_m. unfold session_update. simpl. rewrite Hs. done.
  - unfold ret, bind at 1. rewrite transaction_commit. rewrite app_nil_r.
    rewrite with_calls_same.
    destruct (Spec.committed sid chunks None (db w)) as [d|e] eqn:Hcom.
    + destruct (committed_tables _ _ _ _ _ Hcom) as [_ Hss].
      unfold_m. unfold session_update. simpl. rewrite Hss, Hs. done.
    + unfold_m. unfold session_update. simpl. rewrite Hs. done.
Qed.


Lemma continued_over n stop w :
  Live.awaits stop = Live.Over ->
  Running.continued JSON_parse model n stop w = (stop, w).
Proof.
  intros Hover. induction n as [|n IH]; [done|]. simpl.
  unfold Live.continue. by rewrite Hover.
Qed.

Lemma continued_add a b stop w :
  Running.continued JSON_parse model (a + b) stop w
  = Running.continued JSON_parse model b
      (Running.continued JSON_parse model a stop w).1
      (Running.continued JSON_parse model a stop w).2.
Proof.
  revert stop w. induction a as [|a IH]; intros stop w; [done|]. simpl.
  destruct (Live.continue JSON_parse stop model false w) as [next w']. apply IH.
Qed.

(** A stop that is over within [j] steps is where it ended after more. *)
Lemma ends_later n j stop w stop' w' :
  Running.continued JSON_parse model j stop w = (stop', w') ->
  Live.awaits stop' = Live.Over -> (j <= n)%nat ->
  (Running.continued JSON_parse model n stop w).2 = w'.
Proof.
  intros Hj Hover Hle. replace n with (j + (n - j))%nat by lia.
  rewrite continued_add, Hj. simpl. by rewrite continued_over.
Qed.

Lemma ends_step j stop w stop' w' :
  Running.continued JSON_parse model j
    (Live.continue JSON_parse stop model false w).1
    (Live.continue JSON_parse stop model false w).2 = (stop', w') ->
  Running.continued JSON_parse model (S j) stop w = (stop', w').
Proof. simpl. by destruct (Live.continue JSON_parse stop model false w). Qed.

(** The run in which the stop numbered [k] alone goes on. *)
Lemma run_over st k n stop :
  Live.stops st !! k = Some stop -> Live.awaits stop = Live.Over ->
  Live.world (Live.run JSON_parse st (Running.alone k model n)) = Live.world st.
Proof.
  intros Hk Hover. unfold Live.run, Running.alone. revert st Hk.
  induction n as [|n IH]; intros st Hk; [done|]. cbn [replicate foldl].
  assert (Hstep : Live.step JSON_parse st (Live.Continue k model false)
                  = {| Live.world := Live.world st;
                       Live.stops := <[k := stop]> (Live.stops st) |}).
  { unfold Live.step. rewrite Hk. unfold Live.continue, Live.left_try.
    by rewrite Hover. }
  rewrite Hstep, IH; [done|]. simpl.
  apply list_lookup_insert_eq. by eapply lookup_lt_Some.
Qed.

Lemma run_alone st k n stop :
  Live.stops st !! k = Some stop ->
  Live.world (Live.run JSON_parse st (Running.alone k model n))
  = (Running.continued JSON_parse model n stop (Live.world st)).2.
Proof.
  revert st stop. induction n as [|n IH]; intros st stop Hk; [done|].
  assert (Hrun : Live.run JSON_parse st (Running.alone k model (S n))
                 = Live.run JSON_parse
                     (Live.step JSON_parse st (Live.Continue k model false))
                     (Running.alone k model n)) by done.
  rewrite Hrun. clear Hrun.
  assert (Hlt : (k < length (Live.stops st))%nat) by (by eapply lookup_lt_Some).
  cbn [Running.continued].
  destruct (Live.continue JSON_parse stop model false (Live.world st))
    as [next w'] eqn:Hc.
  set (st1 := Live.step JSON_parse st (Live.Continue k model false)).
  assert (Hw1 : Live.world st1 = w').
  { subst st1. unfold Live.step. by rewrite Hk, Hc. }
  destruct (Live.left_try stop next) eqn:Hleft.
  - assert (Hover : Live.awaits next = Live.Over).
    { unfold Live.left_try in Hleft.
      destruct (Live.awaits stop), (Live.awaits next); done. }
    rewrite continued_over by done. cbn [snd].
    rewrite (run_over st1 k n (Live.out_of_buffer (Live.sessionId stop)
                                 (Live.world st) next)); [done| |].
    + subst st1. unfold Live.step. rewrite Hk, Hc, Hleft. cbn [Live.stops].
      rewrite list_lookup_fmap, list_lookup_insert_eq by done. done.
    + by destruct (out_of_buffer_met (Live.sessionId stop) (Live.world st) next)
        as (_ & _ & _ & _ & -> & _).
  - rewrite (IH st1 next); [by rewrite Hw1|].
    subst st1. unfold Live.step. rewrite Hk, Hc, Hleft. cbn [Live.stops].
    by apply list_lookup_insert_eq.
Qed.

Lemma summary_upsert_at_chunks sid row d l :
  summary_upsert_at sid row (with_transcriptChunks d l)
  = match summary_upsert_at sid row d with
    | Returned d' => Returned (with_transcriptChunks d' l)
    | Thrown e => Thrown e
    end.
Proof. unfold summary_upsert_at. simpl. by repeat case_match. Qed.

(** The [catch] branch and the end of the [try] block. *)
Lemma failed_ends stop e w s :
  Live.awaits stop = Live.UpdateFailed e ->
  sessions (db w) !! Live.sessionId stop = Some s ->
  exists stop',
    Running.continued JSON_parse model 1 stop w
    = (stop', Running.closed (Live.sessionId stop) FAILED
                (session_error (Text "Failed to process summary") (Some e)) w)
    /\ Live.awaits stop' = Live.Over.
Proof.
  intros Ha Hs. simpl. unfold Live.continue, Running.closed. rewrite Ha.
  unfold session_update. rewrite Hs. by eexists.
Qed.

Lemma completed_ends stop w s :
  Live.awaits stop = Live.UpdateCompleted ->
  sessions (db w) !! Live.sessionId stop = Some s ->
  exists stop',
    Running.continued JSON_parse model 1 stop w
    = (stop', Running.closed (Live.sessionId stop) COMPLETED
                (session_status COMPLETED (Live.summary stop)) w)
    /\ Live.awaits stop' = Live.Over.
Proof.
  intros Ha Hs. simpl. unfold Live.continue, Running.closed. rewrite Ha.
  unfold session_update. rewrite Hs. by eexists.
Qed.

Lemma commit_ends stop create w s :
  Live.awaits stop = Live.Commit create ->
  sessions (db w) !! Live.sessionId stop = Some s ->
  exists j stop',
    (j <= 2)%nat
    /\ Running.continued JSON_parse model j stop w
       = (stop',
          match Live.commit stop create (db w) with
          | Returned d =>
              Running.closed (Live.sessionId stop) COMPLETED
                (session_status COMPLETED (Live.summary stop)) (with_db w d)
          | Thrown e =>
              Running.closed (Live.sessionId stop) FAILED
                (session_error (Text "Failed to process summary") (Some e)) w
          end)
    /\ Live.awaits stop' = Live.Over.
Proof.
  intros Ha Hs.
  destruct (Live.commit stop create (db w)) as [d|e] eqn:Hcom.
  - destruct (commit_written _ _ _ _ Hcom) as (_ & Hss & _).
    destruct (completed_ends (Live.awaiting stop Live.UpdateCompleted) (with_db w d) s)
      as (stop' & Hc & Hover); [done|by rewrite <- Hs, <- Hss|].
    exists 2%nat, stop'. split; [done|]. split; [|done].
    apply ends_step. unfold Live.continue at 1 2. rewrite Ha, Hcom. exact Hc.
  - destruct (failed_ends (Live.caught stop e) e w s) as (stop' & Hc & Hover);
      [done|done|].
    exists 2%nat, stop'. split; [done|]. split; [|done].
    apply ends_step. unfold Live.continue at 1 2. rewrite Ha, Hcom. exact Hc.
Qed.

(** The loop over an array on which nothing is pushed meanwhile. *)
Lemma loop_meets stop w rest :
  Live.awaits stop = Live.ChunkUpsert ->
  Live.elements w stop = Live.met stop ++ rest ->
  Running.continued JSON_parse model (length rest) stop w
  = (Live.with_met stop (Live.met stop ++ rest), w).
Proof.
  revert stop. induction rest as [|chunk rest IH]; intros stop Ha Hel.
  - simpl. rewrite app_nil_r. by destruct stop.
  - change (length (chunk :: rest)) with (S (length rest)).
    apply ends_step. unfold Live.continue at 1 2. rewrite Ha. cbn [fst snd].
    unfold Live.next_statement. rewrite Hel.
    rewrite list_lookup_middle by done. cbv beta iota.
    rewrite (IH (Live.with_met stop (Live.met stop ++ [chunk]))).
    + simpl. by rewrite <- app_assoc.
    + done.
    + simpl. rewrite <- app_assoc. exact Hel.
Qed.


Lemma ends_after a b stop w stop1 w1 final :
  Running.continued JSON_parse model a stop w = (stop1, w1) ->
  (exists j stop', (j <= b)%nat
     /\ Running.continued JSON_parse model j stop1 w1 = (stop', final)
     /\ Live.awaits stop' = Live.Over) ->
  exists j stop', (j <= a + b)%nat
     /\ Running.continued JSON_parse model j stop w = (stop', final)
     /\ Live.awaits stop' = Live.Over.
Proof.
  intros Ha (j & stop' & Hj & Hc & Hover). exists (a + j)%nat, stop'.
  split; [lia|]. split; [|done]. by rewrite continued_add, Ha.
Qed.

Lemma one_step stop w :
  Running.continued JSON_parse model 1 stop w
  = Live.continue JSON_parse stop model false w.
Proof. simpl. by destruct (Live.continue JSON_parse stop model false w). Qed.

(** The transaction and what follows it, for a stop that is alone. *)
Lemma transaction_ends stop w s chunks :
  Live.awaits stop = Live.ChunkUpsert ->
  Live.met stop = [] ->
  Live.elements w stop = chunks ->
  sessions (db w) !! Live.sessionId stop = Some s ->
  exists j stop',
    (j <= length chunks + 4)%nat
    /\ Running.continued JSON_parse model j stop w
       = (stop',
          match Spec.committed (Live.sessionId stop) chunks (Live.summary stop) (db w) with
          | Returned d =>
              Running.closed (Live.sessionId stop) COMPLETED
                (session_status COMPLETED (Live.summary stop)) (with_db w d)
          | Thrown e =>
              Running.closed (Live.sessionId stop) FAILED
                (session_error (Text "Failed to process summary") (Some e)) w
          end)
    /\ Live.awaits stop' = Live.Over.
Proof.
  intros Ha Hmet Hel Hs.
  pose proof (loop_meets stop w chunks Ha) as Hloop.
  rewrite Hmet in Hloop. specialize (Hloop Hel). simpl in Hloop.
  set (stopm := Live.with_met stop chunks) in *.
  eapply ends_after; [exact Hloop|].
  assert (Hnone : Live.elements w stopm !! length (Live.met stopm) = None).
  { unfold Live.elements in *. simpl. change (Live.array w stopm) with (Live.array w stop).
    rewrite Hel. by apply lookup_ge_None. }
  assert (Hexit : Live.continue JSON_parse stopm model false w
                  = (Live.next_statement stopm w, w)).
  { unfold Live.continue. simpl. by rewrite Ha. }
  unfold Live.next_statement in Hexit. rewrite Hnone in Hexit.
  change (Live.summary stopm) with (Live.summary stop) in Hexit.
  change (Live.sessionId stopm) with (Live.sessionId stop) in Hexit.
  assert (Hupserts : forall d,
            foldl (fun d chunk => transcriptChunk_upsert (chunk_row chunk) d) d chunks
            = with_transcriptChunks d (Spec.upsert_all chunks (transcriptChunks d)))
    by (intros d; apply upserts_of_met).
  unfold Spec.committed, Spec.summary_written.
  destruct (Live.summary stop) as [v|] eqn:Hsum;
    [destruct (truthy v) eqn:Hv;
     [destruct (summary_columns (Live.sessionId stop) v) as [row|] eqn:Hrow|]|].
  - (* the summary upsert *)
    change 4%nat with (1 + 3)%nat.
    eapply ends_after; [rewrite one_step; exact Hexit|].
    set (stops := Live.awaiting stopm (Live.SummaryUpsert row)).
    assert (Hstep : Live.continue JSON_parse stops model false w
                    = match summary_upsert_at (Live.sessionId stop) row (db w) with
                      | Returned _ => (Live.awaiting stops (Live.Commit (Some row)), w)
                      | Thrown e => (Live.caught stops e, w)
                      end) by done.
    rewrite summary_upsert_at_chunks.
    destruct (summary_upsert_at (Live.sessionId stop) row (db w)) as [d0|e] eqn:Hup.
    + change 3%nat with (1 + 2)%nat.
      eapply ends_after; [rewrite one_step; exact Hstep|].
      destruct (commit_ends (Live.awaiting stops (Live.Commit (Some row)))
                  (Some row) w s) as (j & stop' & Hj & Hc & Hover); [done|done|].
      exists j, stop'. split; [done|]. split; [|done]. rewrite Hc. f_equal.
      unfold Live.commit. simpl. rewrite Hupserts, summary_upsert_at_chunks, Hup.
      by rewrite Hsum.
    + change 3%nat with (1 + 2)%nat.
      eapply ends_after; [rewrite one_step; exact Hstep|].
      destruct (failed_ends (Live.caught stops e) e w s) as (stop' & Hc & Hover);
        [done|done|].
      exists 1%nat, stop'. split; [lia|]. by split.
  - (* the client refuses the summary *)
    change 4%nat with (1 + 3)%nat.
    eapply ends_after; [rewrite one_step; exact Hexit|].
    destruct (failed_ends (Live.caught stopm ValidationFailure) ValidationFailure w s)
      as (stop' & Hc & Hover); [done|done|].
    exists 1%nat, stop'. split; [lia|]. by split.
  - (* a falsy summary *)
    change 4%nat with (1 + 3)%nat.
    eapply ends_after; [rewrite one_step; exact Hexit|].
    destruct (commit_ends (Live.awaiting stopm (Live.Commit None)) None w s)
      as (j & stop' & Hj & Hc & Hover); [done|done|].
    exists j, stop'. split; [lia|]. split; [|done]. rewrite Hc. f_equal.
    unfold Live.commit. simpl. rewrite Hupserts. by rewrite Hsum.
  - (* no summary *)
    change 4%nat with (1 + 3)%nat.
    eapply ends_after; [rewrite one_step; exact Hexit|].
    destruct (commit_ends (Live.awaiting stopm (Live.Commit None)) None w s)
      as (j & stop' & Hj & Hc & Hover); [done|done|].
    exists j, stop'. split; [lia|]. split; [|done]. rewrite Hc. f_equal.
    unfold Live.commit. simpl. rewrite Hupserts. by rewrite Hsum.
Qed.

(** X16. A stop during which nothing else is handled, the database doing what it
    is asked, leaves the process exactly as the stop handler run in one
    piece does: the steps of the handler from one await to the next, taken
    one after the other, are the handler. Six steps and one for every
    buffered chunk are enough for the stop to be over, and further ones
    change nothing. *)
Theorem stop_alone_is_session_stop (st : Live.State) (sid : string) (now : Z)
    (n : nat) :
  Js.truthy_string sid = true ->
  (length (buffered (Live.world st) sid) + 6 <= n)%nat ->
  Live.world
    (Live.run JSON_parse st
       (Live.SessionStop (Some sid) now
        :: Running.alone (length (Live.stops st)) model n))
  = step JSON_parse (Live.world st) (EvStop (Some sid) now model None).
Proof.
  intros Hsid Hn. set (w := Live.world st) in *. set (k := length (Live.stops st)).
  set (w1 := with_sent w (sent w ++ [(ToRoom sid, session_status PROCESSING None)])).
  set (stop0 := (Live.arrive sid now w).1).
  assert (Hrun : Live.run JSON_parse st
                   (Live.SessionStop (Some sid) now :: Running.alone k model n)
                 = Live.run JSON_parse
                     {| Live.world := w1; Live.stops := Live.stops st ++ [stop0] |}
                     (Running.alone k model n)).
  { unfold Live.run. cbn [foldl]. f_equal.
    unfold Live.step, falsy_id. by rewrite Hsid. }
  rewrite Hrun. clear Hrun.
  rewrite (run_alone _ k n stop0) by (by apply list_lookup_middle).
  cbn [Live.world].
  assert (Hel : Live.elements w1 stop0 = buffered w sid).
  { unfold Live.elements, Live.array, buffered. simpl.
    by destruct (buffer w !! sid). }
  unfold step, handle.
  destruct (sessions (db w) !! sid) as [s|] eqn:Hs.
  - (* the session has its row *)
    assert (Hstop : session_stop JSON_parse (Some sid) now model None w
                    = finalize JSON_parse sid (buffered w sid)
                        (build_transcript (buffered w sid)) model None
                        (with_db w1 (with_sessions (db w)
                           (<[sid := set_status_ended PROCESSING now s]> (sessions (db w)))))).
    { unfold session_stop, falsy_id. rewrite Hsid. simpl.
      unfold_m. unfold session_update. simpl. by rewrite Hs. }
    rewrite Hstop. clear Hstop.
    set (d2 := with_sessions (db w)
                 (<[sid := set_status_ended PROCESSING now s]> (sessions (db w)))).
    rewrite (finalize_world sid _ _ (with_db w1 d2) (set_status_ended PROCESSING now s))
      by (simpl; apply lookup_insert_eq).
    unfold Running.outcome, Spec.summary_value, Spec.asked.
    assert (Hfirst : Live.continue JSON_parse stop0 model false w1
                     = if Js.truthy_string (build_transcript (buffered w sid))
                       then (Live.awaiting stop0 Live.Summarize,
                             with_calls (with_db w1 d2)
                               (calls w ++ [CallSummarize (build_transcript (buffered w sid))]))
                       else (Live.awaiting stop0 Live.ChunkUpsert, with_db w1 d2)).
    { unfold Live.continue. simpl. unfold session_update. simpl. by rewrite Hs. }
    destruct (Js.truthy_string (build_transcript (buffered w sid))) eqn:Htruthy.
    + set (w2 := with_calls (with_db w1 d2)
                   (calls w ++ [CallSummarize (build_transcript (buffered w sid))])).
      change (with_calls (with_db w1 d2)
                (calls (with_db w1 d2) ++ [CallSummarize (build_transcript (buffered w sid))]))
        with w2.
      assert (Hsecond : forall x,
                Live.continue JSON_parse (Live.awaiting stop0 Live.Summarize)
                  model false x
                = match Gemini.summarizeTranscript JSON_parse model
                          (build_transcript (buffered w sid)) with
                  | Returned v =>
                      (Live.awaiting
                         (Live.with_summary (Live.awaiting stop0 Live.Summarize)
                            (Some v)) Live.ChunkUpsert, x)
                  | Thrown e =>
                      (Live.caught (Live.awaiting stop0 Live.Summarize) e, x)
                  end) by done.
      destruct (Gemini.summarizeTranscript JSON_parse model
                  (build_transcript (buffered w sid))) as [v|e] eqn:Hsummary.
      * destruct (transaction_ends
                    (Live.awaiting (Live.with_summary (Live.awaiting stop0 Live.Summarize)
                                      (Some v)) Live.ChunkUpsert)
                    w2 (set_status_ended PROCESSING now s) (buffered w sid))
          as (j & stop' & Hj & Hc & Hover);
          [done|done|exact Hel|simpl; apply lookup_insert_eq|].
        eapply (ends_later n (2 + j)); [|exact Hover|lia].
        change (2 + j)%nat with (1 + (1 + j))%nat.
        rewrite continued_add, one_step, Hfirst. cbn [fst snd].
        rewrite continued_add. rewrite one_step.
        rewrite Hsecond. cbn [fst snd].
        exact Hc.
      * destruct (failed_ends (Live.caught (Live.awaiting stop0 Live.Summarize) e) e w2
                    (set_status_ended PROCESSING now s))
          as (stop' & Hc & Hover); [done|simpl; apply lookup_insert_eq|].
        eapply (ends_later n 3); [|exact Hover|lia].
        change 3%nat with (1 + (1 + 1))%nat.
        rewrite continued_add, one_step, Hfirst. cbn [fst snd].
        rewrite continued_add.
        rewrite (one_step (Live.awaiting stop0 Live.Summarize)).
        rewrite Hsecond. cbn [fst snd].
        exact Hc.
    + rewrite app_nil_r, with_calls_same.
      destruct (transaction_ends (Live.awaiting stop0 Live.ChunkUpsert)
                  (with_db w1 d2) (set_status_ended PROCESSING now s) (buffered w sid))
        as (j & stop' & Hj & Hc & Hover);
        [done|done|exact Hel|simpl; apply lookup_insert_eq|].
      eapply (ends_later n (1 + j)); [|exact Hover|lia].
      rewrite continued_add, one_step, Hfirst. cbn [fst snd].
      exact Hc.
  - (* no row: the update to PROCESSING rejects *)
    rewrite (stop_without_row JSON_parse sid now model None w Hsid Hs). cbn [snd].
    eapply (ends_later n 1 _ _ (Live.awaiting stop0 Live.Over)); [|done|lia].
    rewrite one_step. unfold Live.continue. simpl.
    unfold session_update. simpl. by rewrite Hs.
Qed.

End Alone.

(** ** The rows of stops that run between other handlers *)

Section LiveSound.
Variable JSON_parse : string -> option JsValue.

Lemma continue_sessions stop model fails w x :
  is_Some (sessions (db w) !! x) ->
  is_Some (sessions (db (Live.continue JSON_parse stop model fails w).2) !! x).
Proof.
  intros Hx.
  assert (Hupd : forall f d,
            session_update (Live.sessionId stop) f (db w) = Returned d ->
            is_Some (sessions d !! x)).
  { intros f d (_ & _ & _ & s & Hs & ->)%session_update_tables.
    destruct (decide (Live.sessionId stop = x)) as [<-|Hne];
      [rewrite lookup_insert_eq; by eexists|by rewrite lookup_insert_ne]. }
  unfold Live.continue.
  destruct (Live.awaits stop) as [now| | |create|create| |e|]; simpl.
  - destruct (session_update _ _ _) as [d|] eqn:Hd; [|done].
    destruct (Js.truthy_string _); simpl; by eapply Hupd.
  - by destruct (Gemini.summarizeTranscript _ _ _).
  - by destruct fails.
  - destruct fails; [done|]. by destruct (summary_upsert_at _ _ _).
  - destruct fails; [done|].
    destruct (Live.commit stop create (db w)) as [d|] eqn:Hd; [|done]. simpl.
    apply commit_written in Hd as (_ & -> & _). done.
  - destruct (session_update _ _ _) as [d|] eqn:Hd; [|done]. simpl. by eapply Hupd.
  - destruct (session_update _ _ _) as [d|] eqn:Hd; [|done]. simpl. by eapply Hupd.
  - done.
Qed.

Lemma continue_rooted stop model fails w :
  Running.rooted w stop ->
  Running.rooted (Live.continue JSON_parse stop model fails w).2
    (Live.continue JSON_parse stop model fails w).1.
Proof.
  intros Hr.
  pose proof (continue_sessions stop model fails w (Live.sessionId stop)) as Hkept.
  unfold Running.rooted in *. revert Hkept. unfold Live.continue.
  destruct (Live.awaits stop) as [now| | |create|create| |e|] eqn:Ha; simpl.
  - destruct (session_update _ _ _) as [d|] eqn:Hd; [|done].
    apply session_update_tables in Hd as (_ & _ & _ & s & Hs & Hd).
    destruct (Js.truthy_string _); simpl; intros _; rewrite Hd, lookup_insert_eq;
      by eexists.
  - destruct (Gemini.summarizeTranscript _ _ _); simpl; auto.
  - destruct fails; simpl; [auto|]. intros _. unfold Live.next_statement.
    destruct (Live.elements w stop !! length (Live.met stop)); simpl; [by rewrite Ha|].
    destruct (Live.summary stop) as [v|];
      [destruct (truthy v);
       [destruct (summary_columns (Live.sessionId stop) v)|]|]; done.
  - destruct fails; [|destruct (summary_upsert_at _ _ _)]; simpl; auto.
  - destruct fails; [|destruct (Live.commit _ _ _)]; simpl; auto.
  - destruct (session_update _ _ _); simpl; auto.
  - destruct (session_update _ _ _); simpl; auto.
  - by rewrite Ha.
Qed.

Lemma continue_owned stop model fails w :
  Running.owned w stop ->
  Running.owned w (Live.continue JSON_parse stop model fails w).1.
Proof.
  intros [Hel Hmet].
  destruct (continue_met JSON_parse stop model fails w) as (Hsid & Hch & _ & _).
  set (next := (Live.continue JSON_parse stop model fails w).1) in *.
  assert (Harr : Live.elements w next = Live.elements w stop).
  { unfold Live.elements, Live.array. by rewrite Hsid, Hch. }
  split; [by rewrite Harr, Hsid|]. rewrite Hsid.
  assert (Hcases : Live.met next = Live.met stop
                   \/ exists chunk,
                        Live.elements w stop !! length (Live.met stop) = Some chunk
                        /\ Live.met next = Live.met stop ++ [chunk]).
  { subst next. unfold Live.continue.
    destruct (Live.awaits stop) as [now| | |create|create| |e|]; simpl.
    - destruct (session_update _ _ _); [destruct (Js.truthy_string _)|]; by left.
    - destruct (Gemini.summarizeTranscript _ _ _); by left.
    - destruct fails; [by left|]. unfold Live.next_statement.
      destruct (Live.elements w stop !! length (Live.met stop)) as [chunk|];
        [right; by exists chunk|].
      destruct (Live.summary stop) as [v|];
        [destruct (truthy v);
         [destruct (summary_columns (Live.sessionId stop) v)|]|]; by left.
    - destruct fails; [|destruct (summary_upsert_at _ _ _)]; by left.
    - destruct fails; [|destruct (Live.commit _ _ _)]; by left.
    - destruct (session_update _ _ _); by left.
    - destruct (session_update _ _ _); by left.
    - by left. }
  destruct Hcases as [-> | (chunk & Hchunk & ->)]; [done|].
  apply Forall_app. split; [done|]. constructor; [|done].
  eapply Forall_forall in Hel; [exact Hel|]. by eapply list_elem_of_lookup_2.
Qed.

(** The stop and the world changed in what the two notions do not read. *)
Lemma sound_kept w w' stop stop' :
  heap w' = heap w ->
  Live.array w' stop' = Live.array w stop ->
  Live.met stop' = Live.met stop ->
  Live.sessionId stop' = Live.sessionId stop ->
  Live.awaits stop' = Live.awaits stop ->
  (is_Some (sessions (db w) !! Live.sessionId stop) ->
   is_Some (sessions (db w') !! Live.sessionId stop)) ->
  Running.owned w stop /\ Running.rooted w stop ->
  Running.owned w' stop' /\ Running.rooted w' stop'.
Proof.
  intros Hh Ha Hm Hs Haw Hkept [[Hel Hmet] Hr]. split.
  - unfold Running.owned, Live.elements. by rewrite Ha, Hh, Hm, Hs.
  - unfold Running.rooted in *. rewrite Haw, Hs.
    destruct (Live.awaits stop); auto.
Qed.

Lemma sound_chunk_received socket data w stop :
  Spec.well_formed w ->
  Running.refs_valid w stop ->
  Running.owned w stop /\ Running.rooted w stop ->
  let w' := (chunk_received socket (Success data) w).2 in
  Running.owned w' stop /\ Running.rooted w' stop.
Proof.
  intros [Hvalid _] Hv [[Hel Hmet] Hr] w'. subst w'.
  destruct (chunk_received_world socket data w) as (Hheap & Hbuf & Hdb & _).
  split; [|unfold Running.rooted in *; by rewrite Hdb].
  split; [|done].
  assert (Harr : Live.array (chunk_received socket (Success data) w).2 stop
                 = Live.array w stop
                 \/ Live.array (chunk_received socket (Success data) w).2 stop
                    = Live.array w stop ++ [length (heap w)]
                    /\ sessionId data = Live.sessionId stop).
  { unfold Live.array. destruct (Live.chunks stop) as [|refs] eqn:Hc; [|by left].
    rewrite Hbuf.
    destruct (decide (sessionId data = Live.sessionId stop)) as [<-|Hne].
    - rewrite lookup_insert_eq. simpl. by right.
    - rewrite lookup_insert_ne by done. by left. }
  unfold Live.elements. rewrite Hheap.
  destruct Harr as [-> | [-> Hsid]].
  - by rewrite (omap_heap_app (heap w) data (Live.array w stop)).
  - rewrite omap_app, (omap_heap_app (heap w) data (Live.array w stop)) by done.
    apply Forall_app. split; [done|]. simpl.
    rewrite list_lookup_middle by done. by constructor.
Qed.

Lemma sound_chunk_transcribed payload model w stop :
  Running.owned w stop /\ Running.rooted w stop ->
  let w' := (chunk_transcribed payload model w).2 in
  Running.owned w' stop /\ Running.rooted w' stop.
Proof.
  intros [[Hel Hmet] Hr] w'. subst w'.
  destruct (chunk_transcribed_frame payload model w) as (_ & Hbuf & Hdb).
  split; [|unfold Running.rooted in *; by rewrite Hdb].
  split; [|done].
  assert (Hpairs : Running.pair <$> Live.elements (chunk_transcribed payload model w).2 stop
                   = Running.pair <$> Live.elements w stop).
  { unfold Live.elements, Live.array. rewrite Hbuf.
    apply omap_pairs. apply chunk_transcribed_pairs. }
  assert (Hfst : forall l : list ChunkPayload,
            Forall (fun chunk => sessionId chunk = Live.sessionId stop) l
            <-> Forall (fun p : string * Z => p.1 = Live.sessionId stop)
                  (Running.pair <$> l)).
  { intros l. by rewrite Forall_fmap. }
  apply Hfst. rewrite Hpairs. by apply Hfst.
Qed.

Lemma sound_out_of_buffer sid w w' stop :
  heap w' = heap w ->
  (forall x, x <> sid -> buffer w' !! x = buffer w !! x) ->
  (is_Some (sessions (db w) !! Live.sessionId stop) ->
   is_Some (sessions (db w') !! Live.sessionId stop)) ->
  Running.owned w stop /\ Running.rooted w stop ->
  Running.owned w' (Live.out_of_buffer sid w stop)
  /\ Running.rooted w' (Live.out_of_buffer sid w stop).
Proof.
  intros Hh Hb Hkept Hs.
  destruct (out_of_buffer_met sid w stop) as (H1 & _ & _ & H2 & H3 & _).
  apply (sound_kept w w' stop); try done. by apply array_out_of_buffer.
Qed.

(** The database a step of a stop leaves. *)
Lemma continue_references stop model fails w :
  Running.owned w stop -> Running.rooted w stop ->
  Store.summaries_unique (summaries (db w)) ->
  Store.references_hold (db w) ->
  Store.references_hold (db (Live.continue JSON_parse stop model fails w).2).
Proof.
  intros [_ Hmet] Hr Hu [Hchunks Hsums].
  pose proof (continue_sessions stop model fails w) as Hkept.
  set (w' := (Live.continue JSON_parse stop model fails w).2) in *.
  set (P := fun x => is_Some (sessions (db w') !! x)).
  assert (Hsame : transcriptChunks (db w') = transcriptChunks (db w)
                  /\ summaries (db w') = summaries (db w) ->
                  Store.references_hold (db w')).
  { intros [Hc Hs]. unfold Store.references_hold. rewrite Hc, Hs. split.
    - eapply Forall_impl; [exact Hchunks|]. intros row. apply Hkept.
    - eapply Forall_impl; [exact Hsums|]. intros row. apply Hkept. }
  destruct (Live.awaits stop) as [now| | |create0|create| |e|] eqn:Ha;
    try (apply Hsame; subst w'; apply continue_unwritten; by rewrite Ha).
  destruct fails;
    [apply Hsame; subst w'; apply continue_unwritten; by rewrite Ha|].
  unfold Running.rooted in Hr. rewrite Ha in Hr.
  subst w' P. revert Hkept Hsame. unfold Live.continue. rewrite Ha.
  destruct (Live.commit stop create (db w)) as [d|e] eqn:Hcom; simpl;
    intros Hkept Hsame; [|by apply Hsame].
  pose proof Hcom as (_ & Hss & Hrows & _)%commit_written.
  unfold Store.references_hold. split.
  - rewrite Hrows.
    apply (upsert_all_sessions (fun x => is_Some (sessions d !! x))).
    + eapply Forall_impl; [exact Hchunks|]. intros row. apply Hkept.
    + eapply Forall_impl; [exact Hmet|]. intros chunk ->. by apply Hkept.
  - unfold Live.commit in Hcom. rewrite upserts_of_met in Hcom.
    destruct create as [row|].
    + destruct (summary_upsert_at_sound (fun x => is_Some (sessions d !! x))
                  _ _ _ _ Hcom) as [_ Hnew]; [|done| |done].
      * intros x. simpl. apply Hkept.
      * simpl. eapply Forall_impl; [exact Hsums|]. intros r. apply Hkept.
    + injection Hcom as <-. simpl.
      eapply Forall_impl; [exact Hsums|]. intros r. apply Hkept.
Qed.

Lemma step_sound_live st ev :
  Running.well_formed st -> Running.sound st ->
  Running.sound (Live.step JSON_parse st ev).
Proof.
  intros [Hwf Hvalid] [Hsound Hstops].
  assert (Hserver : forall ev', Store.sound (step JSON_parse (Live.world st) ev'))
    by (intros ev'; by apply step_sound).
  assert (Hkept : forall ev' x,
            is_Some (sessions (db (Live.world st)) !! x) ->
            is_Some (sessions (db (step JSON_parse (Live.world st) ev')) !! x))
    by (intros ev' x; apply step_sessions_kept).
  unfold Running.sound.
  destruct ev as [socket parsed|socket parsed|payload model|sid|sid|sid now
                 |k model fails]; unfold Live.step; cbn [Live.world Live.stops].
  - split; [exact (Hserver (EvStart socket parsed))|].
    destruct parsed as [|data].
    + eapply Forall_impl; [exact Hstops|]. intros stop Hstop.
      by apply (sound_kept (Live.world st) _ stop).
    + destruct (session_start_buffer socket data (Live.world st)) as [Hh Hb].
      apply Forall_fmap. eapply Forall_impl; [exact Hstops|].
      intros stop Hstop.
      apply (sound_out_of_buffer (start_sessionId data) (Live.world st)
               (session_start socket (Success data) (Live.world st)).2);
        [done| |apply (Hkept (EvStart socket (Success data)))|done].
      intros x Hx. rewrite Hb. by rewrite lookup_insert_ne.
  - destruct parsed as [|data]; [done|].
    split.
    + rewrite <- (handle_chunk_world JSON_parse). apply Hserver.
    + apply Forall_forall. intros stop Hin.
      apply sound_chunk_received; [done| |].
      * eapply Forall_forall in Hvalid; [apply Hvalid|done].
      * eapply Forall_forall in Hstops; [apply Hstops|done].
  - split; [exact (Hserver (EvTranscribed payload model))|].
    eapply Forall_impl; [exact Hstops|]. intros stop Hstop.
    by apply sound_chunk_transcribed.
  - split; [exact (Hserver (EvPause sid))|].
    destruct (session_pause_frame sid (Live.world st)) as (Hh & Hb & _).
    eapply Forall_impl; [exact Hstops|]. intros stop Hstop.
    apply (sound_kept (Live.world st) (session_pause sid (Live.world st)).2 stop);
      [done| |done|done|done|apply (Hkept (EvPause sid))|done].
    unfold Live.array. by rewrite Hb.
  - split; [exact (Hserver (EvResume sid))|].
    destruct (session_resume_frame sid (Live.world st)) as (Hh & Hb & _).
    eapply Forall_impl; [exact Hstops|]. intros stop Hstop.
    apply (sound_kept (Live.world st) (session_resume sid (Live.world st)).2 stop);
      [done| |done|done|done|apply (Hkept (EvResume sid))|done].
    unfold Live.array. by rewrite Hb.
  - destruct (falsy_id sid); [done|]. cbn.
    split; [exact Hsound|]. apply Forall_app. split.
    + eapply Forall_impl; [exact Hstops|]. intros stop Hstop.
      by apply (sound_kept (Live.world st) _ stop).
    + constructor; [|done]. split; [|done]. split; [|done]. simpl.
      destruct Hsound as [Hown _].
      pose proof (buffered_owned (Live.world st) (default EmptyString sid) Hown) as Hb.
      unfold Live.elements, Live.array, buffered in *. simpl.
      by destruct (buffer (Live.world st) !! default EmptyString sid).
  - destruct (Live.stops st !! k) as [stop|] eqn:Hk; [|done].
    assert (Hstop : Running.owned (Live.world st) stop
                    /\ Running.rooted (Live.world st) stop).
    { eapply Forall_forall in Hstops; [exact Hstops|]. by eapply list_elem_of_lookup_2. }
    destruct Hsound as (Hown & Hu & Href).
    pose proof (continue_frame JSON_parse stop model fails (Live.world st))
      as (Hh & Hb & _).
    pose proof (continue_sessions stop model fails (Live.world st)) as Hss.
    pose proof (continue_rooted stop model fails (Live.world st) (proj2 Hstop)) as Hr.
    pose proof (continue_owned stop model fails (Live.world st) (proj1 Hstop)) as Ho.
    pose proof (continue_references stop model fails (Live.world st)
                  (proj1 Hstop) (proj2 Hstop) Hu Href) as Href'.
    pose proof (live_step_summaries JSON_parse st (Live.Continue k model fails) Hu)
      as Hu'.
    unfold Live.step in Hu'. rewrite Hk in Hu'.
    destruct (continue_met JSON_parse stop model fails (Live.world st))
      as (Hsid & Hch & _ & _).
    destruct (Live.continue JSON_parse stop model fails (Live.world st))
      as [next w'] eqn:Hc. cbn [fst snd Live.world Live.stops] in *.
    assert (Hnext : Running.owned w' next /\ Running.rooted w' next).
    { split; [|done]. destruct Ho as [Hel Hmet]. split; [|done].
      destruct (Live.left_try stop next) eqn:Hleft.
      - unfold Live.elements, Live.array in *. rewrite Hh.
        destruct (Live.chunks next); [|done].
        rewrite Hb, Hsid, lookup_delete_eq. constructor.
      - unfold Live.elements, Live.array in *. by rewrite Hh, Hb. }
    assert (Hothers : forall stop1,
              Running.owned (Live.world st) stop1
              /\ Running.rooted (Live.world st) stop1 ->
              Live.left_try stop next = false ->
              Running.owned w' stop1 /\ Running.rooted w' stop1).
    { intros stop1 Hs1 Hleft. rewrite Hleft in Hb.
      apply (sound_kept (Live.world st) w' stop1); try done; [|apply Hss].
      unfold Live.array. by rewrite Hb. }
    split.
    + split; [|done].
      intros x r p. rewrite Hh.
      destruct (Live.left_try stop next); rewrite Hb; [|apply Hown].
      destruct (decide (Live.sessionId stop = x)) as [<-|Hne].
      * rewrite lookup_delete_eq. simpl. by intros ?%elem_of_nil.
      * rewrite lookup_delete_ne by done. apply Hown.
    + destruct (Live.left_try stop next) eqn:Hleft.
      * apply Forall_fmap. apply Forall_forall. intros stop1 Hin. simpl.
        apply list_elem_of_lookup_1 in Hin as [i Hi].
        destruct (decide (i = k)) as [->|Hne].
        -- rewrite list_lookup_insert_eq in Hi by (by eapply lookup_lt_Some).
           injection Hi as <-.
           destruct (out_of_buffer_met (Live.sessionId stop) (Live.world st) next)
             as (H1 & _ & _ & H2 & H3 & _).
           destruct Hnext as [[_ Hmet'] Hr'].
           split; [split|].
           ++ unfold Live.elements. rewrite H1.
              rewrite (array_out_of_buffer (Live.world st) w') by
                (intros x Hx; by rewrite Hb, lookup_delete_ne).
              rewrite Hh. destruct Ho as [Hel _].
              unfold Live.elements in Hel. exact Hel.
           ++ by rewrite H1, H2.
           ++ unfold Running.rooted in *. by rewrite H3, H1.
        -- rewrite list_lookup_insert_ne in Hi by done.
           apply sound_out_of_buffer; [done| |apply Hss|].
           ++ intros x Hx. by rewrite Hb, lookup_delete_ne.
           ++ eapply Forall_forall in Hstops; [exact Hstops|].
              by eapply list_elem_of_lookup_2.
      * apply Forall_insert; [|done].
        eapply Forall_impl; [exact Hstops|]. intros stop1 Hs1. by apply Hothers.
Qed.

Lemma run_sound_live evs :
  Running.well_formed (Live.run JSON_parse Live.initial evs)
  /\ Running.sound (Live.run JSON_parse Live.initial evs).
Proof.
  unfold Live.run. induction evs as [|ev evs [IHw IHs]] using rev_ind.
  - split; [exact (run_running JSON_parse [])|].
    split; [exact (proj2 (run_sound JSON_parse []))|constructor].
  - rewrite foldl_app. simpl.
    split; [by apply step_running|by apply step_sound_live].
Qed.

(** X13. From the start of the process on, whatever events it handles, every
    chunk row and every summary row belongs to a session that has its row,
    and every chunk buffered under a session id carries that id: with the
    handlers run in one piece, and with the stops run between the other
    handlers, where a stop commits only chunks of its own session and
    session rows are never deleted. For the chunk rows this is the handlers'
    doing; a summary whose answer names another session is stored under that
    session when it has its row, and the foreign key refuses it when it has
    none. *)
Theorem rows_belong_to_sessions (evs : list Event) (live : list Live.Event) :
  let belong (w : World) :=
    Forall (fun row => is_Some (sessions (db w) !! c_sessionId row))
           (transcriptChunks (db w))
    /\ Forall (fun row => is_Some (sessions (db w) !! sm_sessionId row))
              (summaries (db w))
    /\ forall sid, Forall (fun chunk => sessionId chunk = sid) (buffered w sid) in
  belong (run JSON_parse initial evs)
  /\ belong (Live.world (Live.run JSON_parse Live.initial live)).
Proof.
  intros belong. subst belong. cbv beta. split.
  - destruct (run_sound JSON_parse evs) as (_ & Hown & _ & Hc & Hs).
    split; [done|]. split; [done|]. intros sid. by apply buffered_owned.
  - destruct (run_sound_live live) as (_ & (Hown & _ & Hc & Hs) & _).
    split; [done|]. split; [done|]. intros sid. by apply buffered_owned.
Qed.

End LiveSound.

Section QuietFacts.
Variable JSON_parse : string -> option JsValue.

Lemma buffered_empty_heap w sid : heap w = [] -> buffered w sid = [].
Proof.
  intros Hh. unfold buffered. rewrite Hh.
  induction (default [] (buffer w !! sid)) as [|r refs IH]; [done|].
  cbn [omap list_omap]. by rewrite lookup_nil.
Qed.

Lemma step_silent w ev :
  Quiet.is_chunk ev = false -> Quiet.silent w -> Quiet.silent (step JSON_parse w ev).
Proof.
  intros Hev (Hh & Hc & Ht & Hs & Hsent). unfold step, handle.
  destruct ev as [socket parsed|socket parsed|payload model|sid|sid|sid now model fault];
    [|done| | | |].
  - destruct parsed as [|data].
    + simpl. repeat split; try done. apply Forall_app. split; [done|]. by repeat constructor.
    + unfold session_start. unfold_m. simpl.
      unfold user_upsert. case_bool_decide; simpl; [|done].
      unfold session_upsert. simpl.
      destruct (sessions (db w) !! start_sessionId data); simpl;
        (repeat split; try done; apply Forall_app; split; [done|]; by repeat constructor).
  - unfold chunk_transcribed. unfold_m. cbn beta iota.
    rewrite Hh, lookup_nil. by destruct (bool_decide _).
  - unfold session_pause. destruct (falsy_id sid); [done|].
    unfold_m. unfold session_update.
    destruct (sessions (db w) !! default EmptyString sid); simpl; [|done].
    repeat split; try done. apply Forall_app. split; [done|]. by repeat constructor.
  - unfold session_resume. destruct (falsy_id sid); [done|].
    unfold_m. unfold session_update.
    destruct (sessions (db w) !! default EmptyString sid); simpl; [|done].
    repeat split; try done. apply Forall_app. split; [done|]. by repeat constructor.
  - destruct (falsy_id sid) eqn:Hfalsy.
    { unfold session_stop. rewrite Hfalsy. done. }
    destruct sid as [sid|]; [|done]. simpl in Hfalsy.
    apply negb_false_iff in Hfalsy.
    destruct (sessions (db w) !! sid) as [s|] eqn:Hrow.
    + destruct (session_stop_outcome JSON_parse sid now model fault w s Hfalsy Hrow)
        as (w' & -> & Hh' & _ & _ & _ & Hcalls & _ & Hcases).
      rewrite (buffered_empty_heap w sid Hh) in Hcalls, Hcases.
      simpl in Hcalls, Hcases. cbn [snd].
      split; [by rewrite Hh'|]. split; [by rewrite Hcalls, Hc|].
      destruct Hcases as [(summary & d & Hv & _ & Hcom & _ & Ht' & Hs' & Hsent')
                         |(e & _ & _ & Ht' & Hs' & Hsent')].
      * unfold Spec.summary_value in Hv. simpl in Hv. injection Hv as <-.
        injection Hcom as <-. simpl in Ht', Hs'.
        rewrite Ht', Hs', Hsent'. repeat split; try done.
        apply Forall_app. split; [done|]. by repeat constructor.
      * rewrite Ht', Hs', Hsent'. repeat split; try done.
        apply Forall_app. split; [done|]. by repeat constructor.
    + unfold session_stop, falsy_id. rewrite Hfalsy. simpl.
      unfold_m. unfold session_update. simpl. rewrite Hrow. simpl.
      repeat split; try done. apply Forall_app. split; [done|]. by repeat constructor.
Qed.

(** X17. A process that is sent no chunk never asks a model, stores no chunk row
    and no summary row, and sends no summary to any client: whatever is
    started, paused, resumed and stopped, every status message goes out
    without a summary. *)
Theorem no_chunk_no_summary (evs : list Event) :
  Forall (fun ev => Quiet.is_chunk ev = false) evs ->
  let w := run JSON_parse initial evs in
  calls w = []
  /\ transcriptChunks (db w) = [] /\ summaries (db w) = []
  /\ Forall (fun m => Quiet.has_summary m = false) (sent w).
Proof.
  intros Hevs w.
  assert (Hsilent : Quiet.silent w).
  { subst w. unfold run. induction evs as [|ev evs IH] using rev_ind.
    - by repeat split.
    - apply Forall_app in Hevs as [Hevs Hev]. apply Forall_cons in Hev as [Hev _].
      rewrite foldl_app. cbn [foldl]. apply step_silent; [done|]. by apply IH. }
  by destruct Hsilent as (_ & ? & ? & ? & ?).
Qed.
End QuietFacts.

Import Promise Json Prisma.

(** ** Strings *)

Lemma append_cons a s t : String a s +:+ t = String a (s +:+ t).
Proof. reflexivity. Qed.

Lemma append_nil s : EmptyString +:+ s = s.
Proof. reflexivity. Qed.

Lemma append_empty s : s +:+ EmptyString = s.
Proof. induction s as [|a s IH]; [done|]. by rewrite append_cons, IH. Qed.

Lemma app_assoc_string (a b c : string) : (a +:+ b) +:+ c = a +:+ (b +:+ c).
Proof.
  induction a as [|x a IH]; [reflexivity|].
  change (String x ((a +:+ b) +:+ c) = String x (a +:+ (b +:+ c))). by rewrite IH.
Qed.

Lemma length_app s t :
  String.length (s +:+ t) = (String.length s + String.length t)%nat.
Proof. induction s as [|a s IH]; simpl; [done|]. by rewrite IH. Qed.

(** A white space character at the front of a string is one, two or
    three of its elements. *)
Lemma space_prefix_inv s rest :
  Js.space_prefix s = Some rest ->
  exists space, s = space +:+ rest /\ Js.space_prefix space = Some EmptyString
                /\ space <> EmptyString.
Proof.
  unfold Js.space_prefix. destruct s as [|a s1]; [done|].
  destruct ((9 <=? Js.code a) && (Js.code a <=? 13) || (Js.code a =? 32))%N eqn:H1.
  { intros [= <-]. exists (String a EmptyString). simpl. by rewrite H1. }
  destruct s1 as [|b s2]; [done|].
  destruct ((Js.code a =? 194) && (Js.code b =? 160))%N eqn:H2.
  { intros [= <-]. exists (String a (String b EmptyString)). simpl. by rewrite H1, H2. }
  destruct s2 as [|c s3]; [done|].
  match goal with |- (if ?x then _ else _) = _ -> _ => destruct x eqn:H3 end; [|done].
  intros [= <-]. exists (String a (String b (String c EmptyString))).
  simpl. by rewrite H1, H2, H3.
Qed.

Lemma space_prefix_app s rest t :
  Js.space_prefix s = Some rest ->
  Js.space_prefix (s +:+ t) = Some (rest +:+ t).
Proof.
  unfold Js.space_prefix. destruct s as [|a s1]; [done|]. rewrite append_cons.
  destruct ((9 <=? Js.code a) && (Js.code a <=? 13) || (Js.code a =? 32))%N eqn:H1.
  { by intros [= <-]. }
  destruct s1 as [|b s2]; [done|]. rewrite append_cons.
  destruct ((Js.code a =? 194) && (Js.code b =? 160))%N eqn:H2.
  { by intros [= <-]. }
  destruct s2 as [|c s3]; [done|]. rewrite append_cons.
  match goal with |- (if ?x then _ else _) = _ -> _ => destruct x eqn:H3 end; [|done].
  by intros [= <-].
Qed.

Lemma space_prefix_shorter s rest :
  Js.space_prefix s = Some rest -> (String.length rest < String.length s)%nat.
Proof.
  intros (space & -> & _ & Hne)%space_prefix_inv. rewrite length_app.
  destruct space; [done|]. simpl. lia.
Qed.

(** [trimStart], one character at a time. *)
Lemma trimStart_upto_fuel n m s :
  (String.length s <= n)%nat -> (String.length s <= m)%nat ->
  Js.trimStart_upto n s = Js.trimStart_upto m s.
Proof.
  revert m s. induction n as [|n IH]; intros m s Hn Hm.
  - destruct s; [|simpl in Hn; lia]. by destruct m.
  - destruct m as [|m]; [destruct s; [done|simpl in Hm; lia]|].
    cbn [Js.trimStart_upto].
    destruct (Js.space_prefix s) as [rest|] eqn:Hp; [|done].
    pose proof (space_prefix_shorter _ _ Hp). apply IH; lia.
Qed.

Lemma trimStart_upto_enough n s :
  (String.length s <= n)%nat -> Js.trimStart_upto n s = Js.trimStart s.
Proof. intros Hn. by apply trimStart_upto_fuel. Qed.

Lemma trimStart_space s rest :
  Js.space_prefix s = Some rest -> Js.trimStart s = Js.trimStart rest.
Proof.
  intros Hp. pose proof (space_prefix_shorter _ _ Hp) as Hlt.
  unfold Js.trimStart at 1. destruct s as [|a s']; [done|].
  cbn [String.length Js.trimStart_upto]. rewrite Hp.
  apply trimStart_upto_enough. simpl in Hlt. lia.
Qed.

Lemma trimStart_fixed s : Js.space_prefix s = None -> Js.trimStart s = s.
Proof.
  intros Hp. unfold Js.trimStart. destruct s as [|a s']; [done|].
  cbn [String.length Js.trimStart_upto]. by rewrite Hp.
Qed.

(** What [trimStart] returns has no white space at its front. *)
Lemma trimStart_head s : Js.space_prefix (Js.trimStart s) = None.
Proof.
  remember (String.length s) as n eqn:Hn. revert s Hn.
  induction n as [n IH] using lt_wf_ind. intros s ->.
  destruct (Js.space_prefix s) as [rest|] eqn:Hp.
  - rewrite (trimStart_space _ _ Hp).
    eapply IH; [|done]. by apply space_prefix_shorter.
  - by rewrite trimStart_fixed.
Qed.

Lemma trimEnd_idem s : Js.trimEnd (Js.trimEnd s) = Js.trimEnd s.
Proof.
  induction s as [|a s IH]; [done|]. cbn [Js.trimEnd].
  destruct (Js.space_prefix (String a (Js.trimEnd s))) as [[|b r]|] eqn:Hp;
    [done| |]; cbn [Js.trimEnd]; by rewrite IH, Hp.
Qed.

(** [trimEnd] cuts the string somewhere. *)
Lemma trimEnd_prefix s : exists t, s = Js.trimEnd s +:+ t.
Proof.
  induction s as [|a s (t & Ht)]; [by exists EmptyString|]. cbn [Js.trimEnd].
  destruct (Js.space_prefix (String a (Js.trimEnd s))) as [[|b r]|] eqn:Hp.
  - by exists (String a s).
  - exists t. by rewrite append_cons, <- Ht.
  - exists t. by rewrite append_cons, <- Ht.
Qed.

Lemma trimEnd_head s :
  Js.space_prefix s = None -> Js.space_prefix (Js.trimEnd s) = None.
Proof.
  intros Hs. destruct (trimEnd_prefix s) as (t & Ht).
  destruct (Js.space_prefix (Js.trimEnd s)) as [r|] eqn:Hp; [|done].
  apply (space_prefix_app _ _ t) in Hp. rewrite <- Ht in Hp. congruence.
Qed.

Lemma trim_idem s : Js.trim (Js.trim s) = Js.trim s.
Proof.
  unfold Js.trim.
  rewrite (trimStart_fixed (Js.trimEnd (Js.trimStart s)))
    by apply trimEnd_head, trimStart_head.
  apply trimEnd_idem.
Qed.

Lemma indexOf_lower c s : -1 <= Js.indexOf c s.
Proof.
  induction s as [|a s IH]; simpl; [lia|].
  destruct (Ascii.eqb a c); [lia|]. case_decide; lia.
Qed.

Lemma lastIndexOf_lower c s : -1 <= Js.lastIndexOf c s.
Proof.
  induction s as [|a s IH]; simpl; [lia|].
  case_decide; [lia|]. destruct (Ascii.eqb a c); lia.
Qed.

(** The first occurrence of a character that the text before it lacks. *)
Lemma indexOf_app c pre rest :
  Js.indexOf c pre = -1 ->
  Js.indexOf c (pre +:+ String c rest) = Z.of_nat (String.length pre).
Proof.
  induction pre as [|a pre IH]; simpl.
  - intros _. by rewrite Ascii.eqb_refl.
  - destruct (Ascii.eqb a c); [done|].
    pose proof (indexOf_lower c pre). case_decide; [lia|].
    intros _. rewrite IH by lia. case_decide; lia.
Qed.

(** The last occurrence of a character that the text after it lacks. *)
Lemma lastIndexOf_app c pre post :
  Js.lastIndexOf c post = -1 ->
  Js.lastIndexOf c (pre +:+ String c post) = Z.of_nat (String.length pre).
Proof.
  intros Hpost. induction pre as [|a pre IH]; simpl.
  - rewrite Hpost. case_decide; [lia|]. by rewrite Ascii.eqb_refl.
  - rewrite IH. case_decide; lia.
Qed.

Lemma lastIndexOf_none_indexOf c s : Js.indexOf c s = -1 <-> Js.lastIndexOf c s = -1.
Proof.
  induction s as [|a s IH]; simpl; [done|].
  pose proof (indexOf_lower c s). pose proof (lastIndexOf_lower c s).
  destruct (Ascii.eqb a c); repeat case_decide; try lia.
  all: split; intros; try lia.
  all: destruct IH; lia.
Qed.

Lemma substring_app_prefix mid post :
  String.substring 0 (String.length mid) (mid +:+ post) = mid.
Proof.
  induction mid as [|b mid IHm]; simpl; [by destruct post|]. by rewrite IHm.
Qed.

Lemma substring_app_middle pre mid post :
  String.substring (String.length pre) (String.length mid) (pre +:+ mid +:+ post) = mid.
Proof.
  induction pre as [|a pre IH]; [exact (substring_app_prefix mid post)|done].
Qed.

Lemma substring_none n s : String.substring n 0 s = EmptyString.
Proof. revert n. induction s as [|a s IH]; intros [|n]; simpl; auto. Qed.

Lemma slice_empty s start : Js.slice s start 0 = EmptyString.
Proof.
  unfold Js.slice. cbv zeta.
  pose proof (Nat2Z.is_nonneg (String.length s)) as Hlen.
  match goal with |- String.substring _ ?n _ = _ =>
    assert (Hn : n = 0%nat); [|rewrite Hn; apply substring_none] end.
  destruct (decide (0 < 0)); [lia|]. destruct (decide (start < 0)); lia.
Qed.

Lemma slice_app_middle pre mid post :
  Js.slice (pre +:+ mid +:+ post)
    (Z.of_nat (String.length pre))
    (Z.of_nat (String.length pre) + Z.of_nat (String.length mid))
  = mid.
Proof.
  unfold Js.slice. cbv zeta. rewrite !length_app.
  repeat case_decide; try lia.
  rewrite !Z.min_l by lia.
  replace (Z.of_nat (String.length pre) + Z.of_nat (String.length mid)
           - Z.of_nat (String.length pre)) with (Z.of_nat (String.length mid)) by lia.
  rewrite Z.max_l by lia. rewrite !Nat2Z.id. apply substring_app_middle.
Qed.

(** ** The summary gateway *)

Section SummaryFacts.
Variable JSON_parse : string -> option JsValue.

Lemma parse_summary_object pre mid post :
  Js.indexOf "{"%char pre = -1 ->
  Js.lastIndexOf "}"%char post = -1 ->
  let text := pre +:+ "{" +:+ mid +:+ "}" +:+ post in
  Gemini.parse_summary JSON_parse text
  = match JSON_parse ("{" +:+ mid +:+ "}") with
    | Some v => v
    | None => Gemini.fallback_summary text
    end.
Proof.
  intros Hpre Hpost text. unfold Gemini.parse_summary. cbv zeta.
  assert (Hs : Js.indexOf "{"%char text = Z.of_nat (String.length pre)).
  { subst text. by apply (indexOf_app "{"%char pre). }
  assert (He : Js.lastIndexOf "}"%char text + 1
               = Z.of_nat (String.length pre)
                 + Z.of_nat (String.length ("{" +:+ mid +:+ "}"))).
  { subst text.
    replace (pre +:+ "{" +:+ mid +:+ "}" +:+ post)
      with ((pre +:+ "{" +:+ mid) +:+ String "}"%char post)
      by (rewrite !app_assoc_string; done).
    rewrite (lastIndexOf_app "}"%char _ post Hpost).
    rewrite !length_app. change (String.length "{") with 1%nat.
    change (String.length "}") with 1%nat. lia. }
  rewrite Hs, He.
  replace text with (pre +:+ ("{" +:+ mid +:+ "}") +:+ post)
    by (subst text; rewrite !app_assoc_string; done).
  rewrite slice_app_middle.
  by rewrite !app_assoc_string.
Qed.

Lemma parse_summary_no_brace text :
  Js.lastIndexOf "}"%char text = -1 ->
  Gemini.parse_summary JSON_parse text
  = match JSON_parse EmptyString with
    | Some v => v
    | None => Gemini.fallback_summary text
    end.
Proof.
  intros Hno. unfold Gemini.parse_summary. cbv zeta.
  rewrite Hno. simpl (-1 + 1). by rewrite slice_empty.
Qed.

(** X18. When the model answers with an object in braces and prose around it,
    summarizeTranscript hands the parser the text from the first opening
    brace to the last closing brace and returns what the parser makes of it;
    when the parser rejects it, the whole answer becomes the key points of
    the fallback summary. *)
Theorem summary_is_cut_at_outer_braces
    (generateContent : string -> Gemini.GenerateResult)
    (transcript pre mid post : string) :
  Js.indexOf "{"%char pre = -1 ->
  Js.lastIndexOf "}"%char post = -1 ->
  let text := pre +:+ "{" +:+ mid +:+ "}" +:+ post in
  generateContent (Gemini.summary_prompt transcript) = Gemini.GenText text ->
  Gemini.summarizeTranscript JSON_parse (Some generateContent) transcript
  = Returned match JSON_parse ("{" +:+ mid +:+ "}") with
             | Some v => v
             | None => Gemini.fallback_summary text
             end.
Proof.
  intros Hpre Hpost text Hgen. unfold Gemini.summarizeTranscript.
  rewrite Hgen. f_equal. by apply parse_summary_object.
Qed.

(** X19. An answer without a closing brace leaves the parser the empty text,
    wherever an opening brace stands; as JSON.parse rejects the empty text,
    the summary is the fallback one, with the whole answer as its key points
    and the two fixed texts for action items and decisions. *)
Theorem summary_without_closing_brace_falls_back
    (generateContent : string -> Gemini.GenerateResult)
    (transcript text : string) :
  JSON_parse EmptyString = None ->
  Js.lastIndexOf "}"%char text = -1 ->
  generateContent (Gemini.summary_prompt transcript) = Gemini.GenText text ->
  Gemini.summarizeTranscript JSON_parse (Some generateContent) transcript
  = Returned (JObject [("keyPoints", JString text);
                       ("actionItems", JString "Could not extract action items");
                       ("decisions", JString "Could not extract decisions")]).
Proof.
  intros Hparse Hno Hgen. unfold Gemini.summarizeTranscript.
  rewrite Hgen. f_equal. rewrite parse_summary_no_brace by done. by rewrite Hparse.
Qed.
End SummaryFacts.

Import Promise Json Prisma.

(** ** The transcription gateway *)

Lemma split_at_app c pre post :
  Js.indexOf c pre = -1 ->
  Gemini.split_at c (pre +:+ String c post) = Some (pre, post).
Proof.
  induction pre as [|a pre IH]; intros Hpre.
  - rewrite append_nil. simpl. by rewrite Ascii.eqb_refl.
  - rewrite append_cons. simpl in *.
    destruct (Ascii.eqb a c); [done|].
    pose proof (indexOf_lower c pre). case_decide; [lia|].
    rewrite IH by lia. done.
Qed.

Lemma split_at_inv c s pre post :
  Gemini.split_at c s = Some (pre, post) ->
  s = pre +:+ String c post /\ Js.indexOf c pre = -1.
Proof.
  revert pre. induction s as [|a s IH]; intros pre; simpl; [done|].
  destruct (Ascii.eqb a c) eqn:Hac.
  - intros [= <- <-]. apply Ascii.eqb_eq in Hac as ->. done.
  - destruct (Gemini.split_at c s) as [[pre' post']|]; [|done].
    intros [= <- <-]. destruct (IH pre' eq_refl) as [-> Hpre].
    split; [done|]. simpl. rewrite Hac, Hpre. by case_decide.
Qed.

Lemma trimStart_app spaces body :
  Js.trimStart spaces = EmptyString ->
  Js.trimStart (spaces +:+ body) = Js.trimStart body.
Proof.
  remember (String.length spaces) as n eqn:Hn. revert spaces Hn.
  induction n as [n IH] using lt_wf_ind. intros spaces -> Hsp.
  destruct (Js.space_prefix spaces) as [rest|] eqn:Hp.
  - rewrite (trimStart_space _ _ (space_prefix_app _ _ body Hp)).
    eapply IH; [by eapply space_prefix_shorter|done|].
    by rewrite <- (trimStart_space _ _ Hp).
  - rewrite trimStart_fixed in Hsp by done. by subst.
Qed.

Lemma trimStart_inv s :
  exists spaces, s = spaces +:+ Js.trimStart s /\ Js.trimStart spaces = EmptyString.
Proof.
  remember (String.length s) as n eqn:Hn. revert s Hn.
  induction n as [n IH] using lt_wf_ind. intros s ->.
  destruct (Js.space_prefix s) as [rest|] eqn:Hp.
  - destruct (IH _ (space_prefix_shorter _ _ Hp) rest eq_refl) as (spaces & Hs & Hsp).
    destruct (space_prefix_inv _ _ Hp) as (space & -> & Hone & _).
    exists (space +:+ spaces). rewrite (trimStart_space _ _ Hp). split.
    + by rewrite app_assoc_string, <- Hs.
    + by rewrite (trimStart_space _ _ (space_prefix_app _ _ spaces Hone)).
  - exists EmptyString. by rewrite trimStart_fixed.
Qed.

(** The last character of a string of white space, and the white space
    before it. *)
Lemma last_space_upto_inv n s g2 :
  Gemini.last_space_upto n s = Some g2 ->
  exists init, s = init +:+ g2 /\ Js.trimStart init = EmptyString
               /\ Js.space_prefix g2 = Some EmptyString.
Proof.
  revert s. induction n as [|n IH]; intros s; [done|]. simpl.
  destruct (Js.space_prefix s) as [[|b rest]|] eqn:Hp; [| |done].
  - intros [= <-]. by exists EmptyString.
  - intros (init & Hrest & Hinit & Hg2)%IH.
    destruct (space_prefix_inv _ _ Hp) as (space & -> & Hone & _).
    exists (space +:+ init). split; [by rewrite app_assoc_string, <- Hrest|].
    split; [|done].
    by rewrite (trimStart_space _ _ (space_prefix_app _ _ init Hone)).
Qed.

(** What the expression for speaker labels accepts: an opening bracket, a
    label of at least one character without a closing bracket, a closing
    bracket and a colon, white space, and a rest of at least one
    character without a line terminator. *)
Lemma speakerMatch_inv text g1 g2 :
  Gemini.speakerMatch text = Some (g1, g2) ->
  exists spaces,
    text = "[" +:+ g1 +:+ "]:" +:+ spaces +:+ g2
    /\ g1 <> EmptyString /\ Js.indexOf "]"%char g1 = -1
    /\ Js.trimStart spaces = EmptyString
    /\ g2 <> EmptyString /\ Gemini.has_line_terminator g2 = false.
Proof.
  unfold Gemini.speakerMatch.
  destruct text as [|c rest]; [done|].
  destruct (Ascii.eqb c "["%char) eqn:Hc;
    [apply Ascii.eqb_eq in Hc as ->
    |by destruct c as [[] [] [] [] [] [] [] []]].
  destruct (Gemini.split_at "]"%char rest) as [[pre post]|] eqn:Hsplit; [|done].
  apply split_at_inv in Hsplit as [-> Hpre].
  destruct pre as [|a label]; [done|].
  destruct post as [|d after]; [done|].
  destruct (Ascii.eqb d ":"%char) eqn:Hd;
    [apply Ascii.eqb_eq in Hd as ->
    |by destruct d as [[] [] [] [] [] [] [] []]].
  destruct (trimStart_inv after) as (spaces & Hafter & Hspaces).
  destruct (Js.trimStart after) as [|b g] eqn:Htrim.
  - destruct (Gemini.last_space after) as [g|] eqn:Hlast; [|done].
    destruct (Gemini.has_line_terminator g) eqn:Hlt; [done|]. intros [= <- <-].
    apply last_space_upto_inv in Hlast as (init & -> & Hinit & Hone).
    exists init. split; [done|]. split; [done|]. split; [done|].
    split; [done|]. split; [by destruct g|done].
  - destruct (Gemini.has_line_terminator (String b g)) eqn:Hlt; [done|].
    intros [= <- <-]. exists spaces.
    split; [by rewrite Hafter at 1|]. done.
Qed.

Lemma speakerMatch_labelled label spaces body :
  label <> EmptyString -> Js.indexOf "]"%char label = -1 ->
  Js.trimStart spaces = EmptyString ->
  body <> EmptyString -> Js.trimStart body = body ->
  Gemini.has_line_terminator body = false ->
  Gemini.speakerMatch ("[" +:+ label +:+ "]:" +:+ spaces +:+ body) = Some (label, body).
Proof.
  intros Hlabel Hclose Hspaces Hbody Hhead Hlt.
  change ("[" +:+ label +:+ "]:" +:+ spaces +:+ body)
    with (String "["%char (label +:+ String "]"%char (String ":"%char (spaces +:+ body)))).
  unfold Gemini.speakerMatch.
  rewrite split_at_app by done.
  destruct label as [|a label]; [done|].
  rewrite trimStart_app, Hhead by done.
  destruct body as [|b body]; [done|]. by rewrite Hlt.
Qed.

(** X20. With a model configured, transcribeAudio returns whatever the model
    does: the text and the speaker tag it returns have no white space at
    either end, the confidence is 0, 0.8 or 0.85; confidence 0 comes with
    the empty text and the tag speaker, confidence 0.8 with the tag speaker.
    White space is what trim removes: the space separators of Unicode, the
    no-break space and the byte order mark with the line terminators and the
    six of Basic Latin. *)
Theorem transcription_returns_trimmed
    (generateContent : string -> string -> Gemini.GenerateResult)
    (audioBase64 mimeType : string) :
  exists t,
    Gemini.transcribeAudio (Some generateContent) audioBase64 mimeType = Returned t
    /\ Js.trim (Gemini.t_text t) = Gemini.t_text t
    /\ Js.trim (Gemini.t_speakerTag t) = Gemini.t_speakerTag t
    /\ (Gemini.t_confidence t = Some 0%Q
        \/ Gemini.t_confidence t = Some (8 # 10)%Q
        \/ Gemini.t_confidence t = Some (85 # 100)%Q)
    /\ (Gemini.t_confidence t = Some 0%Q ->
        Gemini.t_text t = EmptyString /\ Gemini.t_speakerTag t = "speaker")
    /\ (Gemini.t_confidence t = Some (8 # 10)%Q -> Gemini.t_speakerTag t = "speaker").
Proof.
  unfold Gemini.transcribeAudio.
  destruct (generateContent audioBase64 _) as [| |text].
  - eexists. split; [done|]. by repeat split; auto.
  - eexists. split; [done|]. simpl. repeat split; auto; done.
  - destruct (Gemini.speakerMatch text) as [[g1 g2]|].
    + eexists. split; [done|]. cbn [Gemini.t_text Gemini.t_speakerTag Gemini.t_confidence].
      split; [apply trim_idem|]. split; [apply trim_idem|]. split; [auto|]. done.
    + eexists. split; [done|]. cbn [Gemini.t_text Gemini.t_speakerTag Gemini.t_confidence].
      split; [apply trim_idem|]. split; [done|]. split; [auto|]. done.
Qed.

(** X21. An answer of the form the prompt asks for (a non-empty label in brackets
    without a closing bracket in it, a colon, white space of whatever kind
    the expression takes, and a non-empty text on one line that does not
    begin with white space) is split into the trimmed label as speaker tag
    and the trimmed text, with confidence 0.85. *)
Theorem labelled_answer_is_split
    (generateContent : string -> string -> Gemini.GenerateResult)
    (audioBase64 label spaces body : string) :
  label <> EmptyString -> Js.indexOf "]"%char label = -1 ->
  Js.trimStart spaces = EmptyString ->
  body <> EmptyString -> Js.trimStart body = body ->
  Gemini.has_line_terminator body = false ->
  generateContent audioBase64 "audio/webm"
    = Gemini.GenText ("[" +:+ label +:+ "]:" +:+ spaces +:+ body) ->
  Gemini.transcribeAudio (Some generateContent) audioBase64 "audio/webm"
  = Returned {| Gemini.t_text := Js.trim body;
                Gemini.t_speakerTag := Js.trim label;
                Gemini.t_confidence := Some (85 # 100)%Q |}.
Proof.
  intros Hlabel Hclose Hspaces Hbody Hhead Hlt Hgen.
  unfold Gemini.transcribeAudio. simpl. rewrite Hgen.
  by rewrite speakerMatch_labelled.
Qed.

(** X22. The other way round: whenever transcribeAudio returns confidence 0.85,
    the model's answer had the form of a bracketed label, a colon, white
    space of whatever kind the expression takes and a rest without a line
    terminator, and the tag and text returned are the label and the rest,
    trimmed. An answer that goes on for several lines after the label is
    therefore never split. *)
Theorem speaker_reported_only_for_labelled_answers
    (generateContent : string -> string -> Gemini.GenerateResult)
    (audioBase64 mimeType : string) (t : Gemini.Transcription) :
  Gemini.transcribeAudio (Some generateContent) audioBase64 mimeType = Returned t ->
  Gemini.t_confidence t = Some (85 # 100)%Q ->
  exists label spaces body,
    generateContent audioBase64
      (if Js.truthy_string mimeType then mimeType else "audio/webm")
    = Gemini.GenText ("[" +:+ label +:+ "]:" +:+ spaces +:+ body)
    /\ label <> EmptyString /\ Js.indexOf "]"%char label = -1
    /\ Js.trimStart spaces = EmptyString
    /\ body <> EmptyString /\ Gemini.has_line_terminator body = false
    /\ Gemini.t_text t = Js.trim body /\ Gemini.t_speakerTag t = Js.trim label.
Proof.
  unfold Gemini.transcribeAudio.
  destruct (generateContent audioBase64 _) as [| |text] eqn:Hgen.
  - by intros [= <-].
  - simpl. by intros [= <-].
  - destruct (Gemini.speakerMatch text) as [[g1 g2]|] eqn:Hm; [|by intros [= <-]].
    intros [= <-] _.
    apply speakerMatch_inv in Hm as (spaces & -> & ? & ? & ? & ? & ?).
    exists g1, spaces, g2. done.
Qed.

(** ** Reading and deleting sessions *)

Lemma unique_keys_tail r rows : Spec.unique_keys (r :: rows) -> Spec.unique_keys rows.
Proof.
  intros Hu sid seq. specialize (Hu sid seq). unfold Spec.rows_at in *. simpl in Hu.
  destruct (chunk_key sid seq r); simpl in Hu; lia.
Qed.

Lemma session_rows_NoDup sid rows :
  Spec.unique_keys rows ->
  NoDup (c_sequence <$> List.filter (fun r => String.eqb (c_sessionId r) sid) rows).
Proof.
  induction rows as [|r rows IH]; intros Hu; simpl; [constructor|].
  pose proof (unique_keys_tail _ _ Hu) as Hu'.
  destruct (String.eqb (c_sessionId r) sid) eqn:Hr; [|by apply IH].
  rewrite fmap_cons. constructor; [|by apply IH].
  intros Hin. apply list_elem_of_fmap in Hin as (r' & Hseq & Hin).
  apply list_elem_of_In, filter_In in Hin as [Hin Hr'].
  specialize (Hu sid (c_sequence r)). unfold Spec.rows_at in Hu. simpl in Hu.
  unfold chunk_key at 1 in Hu. rewrite Hr, Z.eqb_refl in Hu. simpl in Hu.
  assert (Hin' : In r' (List.filter (chunk_key sid (c_sequence r)) rows)).
  { apply filter_In. split; [done|]. unfold chunk_key. rewrite Hr', Hseq, Z.eqb_refl. done. }
  destruct (List.filter (chunk_key sid (c_sequence r)) rows); [done|]. simpl in Hu. lia.
Qed.

Lemma findUnique_transcript id d s :
  Spec.unique_keys (transcriptChunks d) ->
  sessions d !! id = Some s ->
  exists detail,
    Api.session_findUnique id d = Some detail
    /\ Api.d_session detail = s
    /\ StronglySorted Z.lt (c_sequence <$> Api.d_transcript detail)
    /\ (forall row, row ∈ Api.d_transcript detail
                    <-> row ∈ transcriptChunks d /\ c_sessionId row = id)
    /\ (forall x, Api.d_summary detail = Some x ->
                  x ∈ summaries d /\ sm_sessionId x = id)
    /\ (Api.d_summary detail = None ->
        forall x, x ∈ summaries d -> sm_sessionId x <> id).
Proof.
  intros Hu Hs. unfold Api.session_findUnique. rewrite Hs.
  eexists. split; [done|]. simpl. split; [done|].
  set (mine := List.filter (fun r => String.eqb (c_sessionId r) id) (transcriptChunks d)).
  split; [|split; [|split]].
  - rewrite sort_fmap. apply sorted_le_NoDup_lt; [apply sort_sorted|].
    rewrite sort_perm. by apply session_rows_NoDup.
  - intros row. rewrite (sort_perm _ mine). subst mine.
    rewrite list_elem_of_In, filter_In, <- list_elem_of_In, String.eqb_eq. done.
  - intros x Hx. apply head_Some_elem_of in Hx.
    apply list_elem_of_In, filter_In in Hx as [Hx Hid].
    apply String.eqb_eq in Hid. by rewrite list_elem_of_In.
  - intros Hnone x Hx Hid.
    assert (Hin : In x (List.filter (fun r => String.eqb (sm_sessionId r) id) (summaries d))).
    { apply filter_In. split; [by apply list_elem_of_In|]. by apply String.eqb_eq. }
    destruct (List.filter _ (summaries d)); [done|]. done.
Qed.

Section Reading.
Variable JSON_parse : string -> option JsValue.

(** X23. Whatever the socket server has handled, GET /api/sessions/[id] answers
    404 for an id without a session row and otherwise 200 with the session
    row, its chunk rows in strictly ascending order of sequence number (all
    of them and no others, whatever order the chunks arrived in), and its
    summary row when one is stored. *)
Theorem session_is_read_by_sequence (evs : list Event) (id : string) :
  let d := db (run JSON_parse initial evs) in
  match sessions d !! id with
  | None =>
      Api.GET true id d
      = {| Api.status := 404; Api.body := Api.error_body "Session not found" |}
  | Some s =>
      exists detail,
        Api.GET true id d
        = {| Api.status := 200; Api.body := Api.session_body detail |}
        /\ Api.d_session detail = s
        /\ StronglySorted Z.lt (c_sequence <$> Api.d_transcript detail)
        /\ (forall row, row ∈ Api.d_transcript detail
                        <-> row ∈ transcriptChunks d /\ c_sessionId row = id)
        /\ (forall x, Api.d_summary detail = Some x ->
                      x ∈ summaries d /\ sm_sessionId x = id)
        /\ (Api.d_summary detail = None ->
            forall x, x ∈ summaries d -> sm_sessionId x <> id)
  end.
Proof.
  intros d. destruct (run_well_formed JSON_parse evs) as [_ Hu]. fold d in Hu.
  destruct (sessions d !! id) as [s|] eqn:Hs.
  - destruct (findUnique_transcript id d s Hu Hs) as (detail & Hf & Hrest).
    exists detail. split; [|done]. unfold Api.GET. by rewrite Hf.
  - unfold Api.GET, Api.session_findUnique. by rewrite Hs.
Qed.
End Reading.

Lemma filter_other_session {A} (key : A -> string) id id' (rows : list A) :
  id' <> id ->
  List.filter (fun r => String.eqb (key r) id')
    (List.filter (fun r => negb (String.eqb (key r) id)) rows)
  = List.filter (fun r => String.eqb (key r) id') rows.
Proof.
  intros Hne. induction rows as [|r rows IH]; simpl; [done|].
  destruct (String.eqb (key r) id) eqn:Hr; simpl.
  - apply String.eqb_eq in Hr. rewrite Hr.
    assert (Hf : String.eqb id id' = false) by (apply String.eqb_neq; congruence).
    by rewrite Hf.
  - by rewrite IH.
Qed.

Lemma delete_found id d s :
  sessions d !! id = Some s ->
  exists d',
    Api.DELETE true id d = ({| Api.status := 200; Api.body := Api.success_body |}, d')
    /\ users d' = users d
    /\ sessions d' = delete id (sessions d)
    /\ Forall (fun row => c_sessionId row <> id) (transcriptChunks d')
    /\ Forall (fun row => sm_sessionId row <> id) (summaries d')
    /\ forall id', id' <> id -> Api.session_findUnique id' d' = Api.session_findUnique id' d.
Proof.
  intros Hs. unfold Api.DELETE, Api.session_delete. rewrite Hs.
  eexists. split; [done|]. simpl. split; [done|]. split; [done|].
  split; [|split].
  - apply Forall_forall. intros row Hin.
    apply list_elem_of_In, filter_In in Hin as [_ Hid].
    apply negb_true_iff, String.eqb_neq in Hid. done.
  - apply Forall_forall. intros row Hin.
    apply list_elem_of_In, filter_In in Hin as [_ Hid].
    apply negb_true_iff, String.eqb_neq in Hid. done.
  - intros id' Hne. unfold Api.session_findUnique. simpl.
    rewrite lookup_delete_ne by done.
    destruct (sessions d !! id'); [|done].
    by rewrite (filter_other_session sm_sessionId), (filter_other_session c_sessionId).
Qed.

(** X24. Deleting a session that has its row answers 200 and takes the row, its
    chunk rows and its summary row away (the foreign keys cascade): reading
    it afterwards answers 404, deleting it again answers 500, not 404, as
    the missing row makes the delete throw, the users stay, and every other
    session reads as before. *)
Theorem delete_takes_the_session_away (id : string) (d : Db) (s : Session) :
  sessions d !! id = Some s ->
  let d' := (Api.DELETE true id d).2 in
  (Api.DELETE true id d).1
    = {| Api.status := 200; Api.body := Api.success_body |}
  /\ Api.GET true id d'
     = {| Api.status := 404; Api.body := Api.error_body "Session not found" |}
  /\ Api.DELETE true id d'
     = ({| Api.status := 500; Api.body := Api.error_body "Failed to delete session" |},
        d')
  /\ Forall (fun row => c_sessionId row <> id) (transcriptChunks d')
  /\ Forall (fun row => sm_sessionId row <> id) (summaries d')
  /\ users d' = users d
  /\ forall id', id' <> id -> Api.GET true id' d' = Api.GET true id' d.
Proof.
  intros Hs d'. subst d'.
  destruct (delete_found id d s Hs) as (d' & -> & Hu & Hss & Hc & Hsm & Hother).
  cbn [fst snd].
  assert (Hgone : sessions d' !! id = None) by (rewrite Hss; apply lookup_delete_eq).
  split; [done|]. split; [|split; [|split; [|split; [|split]]]]; try done.
  - unfold Api.GET, Api.session_findUnique. by rewrite Hgone.
  - unfold Api.DELETE, Api.session_delete. by rewrite Hgone.
  - intros id' Hne. unfold Api.GET. by rewrite Hother.
Qed.

Section DeleteWhileRecording.
Variable JSON_parse : string -> option JsValue.

(** X25. When a session is deleted through the route while its chunks are
    buffered, the stop that follows announces PROCESSING to the room and
    then fails on the missing row, before the handler's try block: nothing
    is stored, no model is asked, no further message is sent, and the chunks
    stay in the buffer. *)
Theorem stop_after_delete_is_lost (sid : string) (now : Z)
    (model : Gemini.SummaryModel) (fault : option nat) (w : World) (s : Session) :
  Js.truthy_string sid = true ->
  sessions (db w) !! sid = Some s ->
  let deleted := with_db w (Api.DELETE true sid (db w)).2 in
  let stopped := session_stop JSON_parse (Some sid) now model fault deleted in
  stopped.1 = Thrown RecordNotFound
  /\ sent stopped.2 = sent w ++ [(ToRoom sid, session_status PROCESSING None)]
  /\ db stopped.2 = db deleted
  /\ buffer stopped.2 = buffer w
  /\ heap stopped.2 = heap w
  /\ calls stopped.2 = calls w.
Proof.
  intros Hsid Hs deleted stopped.
  destruct (delete_found sid (db w) s Hs) as (d' & Hdel & _ & Hss & _).
  assert (Hgone : sessions (db deleted) !! sid = None).
  { subst deleted. rewrite Hdel. simpl. rewrite Hss. apply lookup_delete_eq. }
  subst stopped. rewrite (stop_without_row JSON_parse sid now model fault deleted Hsid Hgone).
  done.
Qed.
End DeleteWhileRecording.

(** ** The recorder hook *)

Lemma send_emitted ev h : Hook.emitted (Hook.send ev h) = Hook.emitted h.
Proof. done. Qed.

Lemma send_refs ev h :
  Hook.currentSessionIdRef (Hook.send ev h) = Hook.currentSessionIdRef h
  /\ Hook.sequenceRef (Hook.send ev h) = Hook.sequenceRef h
  /\ Hook.recorderRef (Hook.send ev h) = Hook.recorderRef h
  /\ Hook.socketRef (Hook.send ev h) = Hook.socketRef h.
Proof. done. Qed.

(** The chunk path is closed as long as the session ref is empty. *)
Lemma emitChunk_closed now encoded h :
  Hook.currentSessionIdRef h = None -> Hook.emitChunk now encoded h = h.
Proof. intros Href. unfold Hook.emitChunk. by rewrite Href. Qed.

(** What one event does to the emitted messages and to the refs the chunk
    path reads. *)
Lemma handle_emits user h ev :
  Hook.currentSessionIdRef h = None ->
  let h' := Hook.handle user h ev in
  Hook.currentSessionIdRef h' = None
  /\ (Hook.sequenceRef h' = Hook.sequenceRef h \/ Hook.sequenceRef h' = 0)
  /\ exists l, Hook.emitted h' = Hook.emitted h ++ l
               /\ Forall (fun m => Hook.is_chunk m = false) l
               /\ (forall m, m ∈ l -> Hook.is_start m = false ->
                     exists c, ev = Hook.Called c /\ c <> Hook.Reset
                               /\ forall source env, c <> Hook.StartRecording source env).
Proof.
  intros Href. destruct ev as [s|c]; simpl.
  - assert (Hsame : Hook.currentSessionIdRef (Hook.hear h s) = None
                    /\ Hook.sequenceRef (Hook.hear h s) = Hook.sequenceRef h
                    /\ Hook.emitted (Hook.hear h s) = Hook.emitted h).
    { destruct s as [| |connected|payload|st summary|message|size now encoded
                    |message|recorder|]; simpl; try done.
      - unfold Hook.connection. by destruct (Hook.socketRef h).
      - unfold Hook.on_session_status.
        by destruct (String.eqb st "PROCESSING"), (String.eqb st "COMPLETED"), summary.
      - unfold Hook.ondataavailable. case_decide; [|done].
        by rewrite emitChunk_closed.
      - unfold Hook.onended. by destruct recorder.
      - unfold Hook.recorder_ended. by destruct (Hook.recorderRef h). }
    destruct Hsame as (? & ? & Hem). split; [done|]. split; [by left|].
    exists []. rewrite app_nil_r. split; [done|]. split; [done|].
    by intros m ?%elem_of_nil.
  - destruct c as [source env| | |stopError| |source]; simpl.
    + unfold Hook.startRecording.
      destruct (Hook.compatibilityError env);
        [split; [done|]; split; [by left|]; exists []; rewrite app_nil_r;
         split; [done|]; split; [done|]; by intros m ?%elem_of_nil|].
      assert (Hstart : forall m,
                m ∈ [Hook.EmitStart (Hook.randomUUID env) (Hook.id user)
                       (Hook.email user) source] ->
                Hook.is_start m = false ->
                exists c, Hook.Called (Hook.StartRecording source env) = Hook.Called c
                          /\ c <> Hook.Reset
                          /\ forall source env, c <> Hook.StartRecording source env).
      { intros m ->%list_elem_of_singleton. done. }
      destruct (Hook.socketRef h) as [[]|]; simpl.
      * split; [by destruct (Hook.createRecorder env) as [| |[]]|].
        split; [right; by destruct (Hook.createRecorder env) as [| |[]]|].
        eexists [_]. split; [by destruct (Hook.createRecorder env) as [| |[]]|].
        split; [by repeat constructor|]. done.
      * destruct (Hook.connect env); simpl.
        { split; [done|]. split; [by left|]. exists []. rewrite app_nil_r.
          split; [done|]. split; [done|]. by intros m ?%elem_of_nil. }
        split; [by destruct (Hook.createRecorder env) as [| |[]]|].
        split; [right; by destruct (Hook.createRecorder env) as [| |[]]|].
        eexists [_]. split; [by destruct (Hook.createRecorder env) as [| |[]]|].
        split; [by repeat constructor|]. done.
      * destruct (Hook.connect env); simpl.
        { split; [done|]. split; [by left|]. exists []. rewrite app_nil_r.
          split; [done|]. split; [done|]. by intros m ?%elem_of_nil. }
        split; [by destruct (Hook.createRecorder env) as [| |[]]|].
        split; [right; by destruct (Hook.createRecorder env) as [| |[]]|].
        eexists [_]. split; [by destruct (Hook.createRecorder env) as [| |[]]|].
        split; [by repeat constructor|]. done.
    + unfold Hook.pauseRecording.
      destruct (Hook.recorderRef h) as [[]|]; simpl;
        try (split; [done|]; split; [by left|]; exists []; rewrite app_nil_r;
             split; [done|]; split; [done|]; by intros m ?%elem_of_nil).
      destruct (Hook.socketRef h); simpl.
      * split; [done|]. split; [by left|]. eexists [_]. split; [done|].
        split; [by repeat constructor|]. intros m _ _. by eexists.
      * split; [done|]; split; [by left|]; exists []; rewrite app_nil_r.
        split; [done|]; split; [done|]; by intros m ?%elem_of_nil.
    + unfold Hook.resumeRecording.
      destruct (Hook.recorderRef h) as [[]|]; simpl;
        try (split; [done|]; split; [by left|]; exists []; rewrite app_nil_r;
             split; [done|]; split; [done|]; by intros m ?%elem_of_nil).
      destruct (Hook.socketRef h); simpl.
      * split; [done|]. split; [by left|]. eexists [_]. split; [done|].
        split; [by repeat constructor|]. intros m _ _. by eexists.
      * split; [done|]; split; [by left|]; exists []; rewrite app_nil_r.
        split; [done|]; split; [done|]; by intros m ?%elem_of_nil.
    + unfold Hook.stopRecording.
      destruct (Hook.recorderRef h) as [[]|]; simpl;
        try (split; [done|]; split; [by left|]; exists []; rewrite app_nil_r;
             split; [done|]; split; [done|]; by intros m ?%elem_of_nil).
      all: destruct stopError; simpl;
        [split; [done|]; split; [by left|]; exists []; rewrite app_nil_r;
         split; [done|]; split; [done|]; by intros m ?%elem_of_nil|].
      all: destruct (Hook.socketRef h) as [[]|]; simpl;
        try (split; [done|]; split; [by left|]; exists []; rewrite app_nil_r;
             split; [done|]; split; [done|]; by intros m ?%elem_of_nil).
      all: destruct (Hook.falsy (Recorder.sessionId (Hook.state h).2)); simpl;
        [split; [done|]; split; [by left|]; exists []; rewrite app_nil_r;
         split; [done|]; split; [done|]; by intros m ?%elem_of_nil|].
      all: split; [done|]; split; [by left|]; eexists [_]; split; [done|];
        split; [by repeat constructor|]; intros m _ _; by eexists.
    + split; [done|]. split; [by right|]. exists []. rewrite app_nil_r.
      split; [by destruct (Hook.recorderRef h) as [[]|]|].
      split; [done|]. by intros m ?%elem_of_nil.
    + unfold Hook.setSource.
      split; [by destruct (Hook.state h).1|]. split; [left; by destruct (Hook.state h).1|].
      exists []. rewrite app_nil_r. split; [by destruct (Hook.state h).1|].
      split; [done|]. by intros m ?%elem_of_nil.
Qed.

(** X26. The hook never emits a session:chunk: the ref emitChunk reads the
    session id from is only ever assigned undefined, so every blob the
    recorder hands over is dropped at the first check, and the sequence
    counter stays at 0, whatever is called and whatever the hook hears. *)
Theorem hook_never_emits_a_chunk (user : Hook.User) (evs : list Hook.Event) :
  let h := Hook.run user Hook.initial evs in
  Hook.currentSessionIdRef h = None
  /\ Hook.sequenceRef h = 0
  /\ Forall (fun m => Hook.is_chunk m = false) (Hook.emitted h).
Proof.
  unfold Hook.run. induction evs as [|ev evs (Href & Hseq & Hem)] using rev_ind; [done|].
  rewrite foldl_app. cbn [foldl].
  destruct (handle_emits user _ ev Href) as (Href' & Hseq' & l & Hl & Hchunk & _).
  split; [done|]. split; [destruct Hseq'; congruence|].
  rewrite Hl. apply Forall_app. done.
Qed.

(** *** A finished machine under the page's controls *)

Lemma hear_finished h s :
  RecorderNotions.finished (Hook.state h).1 = true ->
  Hook.state (Hook.hear h s) = Hook.state h.
Proof.
  intros Hfin.
  destruct s as [| |connected|payload|st summary|message|size now encoded
                |message|recorder|]; simpl; try done.
  - unfold Hook.connection. by destruct (Hook.socketRef h).
  - by apply transition_finished.
  - unfold Hook.on_session_status.
    destruct (String.eqb st "PROCESSING"), (String.eqb st "COMPLETED"), summary; simpl;
      rewrite ?(transition_finished (Hook.state h)) by done;
      rewrite ?(transition_finished (Hook.state h)) by done; done.
  - by apply transition_finished.
  - unfold Hook.ondataavailable. case_decide; [|done].
    unfold Hook.emitChunk. simpl.
    destruct (Hook.falsy _); [done|]. destruct (Hook.socketRef h) as [[]|]; [|done..].
    by destruct encoded.
  - by apply transition_finished.
  - unfold Hook.onended. destruct recorder; try done. by apply transition_finished.
  - unfold Hook.recorder_ended. by destruct (Hook.recorderRef h).
Qed.

Lemma startRecording_finished user source env h :
  RecorderNotions.finished (Hook.state h).1 = true ->
  Hook.state (Hook.startRecording user source env h) = Hook.state h.
Proof.
  intros Hfin. unfold Hook.startRecording.
  destruct (Hook.compatibilityError env); [by apply transition_finished|].
  destruct (Hook.socketRef h) as [[]|]; simpl.
  - destruct (Hook.createRecorder env) as [| |[]]; simpl;
      rewrite ?(transition_finished (Hook.state h)) by done;
      rewrite ?(transition_finished (Hook.state h)) by done; done.
  - destruct (Hook.connect env); simpl; [by apply transition_finished|].
    destruct (Hook.createRecorder env) as [| |[]]; simpl;
      rewrite ?(transition_finished (Hook.state h)) by done;
      rewrite ?(transition_finished (Hook.state h)) by done; done.
  - destruct (Hook.connect env); simpl; [by apply transition_finished|].
    destruct (Hook.createRecorder env) as [| |[]]; simpl;
      rewrite ?(transition_finished (Hook.state h)) by done;
      rewrite ?(transition_finished (Hook.state h)) by done; done.
Qed.

Lemma page_handle_finished user h ev :
  RecorderNotions.finished (Hook.state h).1 = true ->
  Hook.currentSessionIdRef h = None ->
  let h' := Page.handle user h ev in
  Hook.state h' = Hook.state h
  /\ Hook.currentSessionIdRef h' = None
  /\ exists l, Hook.emitted h' = Hook.emitted h ++ l
               /\ Forall (fun m => Hook.is_start m = true) l.
Proof.
  intros Hfin Href. destruct ev as [c|s]; simpl.
  - destruct (Page.offered (Hook.status h) c) eqn:Hoff;
      [|split; [done|]; split; [done|]; exists []; by rewrite app_nil_r].
    assert (Hc : exists env, c = Page.ClickStart env).
    { unfold Hook.status in Hoff.
      destruct (Hook.state h).1, c; try done; by eexists. }
    destruct Hc as (env & ->). simpl.
    split; [by apply startRecording_finished|].
    destruct (handle_emits user h
                (Hook.Called (Hook.StartRecording (Recorder.source (Hook.state h).2) env))
                Href) as (Href' & _ & l & Hl & _ & Hstart).
    split; [done|]. exists l. split; [done|].
    apply Forall_forall. intros m Hm.
    destruct (Hook.is_start m) eqn:Hs; [done|].
    destruct (Hstart m Hm Hs) as (c & [= <-] & _ & Hne). by destruct (Hne _ _ eq_refl).
  - split; [by apply hear_finished|].
    destruct (handle_emits user h (Hook.Heard s) Href) as (Href' & _ & l & Hl & _ & Hstart).
    split; [done|]. exists l. split; [done|].
    apply Forall_forall. intros m Hm.
    destruct (Hook.is_start m) eqn:Hs; [done|].
    by destruct (Hstart m Hm Hs) as (c & [=] & _).
Qed.

Lemma page_run_is_hook_run user h evs :
  exists evs', Page.run user h evs = Hook.run user h evs'.
Proof.
  unfold Page.run, Hook.run. induction evs as [|ev evs (evs' & IH)] using rev_ind.
  - by exists [].
  - rewrite foldl_app. cbn [foldl]. rewrite IH.
    destruct ev as [c|s]; simpl.
    + destruct (Page.offered _ c).
      * eexists (evs' ++ [Hook.Called _]). by rewrite foldl_app.
      * by exists evs'.
    + exists (evs' ++ [Hook.Heard s]). by rewrite foldl_app.
Qed.

(** X27. Once the machine of the sessions page is in completed or failed, nothing
    the page offers and nothing the hook hears takes it out again: the page
    never calls reset, and the machine drops every other event. Each Start
    New still goes to the server: from then on the page emits session:start
    messages and nothing else, while state and context, the session id among
    them, stay those of the finished session. *)
Theorem page_cannot_leave_a_finished_session (user : Hook.User)
    (before after : list Page.Event) :
  let h := Page.run user Hook.initial before in
  RecorderNotions.finished (Hook.state h).1 = true ->
  let h' := Page.run user h after in
  Hook.state h' = Hook.state h
  /\ exists l, Hook.emitted h' = Hook.emitted h ++ l
               /\ Forall (fun m => Hook.is_start m = true) l.
Proof.
  intros h Hfin h'.
  assert (Href : Hook.currentSessionIdRef h = None).
  { subst h. destruct (page_run_is_hook_run user Hook.initial before) as (evs' & ->).
    unfold Hook.run. induction evs' as [|ev evs' IH] using rev_ind; [done|].
    rewrite foldl_app. cbn [foldl].
    by destruct (handle_emits user _ ev IH) as (? & _). }
  subst h'. clearbody h. unfold Page.run.
  assert (Hall : Hook.state (foldl (Page.handle user) h after) = Hook.state h
                 /\ Hook.currentSessionIdRef (foldl (Page.handle user) h after) = None
                 /\ exists l, Hook.emitted (foldl (Page.handle user) h after)
                              = Hook.emitted h ++ l
                              /\ Forall (fun m => Hook.is_start m = true) l);
    [|tauto].
  induction after as [|ev after (IHs & IHr & l & IHl & IHf)] using rev_ind.
  - split; [done|]. split; [done|]. exists []. by rewrite app_nil_r.
  - rewrite foldl_app. cbn [foldl].
    destruct (page_handle_finished user (foldl (Page.handle user) h after) ev)
      as (Hs & Hr & l' & Hl' & Hf'); [by rewrite IHs|done|].
    split; [by rewrite Hs|]. split; [done|].
    exists (l ++ l'). split; [by rewrite Hl', IHl, app_assoc|by apply Forall_app].
Qed.

(** *** Which sessions the hook controls *)

Lemma transition_idle s ev :
  (Recorder.transition s ev).1 = Recorder.idle ->
  s.1 = Recorder.idle \/ ev = Recorder.RESET.
Proof. destruct s as [[] context], ev; simpl; auto; done. Qed.

Lemma transition_sessionId s ev :
  (forall sid src, ev <> Recorder.START sid src) ->
  (Recorder.transition s ev).1 <> Recorder.idle ->
  s.1 <> Recorder.idle
  /\ Recorder.sessionId (Recorder.transition s ev).2 = Recorder.sessionId s.2.
Proof.
  intros Hev.
  destruct s as [[] context], ev as [sid0 src0| | | | |u|sm|e|src]; simpl; try done.
  by destruct (Hev sid0 src0).
Qed.

Lemma opened_app sid l l' : Hook.opened sid l -> Hook.opened sid (l ++ l').
Proof.
  intros (u & e & src & Hin). exists u, e, src. apply elem_of_app. by left.
Qed.

Lemma controls_follow_start_snoc l m :
  Hook.controls_follow_start l ->
  (forall named, Hook.controlled m = Some named ->
     exists sid, named = Some sid /\ Hook.opened sid l) ->
  Hook.controls_follow_start (l ++ [m]).
Proof.
  intros Hl Hm n m' named Hn Hc.
  destruct (decide (n < length l)%nat) as [Hlt|Hge].
  - rewrite lookup_app_l in Hn by done. rewrite take_app_le by lia. by eapply Hl.
  - rewrite lookup_app_r in Hn by lia.
    destruct (n - length l)%nat as [|k] eqn:Hk; [|by destruct k].
    injection Hn as <-. assert (n = length l) as -> by lia.
    rewrite take_app_length. by apply Hm.
Qed.

Lemma coherent_send ev h :
  (forall sid src, ev <> Recorder.START sid src) -> ev <> Recorder.RESET ->
  Hook.coherent h -> Hook.coherent (Hook.send ev h).
Proof.
  intros Hstart Hreset (Hrec & Hsid & Hnamed). unfold Hook.coherent. simpl.
  split; [|split; [|done]].
  - intros Hr Hidle. apply transition_idle in Hidle as [Hidle|]; [|done]. by apply Hrec.
  - intros Hne. destruct (transition_sessionId _ _ Hstart Hne) as [Hne' ->]. by apply Hsid.
Qed.

Lemma coherent_refs h h' :
  Hook.state h' = Hook.state h -> Hook.emitted h' = Hook.emitted h ->
  (Hook.recorderRef h' <> None -> Hook.recorderRef h <> None) ->
  Hook.coherent h -> Hook.coherent h'.
Proof.
  intros Hs He Hr (Hrec & Hsid & Hnamed). unfold Hook.coherent.
  rewrite Hs, He. split; [|done]. intros ?. by apply Hrec, Hr.
Qed.

Lemma coherent_emit m h :
  (forall named, Hook.controlled m = Some named ->
     (Hook.state h).1 <> Recorder.idle /\ named = Recorder.sessionId (Hook.state h).2) ->
  Hook.coherent h -> Hook.coherent (Hook.emit m h).
Proof.
  intros Hm (Hrec & Hsid & Hnamed). unfold Hook.coherent. simpl.
  split; [done|]. split.
  - intros Hne. destruct (Hsid Hne) as (sid & ? & ?). exists sid. split; [done|].
    by apply opened_app.
  - apply controls_follow_start_snoc; [done|]. intros named Hc.
    destruct (Hm named Hc) as [Hne ->]. destruct (Hsid Hne) as (sid & ? & ?). by exists sid.
Qed.

Lemma coherent_hear h s : Hook.coherent h -> Hook.coherent (Hook.hear h s).
Proof.
  intros Hco.
  destruct s as [| |connected|payload|st summary|message|size now encoded
                |message|recorder|]; simpl.
  - by apply (coherent_refs h).
  - by apply (coherent_refs h).
  - unfold Hook.connection. destruct (Hook.socketRef h); [|done]. by apply (coherent_refs h).
  - by apply coherent_send.
  - unfold Hook.on_session_status.
    destruct (String.eqb st "PROCESSING"), (String.eqb st "COMPLETED"), summary; simpl;
      repeat apply coherent_send; done.
  - by apply coherent_send.
  - unfold Hook.ondataavailable. case_decide; [|done].
    unfold Hook.emitChunk. simpl.
    destruct (Hook.falsy _); [by apply (coherent_refs h)|].
    destruct (Hook.socketRef h) as [[]|]; [|by apply (coherent_refs h)..].
    destruct encoded; [|by apply (coherent_refs h)].
    apply coherent_emit; [done|]. by apply (coherent_refs h).
  - by apply coherent_send.
  - unfold Hook.onended. destruct recorder; try done. by apply coherent_send.
  - unfold Hook.recorder_ended. destruct (Hook.recorderRef h) eqn:Hr; [|done].
    apply (coherent_refs h); try done. simpl. by rewrite Hr.
Qed.

Lemma coherent_started user source env h :
  Hook.coherent h ->
  Hook.coherent
    (Hook.emit (Hook.EmitStart (Hook.randomUUID env) (Hook.id user) (Hook.email user) source)
       (Hook.send (Recorder.START (Hook.randomUUID env) source) h))
  /\ (Hook.state (Hook.send (Recorder.START (Hook.randomUUID env) source) h)).1
     <> Recorder.idle.
Proof.
  intros (Hrec & Hsid & Hnamed).
  assert (Hne : (Recorder.transition (Hook.state h)
                   (Recorder.START (Hook.randomUUID env) source)).1 <> Recorder.idle).
  { by destruct (Hook.state h) as [[] context]. }
  split; [|done]. unfold Hook.coherent. simpl. split; [done|]. split.
  - intros _. destruct (Hook.state h) as [st context] eqn:Hst.
    assert (Hcase : st = Recorder.idle \/ st <> Recorder.idle)
      by (destruct st; auto; right; done).
    destruct Hcase as [->|Hst'].
    + simpl. eexists. split; [done|]. eexists _, _, _. apply elem_of_app. right. constructor.
    + destruct (Hsid Hst') as (sid & Hs & Hop). exists sid. split.
      * by destruct st.
      * by apply opened_app.
  - by apply controls_follow_start_snoc.
Qed.

Lemma coherent_call user h c : Hook.coherent h -> Hook.coherent (Hook.call user h c).
Proof.
  intros Hco. destruct c as [source env| | |stopError| |source]; simpl.
  - unfold Hook.startRecording.
    destruct (Hook.compatibilityError env); [by apply coherent_send|].
    set (h1 := if match Hook.socketRef h with Some true => true | _ => false end
               then h else Hook.with_socketRef h (Some false)).
    assert (H1 : Hook.coherent h1).
    { subst h1. destruct (Hook.socketRef h) as [[]|]; by try apply (coherent_refs h). }
    destruct (if match Hook.socketRef h with Some true => true | _ => false end
              then None else Hook.connect env); [by apply coherent_send|].
    cbv zeta.
    set (h2 := if match Hook.socketRef h with Some true => true | _ => false end
               then h1 else Hook.with_socketRef h1 (Some true)).
    assert (H2 : Hook.coherent (Hook.with_sequenceRef h2 0)).
    { subst h2. destruct (Hook.socketRef h) as [[]|]; by apply (coherent_refs h1). }
    destruct (coherent_started user source env _ H2) as [H5 Hne].
    set (h5 := Hook.emit _ _) in *.
    destruct (Hook.createRecorder env) as [message|message|start].
    + by apply coherent_send.
    + by apply coherent_send.
    + assert (H6 : Hook.coherent
                     (Hook.with_recorderRef
                        (Hook.with_chunksRef (Hook.with_streamRef h5 true) [])
                        (Some Hook.Inactive))).
      { destruct H5 as (Hrec & Hsid & Hnamed). split; [|done]. intros _. exact Hne. }
      destruct start; [by apply coherent_send|].
      destruct H6 as (Hrec & Hsid & Hnamed). split; [|done]. intros _. exact Hne.
  - unfold Hook.pauseRecording.
    destruct (Hook.recorderRef h) as [[]|] eqn:Hr; try done.
    assert (Hne : (Hook.state h).1 <> Recorder.idle).
    { apply Hco. by rewrite Hr. }
    assert (H1 : Hook.coherent (Hook.with_recorderRef h (Some Hook.Paused))).
    { apply (coherent_refs h); try done. by rewrite Hr. }
    apply coherent_send; try done. simpl.
    destruct (Hook.socketRef h); [|done].
    apply coherent_emit; [|done]. simpl. by intros named [= <-].
  - unfold Hook.resumeRecording.
    destruct (Hook.recorderRef h) as [[]|] eqn:Hr; try done.
    assert (Hne : (Hook.state h).1 <> Recorder.idle).
    { apply Hco. by rewrite Hr. }
    assert (H1 : Hook.coherent (Hook.with_recorderRef h (Some Hook.Recording))).
    { apply (coherent_refs h); try done. by rewrite Hr. }
    apply coherent_send; try done. simpl.
    destruct (Hook.socketRef h); [|done].
    apply coherent_emit; [|done]. simpl. by intros named [= <-].
  - unfold Hook.stopRecording.
    destruct (Hook.recorderRef h) as [r|] eqn:Hr; [|by apply coherent_send].
    assert (Hne : (Hook.state h).1 <> Recorder.idle).
    { apply Hco. by rewrite Hr. }
    assert (Hstop : Hook.coherent (Hook.stopTracks h)) by (by apply (coherent_refs h)).
    assert (Hgo : Hook.coherent
              (Hook.send Recorder.STOP
                 (match Hook.socketRef h with
                  | Some true =>
                      if Hook.falsy (Recorder.sessionId (Hook.state h).2)
                      then Hook.stopTracks (Hook.with_recorderRef h (Some Hook.Inactive))
                      else Hook.emit
                             (Hook.EmitStop
                                (default EmptyString (Recorder.sessionId (Hook.state h).2)))
                             (Hook.stopTracks (Hook.with_recorderRef h (Some Hook.Inactive)))
                  | _ => Hook.stopTracks (Hook.with_recorderRef h (Some Hook.Inactive))
                  end))).
    { assert (H1 : Hook.coherent
                     (Hook.stopTracks (Hook.with_recorderRef h (Some Hook.Inactive)))).
      { apply (coherent_refs h); try done. by rewrite Hr. }
      apply coherent_send; try done.
      destruct (Hook.socketRef h) as [[]|]; try done.
      destruct (Hook.falsy _) eqn:Hf; [done|].
      apply coherent_emit; [|done]. simpl. intros named [= <-]. split; [done|].
      by destruct (Recorder.sessionId (Hook.state h).2). }
    destruct r; [by apply coherent_send| |];
      (destruct stopError; [by apply coherent_send|exact Hgo]).
  - destruct Hco as (Hrec & Hsid & Hnamed).
    assert (Hsame : (Recorder.transition (Hook.state h) Recorder.RESET).1 <> Recorder.idle ->
                    Recorder.transition (Hook.state h) Recorder.RESET = Hook.state h).
    { destruct (Hook.state h) as [[] context]; simpl in *; done. }
    unfold Hook.reset, Hook.coherent.
    destruct (Hook.recorderRef h) as [[]|]; simpl;
      (split; [done|]; split; [|done]; intros Hne; pose proof (Hsame Hne) as E;
       rewrite E in Hne |- *; by apply Hsid).
  - unfold Hook.setSource. destruct (Hook.state h).1 eqn:Hst; try done.
    by apply coherent_send.
Qed.

Lemma run_coherent user evs : Hook.coherent (Hook.run user Hook.initial evs).
Proof.
  unfold Hook.run. induction evs as [|ev evs IH] using rev_ind.
  - split; [done|]. split; [done|]. intros n ? ? Hnil. by destruct n.
  - rewrite foldl_app. cbn [foldl].
    destruct ev; cbn [Hook.handle]; [by apply coherent_hear|by apply coherent_call].
Qed.

(** X28. Every session:pause, session:resume and session:stop the hook emits
    names a session, and one that a session:start emitted before it has
    opened. *)
Theorem hook_controls_sessions_it_started (user : Hook.User) (evs : list Hook.Event)
    (n : nat) (m : Hook.Emitted) (named : option string) :
  let emitted := Hook.emitted (Hook.run user Hook.initial evs) in
  emitted !! n = Some m ->
  Hook.controlled m = Some named ->
  exists sessionId userId userEmail source,
    named = Some sessionId
    /\ Hook.EmitStart sessionId userId userEmail source ∈ take n emitted.
Proof.
  intros emitted Hn Hc.
  destruct (run_coherent user evs) as (_ & _ & Hnamed).
  destruct (Hnamed n m named Hn Hc) as (sid & -> & u & e & src & Hin).
  by exists sid, u, e, src.
Qed.

(** *** Starting from idle *)

(** X29. startRecording on an idle machine: a failure before the session is
    opened, of the compatibility check or of the connection, reaches the
    machine as an ERROR that idle drops, so state and context stay as they
    are, without an error, and nothing is emitted. Otherwise session:start
    is emitted first; the machine is then recording when the recorder is
    created and started, and failed with the message when it is not, in
    which case the session stays opened on the server. *)
Theorem startRecording_from_idle (user : Hook.User) (source : RecordingSource)
    (env : Hook.StartEnv) (h : Hook.Hook) :
  (Hook.state h).1 = Recorder.idle ->
  let h' := Hook.startRecording user source env h in
  let opened :=
    Hook.EmitStart (Hook.randomUUID env) (Hook.id user) (Hook.email user) source in
  let started :=
    {| Recorder.sessionId := Some (Hook.randomUUID env); Recorder.source := source;
       Recorder.transcript := []; Recorder.summary := None; Recorder.error := None |} in
  if bool_decide (Hook.compatibilityError env = None
                  /\ (Hook.socketRef h = Some true \/ Hook.connect env = None))
  then
    Hook.emitted h' = Hook.emitted h ++ [opened]
    /\ Hook.socketRef h' = Some true
    /\ match Hook.createRecorder env with
       | Hook.Created None =>
           Hook.state h' = (Recorder.recording, started)
           /\ Hook.recorderRef h' = Some Hook.Recording
       | Hook.Created (Some message) =>
           Hook.state h' = (Recorder.failed, Recorder.set_error started message)
           /\ Hook.recorderRef h' = Some Hook.Inactive
       | Hook.NoStream message | Hook.NoRecorder message =>
           Hook.state h' = (Recorder.failed, Recorder.set_error started message)
           /\ Hook.recorderRef h' = Hook.recorderRef h
       end
  else
    Hook.state h' = Hook.state h
    /\ Hook.emitted h' = Hook.emitted h
    /\ Hook.recorderRef h' = Hook.recorderRef h.
Proof.
  intros Hidle h' opened started. subst h'. unfold Hook.startRecording.
  destruct (Hook.state h) as [st context] eqn:Hst. simpl in Hidle. subst st.
  destruct (Hook.compatibilityError env) as [e|] eqn:Hcompat.
  { rewrite bool_decide_eq_false_2 by (by intros [? _]).
    unfold Hook.send. simpl. by rewrite Hst. }
  destruct (Hook.socketRef h) as [[]|] eqn:Hsock.
  - rewrite bool_decide_eq_true_2 by auto. cbv zeta.
    destruct (Hook.createRecorder env) as [message|message|[message|]];
      unfold Hook.send; simpl; by rewrite Hst.
  - destruct (Hook.connect env) as [message|] eqn:Hconn.
    + rewrite bool_decide_eq_false_2 by (intros [_ [|]]; done).
      unfold Hook.send. simpl. by rewrite Hst.
    + rewrite bool_decide_eq_true_2 by auto. cbv zeta.
      destruct (Hook.createRecorder env) as [message|message|[message|]];
        unfold Hook.send; simpl; by rewrite Hst.
  - destruct (Hook.connect env) as [message|] eqn:Hconn.
    + rewrite bool_decide_eq_false_2 by (intros [_ [|]]; done).
      unfold Hook.send. simpl. by rewrite Hst.
    + rewrite bool_decide_eq_true_2 by auto. cbv zeta.
      destruct (Hook.createRecorder env) as [message|message|[message|]];
        unfold Hook.send; simpl; by rewrite Hst.
Qed.

(** ** The page and the server together *)

Lemma transition_completed s ev :
  (Recorder.transition s ev).1 = Recorder.completed ->
  s.1 = Recorder.completed \/ exists sm, ev = Recorder.SUMMARY sm.
Proof. destruct s as [[] context], ev; simpl; eauto; done. Qed.

(** A machine that is not completed and holds no summary stays so
    without a SUMMARY. *)
Lemma transition_open s ev :
  (forall sm, ev <> Recorder.SUMMARY sm) ->
  Recorder.summary s.2 = None /\ s.1 <> Recorder.completed ->
  Recorder.summary (Recorder.transition s ev).2 = None
  /\ (Recorder.transition s ev).1 <> Recorder.completed.
Proof.
  intros Hev [Hsum Hne]. split.
  - destruct s as [[] context], ev; simpl in *; try done. by destruct (Hev summary).
  - intros Hc. apply transition_completed in Hc as [|[sm ->]]; [done|].
    by destruct (Hev sm).
Qed.

Ltac stays_open :=
  simpl; repeat (apply transition_open; [done|]); done.

Lemma hear_open h s :
  (forall st sm, s <> Hook.SessionStatusMessage st (Some sm)) ->
  Recorder.summary (Hook.state h).2 = None /\ (Hook.state h).1 <> Recorder.completed ->
  Recorder.summary (Hook.state (Hook.hear h s)).2 = None
  /\ (Hook.state (Hook.hear h s)).1 <> Recorder.completed.
Proof.
  intros Hs Hopen.
  destruct s as [| |connected|payload|st summary|message|size now encoded
                |message|recorder|]; try stays_open.
  - simpl. unfold Hook.connection. by destruct (Hook.socketRef h).
  - simpl. unfold Hook.on_session_status.
    destruct summary as [sm|]; [by destruct (Hs st sm)|].
    destruct (String.eqb st "PROCESSING"), (String.eqb st "COMPLETED"); stays_open.
  - simpl. unfold Hook.ondataavailable. case_decide; [|done].
    unfold Hook.emitChunk. simpl.
    destruct (Hook.falsy _); [done|]. destruct (Hook.socketRef h) as [[]|]; [|done..].
    by destruct encoded.
  - simpl. unfold Hook.onended. destruct recorder; stays_open.
  - simpl. unfold Hook.recorder_ended. by destruct (Hook.recorderRef h).
Qed.

Lemma call_open user h c :
  Recorder.summary (Hook.state h).2 = None /\ (Hook.state h).1 <> Recorder.completed ->
  Recorder.summary (Hook.state (Hook.call user h c)).2 = None
  /\ (Hook.state (Hook.call user h c)).1 <> Recorder.completed.
Proof.
  intros Hopen. destruct c as [source env| | |stopError| |source]; simpl.
  - unfold Hook.startRecording.
    destruct (Hook.compatibilityError env); [stays_open|].
    destruct (Hook.socketRef h) as [[]|]; simpl.
    + destruct (Hook.createRecorder env) as [| |[]]; stays_open.
    + destruct (Hook.connect env); [stays_open|].
      destruct (Hook.createRecorder env) as [| |[]]; stays_open.
    + destruct (Hook.connect env); [stays_open|].
      destruct (Hook.createRecorder env) as [| |[]]; stays_open.
  - unfold Hook.pauseRecording.
    destruct (Hook.recorderRef h) as [[]|]; try done.
    simpl. destruct (Hook.socketRef h); stays_open.
  - unfold Hook.resumeRecording.
    destruct (Hook.recorderRef h) as [[]|]; try done.
    simpl. destruct (Hook.socketRef h); stays_open.
  - unfold Hook.stopRecording.
    destruct (Hook.recorderRef h) as [[]|]; try stays_open.
    all: destruct stopError; [stays_open|].
    all: simpl; destruct (Hook.socketRef h) as [[]|]; try stays_open.
    all: destruct (Hook.falsy _) eqn:Hf; stays_open.
  - unfold Hook.reset. destruct (Hook.recorderRef h) as [[]|]; stays_open.
  - unfold Hook.setSource.
    remember (Hook.state h).1 as st eqn:Hst in |- *. destruct st; try done.
    stays_open.
Qed.

Section Together.
Variable JSON_parse : string -> option Json.JsValue.
Variable user : Hook.User.

(** What every state of the system satisfies. *)
Lemma run_quiet evs :
  let s := System.run JSON_parse user evs in
  Hook.currentSessionIdRef (System.client s) = None
  /\ Forall (fun m => Hook.is_chunk m = false) (Hook.emitted (System.client s))
  /\ Quiet.silent (System.server s)
  /\ Recorder.summary (Hook.state (System.client s)).2 = None
  /\ (Hook.state (System.client s)).1 <> Recorder.completed.
Proof.
  unfold System.run.
  induction evs as [|ev evs (Href & Hem & Hsilent & Hco & Hne)] using rev_ind.
  - split; [done|]. split; [done|]. split; [by repeat split|].
    done.
  - rewrite foldl_app. cbn [foldl].
    set (s := foldl (System.step JSON_parse user) System.initial evs) in *.
    destruct ev as [ev|n socket valid now model fault|payload model|n issues];
      cbn [System.step].
    + destruct (System.is_message ev) eqn:Hmsg; [done|]. cbn [System.client System.server].
      destruct (handle_emits user (System.client s) ev Href) as (Href' & _ & l & Hl & Hchunk & _).
      split; [done|]. split; [rewrite Hl; by apply Forall_app|]. split; [done|].
      destruct ev as [sg|c]; cbn [Hook.handle]; [|by apply call_open].
      apply hear_open; [|done]. intros st sm ->. done.
    + destruct (Hook.emitted (System.client s) !! n) as [m|] eqn:Hm; [|done].
      cbn [System.client System.server].
      split; [done|]. split; [done|]. split; [|done].
      apply step_silent; [|done].
      assert (Hnc : Hook.is_chunk m = false).
      { eapply Forall_forall in Hem; [exact Hem|]. by eapply list_elem_of_lookup_2. }
      by destruct m.
    + cbn [System.client System.server].
      split; [done|]. split; [done|]. split; [|done]. by apply step_silent.
    + destruct (Server.sent (System.server s) !! n) as [[target m]|] eqn:Hm; [|done].
      destruct (System.listened issues m) as [signal|] eqn:Hsig; [|done].
      cbn [System.client System.server].
      destruct (handle_emits user (System.client s) (Hook.Heard signal) Href)
        as (Href' & _ & l & Hl & Hchunk & _).
      cbn [Hook.handle] in *.
      split; [done|]. split; [rewrite Hl; by apply Forall_app|]. split; [done|].
      apply hear_open; [|done]. intros st sm ->.
      destruct Hsilent as (_ & _ & _ & _ & Hsent).
      assert (Hns : Quiet.has_summary (target, m) = false).
      { eapply Forall_forall in Hsent; [exact Hsent|]. by eapply list_elem_of_lookup_2. }
      destruct m as [[] ?| | |st' [v|]]; simpl in *; try done.
Qed.

(** X30. In a system of the server and a page that records through the hook, with
    messages arriving late, twice or in any order, no recording ever
    completes at the client. The hook sends no chunk, so the server buffers
    none; a stop then has an empty transcript, asks no model and announces
    COMPLETED without a summary; and without a summary the listener sends
    the machine no SUMMARY. The machine never reaches completed and never
    holds a summary, the server never calls a model and stores no chunk row
    and no summary row. *)
Theorem recording_through_the_hook_never_completes (evs : list System.Event) :
  let s := System.run JSON_parse user evs in
  (Hook.state (System.client s)).1 <> Recorder.completed
  /\ Recorder.summary (Hook.state (System.client s)).2 = None
  /\ Server.calls (System.server s) = []
  /\ Prisma.transcriptChunks (Server.db (System.server s)) = []
  /\ Prisma.summaries (Server.db (System.server s)) = [].
Proof.
  intros s. destruct (run_quiet evs) as (_ & _ & Hsilent & Hco & Hne). fold s in Hsilent, Hco, Hne.
  destruct Hsilent as (_ & Hcalls & Hchunks & Hsums & _).
  done.
Qed.
End Together.


(** * The example runs *)

(** ** The properties on the example runs *)

Import Scenario.

(** The chunks of the example runs are payloads the schema accepts. *)
Lemma scenario_chunks_in_range n t :
  0 < n -> chunkSchema_range (chunk n t) /\ chunkSchema_range (audio_chunk n).
Proof. intros Hn. unfold chunkSchema_range. simpl. lia. Qed.

(** C1, counterexample. Chunks 3, 1, 2 arrive in this order with the texts
    gamma, alpha, beta. The stop builds gamma, alpha, beta and asks the
    summarizer with it; the concatenation by sequence number is alpha,
    beta, gamma. *)
Lemma out_of_order_transcript_is_arrival_order :
  map sequence (buffered out_of_order S) = [3; 1; 2]
  /\ build_transcript (buffered out_of_order S)
     = "gamma" +:+ Js.nl +:+ "alpha" +:+ Js.nl +:+ "beta"
  /\ Spec.transcript_by_sequence (buffered out_of_order S)
     = "alpha" +:+ Js.nl +:+ "beta" +:+ Js.nl +:+ "gamma"
  /\ build_transcript (buffered out_of_order S)
     <> Spec.transcript_by_sequence (buffered out_of_order S)
  /\ calls out_of_order_stopped
     = [CallSummarize ("gamma" +:+ Js.nl +:+ "alpha" +:+ Js.nl +:+ "beta")].
Proof. repeat split; try (vm_compute; reflexivity). vm_compute. discriminate. Qed.

(** The order theorem on the session with chunks 1, 2 delivered in order:
    there the transcript built is the one by sequence number. *)
Lemma transcript_follows_arrival_order_witness :
  Js.truthy_string S = true
  /\ sessions (db started) !! S = Some row_S
  /\ Spec.well_formed started
  /\ Forall (fun p => sessionId p = S) [chunk 1 "hello"; chunk 2 "world"]
  /\ StronglySorted Z.le (sequence <$> [chunk 1 "hello"; chunk 2 "world"])
  /\ buffered in_order S = [chunk 1 "hello"; chunk 2 "world"]
  /\ build_transcript (buffered in_order S)
     = Spec.transcript_by_sequence [chunk 1 "hello"; chunk 2 "world"].
Proof.
  assert (H1 : Js.truthy_string S = true) by reflexivity.
  assert (H2 : sessions (db started) !! S = Some row_S) by (vm_compute; reflexivity).
  assert (H3 : Spec.well_formed started)
    by exact (run_well_formed no_json [EvStart 7 start_S]).
  assert (H4 : Forall (fun p => sessionId p = S) [chunk 1 "hello"; chunk 2 "world"])
    by (repeat constructor).
  assert (H5 : StronglySorted Z.le (sequence <$> [chunk 1 "hello"; chunk 2 "world"])).
  { simpl. repeat constructor. vm_compute. discriminate. }
  assert (H0 : buffered started S = []) by (vm_compute; reflexivity).
  destruct (transcript_follows_arrival_order no_json 7 S
              [chunk 1 "hello"; chunk 2 "world"] 1000 prose_model None
              started row_S H1 H2 H3 H4) as (Hb & _ & _ & Hsorted).
  rewrite H0 in Hb, Hsorted.
  exact (conj H1 (conj H2 (conj H3 (conj H4 (conj H5 (conj Hb (Hsorted H5))))))).
Defined.





(** C4, counterexample. Session [S] is COMPLETED and its buffer entry
    gone. A chunk arrives: it is buffered in a new entry and answered
    with its update, no error. A second stop arrives: PROCESSING and
    COMPLETED go out again, the summarizer is asked with the late text,
    and the late chunk has its row. *)
Lemma late_chunk_and_second_stop_are_applied :
  status_of finished S = Some COMPLETED
  /\ buffer finished !! S = None
  /\ buffered late_chunk S = [chunk 1 "late"]
  /\ sent late_chunk
     = sent finished ++ [(ToRoom S, transcription_update S 1 "late" "speaker" None)]
  /\ sent stopped_again
     = sent late_chunk ++
       [(ToRoom S, session_status PROCESSING None);
        (ToRoom S, session_status COMPLETED
                     (Some (Gemini.fallback_summary "The team met and talked")))]
  /\ calls stopped_again = [CallSummarize "late"]
  /\ c_text <$> transcriptChunks (db stopped_again) = ["late"]
  /\ status_of stopped_again S = Some COMPLETED.
Proof. repeat split; vm_compute; reflexivity. Qed.

(** The theorem on the finished session: the late chunk is on a new array. *)
Lemma terminal_sessions_take_events_witness :
  Js.truthy_string S = true
  /\ sessions (db finished) !! S = Some row_finished
  /\ Spec.terminal (s_status row_finished) = true
  /\ buffer (chunk_received 7 (Success (chunk 1 "late")) finished).2 !! S
     = Some (default [] (buffer finished !! S) ++ [length (heap finished)]).
Proof.
  assert (H1 : Js.truthy_string S = true) by reflexivity.
  assert (H2 : sessions (db finished) !! S = Some row_finished) by (vm_compute; reflexivity).
  assert (H3 : Spec.terminal (s_status row_finished) = true) by reflexivity.
  destruct (terminal_sessions_take_events no_json S 7 (chunk 1 "late") 2000
              prose_model None finished row_finished H1 H2 H3 eq_refl)
    as (_ & Hbuf & _).
  exact (conj H1 (conj H2 (conj H3 Hbuf))).
Defined.

(** The theorem on the session stopped with nothing delivered. *)
Lemma empty_transcript_completes_without_summary_witness :
  Js.truthy_string S = true
  /\ sessions (db started) !! S = Some row_S
  /\ build_transcript (buffered started S) = EmptyString
  /\ status_of (step no_json started (EvStop (Some S) 1000 prose_model None)) S
     = Some COMPLETED
  /\ summaries (db (step no_json started (EvStop (Some S) 1000 prose_model None)))
     = [].
Proof.
  assert (H1 : Js.truthy_string S = true) by reflexivity.
  assert (H2 : sessions (db started) !! S = Some row_S) by (vm_compute; reflexivity).
  assert (H3 : build_transcript (buffered started S) = EmptyString)
    by (vm_compute; reflexivity).
  destruct (empty_transcript_completes_without_summary no_json S 1000 prose_model
              None started row_S H1 H2 H3) as (_ & _ & Hsums & Hdone).
  destruct (Hdone eq_refl) as (_ & Hst).
  exact (conj H1 (conj H2 (conj H3 (conj Hst Hsums)))).
Defined.

(** The theorem on the session whose first chunk waits for a
    transcription that the model rejects. *)
Lemma transcription_failure_absorbed_witness :
  (0%nat ∈ inflight waiting)
  /\ heap waiting !! 0%nat = Some (audio_chunk 1)
  /\ sent (chunk_transcribed 0 failing_transcriber waiting).2
     = sent waiting ++
       [(ToRoom S, transcription_update S 1 EmptyString "speaker" (Some 0%Q))].
Proof.
  assert (H1 : 0%nat ∈ inflight waiting) by (vm_compute; constructor).
  assert (H2 : heap waiting !! 0%nat = Some (audio_chunk 1)) by (vm_compute; reflexivity).
  destruct (transcription_failure_absorbed 0 (audio_chunk 1)
              (fun _ _ => Gemini.GenRejects) waiting H1 H2 eq_refl)
    as (_ & _ & _ & Hsent & _).
  exact (conj H1 (conj H2 Hsent)).
Defined.

(** C8, counterexample. Chunks hello and world are buffered; during the
    stop the model rejects the summary request. The session is FAILED,
    the room is sent the session:error, and no chunk row was written. *)
Lemma summary_error_fails_the_session :
  Gemini.summarizeTranscript no_json failing_model
    (build_transcript (buffered in_order S)) = Thrown GeminiCallFailed
  /\ status_of summary_rejected S = Some FAILED
  /\ last (sent summary_rejected)
     = Some (ToRoom S, session_error (Text "Failed to process summary")
                         (Some GeminiCallFailed))
  /\ transcriptChunks (db summary_rejected) = []
  /\ summaries (db summary_rejected) = [].
Proof. repeat split; vm_compute; reflexivity. Qed.

(** The theorem on the session with chunks hello and world, the model
    answering in prose: the degraded summary is stored. *)
Lemma summary_degrades_or_fails_witness :
  Js.truthy_string S = true
  /\ sessions (db in_order) !! S = Some row_S
  /\ Js.truthy_string (build_transcript (buffered in_order S)) = true
  /\ status_of (step no_json in_order (EvStop (Some S) 1000 prose_model None)) S
     = Some COMPLETED
  /\ summaries (db (step no_json in_order (EvStop (Some S) 1000 prose_model None)))
     = [{| sm_sessionId := S; sm_keyPoints := "The team met and talked";
           sm_actionItems := "Could not extract action items";
           sm_decisions := "Could not extract decisions" |}].
Proof.
  assert (H1 : Js.truthy_string S = true) by reflexivity.
  assert (H2 : sessions (db in_order) !! S = Some row_S) by (vm_compute; reflexivity).
  assert (H3 : Js.truthy_string (build_transcript (buffered in_order S)) = true)
    by (vm_compute; reflexivity).
  destruct (summary_degrades_or_fails no_json S 1000 prose_model in_order row_S
              H1 H2 H3) as (Hdegraded & _).
  destruct (Hdegraded (fun _ => Gemini.GenText "The team met and talked")
              "The team met and talked" eq_refl eq_refl eq_refl)
    as (_ & Hst & Hsums & _).
  exact (conj H1 (conj H2 (conj H3 (conj Hst Hsums)))).
Defined.


(** The same stop with the database doing what it is asked: chunk 2,
    delivered after the transcript was built, has its row, and the
    summary is that of the first chunk alone. *)
Example chunk_delivered_during_stop_is_stored :
  calls (Live.world committed_run) = [CallSummarize "hello"]
  /\ map (fun row => (c_sequence row, c_text row))
       (transcriptChunks (db (Live.world committed_run)))
     = [(1, "hello"); (2, "during")]
  /\ map sm_sessionId (summaries (db (Live.world committed_run))) = [S]
  /\ status_of (Live.world committed_run) S = Some COMPLETED
  /\ buffer (Live.world committed_run) !! S = None.
Proof. repeat split; vm_compute; reflexivity. Qed.

(** And with the database failing the commit. *)
Example failed_commit_leaves_no_row :
  transcriptChunks (db (Live.world failed_run)) = []
  /\ summaries (db (Live.world failed_run)) = []
  /\ status_of (Live.world failed_run) S = Some FAILED
  /\ last (sent (Live.world failed_run))
     = Some (ToRoom S,
             session_error (Text "Failed to process summary") (Some DatabaseFault))
  /\ buffer (Live.world failed_run) !! S = None.
Proof. repeat split; vm_compute; reflexivity. Qed.

(** ** The further properties on the example runs *)

(** A stopped machine takes a late update and the summary: the transcript
    is the one it had. *)
Lemma transcript_frozen_once_stopped_witness :
  RecorderNotions.stopped Examples.stopped_machine.1 = true
  /\ Recorder.transcript
       (foldl Recorder.transition Examples.stopped_machine
          [Recorder.TRANSCRIPT (Examples.update 2 "late");
           Recorder.SUMMARY Examples.summary]).2
     = [Examples.update 1 "hello"].
Proof.
  assert (H1 : RecorderNotions.stopped Examples.stopped_machine.1 = true) by reflexivity.
  destruct (transcript_frozen_once_stopped Examples.stopped_machine
              [Recorder.TRANSCRIPT (Examples.update 2 "late");
               Recorder.SUMMARY Examples.summary] H1)
    as (_ & Ht & _); [repeat constructor|].
  exact (conj H1 Ht).
Defined.

(** A completed machine drops a new START and an update. *)
Lemma finished_machine_ignores_all_but_reset_witness :
  RecorderNotions.finished Examples.completed_machine.1 = true
  /\ foldl Recorder.transition Examples.completed_machine
       [Recorder.START "another" TAB; Recorder.TRANSCRIPT (Examples.update 2 "late")]
     = Examples.completed_machine.
Proof.
  assert (H1 : RecorderNotions.finished Examples.completed_machine.1 = true) by reflexivity.
  split; [exact H1|].
  apply (finished_machine_ignores_all_but_reset Examples.completed_machine); [exact H1|].
  repeat constructor.
Defined.

(** Updates 2 and 1 in either order. *)
Lemma transcript_updates_commute_witness :
  tu_sequence (Examples.update 2 "world") <> tu_sequence (Examples.update 1 "hello")
  /\ Recorder.run ([Recorder.START S MIC]
                   ++ [Recorder.TRANSCRIPT (Examples.update 2 "world");
                       Recorder.TRANSCRIPT (Examples.update 1 "hello")])
     = Recorder.run ([Recorder.START S MIC]
                     ++ [Recorder.TRANSCRIPT (Examples.update 1 "hello");
                         Recorder.TRANSCRIPT (Examples.update 2 "world")]).
Proof.
  assert (H1 : tu_sequence (Examples.update 2 "world")
               <> tu_sequence (Examples.update 1 "hello")) by discriminate.
  exact (conj H1 (transcript_updates_commute [Recorder.START S MIC] _ _ H1)).
Defined.

(** A second user asks for session [S] with the first user's email, while
    two chunks are buffered. *)
Lemma start_with_taken_email_resets_buffer_witness :
  users (db in_order) !! "user-1" = Some (userEmail Examples.start_same_email)
  /\ "user-1" <> userId Examples.start_same_email
  /\ buffered in_order S = [chunk 1 "hello"; chunk 2 "world"]
  /\ (session_start 8 (Success Examples.start_same_email) in_order).1
     = Thrown UniqueViolation
  /\ buffered (session_start 8 (Success Examples.start_same_email) in_order).2 S = [].
Proof.
  assert (H1 : users (db in_order) !! "user-1" = Some (userEmail Examples.start_same_email))
    by (vm_compute; reflexivity).
  assert (H2 : "user-1" <> userId Examples.start_same_email) by discriminate.
  assert (H3 : buffered in_order S = [chunk 1 "hello"; chunk 2 "world"])
    by (vm_compute; reflexivity).
  destruct (start_with_taken_email_resets_buffer 8 Examples.start_same_email "user-1"
              in_order H1 H2) as (Hr & _ & Hb & _).
  exact (conj H1 (conj H2 (conj H3 (conj Hr Hb)))).
Defined.

(** Session [S] started twice on an empty database. *)
Lemma start_twice_is_start_once_witness :
  user_upsert (userId Examples.start_data) (userEmail Examples.start_data) (db initial)
    = Returned Examples.one_user
  /\ db (session_start 7 (Success Examples.start_data)
           (session_start 7 (Success Examples.start_data) initial).2).2
     = db (session_start 7 (Success Examples.start_data) initial).2.
Proof.
  assert (H1 : user_upsert (userId Examples.start_data) (userEmail Examples.start_data)
                 (db initial) = Returned Examples.one_user) by (vm_compute; reflexivity).
  destruct (start_twice_is_start_once 7 Examples.start_data Examples.one_user initial H1)
    as (Hd & _).
  exact (conj H1 Hd).
Defined.

(** Session [S], finished, is started again. *)
Lemma restart_keeps_row_and_drops_buffer_witness :
  sessions (db finished) !! start_sessionId Examples.start_data = Some row_finished
  /\ user_upsert (userId Examples.start_data) (userEmail Examples.start_data) (db finished)
     = Returned (db finished)
  /\ sessions (db (session_start 7 (Success Examples.start_data) finished).2) !! S
     = Some {| s_userId := "user-1"; s_status := RECORDING; s_source := MIC;
               s_endedAt := Some 1000 |}.
Proof.
  assert (H1 : sessions (db finished) !! start_sessionId Examples.start_data
               = Some row_finished) by (vm_compute; reflexivity).
  assert (H2 : user_upsert (userId Examples.start_data) (userEmail Examples.start_data)
                 (db finished) = Returned (db finished)) by (vm_compute; reflexivity).
  destruct (restart_keeps_row_and_drops_buffer 7 Examples.start_data (db finished)
              finished row_finished H1 H2) as (Hrow & _).
  exact (conj H1 (conj H2 Hrow)).
Defined.

(** A pause for session [S] before anything was started. *)
Lemma control_events_without_row_witness :
  Js.truthy_string S = true
  /\ sessions (db initial) !! S = None
  /\ session_pause (Some S) initial = (Thrown RecordNotFound, initial).
Proof.
  assert (H1 : Js.truthy_string S = true) by reflexivity.
  assert (H2 : sessions (db initial) !! S = None) by (vm_compute; reflexivity).
  destruct (control_events_without_row no_json S 1000 prose_model None initial H1 H2)
    as (Hp & _).
  exact (conj H1 (conj H2 Hp)).
Defined.

(** The stop of [Scenario.committed_run] has ended and deleted the
    buffer entry. A second stop arrives, and a late chunk after it: the
    second stop meets nothing. *)
Lemma stop_without_array_writes_nothing_witness :
  Js.truthy_string S = true
  /\ buffer (Live.world committed_run) !! S = None
  /\ exists stop,
       Live.stops
         (Live.run no_json
            (Live.step no_json committed_run (Live.SessionStop (Some S) 2000))
            [Live.SessionChunk 7 (Success (chunk 3 "late"))])
         !! length (Live.stops committed_run) = Some stop
       /\ Live.met stop = [] /\ Live.transcript stop = EmptyString.
Proof.
  assert (H1 : Js.truthy_string S = true) by reflexivity.
  assert (H2 : buffer (Live.world committed_run) !! S = None)
    by (vm_compute; reflexivity).
  destruct (stop_without_array_writes_nothing no_json committed_run S 2000
              [Live.SessionChunk 7 (Success (chunk 3 "late"))] H1 H2)
    as (stop & Hk & Hwo & _).
  refine (conj H1 (conj H2 (ex_intro _ stop (conj Hk _)))).
  destruct Hwo as (_ & _ & Ht & _ & Hm & _). exact (conj Hm Ht).
Defined.

(** The stop during which chunk 2 was delivered, at its commit: the loop
    has met both chunks. *)
Lemma every_chunk_of_the_array_is_met_witness :
  Live.stops (Live.run no_json Live.initial Examples.delivery_during_stop) !! 0%nat
    = Some stop_at_commit
  /\ Running.pair <$> Live.met stop_at_commit
     = Running.pair
         <$> Live.elements
               (Live.world (Live.run no_json Live.initial Examples.delivery_during_stop))
               stop_at_commit.
Proof.
  assert (H1 : Live.stops (Live.run no_json Live.initial Examples.delivery_during_stop)
                 !! 0%nat = Some stop_at_commit) by (vm_compute; reflexivity).
  destruct (every_chunk_of_the_array_is_met no_json Examples.delivery_during_stop
              0 stop_at_commit H1) as (_ & Hall & _).
  refine (conj H1 (Hall _)). vm_compute. reflexivity.
Defined.

(** Session [S] with two chunks, stopped with nothing in between: eight
    steps of the stop are as the handler in one piece. *)
Lemma stop_alone_is_session_stop_witness :
  Js.truthy_string S = true
  /\ (length (buffered in_order S) + 6 <= 8)%nat
  /\ Live.world
       (Live.run no_json {| Live.world := in_order; Live.stops := [] |}
          (Live.SessionStop (Some S) 1000 :: Running.alone 0 prose_model 8))
     = step no_json in_order (EvStop (Some S) 1000 prose_model None).
Proof.
  assert (H1 : Js.truthy_string S = true) by reflexivity.
  assert (H2 : (length (buffered in_order S) + 6 <= 8)%nat) by (vm_compute; lia).
  exact (conj H1 (conj H2
           (stop_alone_is_session_stop no_json prose_model
              {| Live.world := in_order; Live.stops := [] |} S 1000 8 H1 H2))).
Defined.

(** A transcription that settles during a stop: the stop has joined its
    transcript before, from a chunk without text, and asks for no summary;
    the loop meets the chunk with the text and the speaker it has by then. *)
Example transcription_settling_during_stop_is_stored :
  let w := Live.world (Live.run no_json Live.initial Examples.transcription_during_stop) in
  Live.transcript <$> Live.stops
     (Live.run no_json Live.initial Examples.transcription_during_stop) !! 0%nat
    = Some EmptyString
  /\ calls w = [CallTranscribe (audio (audio_chunk 1)) "audio/webm"]
  /\ map (fun row => (c_sequence row, c_text row, c_speakerTag row))
       (transcriptChunks (db w))
     = [(1, "hello there", "Speaker 1")]
  /\ summaries (db w) = []
  /\ status_of w S = Some COMPLETED.
Proof. repeat split; vm_compute; reflexivity. Qed.

(** Two stops of one session that overlap: both hold the array of the
    buffer, both ask for a summary and both commit; the second finds the
    rows of the first and writes them again, and the room is told twice
    that the session is completed. *)
Example overlapping_stops_both_write :
  let w := Live.world (Live.run no_json Live.initial Examples.two_stops) in
  calls w = [CallSummarize "hello"; CallSummarize "hello"]
  /\ map (fun row => (c_sequence row, c_text row)) (transcriptChunks (db w))
     = [(1, "hello")]
  /\ map sm_sessionId (summaries (db w)) = [S]
  /\ status_of w S = Some COMPLETED
  /\ drop 4 (sent w)
     = [(ToRoom S, session_status COMPLETED
                     (Some (Gemini.fallback_summary "The team met and talked")));
        (ToRoom S, session_status COMPLETED
                     (Some (Gemini.fallback_summary "The team met and talked")))]
  /\ buffer w !! S = None.
Proof. repeat split; vm_compute; reflexivity. Qed.

(** A summary that names another session: the stop of [S] stores its
    summary under [T] when [T] has its row and no summary yet, and fails
    on the foreign key when [T] was never started. *)
Example summary_under_another_session :
  status_of Examples.named_other S = Some COMPLETED
  /\ map sm_sessionId (summaries (db Examples.named_other)) = [Examples.T]
  /\ status_of Examples.named_missing S = Some FAILED
  /\ summaries (db Examples.named_missing) = []
  /\ transcriptChunks (db Examples.named_missing) = []
  /\ last (sent Examples.named_missing)
     = Some (ToRoom S, session_error (Text "Failed to process summary")
                        (Some ForeignKeyViolation)).
Proof. repeat split; vm_compute; reflexivity. Qed.

(** Session [S] started and stopped, no chunk in between. *)
Lemma no_chunk_no_summary_witness :
  Forall (fun ev => Quiet.is_chunk ev = false)
    [EvStart 7 start_S; EvStop (Some S) 1000 prose_model None]
  /\ calls (run no_json initial [EvStart 7 start_S; EvStop (Some S) 1000 prose_model None])
     = [].
Proof.
  assert (H1 : Forall (fun ev => Quiet.is_chunk ev = false)
                 [EvStart 7 start_S; EvStop (Some S) 1000 prose_model None])
    by (repeat constructor).
  destruct (no_chunk_no_summary no_json _ H1) as (Hc & _).
  exact (conj H1 Hc).
Defined.

(** An answer with an object and prose around it, and a parser that
    rejects the object. *)
Lemma summary_is_cut_at_outer_braces_witness :
  Js.indexOf "{"%char "Here it is: " = -1
  /\ Js.lastIndexOf "}"%char " I hope it helps" = -1
  /\ Gemini.summarizeTranscript no_json (Some Examples.chatty_model) "hello"
     = Returned (Gemini.fallback_summary "Here it is: {x} I hope it helps").
Proof.
  assert (H1 : Js.indexOf "{"%char "Here it is: " = -1) by reflexivity.
  assert (H2 : Js.lastIndexOf "}"%char " I hope it helps" = -1) by reflexivity.
  refine (conj H1 (conj H2 _)).
  exact (summary_is_cut_at_outer_braces no_json Examples.chatty_model "hello"
           "Here it is: " "x" " I hope it helps" H1 H2 eq_refl).
Defined.

(** An answer in prose. *)
Lemma summary_without_closing_brace_falls_back_witness :
  no_json EmptyString = None
  /\ Js.lastIndexOf "}"%char "The team met and talked" = -1
  /\ Gemini.summarizeTranscript no_json (Some Examples.prose) "hello"
     = Returned (Gemini.fallback_summary "The team met and talked").
Proof.
  assert (H1 : no_json EmptyString = None) by reflexivity.
  assert (H2 : Js.lastIndexOf "}"%char "The team met and talked" = -1) by reflexivity.
  refine (conj H1 (conj H2 _)).
  exact (summary_without_closing_brace_falls_back no_json Examples.prose "hello"
           "The team met and talked" H1 H2 eq_refl).
Defined.

(** The answer [[Speaker 1]: hello there]. *)
Lemma labelled_answer_is_split_witness :
  Js.indexOf "]"%char "Speaker 1" = -1
  /\ Js.trimStart " " = EmptyString
  /\ Js.trimStart "hello there" = "hello there"
  /\ Gemini.has_line_terminator "hello there" = false
  /\ Gemini.transcribeAudio (Some Examples.labelling_model) "GkXfo59ChoEBQveBAULygQ"
       "audio/webm"
     = Returned {| Gemini.t_text := "hello there"; Gemini.t_speakerTag := "Speaker 1";
                   Gemini.t_confidence := Some (85 # 100)%Q |}.
Proof.
  assert (H1 : Js.indexOf "]"%char "Speaker 1" = -1) by reflexivity.
  assert (H2 : Js.trimStart " " = EmptyString) by reflexivity.
  assert (H3 : Js.trimStart "hello there" = "hello there") by reflexivity.
  assert (H4 : Gemini.has_line_terminator "hello there" = false) by reflexivity.
  refine (conj H1 (conj H2 (conj H3 (conj H4 _)))).
  refine (labelled_answer_is_split Examples.labelling_model "GkXfo59ChoEBQveBAULygQ"
            "Speaker 1" " " "hello there" _ H1 H2 _ H3 H4 eq_refl); discriminate.
Defined.

(** The same answer, read back from the transcription. *)
Lemma speaker_reported_only_for_labelled_answers_witness :
  Gemini.transcribeAudio (Some Examples.labelling_model) "GkXfo59ChoEBQveBAULygQ"
    "audio/webm"
  = Returned {| Gemini.t_text := "hello there"; Gemini.t_speakerTag := "Speaker 1";
                Gemini.t_confidence := Some (85 # 100)%Q |}
  /\ exists label spaces body,
       Examples.labelling_model "GkXfo59ChoEBQveBAULygQ" "audio/webm"
       = Gemini.GenText ("[" +:+ label +:+ "]:" +:+ spaces +:+ body)
       /\ Js.trim body = "hello there" /\ Js.trim label = "Speaker 1".
Proof.
  assert (H1 : Gemini.transcribeAudio (Some Examples.labelling_model)
                 "GkXfo59ChoEBQveBAULygQ" "audio/webm"
               = Returned {| Gemini.t_text := "hello there";
                             Gemini.t_speakerTag := "Speaker 1";
                             Gemini.t_confidence := Some (85 # 100)%Q |})
    by reflexivity.
  split; [exact H1|].
  destruct (speaker_reported_only_for_labelled_answers Examples.labelling_model
              "GkXfo59ChoEBQveBAULygQ" "audio/webm" _ H1 eq_refl)
    as (label & spaces & body & Hgen & _ & _ & _ & _ & _ & Ht & Hl).
  exists label, spaces, body. simpl in Ht, Hl. done.
Defined.

(** The finished session with chunks 3, 1, 2 is deleted. *)
Lemma delete_takes_the_session_away_witness :
  sessions (db out_of_order_stopped) !! S = Some row_finished
  /\ transcriptChunks (db out_of_order_stopped) <> []
  /\ transcriptChunks (Api.DELETE true S (db out_of_order_stopped)).2 = []
  /\ Api.GET true S (Api.DELETE true S (db out_of_order_stopped)).2
     = {| Api.status := 404; Api.body := Api.error_body "Session not found" |}.
Proof.
  assert (H1 : sessions (db out_of_order_stopped) !! S = Some row_finished)
    by (vm_compute; reflexivity).
  assert (H2 : transcriptChunks (db out_of_order_stopped) <> [])
    by (vm_compute; discriminate).
  assert (H3 : transcriptChunks (Api.DELETE true S (db out_of_order_stopped)).2 = [])
    by (vm_compute; reflexivity).
  destruct (delete_takes_the_session_away S (db out_of_order_stopped) row_finished H1)
    as (_ & Hget & _).
  exact (conj H1 (conj H2 (conj H3 Hget))).
Defined.

(** Session [S] is deleted while two chunks are buffered, then stopped. *)
Lemma stop_after_delete_is_lost_witness :
  Js.truthy_string S = true
  /\ sessions (db in_order) !! S = Some row_S
  /\ (session_stop no_json (Some S) 1000 prose_model None
        (with_db in_order (Api.DELETE true S (db in_order)).2)).1
     = Thrown RecordNotFound
  /\ buffered
       (session_stop no_json (Some S) 1000 prose_model None
          (with_db in_order (Api.DELETE true S (db in_order)).2)).2 S
     = [chunk 1 "hello"; chunk 2 "world"].
Proof.
  assert (H1 : Js.truthy_string S = true) by reflexivity.
  assert (H2 : sessions (db in_order) !! S = Some row_S) by (vm_compute; reflexivity).
  destruct (stop_after_delete_is_lost no_json S 1000 prose_model None in_order row_S H1 H2)
    as (Hr & _).
  refine (conj H1 (conj H2 (conj Hr _))).
  vm_compute. reflexivity.
Defined.

(** A page that recorded a session to its end; then "Start New" twice and
    a late update. *)
Lemma page_cannot_leave_a_finished_session_witness :
  RecorderNotions.finished
    (Hook.state (Page.run Examples.demo_user Hook.initial Examples.recorded)).1 = true
  /\ Hook.state
       (Page.run Examples.demo_user
          (Page.run Examples.demo_user Hook.initial Examples.recorded)
          [Page.User (Page.ClickStart Examples.working);
           Page.Environment (Hook.TranscriptionUpdate (Examples.update 1 "late"));
           Page.User (Page.ClickStart Examples.working)])
     = Hook.state (Page.run Examples.demo_user Hook.initial Examples.recorded).
Proof.
  assert (H1 : RecorderNotions.finished
                 (Hook.state (Page.run Examples.demo_user Hook.initial
                                Examples.recorded)).1 = true) by reflexivity.
  destruct (page_cannot_leave_a_finished_session Examples.demo_user Examples.recorded
              [Page.User (Page.ClickStart Examples.working);
               Page.Environment (Hook.TranscriptionUpdate (Examples.update 1 "late"));
               Page.User (Page.ClickStart Examples.working)] H1) as (Hs & _).
  exact (conj H1 Hs).
Defined.

(** The pause of a started session. *)
Lemma hook_controls_sessions_it_started_witness :
  Hook.emitted (Hook.run Examples.demo_user Hook.initial Examples.paused_session) !! 1%nat
    = Some (Hook.EmitPause (Some S))
  /\ Hook.controlled (Hook.EmitPause (Some S)) = Some (Some S)
  /\ exists sessionId userId userEmail source,
       Some S = Some sessionId
       /\ Hook.EmitStart sessionId userId userEmail source
          ∈ take 1 (Hook.emitted
                      (Hook.run Examples.demo_user Hook.initial Examples.paused_session)).
Proof.
  assert (H1 : Hook.emitted
                 (Hook.run Examples.demo_user Hook.initial Examples.paused_session) !! 1%nat
               = Some (Hook.EmitPause (Some S))) by reflexivity.
  assert (H2 : Hook.controlled (Hook.EmitPause (Some S)) = Some (Some S)) by reflexivity.
  exact (conj H1 (conj H2
           (hook_controls_sessions_it_started Examples.demo_user Examples.paused_session
              1 (Hook.EmitPause (Some S)) (Some S) H1 H2))).
Defined.

(** A start with everything working, on a connected hook. *)
Lemma startRecording_from_idle_witness :
  (Hook.state Examples.connected).1 = Recorder.idle
  /\ (Hook.state (Hook.startRecording Examples.demo_user MIC Examples.working
                    Examples.connected)).1
     = Recorder.recording
  /\ Hook.emitted (Hook.startRecording Examples.demo_user MIC Examples.working
                     Examples.connected)
     = [Hook.EmitStart S "demo-user" "demo@scribe.ai" MIC].
Proof.
  assert (H1 : (Hook.state Examples.connected).1 = Recorder.idle) by reflexivity.
  pose proof (startRecording_from_idle Examples.demo_user MIC Examples.working
                Examples.connected H1) as H.
  cbv zeta in H. rewrite bool_decide_eq_true_2 in H by (split; [reflexivity|by left]).
  destruct H as (He & _ & Hs & _).
  refine (conj H1 (conj _ He)). by rewrite Hs.
Defined.
